(** * The diagram mutator of the chat interface

    A shallow embedding of [src/components/ChatInterface.tsx]: the functions
    [makeActualXmlChanges], [removeComponent], [replaceComponent],
    [removeConnections], [addComponent], [modifyComponentProperty],
    [handleContextualChanges] and [extractComponentsFromXml], together
    with the part of the JavaScript
    runtime they rely on (regular expressions with backtracking,
    [String.prototype.match], [replace], [includes], [split], the case
    conversions, [parseInt], [Math.max] and number printing).

    Strings are lists of characters.  The development covers ASCII text:
    characters above 127 are carried along as opaque characters that are
    neither word characters nor white space and have no case mapping.
    Numbers are exact integers (the source's doubles are exact below 2^53),
    extended with the value [-Infinity] that [Math.max] returns on no
    argument. *)

From Stdlib Require Import String Ascii List Bool Arith Lia PeanoNat.
From Stdlib Require Import NArith DecimalString DecimalNat.
Import ListNotations.
Open Scope list_scope.
Open Scope bool_scope.


(** ** Characters and strings *)

Definition str := list ascii.

Definition dquote : ascii := ascii_of_nat 34.

(** Source text is written with ['] standing for the double quote. *)
Definition Q (s : string) : str :=
  map (fun c => if Ascii.eqb c "'"%char then dquote else c)
      (list_ascii_of_string s).

Definition code (c : ascii) : nat := nat_of_ascii c.

Definition isDigit (c : ascii) : bool := (48 <=? code c) && (code c <=? 57).
Definition isUpper (c : ascii) : bool := (65 <=? code c) && (code c <=? 90).
Definition isLower (c : ascii) : bool := (97 <=? code c) && (code c <=? 122).

(** [\w]: letters, digits and the underscore. *)
Definition isWordChar (c : ascii) : bool :=
  isDigit c || isUpper c || isLower c || (code c =? 95).

(** [\s] on ASCII: space, tab, line feed, vertical tab, form feed, return. *)
Definition isSpace (c : ascii) : bool :=
  (code c =? 32) || ((9 <=? code c) && (code c <=? 13)).

Definition toUpperChar (c : ascii) : ascii :=
  if isLower c then ascii_of_nat (code c - 32) else c.
Definition toLowerChar (c : ascii) : ascii :=
  if isUpper c then ascii_of_nat (code c + 32) else c.

Definition toUpperCase (s : str) : str := map toUpperChar s.
Definition toLowerCase (s : str) : str := map toLowerChar s.

Definition str_eqb (a b : str) : bool :=
  if list_eq_dec ascii_dec a b then true else false.

(** Character comparison of the matcher: with the [i] flag both sides are
    canonicalised (upper-cased). *)
Definition chr_eq (ci : bool) (a c : ascii) : bool :=
  if ci then Ascii.eqb (toUpperChar a) (toUpperChar c) else Ascii.eqb a c.

(** [starts ci p s]: [p] is a prefix of [s] (up to case when [ci]). *)
Fixpoint starts (ci : bool) (p s : str) : bool :=
  match p, s with
  | [], _ => true
  | a :: p', c :: s' => chr_eq ci a c && starts ci p' s'
  | _ :: _, [] => false
  end.

(** [String.prototype.includes]. *)
Fixpoint includes (s p : str) : bool :=
  starts false p s ||
  match s with
  | [] => false
  | _ :: s' => includes s' p
  end.

(** [String.prototype.indexOf]. *)
Fixpoint indexOf (s p : str) : option nat :=
  if starts false p s then Some 0
  else match s with
       | [] => None
       | _ :: s' => option_map S (indexOf s' p)
       end.

(** ** Regular expressions *)

(** Character classes of the source patterns: [.] under the [s] flag,
    a negated single character such as [[^>]], [\w], [\s], [\d]. *)
Inductive cset : Type :=
| CAny
| CNot (c : ascii)
| CWord
| CSpace
| CDigit.

Definition in_cset (cs : cset) (c : ascii) : bool :=
  match cs with
  | CAny => true
  | CNot x => negb (Ascii.eqb x c)
  | CWord => isWordChar c
  | CSpace => isSpace c
  | CDigit => isDigit c
  end.

(** The pattern syntax the source uses.  Repetition is only ever applied to
    a character class; [?] is applied to groups. *)
Inductive regex : Type :=
| Lit (l : str)                 (* a run of literal characters *)
| Cls (cs : cset)               (* one character of a class *)
| Star (cs : cset)              (* cs*   greedy *)
| StarLazy (cs : cset)          (* cs*?  lazy *)
| Seq (r1 r2 : regex)
| Alt (r1 r2 : regex)
| Opt (r : regex)               (* (?:r)?  greedy *)
| Grp (n : nat) (r : regex)     (* the n-th capturing group *)
| WordB.                        (* \b *)

Definition Plus (cs : cset) : regex := Seq (Cls cs) (Star cs).

Fixpoint seqs (rs : list regex) : regex :=
  match rs with
  | [] => Lit []
  | [r] => r
  | r :: rs' => Seq r (seqs rs')
  end.

Fixpoint alts (rs : list regex) : regex :=
  match rs with
  | [] => Lit []
  | [r] => r
  | r :: rs' => Alt r (alts rs')
  end.

(** A matcher state: the text already passed, most recent character first,
    the text ahead, and the captures made so far. *)
Record mstate : Type := MState {
  before : str;
  after : str;
  caps : list (nat * str)
}.

Definition endIndex (st : mstate) : nat := length (before st).

Fixpoint m_lit (ci : bool) (l : str) (b s : str) (cp : list (nat * str))
  : list mstate :=
  match l with
  | [] => [MState b s cp]
  | a :: l' =>
      match s with
      | c :: s' => if chr_eq ci a c then m_lit ci l' (c :: b) s' cp else []
      | [] => []
      end
  end.

(** Greedy repetition: the longest run first, then shorter ones. *)
Fixpoint m_star (cs : cset) (b s : str) (cp : list (nat * str))
  : list mstate :=
  match s with
  | c :: s' =>
      (if in_cset cs c then m_star cs (c :: b) s' cp else [])
        ++ [MState b s cp]
  | [] => [MState b [] cp]
  end.

(** Lazy repetition: the empty run first, then longer ones. *)
Fixpoint m_star_lazy (cs : cset) (b s : str) (cp : list (nat * str))
  : list mstate :=
  match s with
  | c :: s' =>
      MState b s cp ::
        (if in_cset cs c then m_star_lazy cs (c :: b) s' cp else [])
  | [] => [MState b [] cp]
  end.

Definition captured (st st' : mstate) : str :=
  rev (firstn (endIndex st' - endIndex st) (before st')).

Definition set_cap (n : nat) (st st' : mstate) : mstate :=
  MState (before st') (after st') ((n, captured st st') :: caps st').

Definition isWordAt (o : option ascii) : bool :=
  match o with
  | Some c => isWordChar c
  | None => false
  end.

(** [rmatch ci r st]: every way [r] matches at [st], in the order the
    backtracking matcher of the runtime explores them; the runtime takes
    the first. *)
Fixpoint rmatch (ci : bool) (r : regex) (st : mstate) : list mstate :=
  match r with
  | Lit l => m_lit ci l (before st) (after st) (caps st)
  | Cls cs =>
      match after st with
      | c :: s' =>
          if in_cset cs c then [MState (c :: before st) s' (caps st)] else []
      | [] => []
      end
  | Star cs => m_star cs (before st) (after st) (caps st)
  | StarLazy cs => m_star_lazy cs (before st) (after st) (caps st)
  | Seq r1 r2 => flat_map (rmatch ci r2) (rmatch ci r1 st)
  | Alt r1 r2 => rmatch ci r1 st ++ rmatch ci r2 st
  | Opt r1 =>
      filter (fun st' => negb (endIndex st' =? endIndex st)) (rmatch ci r1 st)
        ++ [st]
  | Grp n r1 => map (set_cap n st) (rmatch ci r1 st)
  | WordB =>
      if xorb (isWordAt (hd_error (before st))) (isWordAt (hd_error (after st)))
      then [st] else []
  end.


(** A regular-expression object, as the methods below see it: its matcher
    (the first way the pattern matches at a position, given the text before
    and the text ahead) and its number of capturing groups.  The [g] flag is
    carried by the method used ([match_first] against [matchAll] and
    [replace_re]). *)
Record RegExp : Type := mkRegExp {
  re_exec : str -> str -> option mstate;
  re_groups : nat
}.

(** A pattern of the syntax above; [.] only occurs under the [s] flag. *)
Definition compile (r : regex) (ci : bool) (groups : nat) : RegExp :=
  mkRegExp (fun b s => hd_error (rmatch ci r (MState b s []))) groups.

(** The result of one successful match. *)
Record mres : Type := MRes {
  m_index : nat;
  m_text : str;
  m_caps : list (nat * str)
}.

Definition mres_of (b : str) (st' : mstate) : mres :=
  MRes (length b) (rev (firstn (endIndex st' - length b) (before st')))
       (caps st').

(** [match[n]]: the n-th capture, [None] when the group took no part. *)
Fixpoint group (n : nat) (cp : list (nat * str)) : option str :=
  match cp with
  | [] => None
  | (k, v) :: cp' => if k =? n then Some v else group n cp'
  end.

(** The search of a non-global [match]: the leftmost start that matches. *)
Fixpoint search (re : RegExp) (b s : str) : option mres :=
  match re_exec re b s with
  | Some st' => Some (mres_of b st')
  | None =>
      match s with
      | c :: s' => search re (c :: b) s'
      | [] => None
      end
  end.

Definition match_first (re : RegExp) (s : str) : option mres :=
  search re [] s.

(** The loop of a global [match]: after a match the search resumes at its
    end (one further when the match was empty).  [skip] counts the
    characters of the last match still to be passed over. *)
Fixpoint scan (re : RegExp) (b s : str) (skip : nat) : list mres :=
  match skip with
  | S k =>
      match s with
      | c :: s' => scan re (c :: b) s' k
      | [] => []
      end
  | 0 =>
      match re_exec re b s with
      | Some st' =>
          mres_of b st' ::
            match s with
            | c :: s' => scan re (c :: b) s' (endIndex st' - length b - 1)
            | [] => []
            end
      | None =>
          match s with
          | c :: s' => scan re (c :: b) s' 0
          | [] => []
          end
      end
  end.

(** [s.match(re)] with the [g] flag: the matched texts, [None] for [null]. *)
Definition matchAll (re : RegExp) (s : str) : option (list str) :=
  match map m_text (scan re [] s 0) with
  | [] => None
  | l => Some l
  end.

(** The replacement text of [replace] (GetSubstitution): [$$], [$&], the
    text before and after the match, and [$n] / [$nn], where a two-digit
    reference beyond the number of groups is read as a one-digit reference
    followed by a digit, and a reference to no group stays as written. *)
Definition capture_text (n : nat) (cp : list (nat * str)) : str :=
  match group n cp with
  | Some v => v
  | None => []
  end.

Definition digit_val (c : ascii) : nat := code c - 48.

Definition one_digit_ref (groups : nat) (cp : list (nat * str)) (d : ascii)
  : str :=
  if (1 <=? digit_val d) && (digit_val d <=? groups)
  then capture_text (digit_val d) cp
  else ["$"%char; d].

Fixpoint getSubstitution (groups : nat) (matched pre post : str)
    (cp : list (nat * str)) (t : str) : str :=
  match t with
  | [] => []
  | c :: t1 =>
      if negb (Ascii.eqb c "$"%char)
      then c :: getSubstitution groups matched pre post cp t1
      else
        match t1 with
        | [] => [c]
        | d :: t2 =>
            if Ascii.eqb d "$"%char
            then "$"%char :: getSubstitution groups matched pre post cp t2
            else if Ascii.eqb d "&"%char
            then matched ++ getSubstitution groups matched pre post cp t2
            else if Ascii.eqb d "`"%char
            then pre ++ getSubstitution groups matched pre post cp t2
            else if Ascii.eqb d "'"%char
            then post ++ getSubstitution groups matched pre post cp t2
            else if isDigit d then
              match t2 with
              | e :: t3 =>
                  if isDigit e then
                    let nn := 10 * digit_val d + digit_val e in
                    if groups <? nn
                    then one_digit_ref groups cp d
                           ++ getSubstitution groups matched pre post cp t2
                    else if 1 <=? nn
                    then capture_text nn cp
                           ++ getSubstitution groups matched pre post cp t3
                    else "$"%char :: d :: e
                           :: getSubstitution groups matched pre post cp t3
                  else one_digit_ref groups cp d
                         ++ getSubstitution groups matched pre post cp t2
              | [] => one_digit_ref groups cp d
              end
            else "$"%char :: getSubstitution groups matched pre post cp t1
        end
  end.

(** [s.replace(re, template)] with the [g] flag, written as the same loop
    as [scan]: text outside the matches is copied, each match is replaced
    by the expansion of the template. *)
Fixpoint replace_loop (re : RegExp) (tmpl : str) (b s : str) (skip : nat)
  : str :=
  match skip with
  | S k =>
      match s with
      | c :: s' => replace_loop re tmpl (c :: b) s' k
      | [] => []
      end
  | 0 =>
      match re_exec re b s with
      | Some st' =>
          let n := endIndex st' - length b in
          getSubstitution (re_groups re) (firstn n s) (rev b) (skipn n s)
                          (caps st') tmpl
            ++ match s with
               | c :: s' =>
                   (if n =? 0 then [c] else [])
                     ++ replace_loop re tmpl (c :: b) s' (n - 1)
               | [] => []
               end
      | None =>
          match s with
          | c :: s' => c :: replace_loop re tmpl (c :: b) s' 0
          | [] => []
          end
      end
  end.

Definition replace_re (re : RegExp) (s tmpl : str) : str :=
  replace_loop re tmpl [] s 0.

(** [s.replace(pat, template)] with a string pattern: the first occurrence
    only; the template is expanded with no capture. *)
Definition replace_str (s pat tmpl : str) : str :=
  match indexOf s pat with
  | None => s
  | Some i =>
      let post := skipn (i + length pat) s in
      firstn i s ++ getSubstitution 0 pat (firstn i s) post [] tmpl ++ post
  end.

(** [s.split(/\s+/)]: the pieces between maximal runs of white space; a
    leading or trailing run yields an empty piece. *)
Fixpoint split_ws (s : str) (cur : str) (in_ws : bool) : list str :=
  match s with
  | [] => [rev cur]
  | c :: s' =>
      if isSpace c
      then (if in_ws then [] else [rev cur]) ++ split_ws s' [] true
      else split_ws s' (c :: cur) false
  end.

(** ** Numbers *)

Inductive jsnum : Type :=
| NegInfinity
| NaN
| Num (n : nat).

Definition js_max2 (a b : jsnum) : jsnum :=
  match a, b with
  | NaN, _ | _, NaN => NaN
  | NegInfinity, x | x, NegInfinity => x
  | Num x, Num y => Num (Nat.max x y)
  end.

(** [Math.max(...l)]: [-Infinity] on no argument. *)
Definition Math_max (l : list jsnum) : jsnum := fold_left js_max2 l NegInfinity.

Definition js_succ (a : jsnum) : jsnum :=
  match a with
  | Num n => Num (S n)
  | x => x
  end.

(** [parseInt]: the value of the leading decimal digits, [NaN] without. *)
Fixpoint digits_value (acc : nat) (s : str) : nat :=
  match s with
  | c :: s' => if isDigit c then digits_value (10 * acc + digit_val c) s' else acc
  | [] => acc
  end.

Definition parseInt (s : str) : jsnum :=
  match s with
  | c :: _ => if isDigit c then Num (digits_value 0 s) else NaN
  | [] => NaN
  end.

Definition nat_to_str (n : nat) : str :=
  list_ascii_of_string (NilZero.string_of_uint (Nat.to_uint n)).

Definition num_to_str (a : jsnum) : str :=
  match a with
  | NegInfinity => list_ascii_of_string "-Infinity"
  | NaN => list_ascii_of_string "NaN"
  | Num n => nat_to_str n
  end.

(** ** The patterns of the mutator

    In comments a pattern is written with ['] for the double quote, and a
    blank before a closing parenthesis is not part of it. *)

Definition S_ (s : string) : str := list_ascii_of_string s.

Definition gt : ascii := ">"%char.
Definition nl : ascii := ascii_of_nat 10.

Definition mxCell_open : str := Eval cbv in Q "<mxCell".
Definition mxCell_close : str := Eval cbv in Q "</mxCell>".
Definition value_eq : str := Eval cbv in Q "value='".
Definition edge_attr : str := Eval cbv in Q "edge='1'".
Definition closing_root : str := Eval cbv in Q "</mxGraphModel>".

(** The characters with a meaning in pattern syntax.  A text without them,
    spliced into a pattern, stands for itself. *)
Definition isSyntaxChar (c : ascii) : bool :=
  existsb (Ascii.eqb c) (S_ "^$\.*+?()[]{}|").

Definition plain (s : str) : bool := forallb (fun c => negb (isSyntaxChar c)) s.

(** [<mxCell[^>]*value='[^']*NAME[^']*'] : the opening tag up to and
    including a label that contains the name. *)
Definition labelled_open (name : str) : list regex :=
  [Lit mxCell_open; Star (CNot gt); Lit value_eq; Star (CNot dquote);
   Lit name; Star (CNot dquote); Lit [dquote]].

(** [<mxCell[^>]*value='[^']*NAME[^']*'[^>]*>.*?</mxCell>] *)
Definition componentRegex_pat (name : str) : regex :=
  seqs (labelled_open name
          ++ [Star (CNot gt); Lit [gt]; StarLazy CAny; Lit mxCell_close]).

(** [id='([^']* )'[^>]*value='[^']*NAME[^']*'] *)
Definition idRegex_pat (name : str) : regex :=
  seqs [Lit (Q "id='"); Grp 1 (Star (CNot dquote)); Lit [dquote];
        Star (CNot gt); Lit value_eq; Star (CNot dquote);
        Lit name; Star (CNot dquote); Lit [dquote]].

(** [<mxCell[^>]*(?:source|target)='ID'[^>]*>.*?</mxCell>] *)
Definition connectionRegex_pat (id : str) : regex :=
  seqs [Lit mxCell_open; Star (CNot gt);
        Alt (Lit (S_ "source")) (Lit (S_ "target"));
        Lit (Q "='"); Lit id; Lit [dquote];
        Star (CNot gt); Lit [gt]; StarLazy CAny; Lit mxCell_close].

(** [\bFROM\b] *)
Definition wordRegex_pat (from : str) : regex :=
  seqs [WordB; Lit from; WordB].

(** [<mxCell[^>]*edge='1'[^>]*>.*?</mxCell>] *)
Definition arrowRegex_pat : regex :=
  seqs [Lit mxCell_open; Star (CNot gt); Lit edge_attr;
        Star (CNot gt); Lit [gt]; StarLazy CAny; Lit mxCell_close].

Definition arrowRegex : RegExp := compile arrowRegex_pat true 0.

(** [id='(\d+)'] and [\d+] *)
Definition numericIdRegex : RegExp :=
  compile (seqs [Lit (Q "id='"); Grp 1 (Plus CDigit); Lit [dquote]]) false 1.
Definition digitsRegex : RegExp := compile (Plus CDigit) false 0.

(** [(<mxCell[^>]*value='[^']*NAME[^']*'[^>]*>.*?<mxGeometry[^>]*width=')
     [^']*('[^>]*height=')[^']*('.*?</mxCell>)] *)
Definition sizeRegex_pat (name : str) : regex :=
  seqs [Grp 1 (seqs (labelled_open name
                       ++ [Star (CNot gt); Lit [gt]; StarLazy CAny;
                           Lit (Q "<mxGeometry"); Star (CNot gt);
                           Lit (Q "width='")]));
        Star (CNot dquote);
        Grp 2 (seqs [Lit [dquote]; Star (CNot gt); Lit (Q "height='")]);
        Star (CNot dquote);
        Grp 3 (seqs [Lit [dquote]; StarLazy CAny; Lit mxCell_close])].

(** [(<mxCell[^>]*value='[^']*NAME[^']*'[^>]*style='[^']*fillColor=)
     [^;]*(;[^']*'[^>]*>.*?</mxCell>)] *)
Definition colorRegex_pat (name : str) : regex :=
  seqs [Grp 1 (seqs (labelled_open name
                       ++ [Star (CNot gt); Lit (Q "style='");
                           Star (CNot dquote); Lit (S_ "fillColor=")]));
        Star (CNot ";"%char);
        Grp 2 (seqs [Lit (S_ ";"); Star (CNot dquote); Lit [dquote];
                     Star (CNot gt); Lit [gt]; StarLazy CAny;
                     Lit mxCell_close])].

(** The patterns of the instruction matcher, all under the [i] flag. *)
Definition sp : regex := Plus CSpace.
Definition word (n : nat) : regex := Grp n (Plus CWord).
Definition lits (l : list string) : regex := alts (map (fun s => Lit (S_ s)) l).
Definition opt_the : regex := Opt (Seq (Lit (S_ "the")) sp).
Definition opt_a_an : regex :=
  Opt (Alt (Seq (Lit (S_ "a")) sp) (Seq (Lit (S_ "an")) sp)).
Definition instr (r : list regex) (groups : nat) : RegExp :=
  compile (seqs r) true groups.

(** The rightwards arrow of the second rename pattern, as its UTF-8 bytes. *)
Definition arrow_char : str := map ascii_of_nat [226; 134; 146].

Definition removePatterns : list RegExp :=
  [ (* /remove\s+(?:the\s+)?(\w+)(?:\s+block|\s+component)?/i *)
    instr [Lit (S_ "remove"); sp; opt_the; word 1;
           Opt (Alt (Seq sp (Lit (S_ "block"))) (Seq sp (Lit (S_ "component"))))] 1;
    (* /delete\s+(?:the\s+)?(\w+)(?:\s+block|\s+component)?/i *)
    instr [Lit (S_ "delete"); sp; opt_the; word 1;
           Opt (Alt (Seq sp (Lit (S_ "block"))) (Seq sp (Lit (S_ "component"))))] 1;
    (* /take\s+out\s+(?:the\s+)?(\w+)/i *)
    instr [Lit (S_ "take"); sp; Lit (S_ "out"); sp; opt_the; word 1] 1;
    (* /eliminate\s+(?:the\s+)?(\w+)/i *)
    instr [Lit (S_ "eliminate"); sp; opt_the; word 1] 1 ].

Definition changePatterns : list RegExp :=
  [ (* /(?:change|rename|replace|convert|switch|update|make|turn)\s+(?:the\s+)?
         (\w+)(?:\s+(?:to|as|into|with|by))\s+(?:a\s+|an\s+)?(\w+)/i *)
    instr [lits ["change"; "rename"; "replace"; "convert"; "switch"; "update";
                 "make"; "turn"]%string;
           sp; opt_the; word 1;
           Seq sp (lits ["to"; "as"; "into"; "with"; "by"]%string);
           sp; opt_a_an; word 2] 2;
    (* /(\w+)\s+(?:to|as|into|→|->)\s+(\w+)/i *)
    instr [word 1; sp;
           alts [Lit (S_ "to"); Lit (S_ "as"); Lit (S_ "into");
                 Lit arrow_char; Lit (S_ "->")];
           sp; word 2] 2;
    (* /replace\s+(\w+)\s+with\s+(\w+)/i *)
    instr [Lit (S_ "replace"); sp; word 1; sp; Lit (S_ "with"); sp; word 2] 2 ].

Definition opt_between : regex :=
  Opt (seqs [sp; Lit (S_ "between"); sp; word 1; sp; Lit (S_ "and"); sp; word 2]).

Definition connectionRemovePatterns : list RegExp :=
  [ (* /remove\s+(?:the\s+)?(?:arrow|connection|line|wire)
         (?:\s+between\s+(\w+)\s+and\s+(\w+))?/i *)
    instr [Lit (S_ "remove"); sp; opt_the;
           lits ["arrow"; "connection"; "line"; "wire"]%string; opt_between] 2;
    (* /delete\s+(?:the\s+)?(?:arrow|connection|line|wire)
         (?:\s+between\s+(\w+)\s+and\s+(\w+))?/i *)
    instr [Lit (S_ "delete"); sp; opt_the;
           lits ["arrow"; "connection"; "line"; "wire"]%string; opt_between] 2;
    (* /disconnect\s+(\w+)(?:\s+(?:from|and)\s+(\w+))?/i *)
    instr [Lit (S_ "disconnect"); sp; word 1;
           Opt (seqs [sp; lits ["from"; "and"]%string; sp; word 2])] 2 ].

Definition addPatterns : list RegExp :=
  [ (* /add\s+(?:a\s+|an\s+)?(\w+)(?:\s+(?:component|block|unit))?/i *)
    instr [Lit (S_ "add"); sp; opt_a_an; word 1;
           Opt (Seq sp (lits ["component"; "block"; "unit"]%string))] 1;
    (* /insert\s+(?:a\s+|an\s+)?(\w+)/i *)
    instr [Lit (S_ "insert"); sp; opt_a_an; word 1] 1;
    (* /create\s+(?:a\s+|an\s+)?(\w+)/i *)
    instr [Lit (S_ "create"); sp; opt_a_an; word 1] 1 ].

Definition propertyPatterns : list RegExp :=
  [ (* /(?:make|set|change)\s+(\w+)\s+(?:size|width|height)\s+(?:to\s+)?(\d+)/i *)
    instr [lits ["make"; "set"; "change"]%string; sp; word 1; sp;
           lits ["size"; "width"; "height"]%string; sp;
           Opt (Seq (Lit (S_ "to")) sp); Grp 2 (Plus CDigit)] 2;
    (* /resize\s+(\w+)\s+to\s+(\d+)/i *)
    instr [Lit (S_ "resize"); sp; word 1; sp; Lit (S_ "to"); sp;
           Grp 2 (Plus CDigit)] 2;
    (* /(?:make|set)\s+(\w+)\s+(?:color|colour)\s+(?:to\s+)?(\w+)/i *)
    instr [lits ["make"; "set"]%string; sp; word 1; sp;
           lits ["color"; "colour"]%string; sp;
           Opt (Seq (Lit (S_ "to")) sp); word 2] 2 ].

(** ** Values of the colour table *)

(** What a property read on the object literal [colorMap] can yield: one of
    its own strings, or a member inherited from [Object.prototype]. *)
Inductive jsval : Type :=
| VStr (s : str)
| VNativeFunction (name : str)
| VObjectPrototype.

(** The text a value contributes to a template literal. *)
Definition js_toString (v : jsval) : str :=
  match v with
  | VStr s => s
  | VNativeFunction name => S_ "function " ++ name ++ S_ "() { [native code] }"
  | VObjectPrototype => S_ "[object Object]"
  end.

Definition colorMap_own : list (string * string) :=
  [("red", "#ff0000"); ("blue", "#0000ff"); ("green", "#00ff00");
   ("yellow", "#ffff00"); ("orange", "#ffa500"); ("purple", "#800080");
   ("pink", "#ffc0cb"); ("gray", "#808080")]%string.

Definition Object_prototype_functions : list string :=
  ["constructor"; "__defineGetter__"; "__defineSetter__"; "hasOwnProperty";
   "__lookupGetter__"; "__lookupSetter__"; "isPrototypeOf";
   "propertyIsEnumerable"; "toString"; "valueOf"; "toLocaleString"]%string.

Fixpoint assoc (k : str) (l : list (string * string)) : option str :=
  match l with
  | [] => None
  | (k', v) :: l' => if str_eqb k (S_ k') then Some (S_ v) else assoc k l'
  end.

(** [colorMap[key]]: own properties first, then the prototype. *)
Definition colorMap_get (key : str) : option jsval :=
  match assoc key colorMap_own with
  | Some v => Some (VStr v)
  | None =>
      if existsb (fun n => str_eqb key (S_ n)) Object_prototype_functions
      then Some (if str_eqb key (S_ "constructor")
                 then VNativeFunction (S_ "Object")
                 else VNativeFunction key)
      else if str_eqb key (S_ "__proto__") then Some VObjectPrototype
      else None
  end.

(** ** The transforms *)

Record result (A : Type) : Type := Result {
  success : bool;
  xml : str;
  extra : A
}.
Arguments Result {A} _ _ _.
Arguments success {A} _.
Arguments xml {A} _.
Arguments extra {A} _.

(** [${x}] of a possibly undefined string. *)
Definition interp (o : option str) : str :=
  match o with
  | Some s => s
  | None => S_ "undefined"
  end.

(** A string is truthy when it is defined and not empty. *)
Definition truthy (o : option str) : bool :=
  match o with
  | Some (_ :: _) => true
  | _ => false
  end.

Section Runtime.

(** What [new RegExp(pattern, flags)] yields when the text spliced into
    the pattern contains syntax characters: [None] when the constructor
    throws, otherwise whatever matcher the runtime builds. *)
Variable RegExp_dyn : str -> str -> option RegExp.

(** [new RegExp(pattern, flags)] for a pattern built by splicing
    [splices] into a template; [parsed] is the template with the splices
    read as literal text. *)
Definition new_RegExp (pattern flags : str) (splices : list str)
    (parsed : RegExp) : option RegExp :=
  if forallb plain splices then Some parsed else RegExp_dyn pattern flags.

Definition componentRegex (componentName : str) : option RegExp :=
  new_RegExp (Q "<mxCell[^>]*value='[^']*" ++ componentName
                ++ Q "[^']*'[^>]*>.*?</mxCell>")
             (S_ "gis") [componentName]
             (compile (componentRegex_pat componentName) true 0).

Definition idRegex (componentName : str) : option RegExp :=
  new_RegExp (Q "id='([^']*)'[^>]*value='[^']*" ++ componentName
                ++ Q "[^']*'")
             (S_ "i") [componentName]
             (compile (idRegex_pat componentName) true 1).

Definition connectionRegex (componentId : str) : option RegExp :=
  new_RegExp (Q "<mxCell[^>]*(?:source|target)='" ++ componentId
                ++ Q "'[^>]*>.*?</mxCell>")
             (S_ "gis") [componentId]
             (compile (connectionRegex_pat componentId) true 0).

(** [removeComponent]; a thrown constructor lands in the [catch], which
    falls through to the failing return. *)
Definition removeComponent (xml0 componentName : str) : result unit :=
  match componentRegex componentName with
  | None => Result false xml0 tt
  | Some cre =>
      match matchAll cre xml0 with
      | Some (m :: ms) =>
          let modifiedXml :=
            fold_left (fun acc mt => replace_str acc mt []) (m :: ms) xml0 in
          match idRegex componentName with
          | None => Result false xml0 tt
          | Some ire =>
              match match_first ire xml0 with
              | Some idMatches =>
                  let componentId := interp (group 1 (m_caps idMatches)) in
                  match connectionRegex componentId with
                  | None => Result false xml0 tt
                  | Some conre =>
                      Result true (replace_re conre modifiedXml []) tt
                  end
              | None => Result true modifiedXml tt
              end
          end
      | _ => Result false xml0 tt
      end
  end.

Definition wordRegex (fromComponent : str) : option RegExp :=
  new_RegExp (S_ "\b" ++ fromComponent ++ S_ "\b") (S_ "gi") [fromComponent]
             (compile (wordRegex_pat fromComponent) true 0).

(** [replaceComponent]; the extra field is [count]. *)
Definition replaceComponent (xml0 fromComponent toComponent : str)
  : result nat :=
  match wordRegex fromComponent with
  | None => Result false xml0 0
  | Some re =>
      match matchAll re xml0 with
      | Some (m :: ms) =>
          Result true (replace_re re xml0 (toUpperCase toComponent))
                 (length (m :: ms))
      | _ => Result false xml0 0
      end
  end.

(** [removeConnections]; the extra field is [message]. *)
Definition removeConnections (xml0 : str) (component1 component2 : option str)
  : result str :=
  if truthy component1 && truthy component2 then
    let c1 := interp component1 in
    let c2 := interp component2 in
    let connections :=
      match matchAll arrowRegex xml0 with Some l => l | None => [] end in
    let '(modifiedXml, removedCount) :=
      fold_left
        (fun '(acc, n) connection =>
           if includes connection c1 && includes connection c2
           then (replace_str acc connection [], S n)
           else (acc, n))
        connections (xml0, 0) in
    Result (0 <? removedCount) modifiedXml
           (S_ "Removed " ++ nat_to_str removedCount
              ++ S_ " connection(s) between " ++ toUpperCase c1
              ++ S_ " and " ++ toUpperCase c2)
  else
    let arrows :=
      match matchAll arrowRegex xml0 with Some l => l | None => [] end in
    let removedCount := length arrows in
    if 0 <? removedCount then
      Result true (replace_re arrowRegex xml0 [])
             (S_ "Removed " ++ nat_to_str removedCount
                ++ S_ " arrow(s)/connection(s) from the diagram")
    else Result false xml0 (S_ "No connections found to remove").

(** The markup of a new component. *)
Definition newComponent (newId : jsnum) (componentName : str) : str :=
  [nl] ++ Q "        <mxCell id='" ++ num_to_str newId
    ++ Q "' value='" ++ toUpperCase componentName
    ++ Q "' style='rounded=1;whiteSpace=wrap;html=1;fillColor=#dae8fc;strokeColor=#6c8ebf;' vertex='1' parent='1'>"
    ++ [nl] ++ Q "          <mxGeometry x='400' y='200' width='120' height='60' as='geometry' />"
    ++ [nl] ++ Q "        </mxCell>".

Definition existing_ids (xml0 : str) : list jsnum :=
  map (fun mt =>
         parseInt (match match_first digitsRegex mt with
                   | Some r => match m_text r with
                               | [] => S_ "0"
                               | t => t
                               end
                   | None => S_ "0"
                   end))
      (match matchAll numericIdRegex xml0 with Some l => l | None => [] end).

(** [addComponent] *)
Definition addComponent (xml0 componentName : str) : result unit :=
  let maxId := Math_max (existing_ids xml0) in
  let newId := js_succ maxId in
  let modifiedXml :=
    replace_str xml0 closing_root
                (newComponent newId componentName
                   ++ [nl] ++ S_ "  </mxGraphModel>") in
  Result true modifiedXml tt.

Definition sizeRegex (component : str) : option RegExp :=
  new_RegExp (Q "(<mxCell[^>]*value='[^']*" ++ component
                ++ Q "[^']*'[^>]*>.*?<mxGeometry[^>]*width=')[^']*('[^>]*height=')[^']*('.*?</mxCell>)")
             (S_ "gis") [component]
             (compile (sizeRegex_pat component) true 3).

Definition colorRegex (component : str) : option RegExp :=
  new_RegExp (Q "(<mxCell[^>]*value='[^']*" ++ component
                ++ Q "[^']*'[^>]*style='[^']*fillColor=)[^;]*(;[^']*'[^>]*>.*?</mxCell>)")
             (S_ "gis") [component]
             (compile (colorRegex_pat component) true 2).

(** [colorMap[value.toLowerCase()] || value], as spliced into the
    replacement template. *)
Definition colorCode (value : str) : str :=
  match colorMap_get (toLowerCase value) with
  | Some v => js_toString v
  | None => value
  end.

(** [modifyComponentProperty]; the extra field is [message]. *)
Definition modifyComponentProperty (xml0 component value userInput : str)
  : result str :=
  let lowerInput := toLowerCase userInput in
  if includes lowerInput (S_ "size") || includes lowerInput (S_ "width")
     || includes lowerInput (S_ "height")
  then
    match sizeRegex component with
    | None => Result false xml0 (S_ "Property modification failed")
    | Some re =>
        Result true
               (replace_re re xml0
                  (S_ "$1" ++ value ++ S_ "$2" ++ value ++ S_ "$3"))
               (S_ "Changed " ++ toUpperCase component ++ S_ " size to "
                  ++ value ++ S_ "x" ++ value)
    end
  else if includes lowerInput (S_ "color") || includes lowerInput (S_ "colour")
  then
    match colorRegex component with
    | None => Result false xml0 (S_ "Property modification failed")
    | Some re =>
        Result true
               (replace_re re xml0 (S_ "$1" ++ colorCode value ++ S_ "$2"))
               (S_ "Changed " ++ toUpperCase component ++ S_ " color to "
                  ++ value)
    end
  else Result false xml0 (S_ "Property modification failed").

Definition stop_words : list string :=
  ["the"; "and"; "or"; "to"; "from"; "with"; "by"; "as"; "into"; "remove";
   "add"; "change"; "make"]%string.

Definition potentialComponents (userInput : str) : list str :=
  filter (fun w => (2 <? length w)
                   && negb (existsb (fun k => str_eqb w (S_ k)) stop_words))
         (split_ws (toLowerCase userInput) [] false).

(** One turn of the loop of [handleContextualChanges] on the pair
    (modifiedXml, changes). *)
Definition contextual_step (xml0 userInput : str)
    (acc : str * list str) (component : str) : str * list str :=
  if includes (toLowerCase xml0) component then
    let acc1 :=
      if includes (toLowerCase userInput) (S_ "bigger")
         || includes (toLowerCase userInput) (S_ "larger")
      then
        let r := modifyComponentProperty (fst acc) component (S_ "150")
                                         (S_ "make bigger") in
        if success r
        then (xml r, snd acc ++ [S_ "Made " ++ toUpperCase component
                                   ++ S_ " larger"])
        else acc
      else acc in
    if includes (toLowerCase userInput) (S_ "smaller")
    then
      let r := modifyComponentProperty (fst acc1) component (S_ "80")
                                       (S_ "make smaller") in
      if success r
      then (xml r, snd acc1 ++ [S_ "Made " ++ toUpperCase component
                                  ++ S_ " smaller"])
      else acc1
    else acc1
  else acc.

(** [handleContextualChanges]; the extra field is [changes]. *)
Definition handleContextualChanges (xml0 userInput : str)
  : result (list str) :=
  let '(modifiedXml, changes) :=
    fold_left (contextual_step xml0 userInput)
              (potentialComponents userInput) (xml0, []) in
  Result (0 <? length changes) modifiedXml changes.

(** What [makeActualXmlChanges] returns. *)
Record outcome : Type := Outcome {
  modifiedXml : str;
  changes : list str
}.

(** A loop over the patterns of one category that returns from the
    function at the first pattern that matches and whose transform
    succeeds. *)
Fixpoint first_success (patterns : list RegExp) (userInput : str)
    (attempt : mres -> option outcome) : option outcome :=
  match patterns with
  | [] => None
  | pattern :: rest =>
      match match_first pattern userInput with
      | Some m =>
          match attempt m with
          | Some o => Some o
          | None => first_success rest userInput attempt
          end
      | None => first_success rest userInput attempt
      end
  end.

Definition try_remove (userInput xml0 : str) : option outcome :=
  first_success removePatterns userInput (fun m =>
    let componentToRemove := interp (group 1 (m_caps m)) in
    let r := removeComponent xml0 componentToRemove in
    if success r
    then Some (Outcome (xml r)
                 [S_ "Removed " ++ toUpperCase componentToRemove
                    ++ S_ " component and its connections"])
    else None).

Definition try_change (userInput xml0 : str) : option outcome :=
  first_success changePatterns userInput (fun m =>
    let fromComponent := interp (group 1 (m_caps m)) in
    let toComponent := interp (group 2 (m_caps m)) in
    let r := replaceComponent xml0 fromComponent toComponent in
    if success r
    then Some (Outcome (xml r)
                 [S_ "Changed " ++ nat_to_str (extra r)
                    ++ Q " instance(s) of '" ++ toUpperCase fromComponent
                    ++ Q "' to '" ++ toUpperCase toComponent ++ Q "'"])
    else None).

Definition try_disconnect (userInput xml0 : str) : option outcome :=
  first_success connectionRemovePatterns userInput (fun m =>
    let r := removeConnections xml0 (group 1 (m_caps m)) (group 2 (m_caps m)) in
    if success r then Some (Outcome (xml r) [extra r]) else None).

Definition try_add (userInput xml0 : str) : option outcome :=
  first_success addPatterns userInput (fun m =>
    let componentToAdd := interp (group 1 (m_caps m)) in
    let r := addComponent xml0 componentToAdd in
    if success r
    then Some (Outcome (xml r)
                 [S_ "Added new " ++ toUpperCase componentToAdd
                    ++ S_ " component to the architecture"])
    else None).

Definition try_property (userInput xml0 : str) : option outcome :=
  first_success propertyPatterns userInput (fun m =>
    let component := interp (group 1 (m_caps m)) in
    let value := interp (group 2 (m_caps m)) in
    let r := modifyComponentProperty xml0 component value userInput in
    if success r then Some (Outcome (xml r) [extra r]) else None).

Definition try_contextual (userInput xml0 : str) : option outcome :=
  let r := handleContextualChanges xml0 userInput in
  if success r then Some (Outcome (xml r) (extra r)) else None.

(** [makeActualXmlChanges]: the six categories in the order of the
    source, each returning at its first success; the final return hands
    back the text and the change list as they stand. *)
Definition makeActualXmlChanges (userInput xml0 : str) : outcome :=
  match try_remove userInput xml0 with
  | Some o => o
  | None =>
  match try_change userInput xml0 with
  | Some o => o
  | None =>
  match try_disconnect userInput xml0 with
  | Some o => o
  | None =>
  match try_add userInput xml0 with
  | Some o => o
  | None =>
  match try_property userInput xml0 with
  | Some o => o
  | None =>
  match try_contextual userInput xml0 with
  | Some o => o
  | None => Outcome xml0 []
  end end end end end end.

End Runtime.

Definition no_dyn : str -> str -> option RegExp := fun _ _ => None.

(** ** The intent categories and their order *)

Inductive intent : Type :=
| Remove
| Replace
| DisconnectEdges
| Add
| ModifyProperty
| ContextualBulkResize.

Definition priority : list intent :=
  [Remove; Replace; DisconnectEdges; Add; ModifyProperty; ContextualBulkResize].

(** The attempt of one category on the text handed to the mutator. *)
Definition attempt (dyn : str -> str -> option RegExp) (i : intent)
    (userInput xml0 : str) : option outcome :=
  match i with
  | Remove => try_remove dyn userInput xml0
  | Replace => try_change dyn userInput xml0
  | DisconnectEdges => try_disconnect userInput xml0
  | Add => try_add userInput xml0
  | ModifyProperty => try_property dyn userInput xml0
  | ContextualBulkResize => try_contextual dyn userInput xml0
  end.

(** The first category of a list whose attempt succeeds, with its outcome. *)
Fixpoint first_applied (dyn : str -> str -> option RegExp)
    (userInput xml0 : str) (l : list intent) : option (intent * outcome) :=
  match l with
  | [] => None
  | i :: l' =>
      match attempt dyn i userInput xml0 with
      | Some o => Some (i, o)
      | None => first_applied dyn userInput xml0 l'
      end
  end.

(** ** Documents as the diagram editor serialises them

    The mutator sees text only.  To speak of node and edge elements, a
    diagram is a list of cells written in the layout of the editor and of
    [newComponent]: the root tag, the two structural cells, then one
    [mxCell] element per cell. *)

Inductive kind : Type :=
| Vertex
| Edge (source target : str).

Record cell : Type := Cell {
  c_id : str;
  c_value : str;
  c_style : str;
  c_kind : kind;
  c_geometry : str
}.

Definition kind_attrs (k : kind) : str :=
  match k with
  | Vertex => Q " vertex='1' parent='1'"
  | Edge a b => Q " edge='1' parent='1' source='" ++ a ++ Q "' target='" ++ b ++ Q "'"
  end.

Definition cell_tag (c : cell) : str :=
  Q " id='" ++ c_id c ++ Q "' value='" ++ c_value c
    ++ Q "' style='" ++ c_style c ++ Q "'" ++ kind_attrs (c_kind c).

Definition cell_body (c : cell) : str :=
  Q "<mxGeometry" ++ c_geometry c ++ Q "/>".

Definition render_cell (c : cell) : str :=
  mxCell_open ++ cell_tag c ++ [gt] ++ cell_body c ++ mxCell_close.

Definition header : str :=
  Eval cbv in Q "<mxGraphModel><root><mxCell id='0'/><mxCell id='1' parent='0'/>".
Definition footer : str := Eval cbv in Q "</root></mxGraphModel>".

Definition render (cells : list cell) : str :=
  header ++ concat (map render_cell cells) ++ footer.

Definition is_edge (c : cell) : bool :=
  match c_kind c with
  | Edge _ _ => true
  | Vertex => false
  end.

(** [occurs ci p s]: [p] occurs somewhere in [s] (up to case when [ci]). *)
Fixpoint occurs (ci : bool) (p s : str) : bool :=
  starts ci p s ||
  match s with
  | [] => false
  | _ :: s' => occurs ci p s'
  end.

(** ** Sample diagrams *)

Definition box_geometry : str :=
  Q " x='10' y='20' width='120' height='60' as='geometry'".
Definition line_geometry : str := Q " relative='1' as='geometry'".

Definition node (id label : string) : cell :=
  Cell (S_ id) (S_ label) (S_ "rounded=1;fillColor=#dae8fc;") Vertex
       box_geometry.
Definition arrow (id a b : string) : cell :=
  Cell (S_ id) [] (S_ "endArrow=classic;") (Edge (S_ a) (S_ b)) line_geometry.

(** Nodes GPU and CPU joined by one edge. *)
Definition gpu_cpu : list cell :=
  [node "2" "GPU"; node "3" "CPU"; arrow "4" "2" "3"].

(** ** Whole words

    A text splits into maximal runs of word characters and of other
    characters.  For a name made of word characters, a whole-word occurrence
    is a run equal to the name up to letter case. *)

Definition eq_ci (a b : str) : bool :=
  str_eqb (toUpperCase a) (toUpperCase b).

Fixpoint runs (s : str) : list str :=
  match s with
  | [] => []
  | c :: s' =>
      match runs s' with
      | (d :: r) :: rs =>
          if Bool.eqb (isWordChar c) (isWordChar d)
          then (c :: d :: r) :: rs
          else [c] :: (d :: r) :: rs
      | _ => [[c]]
      end
  end.

Definition whole_words (from text : str) : nat :=
  length (filter (eq_ci from) (runs text)).

Definition rename_words (from rep text : str) : str :=
  concat (map (fun t => if eq_ci from t then rep else t) (runs text)).

(** The test the whole-word pattern makes at a position. *)
Definition word_hit (from b s : str) : bool :=
  xorb (isWordAt (hd_error b)) (isWordAt (hd_error s))
  && starts true from s
  && xorb (isWordAt (hd_error (rev (firstn (length from) s) ++ b)))
          (isWordAt (hd_error (skipn (length from) s))).

(** Runs of one kind. *)
Definition run_of (w : bool) (t : str) : Prop :=
  t <> [] /\ forallb (fun c => Bool.eqb (isWordChar c) w) t = true.

Definition stops (w : bool) (rest : str) : Prop :=
  match rest with
  | [] => True
  | c :: _ => isWordChar c = negb w
  end.

(** Runs of alternating kinds, the first of kind [w]. *)
Fixpoint alt_runs (w : bool) (rs : list str) : Prop :=
  match rs with
  | [] => True
  | t :: rs' => run_of w t /\ alt_runs (negb w) rs'
  end.

(** [blind ci p u s]: in the text [u ++ s], no occurrence of [p] starts
    inside [u]. *)
Fixpoint blind (ci : bool) (p u s : str) : bool :=
  match u with
  | [] => true
  | _ :: u' => negb (starts ci p (u ++ s)) && blind ci p u' s
  end.

(** [quiet f u s]: the matcher [f] finds nothing at any position inside
    [u], in the text [u ++ s]. *)
Definition quiet (f : mstate -> list mstate) (u s : str) : Prop :=
  forall u1 u2 b cp, u = u1 ++ u2 -> u2 <> [] -> f (MState b (u2 ++ s) cp) = [].

(** The text ahead stops a repetition of the class [cs]. *)
Definition halts (cs : cset) (s : str) : Prop :=
  match s with
  | [] => True
  | c :: _ => in_cset cs c = false
  end.

(** ** Well-formed cells

    An attribute value holds no double quote and no angle bracket, and
    does not end with an equals sign; the attribute text of the geometry
    child holds no angle bracket and no [id] attribute. *)

Definition markup_char (c : ascii) : bool :=
  Ascii.eqb c dquote || Ascii.eqb c "<"%char || Ascii.eqb c ">"%char.

Fixpoint ends_eq (t : str) : bool :=
  match t with
  | [] => false
  | c :: t' =>
      match t' with
      | [] => Ascii.eqb c "="%char
      | _ :: _ => ends_eq t'
      end
  end.

Definition wf_field (t : str) : bool :=
  forallb (fun c => negb (markup_char c)) t && negb (ends_eq t).

Definition wf_geometry (g : str) : bool :=
  forallb (fun c => negb (Ascii.eqb c "<"%char) && negb (Ascii.eqb c ">"%char)) g
  && negb (occurs true (Q "id='") g).

Definition wf_kind (k : kind) : bool :=
  match k with
  | Vertex => true
  | Edge a b => wf_field a && wf_field b
  end.

Definition wf_cell (c : cell) : bool :=
  wf_field (c_id c) && wf_field (c_value c) && wf_field (c_style c)
  && wf_kind (c_kind c) && wf_geometry (c_geometry c).

(** The common end of the deletion patterns, [[^>]*>.*?</mxCell>]. *)
Definition tag_end_pat : regex :=
  Seq (Star (CNot gt)) (Seq (Lit [gt]) (Seq (StarLazy CAny) (Lit mxCell_close))).

(** A property of every non-empty tail of a text. *)
Fixpoint all_tails (Pr : str -> Prop) (u : str) : Prop :=
  match u with
  | [] => True
  | _ :: u' => Pr u /\ all_tails Pr u'
  end.

(** A tail of an attribute value: no double quote, not ending with [=]. *)
Definition value_tail (t : str) : Prop :=
  forallb (fun c => negb (Ascii.eqb dquote c)) t = true /\ ends_eq t = false.

(** The two facts used of a well-formed attribute value. *)
Record wf_parts (t : str) : Prop := {
  wf_tail : value_tail t;
  wf_plain : forallb (fun c => negb (markup_char c)) t = true
}.

(** The message of a global arrow wipe. *)
Definition arrows_removed (k : nat) : str :=
  S_ "Removed " ++ nat_to_str k ++ S_ " arrow(s)/connection(s) from the diagram".

(** An edge whose label holds a raw closing angle bracket, and a text in
    which an edge element sits inside the opening of another. *)
Definition labelled_arrow : cell :=
  Cell (S_ "4") (S_ "a>b") (S_ "endArrow=classic;") (Edge (S_ "2") (S_ "3"))
       line_geometry.

Definition spliced_edges : str :=
  Q "<mxC" ++ Q "<mxCell edge='1'></mxCell>" ++ Q "ell edge='1'></mxCell>".

(** Well-formedness of the attributes that depend on the kind. *)
Definition wf_kind_parts (k : kind) : Prop :=
  match k with
  | Vertex => True
  | Edge a b => wf_parts a /\ wf_parts b
  end.

(** The label of a cell holds the name, up to letter case. *)
Definition label_has (name : str) (c : cell) : bool :=
  occurs true name (c_value c).

(** The cell is an edge whose source or target is the identifier, up to
    letter case. *)
Definition refers_to (id : str) (c : cell) : bool :=
  match c_kind c with
  | Vertex => false
  | Edge a b => eq_ci id a || eq_ci id b
  end.

(** The end of the connection pattern, after the attribute opening. *)
Definition connection_tail (id : str) : regex :=
  Seq (Lit id) (Seq (Lit [dquote]) tag_end_pat).

Definition id_open : str := Eval cbv in Q "id='".

(** The identifier pattern with an explicit empty continuation. *)
Definition idRegex_seq (N : str) : regex :=
  Seq (Lit id_open)
    (Seq (Grp 1 (Star (CNot dquote)))
       (Seq (Lit [dquote])
          (Seq (Star (CNot gt))
             (Seq (Lit value_eq)
                (Seq (Star (CNot dquote))
                   (Seq (Lit N)
                      (Seq (Star (CNot dquote))
                         (Seq (Lit [dquote]) (Lit []))))))))).

(** Two cells, one labelled GPU and one gpu, and an edge from the first. *)
Definition gpu_twice : list cell :=
  [node "2" "GPU"; node "3" "gpu"; arrow "4" "2" "3"].

(** ** Self-closing elements *)

(** [closes p r]: the pattern [r] ends with the literal [p]. *)
Fixpoint closes (p : str) (r : regex) : bool :=
  match r with
  | Lit l => str_eqb l p
  | Seq _ r2 => closes p r2
  | _ => false
  end.

(** The text [m] ends with [p], up to letter case when [ci]. *)
Definition ends_with (ci : bool) (p m : str) : Prop :=
  exists m1 m2, m = m1 ++ m2 /\ length m2 = length p /\ starts ci p m2 = true.

(** [st'] is [st] moved forward over the text [m]. *)
Definition moved (st st' : mstate) (m : str) : Prop :=
  before st' = rev m ++ before st /\ after st = m ++ after st'.

(** In a text that ends with [s], every occurrence of the closing tag,
    in any letter case, lies before [s]. *)
Definition sealed (s : str) : Prop :=
  forall u m1 m2 rest,
    u ++ s = m1 ++ m2 ++ rest ->
    length m2 = length mxCell_close -> starts true mxCell_close m2 = true ->
    length (m1 ++ m2) <= length u.

(** The identifier that Remove reads for a name holds no character of the
    pattern syntax. *)
Definition plain_id (xml0 N : str) : Prop :=
  forall m, match_first (compile (idRegex_pat N) true 1) xml0 = Some m ->
            plain (interp (group 1 (m_caps m))) = true.

(** An edge and a node written in self-closing form, and a node written
    with a closing tag. *)
Definition flat_edge : str :=
  Q "<mxCell id='4' edge='1' source='2' target='3'/>".

Definition flat_node : str :=
  Q "<mxCell id='2' value='GPU' vertex='1'/>".

Definition cpu_node : str := render_cell (node "3" "CPU").

(** A diagram in which a self-closing edge, or a self-closing node
    labelled GPU, is followed by a node written with a closing tag. *)
Definition edge_then_node : str := header ++ flat_edge ++ cpu_node ++ footer.
Definition node_then_node : str := header ++ flat_node ++ cpu_node ++ footer.

(** ** Plain text

    The comparison without regard to letter case of the patterns, [chr_eq],
    folds the letters a to z only, and [isSpace] knows the ASCII white
    space only.  A statement whose truth depends on either is made for
    texts of ASCII characters. *)
Definition ascii_text (s : str) : bool := forallb (fun c => code c <? 128) s.

(** ** Further definitions *)

(** The edge elements that DisconnectEdges deletes for two names: those
    whose markup holds both names as written. *)
Definition between (c1 c2 : str) (c : cell) : bool :=
  is_edge c && (includes (render_cell c) c1 && includes (render_cell c) c2).

(** The message of DisconnectEdges for two names. *)
Definition connections_removed (k : nat) (c1 c2 : str) : str :=
  S_ "Removed " ++ nat_to_str k ++ S_ " connection(s) between "
    ++ toUpperCase c1 ++ S_ " and " ++ toUpperCase c2.

(** ** The component list of the replies *)

(** [value='([^']+)'] and [value='|'] *)
Definition valueRegex : RegExp :=
  compile (seqs [Lit value_eq; Grp 1 (Plus (CNot dquote)); Lit [dquote]])
          false 1.

Definition valueMarkRegex : RegExp :=
  compile (Alt (Lit value_eq) (Lit [dquote])) false 0.

(** [Array.prototype.indexOf]: the first index that holds the value,
    [None] for -1. *)
Fixpoint Array_indexOf (array : list str) (value : str) : option nat :=
  match array with
  | [] => None
  | v :: rest =>
      if str_eqb v value then Some 0
      else option_map S (Array_indexOf rest value)
  end.

(** [Array.prototype.filter] with a callback that reads the index. *)
Definition filter_indexed {A} (f : A -> nat -> bool) (l : list A) : list A :=
  map fst (filter (fun p => f (fst p) (snd p))
                  (combine l (seq 0 (length l)))).

Definition no_components : str := S_ "No components detected".

(** [extractComponentsFromXml]; nothing in the [try] block throws. *)
Definition extractComponentsFromXml (xml0 : str) : list str :=
  let valueMatches :=
    match matchAll valueRegex xml0 with Some l => l | None => [] end in
  let stripped :=
    map (fun mt => replace_re valueMarkRegex mt []) valueMatches in
  let kept :=
    filter (fun value =>
              (0 <? length value) && (0 <? length value)
              && negb (includes value (S_ "<"))
              && negb (includes value (S_ "mxCell")))
           stripped in
  let unique :=
    filter_indexed
      (fun value index =>
         match Array_indexOf kept value with
         | Some i => i =? index
         | None => false
         end)
      kept in
  let components := firstn 10 unique in
  if 0 <? length components then components else [no_components].

(** The values of a list in the order of their first occurrence. *)
Fixpoint distinct_from (seen l : list str) : list str :=
  match l with
  | [] => []
  | v :: l' =>
      if existsb (str_eqb v) seen then distinct_from seen l'
      else v :: distinct_from (v :: seen) l'
  end.

Definition distinct (l : list str) : list str := distinct_from [] l.

(** A label that the component list shows: not empty and not holding
    the text mxCell. *)
Definition listed (v : str) : bool :=
  (0 <? length v) && negb (includes v (S_ "mxCell")).

(** The text of a value attribute. *)
Definition value_text (v : str) : str := value_eq ++ v ++ [dquote].

(** The geometry attributes hold no value attribute. *)
Definition plain_geometry (c : cell) : bool :=
  negb (occurs false value_eq (c_geometry c)).

(** A cell, as the value pattern reads it: the text before the value
    attribute and the text after it. *)
Definition cell_pre (c : cell) : str :=
  mxCell_open ++ Q " id='" ++ c_id c ++ Q "' ".

Definition cell_post (c : cell) : str :=
  Q " style='" ++ c_style c ++ Q "'" ++ kind_attrs (c_kind c)
    ++ [gt] ++ cell_body c ++ mxCell_close.

(** A pattern that opens with a labelled cell, [r] standing for what
    follows the label. *)
Definition labelled (r : regex) (name : str) : regex :=
  Seq (Lit mxCell_open)
    (Seq (Star (CNot gt))
       (Seq (Lit value_eq)
          (Seq (Star (CNot dquote))
             (Seq (Lit name)
                (Seq (Star (CNot dquote))
                   (Seq (Lit [dquote]) r)))))).

(** ** Adding to a diagram *)

(** The identifier of the cell is a decimal number. *)
Definition numeric_id (c : cell) : bool :=
  (0 <? length (c_id c)) && forallb isDigit (c_id c).

(** The text of an id attribute. *)
Definition id_text (i : str) : str := id_open ++ i ++ [dquote].

(** The largest numeric identifier of a diagram; its header holds the
    identifiers 0 and 1. *)
Definition max_id (cells : list cell) : nat :=
  fold_left Nat.max
            (map (fun c => digits_value 0 (c_id c)) (filter numeric_id cells))
            1.

(** A cell after its id attribute. *)
Definition cell_after_id (c : cell) : str :=
  Q " value='" ++ c_value c ++ Q "' style='" ++ c_style c ++ Q "'"
    ++ kind_attrs (c_kind c) ++ [gt] ++ cell_body c ++ mxCell_close.

(** The diagram with a new component before its closing tag. *)
Definition with_component (cells : list cell) (newId : nat) (name : str)
  : str :=
  header ++ concat (map render_cell cells) ++ Q "</root>"
    ++ newComponent (Num newId) name ++ [nl] ++ S_ "  </mxGraphModel>".

(** ** Resizing and recolouring *)

(** Matching in continuation style: the ways [r] matches at [st], each
    followed by [k]. *)
Definition kmatch (r : regex) (k : mstate -> list mstate) (st : mstate)
  : list mstate :=
  flat_map k (rmatch true r st).

(** The geometry attributes of a box. *)
Definition geometry (x y w h : str) : str :=
  Q " x='" ++ x ++ Q "' y='" ++ y ++ Q "' width='" ++ w
    ++ Q "' height='" ++ h ++ Q "' as='geometry'".

Definition with_geometry (c : cell) (g : str) : cell :=
  Cell (c_id c) (c_value c) (c_style c) (c_kind c) g.

(** [resized N v c c']: the cell [c'] is [c] with width and height [v]
    when the label of [c] holds [N], and [c] itself otherwise. *)
Inductive resized (N v : str) : cell -> cell -> Prop :=
| resized_box c x y w h :
    label_has N c = true ->
    c_geometry c = geometry x y w h ->
    wf_field x && wf_field y && wf_field w && wf_field h = true ->
    resized N v c (with_geometry c (geometry x y v v))
| resized_other c :
    label_has N c = false -> resized N v c c.

(** The pieces of the size pattern. *)
Definition size_rA : regex :=
  seqs [Star (CNot gt); Lit [gt]; StarLazy CAny; Lit (Q "<mxGeometry");
        Star (CNot gt); Lit (Q "width='")].
Definition size_B : regex :=
  seqs [Lit [dquote]; Star (CNot gt); Lit (Q "height='")].
Definition size_C : regex :=
  seqs [Lit [dquote]; StarLazy CAny; Lit mxCell_close].
Definition size_R3 : regex := Seq (Star (CNot dquote)) (Grp 3 size_C).
Definition size_R2 : regex := Seq (Grp 2 size_B) size_R3.
Definition size_R1 : regex := Seq (Star (CNot dquote)) size_R2.

(** The message of the size branch. *)
Definition size_changed (component value : str) : str :=
  S_ "Changed " ++ toUpperCase component ++ S_ " size to "
    ++ value ++ S_ "x" ++ value.

(** The first capture of the size pattern on a box. *)
Definition cap1 (I V S : str) (k : kind) (X Y : str) : str :=
  mxCell_open ++ cell_tag (Cell I V S k []) ++ [gt]
    ++ Q "<mxGeometry" ++ Q " x='" ++ X ++ Q "' y='" ++ Y ++ Q "' width='".


(** A cell and what a replacement makes of it: a match is rewritten, a
    cell that the pattern does not match stays. *)
Definition rewritten (hit : cell -> cell -> Prop) (miss : cell -> Prop)
    (c c' : cell) : Prop :=
  hit c c' \/ (miss c /\ c' = c).

(** The fill colour of a style, and the pieces of the colour pattern. *)
Definition fill : str := Eval cbv in S_ "fillColor=".

Definition col_rA : regex :=
  seqs [Star (CNot gt); Lit (Q "style='"); Star (CNot dquote); Lit fill].
Definition col_B : regex :=
  seqs [Lit (S_ ";"); Star (CNot dquote); Lit [dquote]; Star (CNot gt);
        Lit [gt]; StarLazy CAny; Lit mxCell_close].
Definition col_R1 : regex := Seq (Star (CNot ";"%char)) (Grp 2 col_B).

Definition with_style (c : cell) (s : str) : cell :=
  Cell (c_id c) (c_value c) s (c_kind c) (c_geometry c).

(** [recoloured N code c c']: when the label of [c] holds [N] and its
    style holds a fill colour that ends with a semicolon, the last one in
    the style, [c'] is [c] with that colour replaced by [code]; a cell
    whose label does not hold [N], or whose style has no fill colour,
    stays. *)
Inductive recoloured (N code : str) : cell -> cell -> Prop :=
| recoloured_fill c P C R :
    label_has N c = true ->
    c_style c = P ++ fill ++ C ++ S_ ";" ++ R ->
    forallb (fun a => negb (Ascii.eqb a ";"%char)) C = true ->
    occurs true fill (C ++ S_ ";" ++ R) = false ->
    recoloured N code c (with_style c (P ++ fill ++ code ++ S_ ";" ++ R))
| recoloured_other c :
    label_has N c = false \/ occurs true fill (c_style c) = false ->
    recoloured N code c c.

(** The captures of the colour pattern. *)
Definition cap1c (I V P : str) : str :=
  mxCell_open ++ Q " id='" ++ I ++ Q "' value='" ++ V ++ Q "' style='"
    ++ P ++ fill.
Definition cap2c (R : str) (k : kind) (G : str) : str :=
  S_ ";" ++ R ++ Q "'" ++ kind_attrs k ++ [gt]
    ++ (Q "<mxGeometry" ++ G ++ Q "/>") ++ mxCell_close.

(** The message of the colour branch. *)
Definition colour_changed (component value : str) : str :=
  S_ "Changed " ++ toUpperCase component ++ S_ " color to " ++ value.

(** [min_spaces r]: the least number of white-space characters in a
    text that [r] matches; [spaces s]: the number of them in [s]. *)
Fixpoint min_spaces (r : regex) : nat :=
  match r with
  | Cls CSpace => 1
  | Seq r1 r2 => min_spaces r1 + min_spaces r2
  | Alt r1 r2 => Nat.min (min_spaces r1) (min_spaces r2)
  | Grp _ r1 => min_spaces r1
  | _ => 0
  end.

Definition spaces (s : str) : nat := length (filter isSpace s).

(** [ends_ci p m]: the text [m] ends with [p], up to letter case. *)
Fixpoint ends_ci (p m : str) : bool :=
  eq_ci p m ||
  match m with
  | [] => false
  | _ :: m' => ends_ci p m'
  end.

(** A name that no pattern before the rename pattern can take for one of
    its own words: it does not end with a removal verb and is not one of
    the joining words. *)
Definition no_verb (N : str) : bool :=
  forallb (fun v => negb (ends_ci (S_ v) N))
          ["remove"; "delete"; "eliminate"]%string
  && forallb (fun v => negb (eq_ci (S_ v) N)) ["to"; "as"; "into"]%string.

(** The change record of a rename. *)
Definition instances_changed (k : nat) (fromComponent toComponent : str)
  : str :=
  S_ "Changed " ++ nat_to_str k ++ Q " instance(s) of '"
    ++ toUpperCase fromComponent ++ Q "' to '" ++ toUpperCase toComponent
    ++ Q "'".

(** The joining words of the second rename pattern, and the pattern. *)
Definition joins : regex :=
  alts [Lit (S_ "to"); Lit (S_ "as"); Lit (S_ "into");
        Lit arrow_char; Lit (S_ "->")].

Definition arrows_pattern : RegExp :=
  instr [word 1; sp; joins; sp; word 2] 2.

(** ** Successive additions *)

(** The components added so far, each followed by the indentation of the
    closing tag; the diagram that holds them; the largest identifier it
    holds; and the text after one call of Add for each name. *)
Definition added (adds : list (nat * str)) : str :=
  concat (map (fun a => newComponent (Num (fst a)) (snd a) ++ [nl] ++ S_ "  ")
              adds).

Definition with_components (cells : list cell) (adds : list (nat * str))
  : str :=
  header ++ concat (map render_cell cells) ++ Q "</root>"
    ++ added adds ++ closing_root.

Definition max_added (cells : list cell) (adds : list (nat * str)) : nat :=
  fold_left Nat.max (map fst adds) (max_id cells).

Definition add_all (names : list str) (xml0 : str) : str :=
  fold_left (fun x name => xml (addComponent x name)) names xml0.

(** A new component after its id attribute, with the indentation that
    follows it. *)
Definition component_after_id (name : str) : str :=
  Q " value='" ++ toUpperCase name
    ++ Q "' style='rounded=1;whiteSpace=wrap;html=1;fillColor=#dae8fc;strokeColor=#6c8ebf;' vertex='1' parent='1'>"
    ++ [nl] ++ Q "          <mxGeometry x='400' y='200' width='120' height='60' as='geometry' />"
    ++ [nl] ++ Q "        </mxCell>" ++ [nl] ++ S_ "  ".

(** ** The dispatch, category by category

    A category is a list of patterns with a transform.  The transform is
    tried on the match of each pattern that matches the instruction, in
    the order of the list; the category applies at the first of these
    tries that reports success. *)

(** [first_to_succeed patterns ok userInput m]: [m] is the match of the
    first pattern of the list whose match makes the transform succeed. *)
Definition first_to_succeed (patterns : list RegExp) (ok : mres -> bool)
    (userInput : str) (m : mres) : Prop :=
  exists pre p post,
    patterns = pre ++ p :: post
    /\ match_first p userInput = Some m /\ ok m = true
    /\ forall q m', In q pre -> match_first q userInput = Some m' ->
                    ok m' = false.

(** No pattern of the list has a match on which the transform succeeds. *)
Definition none_succeeds (patterns : list RegExp) (ok : mres -> bool)
    (userInput : str) : Prop :=
  forall q m', In q patterns -> match_first q userInput = Some m' ->
               ok m' = false.

(** The success flag of each transform on a match, and what the mutator
    returns when it is set. *)
Definition remove_ok (dyn : str -> str -> option RegExp) (xml0 : str)
    (m : mres) : bool :=
  success (removeComponent dyn xml0 (interp (group 1 (m_caps m)))).

Definition remove_outcome (dyn : str -> str -> option RegExp) (xml0 : str)
    (m : mres) : outcome :=
  Outcome (xml (removeComponent dyn xml0 (interp (group 1 (m_caps m)))))
          [S_ "Removed " ++ toUpperCase (interp (group 1 (m_caps m)))
             ++ S_ " component and its connections"].

Definition change_ok (dyn : str -> str -> option RegExp) (xml0 : str)
    (m : mres) : bool :=
  success (replaceComponent dyn xml0 (interp (group 1 (m_caps m)))
                            (interp (group 2 (m_caps m)))).

Definition change_outcome (dyn : str -> str -> option RegExp) (xml0 : str)
    (m : mres) : outcome :=
  let r := replaceComponent dyn xml0 (interp (group 1 (m_caps m)))
                            (interp (group 2 (m_caps m))) in
  Outcome (xml r)
          [S_ "Changed " ++ nat_to_str (extra r) ++ Q " instance(s) of '"
             ++ toUpperCase (interp (group 1 (m_caps m))) ++ Q "' to '"
             ++ toUpperCase (interp (group 2 (m_caps m))) ++ Q "'"].

Definition disconnect_ok (xml0 : str) (m : mres) : bool :=
  success (removeConnections xml0 (group 1 (m_caps m)) (group 2 (m_caps m))).

Definition disconnect_outcome (xml0 : str) (m : mres) : outcome :=
  let r := removeConnections xml0 (group 1 (m_caps m)) (group 2 (m_caps m)) in
  Outcome (xml r) [extra r].

Definition add_ok (xml0 : str) (m : mres) : bool :=
  success (addComponent xml0 (interp (group 1 (m_caps m)))).

Definition add_outcome (xml0 : str) (m : mres) : outcome :=
  Outcome (xml (addComponent xml0 (interp (group 1 (m_caps m)))))
          [S_ "Added new " ++ toUpperCase (interp (group 1 (m_caps m)))
             ++ S_ " component to the architecture"].

Definition property_ok (dyn : str -> str -> option RegExp)
    (xml0 userInput : str) (m : mres) : bool :=
  success (modifyComponentProperty dyn xml0 (interp (group 1 (m_caps m)))
                                   (interp (group 2 (m_caps m))) userInput).

Definition property_outcome (dyn : str -> str -> option RegExp)
    (xml0 userInput : str) (m : mres) : outcome :=
  let r := modifyComponentProperty dyn xml0 (interp (group 1 (m_caps m)))
                                   (interp (group 2 (m_caps m))) userInput in
  Outcome (xml r) [extra r].

(** An instruction that two categories match. *)
Definition remove_and_add : str := S_ "remove GPU and add RAM".

(** * Properties *)

(** ** Characters *)

Lemma isWordChar_toUpperChar c : isWordChar (toUpperChar c) = isWordChar c.
Proof. destruct c as [[] [] [] [] [] [] [] []]; reflexivity. Qed.

Lemma toUpperChar_idem c : toUpperChar (toUpperChar c) = toUpperChar c.
Proof. destruct c as [[] [] [] [] [] [] [] []]; reflexivity. Qed.

Lemma chr_eq_word a c : chr_eq true a c = true -> isWordChar a = isWordChar c.
Proof.
  unfold chr_eq. intros H. apply Ascii.eqb_eq in H.
  rewrite <- (isWordChar_toUpperChar a), <- (isWordChar_toUpperChar c).
  now rewrite H.
Qed.

Lemma chr_eq_refl ci a : chr_eq ci a a = true.
Proof. unfold chr_eq. destruct ci; apply Ascii.eqb_refl. Qed.

(** ** The matcher on a literal *)

Lemma m_lit_spec ci l : forall b s cp,
  m_lit ci l b s cp =
  if starts ci l s
  then [MState (rev (firstn (length l) s) ++ b) (skipn (length l) s) cp]
  else [].
Proof.
  induction l as [|a l IH]; intros b s cp; simpl; [reflexivity|].
  destruct s as [|c s]; [reflexivity|].
  destruct (chr_eq ci a c); simpl; [|reflexivity].
  rewrite IH. destruct (starts ci l s); [|reflexivity].
  now rewrite <- app_assoc.
Qed.

Lemma starts_length ci l s : starts ci l s = true -> length l <= length s.
Proof.
  revert s. induction l as [|a l IH]; intros [|c s]; simpl; try lia; try discriminate.
  intros H. apply andb_prop in H. destruct H as [_ H]. apply IH in H. lia.
Qed.

(** ** The loops of the global methods *)

Lemma replace_loop_skip re t k : forall s b,
  k <= length s ->
  replace_loop re t b s k
  = replace_loop re t (rev (firstn k s) ++ b) (skipn k s) 0.
Proof.
  induction k as [|k IH]; intros s b Hk; [reflexivity|].
  destruct s as [|c s]; simpl in Hk; [lia|].
  cbn [replace_loop firstn skipn rev]. rewrite IH by lia.
  now rewrite <- app_assoc.
Qed.

Lemma scan_skip re k : forall s b,
  k <= length s ->
  scan re b s k = scan re (rev (firstn k s) ++ b) (skipn k s) 0.
Proof.
  induction k as [|k IH]; intros s b Hk; [reflexivity|].
  destruct s as [|c s]; simpl in Hk; [lia|].
  cbn [scan firstn skipn rev]. rewrite IH by lia.
  now rewrite <- app_assoc.
Qed.

Lemma replace_loop_miss re t b c s :
  re_exec re b (c :: s) = None ->
  replace_loop re t b (c :: s) 0 = c :: replace_loop re t (c :: b) s 0.
Proof. intros H. cbn [replace_loop]. now rewrite H. Qed.

Lemma scan_miss re b c s :
  re_exec re b (c :: s) = None ->
  scan re b (c :: s) 0 = scan re (c :: b) s 0.
Proof. intros H. cbn [scan]. now rewrite H. Qed.

Lemma replace_loop_hit re t b s st n :
  re_exec re b s = Some st ->
  endIndex st - length b = n -> 1 <= n <= length s ->
  replace_loop re t b s 0
  = getSubstitution (re_groups re) (firstn n s) (rev b) (skipn n s) (caps st) t
      ++ replace_loop re t (rev (firstn n s) ++ b) (skipn n s) 0.
Proof.
  intros He Hn Hl. destruct s as [|c s]; [simpl in Hl; lia|].
  cbn [replace_loop]. rewrite He, Hn.
  destruct n as [|n]; [lia|]. cbn [Nat.eqb app].
  f_equal. simpl in Hl. replace (S n - 1) with n by lia.
  rewrite replace_loop_skip by lia.
  cbn [firstn skipn rev]. now rewrite <- app_assoc.
Qed.

Lemma scan_hit re b s st n :
  re_exec re b s = Some st ->
  endIndex st - length b = n -> 1 <= n <= length s ->
  scan re b s 0
  = mres_of b st :: scan re (rev (firstn n s) ++ b) (skipn n s) 0.
Proof.
  intros He Hn Hl. destruct s as [|c s]; [simpl in Hl; lia|].
  cbn [scan]. rewrite He, Hn.
  destruct n as [|n]; [lia|].
  f_equal. simpl in Hl. replace (S n - 1) with n by lia.
  rewrite scan_skip by lia.
  cbn [firstn skipn rev]. now rewrite <- app_assoc.
Qed.

Lemma getSubstitution_plain g m pre post cp t :
  forallb (fun c => negb (Ascii.eqb c "$"%char)) t = true ->
  getSubstitution g m pre post cp t = t.
Proof.
  induction t as [|c t IH]; simpl; [reflexivity|].
  intros H. apply andb_prop in H. destruct H as [Hc Ht].
  rewrite Hc. now rewrite IH.
Qed.


(** ** The whole-word pattern *)

Lemma wordRegex_exec from b s :
  re_exec (compile (wordRegex_pat from) true 0) b s =
  if word_hit from b s
  then Some (MState (rev (firstn (length from) s) ++ b)
                    (skipn (length from) s) [])
  else None.
Proof.
  unfold word_hit, compile, wordRegex_pat. cbn [seqs re_exec rmatch before after caps].
  destruct (xorb (isWordAt (hd_error b)) (isWordAt (hd_error s))); [|reflexivity].
  cbn [flat_map app before after caps]. rewrite m_lit_spec.
  destruct (starts true from s); [|reflexivity].
  cbn [flat_map rmatch before after caps andb app].
  destruct (xorb _ _); reflexivity.
Qed.

Lemma starts_word from s :
  forallb isWordChar from = true -> starts true from s = true ->
  forallb isWordChar (firstn (length from) s) = true.
Proof.
  revert s. induction from as [|a l IH]; intros [|c s]; simpl; auto; try discriminate.
  intros Hw H. apply andb_prop in Hw. destruct Hw as [Ha Hl].
  apply andb_prop in H. destruct H as [Hc Hs].
  rewrite <- (chr_eq_word _ _ Hc), Ha. simpl. auto.
Qed.

Lemma starts_eq_ci from s :
  starts true from s = true ->
  toUpperCase (firstn (length from) s) = toUpperCase from.
Proof.
  revert s. induction from as [|a l IH]; intros [|c s]; simpl; auto; try discriminate.
  intros H. apply andb_prop in H. destruct H as [Hc Hs].
  unfold chr_eq in Hc. apply Ascii.eqb_eq in Hc. rewrite Hc. f_equal. auto.
Qed.

Lemma eq_ci_starts from t rest :
  eq_ci from t = true -> starts true from (t ++ rest) = true /\ length t = length from.
Proof.
  unfold eq_ci, str_eqb. destruct (list_eq_dec _ _ _) as [E|]; [|discriminate].
  intros _. revert t E. induction from as [|a l IH]; intros [|c t]; simpl; try discriminate; auto.
  intros E. inversion E. destruct (IH t H1) as [H2 H3].
  unfold chr_eq. rewrite H0, Ascii.eqb_refl, H2. auto.
Qed.

Lemma str_eqb_refl a : str_eqb a a = true.
Proof. unfold str_eqb. destruct (list_eq_dec _ _ _); congruence. Qed.

Lemma str_eqb_eq a b : str_eqb a b = true <-> a = b.
Proof. unfold str_eqb. destruct (list_eq_dec _ _ _); split; congruence. Qed.

Section WordLoop.
Variable from : str.
Hypothesis from_word : forallb isWordChar from = true.
Hypothesis from_ne : from <> [].

Let re := compile (wordRegex_pat from) true 0.

Lemma word_hit_first_char b c s :
  word_hit from b (c :: s) = true ->
  isWordChar c = true /\ isWordAt (hd_error b) = false.
Proof.
  unfold word_hit. intros H.
  apply andb_prop in H. destruct H as [H _].
  apply andb_prop in H. destruct H as [Hx Hs].
  destruct from as [|a l]; [contradiction|].
  simpl in Hs, from_word. apply andb_prop in Hs. destruct Hs as [Hc _].
  apply andb_prop in from_word. destruct from_word as [Ha _].
  apply chr_eq_word in Hc. rewrite Ha in Hc.
  simpl in Hx. rewrite <- Hc in Hx. split; auto.
  destruct (isWordAt (hd_error b)); [discriminate|reflexivity].
Qed.

(** No match starts on a character that is not a word character, nor
    right after a word character. *)
Lemma copy_other rep t : forall b rest,
  forallb (fun c => Bool.eqb (isWordChar c) false) t = true ->
  replace_loop re rep b (t ++ rest) 0
  = t ++ replace_loop re rep (rev t ++ b) rest 0
  /\ scan re b (t ++ rest) 0 = scan re (rev t ++ b) rest 0.
Proof.
  induction t as [|c t IH]; intros b rest H; [split; reflexivity|].
  simpl in H. apply andb_prop in H. destruct H as [Hc Ht].
  assert (He : re_exec re b (c :: t ++ rest) = None).
  { unfold re. rewrite wordRegex_exec.
    destruct (word_hit from b (c :: t ++ rest)) eqn:E; [|reflexivity].
    apply word_hit_first_char in E. destruct E as [E _].
    rewrite E in Hc. discriminate. }
  cbn [app]. rewrite (replace_loop_miss _ _ _ _ _ He), (scan_miss _ _ _ _ He).
  destruct (IH (c :: b) rest Ht) as [-> ->].
  cbn [rev]. rewrite <- !app_assoc. split; reflexivity.
Qed.

Lemma copy_inside rep t : forall b rest,
  isWordAt (hd_error b) = true ->
  forallb (fun c => Bool.eqb (isWordChar c) true) t = true ->
  replace_loop re rep b (t ++ rest) 0
  = t ++ replace_loop re rep (rev t ++ b) rest 0
  /\ scan re b (t ++ rest) 0 = scan re (rev t ++ b) rest 0.
Proof.
  induction t as [|c t IH]; intros b rest Hb H; [split; reflexivity|].
  simpl in H. apply andb_prop in H. destruct H as [Hc Ht].
  assert (He : re_exec re b (c :: t ++ rest) = None).
  { unfold re. rewrite wordRegex_exec.
    destruct (word_hit from b (c :: t ++ rest)) eqn:E; [|reflexivity].
    apply word_hit_first_char in E. destruct E as [_ E]. congruence. }
  cbn [app]. rewrite (replace_loop_miss _ _ _ _ _ He), (scan_miss _ _ _ _ He).
  assert (Hb' : isWordAt (hd_error (c :: b)) = true).
  { simpl. destruct (isWordChar c); [reflexivity|discriminate]. }
  destruct (IH (c :: b) rest Hb' Ht) as [-> ->].
  cbn [rev]. rewrite <- !app_assoc. split; reflexivity.
Qed.

Lemma hd_rev_kind w t b :
  t <> [] -> forallb (fun c => Bool.eqb (isWordChar c) w) t = true ->
  isWordAt (hd_error (rev t ++ b)) = w.
Proof.
  intros Hne H. destruct (rev t) as [|x r] eqn:E.
  - apply (f_equal (@rev ascii)) in E. rewrite rev_involutive in E. contradiction.
  - simpl. rewrite forallb_forall in H.
    apply eqb_prop, H, in_rev. rewrite E. now left.
Qed.

Lemma word_run_hit t b rest :
  run_of true t -> stops true rest -> isWordAt (hd_error b) = false ->
  word_hit from b (t ++ rest) = eq_ci from t.
Proof.
  intros [Hne Ht] Hrest Hb.
  assert (Ht' : forallb isWordChar t = true).
  { apply forallb_forall. intros c Hc. rewrite forallb_forall in Ht.
    now apply eqb_prop, Ht. }
  destruct (eq_ci from t) eqn:E.
  - destruct (eq_ci_starts _ _ rest E) as [Hs Hl].
    unfold word_hit. rewrite Hs, Hb, <- Hl.
    rewrite firstn_app, skipn_app, Nat.sub_diag, firstn_all, skipn_all.
    cbn [firstn skipn app]. rewrite app_nil_r.
    rewrite (hd_rev_kind true) by auto.
    destruct t as [|c t]; [contradiction|]. simpl in Ht'.
    apply andb_prop in Ht'. destruct Ht' as [Hc _]. cbn [app hd_error isWordAt].
    rewrite Hc. cbn [xorb andb].
    destruct rest as [|d rest]; [reflexivity|].
    simpl in Hrest. simpl. now rewrite Hrest.
  - destruct (word_hit from b (t ++ rest)) eqn:Hh; [|reflexivity].
    exfalso. unfold word_hit in Hh.
    apply andb_prop in Hh. destruct Hh as [Hh Hx2].
    apply andb_prop in Hh. destruct Hh as [_ Hs].
    pose proof (starts_word _ _ from_word Hs) as Hw.
    pose proof (starts_length _ _ _ Hs) as Hlen.
    pose proof (starts_eq_ci _ _ Hs) as Heq.
    set (n := length from) in *.
    assert (Hn : 1 <= n) by (subst n; destruct from; [contradiction|simpl; lia]).
    assert (Hn1 : n <= length t).
    { destruct (Nat.le_gt_cases n (length t)) as [|Hgt]; [assumption|].
      rewrite firstn_app, forallb_app in Hw.
      apply andb_prop in Hw. destruct Hw as [_ Hw].
      destruct rest as [|d rest].
      - rewrite length_app in Hlen. simpl in Hlen. lia.
      - destruct (n - length t) as [|k] eqn:Ek; [lia|].
        simpl in Hw, Hrest. rewrite Hrest in Hw. discriminate. }
    destruct (Nat.eq_dec n (length t)) as [En|Hne'].
    + rewrite firstn_app, En, Nat.sub_diag, firstn_all in Heq.
      cbn [firstn] in Heq. rewrite app_nil_r in Heq.
      unfold eq_ci in E. rewrite Heq, str_eqb_refl in E. discriminate.
    + rewrite firstn_app, skipn_app in Hx2.
      replace (n - length t) with 0 in Hx2 by lia.
      cbn [firstn skipn] in Hx2. rewrite app_nil_r in Hx2.
      rewrite (hd_rev_kind true) in Hx2.
      * destruct (skipn n t) as [|d r] eqn:Ed.
        { apply (f_equal (@length ascii)) in Ed. rewrite length_skipn in Ed.
          simpl in Ed. lia. }
        cbn [app hd_error isWordAt] in Hx2.
        assert (isWordChar d = true).
        { rewrite forallb_forall in Ht'. apply Ht'.
          rewrite <- (firstn_skipn n t), Ed. apply in_or_app. right. now left. }
        rewrite H in Hx2. discriminate.
      * intros E0. apply (f_equal (@length ascii)) in E0.
        rewrite length_firstn in E0. simpl in E0. lia.
      * rewrite <- (firstn_skipn n t), forallb_app in Ht.
        apply andb_prop in Ht. tauto.
Qed.

Lemma word_run_step rep t b rest :
  forallb (fun c => negb (Ascii.eqb c "$"%char)) rep = true ->
  run_of true t -> stops true rest -> isWordAt (hd_error b) = false ->
  replace_loop re rep b (t ++ rest) 0
  = (if eq_ci from t then rep else t) ++ replace_loop re rep (rev t ++ b) rest 0
  /\ length (scan re b (t ++ rest) 0)
     = (if eq_ci from t then 1 else 0) + length (scan re (rev t ++ b) rest 0).
Proof.
  intros rep_plain Hrun Hrest Hb.
  pose proof (word_run_hit _ _ _ Hrun Hrest Hb) as Hh.
  destruct Hrun as [Hne Ht].
  assert (He := wordRegex_exec from b (t ++ rest)). fold re in He. rewrite Hh in He.
  destruct (eq_ci from t) eqn:E.
  - destruct (eq_ci_starts _ _ rest E) as [_ Hl].
    assert (Hlen : 1 <= length from <= length (t ++ rest)).
    { rewrite length_app, <- Hl. destruct t; [contradiction|simpl; lia]. }
    assert (Hend : endIndex (MState (rev (firstn (length from) (t ++ rest)) ++ b)
                                (skipn (length from) (t ++ rest)) [])
                   - length b = length from).
    { unfold endIndex. cbn [before]. rewrite length_app, length_rev, length_firstn. lia. }
    rewrite (replace_loop_hit _ _ _ _ _ _ He Hend Hlen).
    rewrite (scan_hit _ _ _ _ _ He Hend Hlen).
    rewrite getSubstitution_plain by assumption.
    rewrite <- Hl, firstn_app, skipn_app, Nat.sub_diag, firstn_all, skipn_all.
    cbn [firstn skipn app]. rewrite app_nil_r. split; reflexivity.
  - destruct t as [|c t]; [contradiction|].
    cbn [app] in *. rewrite (replace_loop_miss _ _ _ _ _ He), (scan_miss _ _ _ _ He).
    simpl in Ht. apply andb_prop in Ht. destruct Ht as [Hc Ht].
    assert (Hb' : isWordAt (hd_error (c :: b)) = true).
    { simpl. destruct (isWordChar c); [reflexivity|discriminate]. }
    destruct (copy_inside rep t (c :: b) rest Hb' Ht) as [-> ->].
    cbn [rev]. rewrite <- !app_assoc. split; reflexivity.
Qed.

Lemma alt_runs_stops w rs : alt_runs (negb w) rs -> stops w (concat rs).
Proof.
  destruct rs as [|t rs]; [exact (fun _ => I)|].
  intros [[Hne Ht] _]. destruct t as [|c t]; [contradiction|].
  simpl in *. apply andb_prop in Ht. destruct Ht as [Hc _].
  now apply eqb_prop in Hc.
Qed.

Lemma eq_ci_other t :
  run_of false t -> eq_ci from t = false.
Proof.
  intros [Hne Ht]. destruct (eq_ci from t) eqn:E; [|reflexivity].
  destruct (eq_ci_starts _ _ [] E) as [Hs _]. rewrite app_nil_r in Hs.
  destruct t as [|c t]; [contradiction|].
  destruct from as [|a l]; [contradiction|].
  simpl in Hs, Ht, from_word.
  apply andb_prop in Hs. destruct Hs as [Hc _]. apply chr_eq_word in Hc.
  apply andb_prop in Ht. destruct Ht as [Hc' _]. apply eqb_prop in Hc'.
  apply andb_prop in from_word. destruct from_word as [Ha _]. congruence.
Qed.

Lemma loops_on_runs rep rs :
  forallb (fun c => negb (Ascii.eqb c "$"%char)) rep = true ->
  forall w b,
  alt_runs w rs ->
  (w = true -> isWordAt (hd_error b) = false) ->
  replace_loop re rep b (concat rs) 0
  = concat (map (fun t => if eq_ci from t then rep else t) rs)
  /\ length (scan re b (concat rs) 0) = length (filter (eq_ci from) rs).
Proof.
  intros rep_plain. induction rs as [|t rs IH]; intros w b Hrs Hb.
  - cbn [concat map filter length replace_loop scan].
    assert (He := wordRegex_exec from b []). fold re in He.
    replace (word_hit from b []) with false in He.
    + rewrite He. split; reflexivity.
    + unfold word_hit. destruct from; [contradiction|].
      cbn [starts]. now rewrite andb_false_r.
  - destruct Hrs as [Hrun Hrs]. cbn [concat map filter].
    destruct w.
    + destruct (word_run_step rep t b (concat rs) rep_plain Hrun (alt_runs_stops _ _ Hrs)
                  (Hb eq_refl)) as [-> ->].
      destruct (IH (negb true) (rev t ++ b) Hrs) as [-> ->]; [discriminate|].
      destruct (eq_ci from t); split; reflexivity.
    + destruct Hrun as [Hne Ht].
      destruct (copy_other rep t b (concat rs) Ht) as [-> ->].
      rewrite (eq_ci_other t (conj Hne Ht)).
      destruct (IH (negb false) (rev t ++ b) Hrs) as [-> ->].
      * intros _. exact (hd_rev_kind false t b Hne Ht).
      * split; reflexivity.
Qed.
End WordLoop.

Lemma runs_head d s : exists r rs, runs (d :: s) = (d :: r) :: rs.
Proof.
  cbn [runs]. destruct (runs s) as [|[|d' r] rs]; eauto.
  destruct (Bool.eqb _ _); eauto.
Qed.

Lemma runs_spec s :
  concat (runs s) = s /\ alt_runs (isWordAt (hd_error s)) (runs s).
Proof.
  induction s as [|c s [IHc IHa]]; [split; [reflexivity|exact I]|].
  cbn [runs hd_error isWordAt].
  destruct (runs s) as [|[|d r] rs] eqn:E.
  - simpl in IHc. subst s. split; [reflexivity|].
    split; [|exact I]. split; [discriminate|].
    simpl. now rewrite eqb_reflx.
  - destruct IHa as [[Hne _] _]. contradiction.
  - assert (Hs : hd_error s = Some d) by (rewrite <- IHc; reflexivity).
    rewrite Hs in IHa. cbn [isWordAt] in IHa. destruct IHa as [[_ Hd] Hrs].
    destruct (Bool.eqb (isWordChar c) (isWordChar d)) eqn:Ecd.
    + apply eqb_prop in Ecd. split; [simpl in *; now rewrite IHc|].
      split; [split; [discriminate|]|now rewrite Ecd].
      cbn [forallb] in *. apply andb_prop in Hd. destruct Hd as [_ Hd].
      rewrite !Ecd, !eqb_reflx, Hd. reflexivity.
    + split; [simpl in *; now rewrite IHc|].
      split; [split; [discriminate|simpl; now rewrite eqb_reflx]|].
      replace (negb (isWordChar c)) with (isWordChar d).
      * split; [split; [discriminate|assumption]|assumption].
      * destruct (isWordChar c), (isWordChar d); simpl in *; congruence.
Qed.

Lemma runs_app_run w t : forall s,
  run_of w t -> stops w s -> runs (t ++ s) = t :: runs s.
Proof.
  induction t as [|c t IH]; intros s [Hne Ht] Hs; [contradiction|].
  simpl in Ht. apply andb_prop in Ht. destruct Ht as [Hc Ht]. apply eqb_prop in Hc.
  destruct t as [|c' t].
  - cbn [app]. destruct s as [|d s]; [reflexivity|].
    cbn [runs]. destruct (runs_head d s) as (r & rs & E). cbn [runs] in E. rewrite E.
    simpl in Hs. rewrite Hc, Hs. now destruct w.
  - assert (Hrun : run_of w (c' :: t)) by (split; [discriminate|assumption]).
    change ((c :: c' :: t) ++ s) with (c :: ((c' :: t) ++ s)).
    cbn [runs]. fold (runs ((c' :: t) ++ s)). rewrite (IH s Hrun Hs).
    simpl in Ht. apply andb_prop in Ht. destruct Ht as [Hc' _]. apply eqb_prop in Hc'.
    rewrite Hc, Hc'. now destruct w.
Qed.

Lemma runs_unique rs : forall w, alt_runs w rs -> runs (concat rs) = rs.
Proof.
  induction rs as [|t rs IH]; intros w H; [reflexivity|].
  destruct H as [Hrun Hrs]. cbn [concat].
  rewrite (runs_app_run w t (concat rs) Hrun).
  - f_equal. eapply IH; eauto.
  - destruct rs as [|u rs]; [exact I|].
    destruct Hrs as [[Hne Hu] _]. destruct u as [|d u]; [contradiction|].
    simpl in *. apply andb_prop in Hu. destruct Hu as [Hd _]. now apply eqb_prop in Hd.
Qed.

Lemma word_plain s : forallb isWordChar s = true -> plain s = true.
Proof.
  unfold plain. intros H. apply forallb_forall. intros c Hc.
  rewrite forallb_forall in H. specialize (H c Hc). revert H. clear.
  destruct c as [[] [] [] [] [] [] [] []]; intros H; try reflexivity; discriminate H.
Qed.

Lemma word_no_dollar s :
  forallb isWordChar s = true ->
  forallb (fun c => negb (Ascii.eqb c "$"%char)) (toUpperCase s) = true.
Proof.
  intros H. apply forallb_forall. intros c Hc.
  unfold toUpperCase in Hc. apply in_map_iff in Hc. destruct Hc as (a & <- & Ha).
  rewrite forallb_forall in H. specialize (H a Ha). revert H. clear.
  destruct a as [[] [] [] [] [] [] [] []]; intros H; try reflexivity; discriminate H.
Qed.

Lemma toUpperCase_idem s : toUpperCase (toUpperCase s) = toUpperCase s.
Proof.
  unfold toUpperCase. rewrite map_map. apply map_ext. apply toUpperChar_idem.
Qed.

Lemma toUpperCase_word s :
  forallb isWordChar s = true -> forallb isWordChar (toUpperCase s) = true.
Proof.
  intros H. apply forallb_forall. intros c Hc.
  unfold toUpperCase in Hc. apply in_map_iff in Hc. destruct Hc as (a & <- & Ha).
  rewrite forallb_forall in H. rewrite isWordChar_toUpperChar. auto.
Qed.

Section Rename.
Variables from to : str.
Hypothesis from_word : forallb isWordChar from = true.
Hypothesis from_ne : from <> [].
Hypothesis to_word : forallb isWordChar to = true.
Hypothesis to_ne : to <> [].

Let subst := fun t => if eq_ci from t then toUpperCase to else t.

Lemma subst_runs rs : forall w, alt_runs w rs -> alt_runs w (map subst rs).
Proof.
  induction rs as [|t rs IH]; intros w H; [exact I|].
  destruct H as [Hrun Hrs]. split; [|now apply IH].
  unfold subst. destruct (eq_ci from t) eqn:E; [|assumption].
  destruct w; [|now rewrite (eq_ci_other from from_word from_ne t Hrun) in E].
  split.
  - destruct to; [contradiction|discriminate].
  - apply forallb_forall. intros c Hc.
    pose proof (toUpperCase_word _ to_word) as Hw.
    rewrite forallb_forall in Hw. now rewrite (Hw c Hc).
Qed.

Lemma subst_none rs :
  eq_ci from to = false -> filter (eq_ci from) (map subst rs) = [].
Proof.
  intros Hd. induction rs as [|t rs IH]; [reflexivity|].
  cbn [map filter]. rewrite IH. unfold subst.
  destruct (eq_ci from t) eqn:E; [|now rewrite E].
  replace (eq_ci from (toUpperCase to)) with (eq_ci from to); [now rewrite Hd|].
  unfold eq_ci. now rewrite toUpperCase_idem.
Qed.

Lemma rename_words_none text :
  eq_ci from to = false ->
  whole_words from (rename_words from (toUpperCase to) text) = 0.
Proof.
  intros Hd. unfold whole_words, rename_words. fold subst.
  destruct (runs_spec text) as [_ Ha].
  rewrite (runs_unique _ _ (subst_runs _ _ Ha)), subst_none by assumption.
  reflexivity.
Qed.

Lemma replaceComponent_runs dyn xml0 :
  replaceComponent dyn xml0 from to
  = if whole_words from xml0 =? 0 then Result false xml0 0
    else Result true (rename_words from (toUpperCase to) xml0)
                (whole_words from xml0).
Proof.
  unfold replaceComponent, wordRegex, new_RegExp. cbn [forallb].
  rewrite (word_plain _ from_word). cbn [andb].
  destruct (runs_spec xml0) as [Hc Ha].
  destruct (loops_on_runs from from_word from_ne (toUpperCase to) (runs xml0)
              (word_no_dollar _ to_word) _ [] Ha (fun _ => eq_refl))
    as [Hr Hs].
  rewrite Hc in Hr, Hs.
  unfold matchAll, replace_re, whole_words. rewrite Hr, <- Hs.
  destruct (scan _ [] xml0 0) as [|m ms]; [reflexivity|].
  cbn [map length Nat.eqb]. now rewrite length_map.
Qed.
End Rename.


(** C3, as amended.  On a text of ASCII characters and for names made of
    word characters, [from] not empty: Replace fails and leaves the text unchanged when [from] has no
    whole-word occurrence; otherwise it succeeds, replaces every whole-word
    occurrence (compared without regard to letter case) by the upper-cased
    [to] and reports their number.  When [to] differs from [from] by more
    than letter case, no whole-word occurrence of [from] remains. *)
Theorem replaceComponent_whole_words :
  forall dyn xml0 from to,
    ascii_text xml0 = true ->
    from <> [] -> forallb isWordChar from = true ->
    to <> [] -> forallb isWordChar to = true ->
    replaceComponent dyn xml0 from to
    = (if whole_words from xml0 =? 0 then Result false xml0 0
       else Result true (rename_words from (toUpperCase to) xml0)
                   (whole_words from xml0))
    /\ (eq_ci from to = false ->
        whole_words from (rename_words from (toUpperCase to) xml0) = 0).
Proof.
  intros dyn xml0 from to _ Hne Hw Hne' Hw'. split.
  - now apply replaceComponent_runs.
  - now apply rename_words_none.
Qed.

Lemma replaceComponent_whole_words_witness :
  replaceComponent no_dyn (render gpu_cpu) (S_ "GPU") (S_ "ram")
  = (if whole_words (S_ "GPU") (render gpu_cpu) =? 0
     then Result false (render gpu_cpu) 0
     else Result true (rename_words (S_ "GPU") (toUpperCase (S_ "ram"))
                                    (render gpu_cpu))
                 (whole_words (S_ "GPU") (render gpu_cpu)))
  /\ (eq_ci (S_ "GPU") (S_ "ram") = false ->
      whole_words (S_ "GPU")
        (rename_words (S_ "GPU") (toUpperCase (S_ "ram")) (render gpu_cpu)) = 0).
Proof.
  apply replaceComponent_whole_words; try discriminate; reflexivity.
Defined.

(** C3 as stated fails: renaming GPU to gpu replaces the one whole-word
    occurrence by GPU again, so one occurrence remains. *)
Lemma replaceComponent_same_name_remains :
  whole_words (S_ "GPU") (render gpu_cpu) = 1
  /\ success (replaceComponent no_dyn (render gpu_cpu) (S_ "GPU") (S_ "gpu"))
     = true
  /\ ~ whole_words (S_ "GPU")
        (xml (replaceComponent no_dyn (render gpu_cpu) (S_ "GPU") (S_ "gpu")))
      = 0.
Proof. vm_compute. repeat split; discriminate. Qed.

(** ** Patterns over markup *)

(** ** Repetition over a stretch of text *)

Lemma quiet_app f u1 u2 s :
  quiet f u1 (u2 ++ s) -> quiet f u2 s -> quiet f (u1 ++ u2) s.
Proof.
  intros H1 H2 v1 v2 b cp E Hne.
  apply app_eq_app in E. destruct E as [l [[-> ->]|[-> ->]]].
  - (* v2 starts inside u1 *)
    rewrite <- app_assoc. destruct (list_eq_dec ascii_dec l []) as [->|Hl].
    + cbn [app]. destruct u2 as [|c u2].
      * cbn [app] in Hne. contradiction.
      * apply (H2 [] (c :: u2)); [reflexivity|discriminate].
    + apply (H1 v1 l); [reflexivity|assumption].
  - apply (H2 l v2); [reflexivity|assumption].
Qed.

Lemma quiet_nil f s : quiet f [] s.
Proof.
  intros u1 u2 b cp E Hne. symmetry in E. apply app_eq_nil in E.
  destruct E as [_ ->]. contradiction.
Qed.

Lemma quiet_cons f c u s :
  (forall b cp, f (MState b (c :: u ++ s) cp) = []) -> quiet f u s ->
  quiet f (c :: u) s.
Proof.
  intros H0 H u1 u2 b cp E Hne. destruct u1 as [|d u1].
  - cbn [app] in E. subst u2. apply H0.
  - cbn [app] in E. inversion E; subst. apply (H u1 u2); auto.
Qed.

Lemma quiet_tail f c u s : quiet f (c :: u) s -> quiet f u s.
Proof.
  intros H u1 u2 b cp E Hne. apply (H (c :: u1) u2); [now rewrite E|assumption].
Qed.

Lemma quiet_head f c u s b cp : quiet f (c :: u) s -> f (MState b (c :: u ++ s) cp) = [].
Proof. intros H. apply (H [] (c :: u)); [reflexivity|discriminate]. Qed.

Lemma m_star_halts cs b s cp : halts cs s -> m_star cs b s cp = [MState b s cp].
Proof.
  destruct s as [|c s]; [reflexivity|]. simpl. now intros ->.
Qed.

Lemma star_quiet f cs u : forall b s cp,
  forallb (in_cset cs) u = true -> quiet f u s ->
  flat_map f (m_star cs b (u ++ s) cp)
  = flat_map f (m_star cs (rev u ++ b) s cp).
Proof.
  induction u as [|c u IH]; intros b s cp Hu Hq; [reflexivity|].
  simpl in Hu. apply andb_prop in Hu. destruct Hu as [Hc Hu].
  cbn [app m_star]. rewrite Hc, flat_map_app. cbn [flat_map].
  rewrite (quiet_head _ _ _ _ _ _ Hq), !app_nil_r.
  rewrite IH by eauto using quiet_tail.
  cbn [rev]. now rewrite <- app_assoc.
Qed.

(** The repetition runs to the end of the stretch: nothing is found on
    the way back. *)
Lemma star_through f cs u b s cp :
  forallb (in_cset cs) u = true -> quiet f u s -> halts cs s ->
  flat_map f (m_star cs b (u ++ s) cp) = f (MState (rev u ++ b) s cp).
Proof.
  intros Hu Hq Hs. rewrite star_quiet by assumption.
  rewrite m_star_halts by assumption. cbn [flat_map]. apply app_nil_r.
Qed.

(** The one place of the stretch where something is found. *)
Lemma star_unique f cs u w b s cp :
  forallb (in_cset cs) (u ++ w) = true ->
  quiet f u (w ++ s) -> quiet f (tl w) s -> w <> [] ->
  halts cs s -> (forall b', f (MState b' s cp) = []) ->
  flat_map f (m_star cs b (u ++ w ++ s) cp) = f (MState (rev u ++ b) (w ++ s) cp).
Proof.
  intros Hz Hu Hw Hne Hs Hend.
  rewrite forallb_app in Hz. apply andb_prop in Hz. destruct Hz as [Hzu Hzw].
  rewrite star_quiet by assumption.
  destruct w as [|c w]; [contradiction|].
  simpl in Hzw. apply andb_prop in Hzw. destruct Hzw as [Hc Hzw].
  cbn [app m_star tl] in *. rewrite Hc, flat_map_app.
  rewrite star_through by assumption. rewrite Hend. cbn [flat_map app].
  apply app_nil_r.
Qed.

Lemma lazy_quiet f u : forall b s cp,
  quiet f u s ->
  flat_map f (m_star_lazy CAny b (u ++ s) cp)
  = flat_map f (m_star_lazy CAny (rev u ++ b) s cp).
Proof.
  induction u as [|c u IH]; intros b s cp Hq; [reflexivity|].
  cbn [app m_star_lazy in_cset flat_map].
  rewrite (quiet_head _ _ _ _ _ _ Hq). cbn [app].
  rewrite IH by eauto using quiet_tail.
  cbn [rev]. now rewrite <- app_assoc.
Qed.

Lemma m_star_lazy_head cs b s cp :
  exists more, m_star_lazy cs b s cp = MState b s cp :: more.
Proof. destruct s; simpl; eauto. Qed.

(** ** Literals *)

Lemma lit_seq_miss ci p r b s cp :
  starts ci p s = false -> rmatch ci (Seq (Lit p) r) (MState b s cp) = [].
Proof.
  intros H. cbn [rmatch before after caps]. rewrite m_lit_spec, H. reflexivity.
Qed.

Lemma lit_miss ci p b s cp :
  starts ci p s = false -> rmatch ci (Lit p) (MState b s cp) = [].
Proof.
  intros H. cbn [rmatch before after caps]. rewrite m_lit_spec, H. reflexivity.
Qed.

Lemma starts_app ci p u s :
  length u = length p -> starts ci p (u ++ s) = starts ci p u.
Proof.
  revert u. induction p as [|a p IH]; intros [|c u] H; simpl in *; try lia; auto.
  now rewrite IH by lia.
Qed.

Lemma lit_seq_hit ci p r u b s cp :
  starts ci p u = true -> length u = length p ->
  rmatch ci (Seq (Lit p) r) (MState b (u ++ s) cp)
  = rmatch ci r (MState (rev u ++ b) s cp).
Proof.
  intros H Hl. cbn [rmatch before after caps]. rewrite m_lit_spec.
  rewrite starts_app, H by assumption.
  rewrite <- Hl, firstn_app, skipn_app, Nat.sub_diag, firstn_all, skipn_all.
  cbn [firstn skipn flat_map app]. now rewrite !app_nil_r.
Qed.

Lemma lit_hit ci p u b s cp :
  starts ci p u = true -> length u = length p ->
  rmatch ci (Lit p) (MState b (u ++ s) cp) = [MState (rev u ++ b) s cp].
Proof.
  intros H Hl. cbn [rmatch before after caps]. rewrite m_lit_spec.
  rewrite starts_app, H by assumption.
  rewrite <- Hl, firstn_app, skipn_app, Nat.sub_diag, firstn_all, skipn_all.
  cbn [firstn skipn flat_map app]. now rewrite !app_nil_r.
Qed.

Lemma blind_quiet_seq ci p r u s :
  blind ci p u s = true -> quiet (rmatch ci (Seq (Lit p) r)) u s.
Proof.
  induction u as [|c u IH]; intros H; [apply quiet_nil|].
  simpl in H. apply andb_prop in H. destruct H as [H0 H].
  apply quiet_cons; [|auto].
  intros b cp. apply lit_seq_miss. now apply negb_true_iff in H0.
Qed.

Lemma blind_quiet_lit ci p u s :
  blind ci p u s = true -> quiet (rmatch ci (Lit p)) u s.
Proof.
  induction u as [|c u IH]; intros H; [apply quiet_nil|].
  simpl in H. apply andb_prop in H. destruct H as [H0 H].
  apply quiet_cons; [|auto].
  intros b cp. apply lit_miss. now apply negb_true_iff in H0.
Qed.

Lemma blind_app ci p u1 u2 s :
  blind ci p (u1 ++ u2) s = blind ci p u1 (u2 ++ s) && blind ci p u2 s.
Proof.
  induction u1 as [|c u1 IH]; [reflexivity|].
  cbn [app blind]. rewrite IH, <- app_assoc, andb_assoc. reflexivity.
Qed.

Lemma blind_nochar ci a p u s :
  forallb (fun c => negb (chr_eq ci a c)) u = true ->
  blind ci (a :: p) u s = true.
Proof.
  induction u as [|c u IH]; [reflexivity|].
  simpl. intros H. apply andb_prop in H. destruct H as [Hc Hu].
  apply negb_true_iff in Hc. now rewrite Hc, IH.
Qed.

(** ** Characters that are not letters *)

Lemma upper_of_lower c : isLower c = true -> isUpper (toUpperChar c) = true.
Proof. destruct c as [[] [] [] [] [] [] [] []]; intros H; try reflexivity; discriminate H. Qed.

Lemma chr_eq_other ci a c :
  isUpper a = false -> isLower a = false -> chr_eq ci a c = Ascii.eqb a c.
Proof.
  intros Hu Hl. destruct ci; [|reflexivity].
  unfold chr_eq. unfold toUpperChar at 1. rewrite Hl.
  unfold toUpperChar. destruct (isLower c) eqn:Ec; [|reflexivity].
  destruct (Ascii.eqb a c) eqn:E1.
  - apply Ascii.eqb_eq in E1. subst c. congruence.
  - apply Ascii.eqb_neq. intros ->.
    pose proof (upper_of_lower c Ec) as H. unfold toUpperChar in H.
    rewrite Ec in H. congruence.
Qed.

(** ** Attribute values *)

Lemma value_tail_tl c t : value_tail (c :: t) -> value_tail t.
Proof.
  intros [H1 H2]. cbn [forallb] in H1. apply andb_prop in H1. destruct H1 as [_ H1].
  split; [assumption|]. destruct t; [reflexivity|]. exact H2.
Qed.

Lemma wf_field_tail t : wf_field t = true -> value_tail t.
Proof.
  unfold wf_field. intros H. apply andb_prop in H. destruct H as [H1 H2].
  split; [|now apply negb_true_iff in H2].
  apply forallb_forall. intros c Hc. rewrite forallb_forall in H1.
  specialize (H1 c Hc). unfold markup_char in H1.
  rewrite !negb_orb in H1. apply andb_prop in H1. destruct H1 as [H1 _].
  apply andb_prop in H1. destruct H1 as [H1 _].
  rewrite Ascii.eqb_sym. exact H1.
Qed.

(** The opening of an attribute, its name followed by the equals sign and
    the double quote, does not start inside an attribute value. *)
Lemma attr_not_in_value ci l0 l1 s : forall t,
  forallb (fun a => negb (chr_eq ci a dquote)) l0 = true ->
  value_tail t ->
  starts ci (l0 ++ "="%char :: dquote :: l1) (t ++ dquote :: s) = false.
Proof.
  induction l0 as [|a l0 IH]; intros t Hl [Ht He].
  - cbn [app]. destruct t as [|c t].
    + cbn [app starts]. now rewrite (chr_eq_other ci "="%char) by reflexivity.
    + cbn [app starts]. rewrite (chr_eq_other ci "="%char) by reflexivity.
      destruct t as [|c' t].
      * simpl in He. rewrite Ascii.eqb_sym, He. reflexivity.
      * cbn [app starts]. rewrite (chr_eq_other ci dquote) by reflexivity.
        cbn [forallb] in Ht. apply andb_prop in Ht. destruct Ht as [_ Ht].
        apply andb_prop in Ht. destruct Ht as [Hc' _].
        apply negb_true_iff in Hc'. rewrite Hc'. apply andb_false_r.
  - cbn [forallb] in Hl. apply andb_prop in Hl. destruct Hl as [Ha Hl].
    destruct t as [|c t].
    + cbn [app starts]. apply negb_true_iff in Ha. now rewrite Ha.
    + cbn [app starts]. rewrite (IH t Hl (value_tail_tl _ _ (conj Ht He))).
      apply andb_false_r.
Qed.

Lemma blind_attr ci l0 l1 s t :
  forallb (fun a => negb (chr_eq ci a dquote)) l0 = true ->
  value_tail t ->
  blind ci (l0 ++ "="%char :: dquote :: l1) t (dquote :: s) = true.
Proof.
  intros Hl. induction t as [|c t IH]; intros Ht; [reflexivity|].
  cbn [blind]. rewrite (attr_not_in_value ci l0 l1 s (c :: t) Hl Ht).
  cbn [negb andb]. apply IH. eapply value_tail_tl; eauto.
Qed.

(** ** Edge elements *)

Lemma rmatch_seq ci r1 r2 st :
  rmatch ci (Seq r1 r2) st = flat_map (rmatch ci r2) (rmatch ci r1 st).
Proof. reflexivity. Qed.

Lemma rmatch_seq_star ci cs r b s cp :
  rmatch ci (Seq (Star cs) r) (MState b s cp)
  = flat_map (rmatch ci r) (m_star cs b s cp).
Proof. reflexivity. Qed.

Lemma rmatch_seq_lazy ci cs r b s cp :
  rmatch ci (Seq (StarLazy cs) r) (MState b s cp)
  = flat_map (rmatch ci r) (m_star_lazy cs b s cp).
Proof. reflexivity. Qed.

Lemma blind_lt ci p u s :
  forallb (fun c => negb (Ascii.eqb c "<"%char)) u = true ->
  blind ci ("<"%char :: p) u s = true.
Proof.
  intros H. apply blind_nochar. apply forallb_forall. intros c Hc.
  rewrite forallb_forall in H. specialize (H c Hc).
  rewrite (chr_eq_other ci "<"%char) by reflexivity.
  now rewrite Ascii.eqb_sym.
Qed.

Lemma halts_gt s : halts (CNot gt) (gt :: s).
Proof. reflexivity. Qed.

(** The end of a tag and the first closing tag after it. *)
Lemma tag_end_first t body rest b cp :
  forallb (in_cset (CNot gt)) t = true ->
  blind true mxCell_close body (mxCell_close ++ rest) = true ->
  hd_error (rmatch true tag_end_pat
              (MState b (t ++ gt :: body ++ mxCell_close ++ rest) cp))
  = Some (MState (rev mxCell_close ++ rev body ++ gt :: rev t ++ b) rest cp).
Proof.
  intros Ht Hb. unfold tag_end_pat. rewrite rmatch_seq_star.
  rewrite star_through; [|assumption| |apply halts_gt].
  - change (gt :: body ++ mxCell_close ++ rest)
      with ([gt] ++ (body ++ mxCell_close ++ rest)).
    rewrite (lit_seq_hit true [gt] _ [gt]) by reflexivity.
    rewrite rmatch_seq_lazy.
    rewrite lazy_quiet by (now apply blind_quiet_lit).
    destruct (m_star_lazy_head CAny (rev body ++ rev [gt] ++ rev t ++ b)
                (mxCell_close ++ rest) cp) as [more ->].
    cbn [flat_map]. rewrite (lit_hit true mxCell_close mxCell_close) by reflexivity.
    reflexivity.
  - apply blind_quiet_seq. apply blind_nochar.
    apply forallb_forall. intros c Hc. rewrite forallb_forall in Ht.
    specialize (Ht c Hc). cbn [in_cset] in Ht.
    now rewrite (chr_eq_other true gt) by reflexivity.
Qed.

Lemma geometry_no_lt G :
  wf_geometry G = true -> forallb (fun c => negb (Ascii.eqb c "<"%char)) G = true.
Proof.
  unfold wf_geometry. intros H. apply andb_prop in H. destruct H as [H _].
  apply forallb_forall. intros c Hc. rewrite forallb_forall in H.
  specialize (H c Hc). apply andb_prop in H. tauto.
Qed.

Lemma body_blind_close G rest :
  wf_geometry G = true ->
  blind true mxCell_close (Q "<mxGeometry" ++ G ++ Q "/>") (mxCell_close ++ rest) = true.
Proof.
  intros H. rewrite !blind_app. apply andb_true_intro. split; [reflexivity|].
  apply andb_true_intro. split; [|reflexivity].
  apply blind_lt. now apply geometry_no_lt.
Qed.

(** Pieces of a tag: literal text is checked by computation, an attribute
    value by [blind_attr]. *)
Ltac blind_leaf l0 l1 :=
  first
    [ reflexivity
    | apply (blind_attr true l0 l1); [reflexivity | assumption] ].

Ltac blind_pieces l0 l1 :=
  repeat (rewrite blind_app; apply andb_true_intro; split);
  blind_leaf l0 l1.

Lemma not_gt_field t :
  value_tail t -> forallb (fun c => negb (markup_char c)) t = true ->
  forallb (in_cset (CNot gt)) t = true.
Proof.
  intros _ H. apply forallb_forall. intros c Hc. rewrite forallb_forall in H.
  specialize (H c Hc). unfold markup_char in H. rewrite !negb_orb in H.
  apply andb_prop in H. destruct H as [_ H]. cbn [in_cset].
  now rewrite Ascii.eqb_sym.
Qed.

Lemma wf_field_parts t : wf_field t = true -> wf_parts t.
Proof.
  intros H. split; [now apply wf_field_tail|].
  unfold wf_field in H. apply andb_prop in H. tauto.
Qed.

Lemma wf_cell_parts c :
  wf_cell c = true ->
  wf_parts (c_id c) /\ wf_parts (c_value c) /\ wf_parts (c_style c)
  /\ match c_kind c with
     | Vertex => True
     | Edge a b => wf_parts a /\ wf_parts b
     end
  /\ wf_geometry (c_geometry c) = true.
Proof.
  unfold wf_cell. rewrite !andb_true_iff. intros [[[[HI HV] HS] HK] HG].
  repeat split; try (apply wf_field_parts; assumption); try assumption.
  destruct (c_kind c) as [|a b]; [exact I|].
  cbn [wf_kind] in HK. apply andb_prop in HK.
  split; apply wf_field_parts; tauto.
Qed.

Lemma arrow_exec_edge I V S A B G rest b :
  wf_cell (Cell I V S (Edge A B) G) = true ->
  re_exec arrowRegex b (render_cell (Cell I V S (Edge A B) G) ++ rest)
  = Some (MState (rev (render_cell (Cell I V S (Edge A B) G)) ++ b) rest []).
Proof.
  intros Hwf. apply wf_cell_parts in Hwf.
  cbn [c_id c_value c_style c_kind c_geometry] in Hwf.
  destruct Hwf as ([I1 I2] & [V1 V2] & [S1 S2] & ([A1 A2] & [B1 B2]) & HG).
  unfold arrowRegex, compile. cbn [re_exec].
  change arrowRegex_pat
    with (Seq (Lit mxCell_open)
              (Seq (Star (CNot gt)) (Seq (Lit edge_attr) tag_end_pat))).
  unfold render_cell, cell_tag, cell_body, kind_attrs.
  cbn [c_id c_value c_style c_kind c_geometry].
  rewrite <- !app_assoc.
  rewrite (lit_seq_hit true mxCell_open _ mxCell_open) by reflexivity.
  rewrite rmatch_seq_star.
  match goal with
  | |- context [m_star _ _ ?t _] =>
      replace t with
        ((Q " id='" ++ I ++ Q "' value='" ++ V ++ Q "' style='" ++ S ++ Q "' ")
           ++ (edge_attr ++ Q " parent='1' source='" ++ A ++ Q "' target='" ++ B ++ Q "'")
           ++ (gt :: (Q "<mxGeometry" ++ G ++ Q "/>") ++ mxCell_close ++ rest))
        by (rewrite <- !app_assoc; reflexivity)
  end.
  rewrite star_unique.
  - rewrite <- app_assoc.
    rewrite (lit_seq_hit true edge_attr _ edge_attr) by reflexivity.
    rewrite tag_end_first.
    + f_equal. f_equal. rewrite !rev_app_distr, <- !app_assoc. reflexivity.
    + rewrite !forallb_app. repeat (apply andb_true_intro; split);
        try reflexivity; now apply not_gt_field.
    + now apply body_blind_close.
  - rewrite !forallb_app. repeat (apply andb_true_intro; split);
      try reflexivity; now apply not_gt_field.
  - apply blind_quiet_seq. blind_pieces (S_ "edge") (Q "1'").
  - apply blind_quiet_seq.
    change (tl (edge_attr ++ Q " parent='1' source='" ++ A ++ Q "' target='" ++ B ++ Q "'"))
      with (Q "dge='1' parent='1' source='" ++ A ++ Q "' target='" ++ B ++ Q "'").
    blind_pieces (S_ "edge") (Q "1'").
  - discriminate.
  - apply halts_gt.
  - intros b'. now apply lit_seq_miss.
Qed.

Ltac lt_pieces :=
  repeat (rewrite blind_app; apply andb_true_intro; split);
  first [ reflexivity | apply blind_lt; assumption ].

Lemma no_lt_field t :
  forallb (fun c => negb (markup_char c)) t = true ->
  forallb (fun c => negb (Ascii.eqb c "<"%char)) t = true.
Proof.
  intros H. apply forallb_forall. intros c Hc. rewrite forallb_forall in H.
  specialize (H c Hc). unfold markup_char in H. rewrite !negb_orb in H.
  apply andb_prop in H. destruct H as [H _]. apply andb_prop in H. tauto.
Qed.

Lemma arrow_exec_vertex I V S G rest b :
  wf_cell (Cell I V S Vertex G) = true ->
  re_exec arrowRegex b (render_cell (Cell I V S Vertex G) ++ rest) = None.
Proof.
  intros Hwf. apply wf_cell_parts in Hwf.
  cbn [c_id c_value c_style c_kind c_geometry] in Hwf.
  destruct Hwf as ([I1 I2] & [V1 V2] & [S1 S2] & _ & HG).
  unfold arrowRegex, compile. cbn [re_exec].
  change arrowRegex_pat
    with (Seq (Lit mxCell_open)
              (Seq (Star (CNot gt)) (Seq (Lit edge_attr) tag_end_pat))).
  unfold render_cell, cell_tag, cell_body, kind_attrs.
  cbn [c_id c_value c_style c_kind c_geometry].
  rewrite <- !app_assoc.
  rewrite (lit_seq_hit true mxCell_open _ mxCell_open) by reflexivity.
  rewrite rmatch_seq_star.
  match goal with
  | |- context [m_star _ _ ?t _] =>
      replace t with
        ((Q " id='" ++ I ++ Q "' value='" ++ V ++ Q "' style='" ++ S
            ++ Q "' vertex='1' parent='1'")
           ++ (gt :: (Q "<mxGeometry" ++ G ++ Q "/>") ++ mxCell_close ++ rest))
        by (rewrite <- !app_assoc; reflexivity)
  end.
  rewrite star_through.
  - now rewrite lit_seq_miss.
  - rewrite !forallb_app. repeat (apply andb_true_intro; split);
      try reflexivity; now apply not_gt_field.
  - apply blind_quiet_seq. blind_pieces (S_ "edge") (Q "1'").
  - apply halts_gt.
Qed.

Lemma arrow_exec_cell c rest b :
  wf_cell c = true ->
  re_exec arrowRegex b (render_cell c ++ rest)
  = if is_edge c then Some (MState (rev (render_cell c) ++ b) rest []) else None.
Proof.
  destruct c as [I V S [|A B] G]; intros H; unfold is_edge; cbn [c_kind].
  - now apply arrow_exec_vertex.
  - now apply arrow_exec_edge.
Qed.

(** No [<mxCell] starts inside a cell, after its first character. *)
Lemma cell_tail_blind c rest :
  wf_cell c = true -> blind true mxCell_open (tl (render_cell c)) rest = true.
Proof.
  intros Hwf. apply wf_cell_parts in Hwf.
  destruct c as [I V S k G].
  cbn [c_id c_value c_style c_kind c_geometry] in Hwf.
  destruct Hwf as ([I1 I2] & [V1 V2] & [S1 S2] & Hk & HG).
  apply no_lt_field in I2, V2, S2. apply geometry_no_lt in HG.
  unfold render_cell, cell_tag, cell_body, kind_attrs.
  cbn [c_id c_value c_style c_kind c_geometry].
  destruct k as [|A B].
  - change (tl (mxCell_open ++ ?x)) with (Q "mxCell" ++ x).
    rewrite <- !app_assoc. lt_pieces.
  - destruct Hk as [[A1 A2] [B1 B2]]. apply no_lt_field in A2, B2.
    change (tl (mxCell_open ++ ?x)) with (Q "mxCell" ++ x).
    rewrite <- !app_assoc. lt_pieces.
Qed.

Section CellScan.
Variable re : RegExp.
Variable P : cell -> bool.
Hypothesis exec_cell : forall c rest b,
  wf_cell c = true ->
  re_exec re b (render_cell c ++ rest)
  = if P c then Some (MState (rev (render_cell c) ++ b) rest []) else None.
Hypothesis exec_open : forall b s,
  starts true mxCell_open s = false -> re_exec re b s = None.
Hypothesis exec_header : forall b s u1 u2,
  header = u1 ++ u2 -> u2 <> [] -> re_exec re b (u2 ++ s) = None.

Lemma loops_dead t u : forall b s,
  (forall u1 u2 b', u = u1 ++ u2 -> u2 <> [] -> re_exec re b' (u2 ++ s) = None) ->
  scan re b (u ++ s) 0 = scan re (rev u ++ b) s 0
  /\ replace_loop re t b (u ++ s) 0 = u ++ replace_loop re t (rev u ++ b) s 0.
Proof.
  induction u as [|c u IH]; intros b s H; [split; reflexivity|].
  assert (He : re_exec re b (c :: u ++ s) = None).
  { apply (H [] (c :: u)); [reflexivity|discriminate]. }
  cbn [app]. rewrite (scan_miss _ _ _ _ He), (replace_loop_miss _ _ _ _ _ He).
  destruct (IH (c :: b) s) as [-> ->].
  - intros u1 u2 b' E Hne. apply (H (c :: u1) u2); [now rewrite E|assumption].
  - cbn [rev]. rewrite <- !app_assoc. split; reflexivity.
Qed.

Lemma blind_dead u s :
  blind true mxCell_open u s = true ->
  forall u1 u2 b', u = u1 ++ u2 -> u2 <> [] -> re_exec re b' (u2 ++ s) = None.
Proof.
  intros H u1 u2 b' -> Hne. apply exec_open.
  rewrite blind_app in H. apply andb_prop in H. destruct H as [_ H].
  destruct u2 as [|c u2]; [contradiction|].
  cbn [blind] in H. apply andb_prop in H. destruct H as [H _].
  now apply negb_true_iff in H.
Qed.

Lemma loops_cell c b rest :
  wf_cell c = true ->
  map m_text (scan re b (render_cell c ++ rest) 0)
  = (if P c then [render_cell c] else [])
      ++ map m_text (scan re (rev (render_cell c) ++ b) rest 0)
  /\ replace_loop re [] b (render_cell c ++ rest) 0
     = (if P c then [] else render_cell c)
         ++ replace_loop re [] (rev (render_cell c) ++ b) rest 0.
Proof.
  intros Hwf. pose proof (exec_cell c rest b Hwf) as He.
  assert (Hlen : 1 <= length (render_cell c)).
  { unfold render_cell. rewrite length_app. cbn. lia. }
  destruct (P c).
  - assert (Hend : endIndex (MState (rev (render_cell c) ++ b) rest [])
                   - length b = length (render_cell c)).
    { unfold endIndex. cbn [before]. rewrite length_app, length_rev. lia. }
    assert (Hl : 1 <= length (render_cell c) <= length (render_cell c ++ rest)).
    { rewrite length_app. lia. }
    rewrite (scan_hit _ _ _ _ _ He Hend Hl).
    rewrite (replace_loop_hit _ _ _ _ _ _ He Hend Hl).
    rewrite firstn_app, skipn_app, Nat.sub_diag, firstn_all, skipn_all.
    cbn [firstn skipn app map getSubstitution]. rewrite app_nil_r.
    split; [|reflexivity]. f_equal.
    unfold mres_of. cbn [m_text before]. rewrite Hend.
    rewrite <- (length_rev (render_cell c)), firstn_app, Nat.sub_diag, firstn_all.
    cbn [firstn]. now rewrite app_nil_r, rev_involutive.
  - destruct (render_cell c) as [|x t] eqn:E; [simpl in Hlen; lia|].
    cbn [app] in *. rewrite (scan_miss _ _ _ _ He), (replace_loop_miss _ _ _ _ _ He).
    pose proof (cell_tail_blind c rest Hwf) as Hb. rewrite E in Hb. cbn [tl] in Hb.
    destruct (loops_dead [] t (x :: b) rest (blind_dead _ _ Hb)) as [-> ->].
    cbn [rev]. rewrite <- !app_assoc. split; reflexivity.
Qed.

Lemma loops_cells cells : forall b rest,
  forallb wf_cell cells = true ->
  map m_text (scan re b (concat (map render_cell cells) ++ rest) 0)
  = map render_cell (filter P cells)
      ++ map m_text
           (scan re (rev (concat (map render_cell cells)) ++ b) rest 0)
  /\ replace_loop re [] b (concat (map render_cell cells) ++ rest) 0
     = concat (map render_cell (filter (fun c => negb (P c)) cells))
         ++ replace_loop re []
              (rev (concat (map render_cell cells)) ++ b) rest 0.
Proof.
  induction cells as [|c cells IH]; intros b rest Hwf; [split; reflexivity|].
  cbn [forallb] in Hwf. apply andb_prop in Hwf. destruct Hwf as [Hc Hcs].
  cbn [map concat filter]. rewrite <- !app_assoc.
  destruct (loops_cell c b (concat (map render_cell cells) ++ rest) Hc) as [-> ->].
  destruct (IH (rev (render_cell c) ++ b) rest Hcs) as [-> ->].
  rewrite rev_app_distr, <- !app_assoc.
  destruct (P c); cbn [negb map concat app]; rewrite <- ?app_assoc; split; reflexivity.
Qed.

Lemma loops_footer b :
  scan re b footer 0 = [] /\ replace_loop re [] b footer 0 = footer.
Proof.
  destruct (loops_dead [] footer b [] (blind_dead footer [] eq_refl)) as [H1 H2].
  rewrite app_nil_r in H1, H2. rewrite H1, H2.
  cbn [scan replace_loop]. rewrite exec_open by reflexivity.
  rewrite app_nil_r. split; reflexivity.
Qed.

Lemma loops_render cells :
  forallb wf_cell cells = true ->
  map m_text (scan re [] (render cells) 0) = map render_cell (filter P cells)
  /\ replace_re re (render cells) []
     = render (filter (fun c => negb (P c)) cells).
Proof.
  intros Hwf. unfold replace_re, render.
  destruct (loops_dead [] header []
              (concat (map render_cell cells) ++ footer)) as [-> ->].
  { intros u1 u2 b' E Hne. now apply (exec_header b' _ u1 u2). }
  destruct (loops_cells cells (rev header ++ []) footer Hwf) as [-> ->].
  destruct (loops_footer
              (rev (concat (map render_cell cells)) ++ rev header ++ []))
    as [-> ->].
  cbn [map]. rewrite !app_nil_r. split; reflexivity.
Qed.
End CellScan.

Lemma all_tails_spec Pr u :
  all_tails Pr u -> forall u1 u2, u = u1 ++ u2 -> u2 <> [] -> Pr u2.
Proof.
  induction u as [|c u IH]; intros H u1 u2 E Hne.
  - symmetry in E. apply app_eq_nil in E. destruct E as [_ ->]. contradiction.
  - destruct H as [H0 H]. destruct u1 as [|d u1].
    + cbn [app] in E. now subst u2.
    + cbn [app] in E. inversion E; subst. apply (IH H u1 u2); auto.
Qed.

Lemma exec_open_seq r g b s :
  starts true mxCell_open s = false ->
  re_exec (compile (Seq (Lit mxCell_open) r) true g) b s = None.
Proof.
  intros H. unfold compile. cbn [re_exec]. now rewrite lit_seq_miss.
Qed.

Ltac split_tails :=
  repeat match goal with
         | |- _ /\ _ => split
         | |- True => exact I
         end.

Lemma arrow_header b s u1 u2 :
  header = u1 ++ u2 -> u2 <> [] -> re_exec arrowRegex b (u2 ++ s) = None.
Proof.
  revert u1 u2.
  apply (all_tails_spec (fun u2 => re_exec arrowRegex b (u2 ++ s) = None)).
  unfold header; cbn [all_tails].
  split_tails; first [ apply exec_open_seq; reflexivity | reflexivity ].
Qed.

Lemma arrow_loops cells :
  forallb wf_cell cells = true ->
  map m_text (scan arrowRegex [] (render cells) 0)
  = map render_cell (filter is_edge cells)
  /\ replace_re arrowRegex (render cells) []
     = render (filter (fun c => negb (is_edge c)) cells).
Proof.
  apply loops_render.
  - intros c rest b H. now apply arrow_exec_cell.
  - intros b s H. now apply exec_open_seq.
  - intros b s u1 u2. apply arrow_header.
Qed.

Lemma removeConnections_render cells c1 c2 :
  forallb wf_cell cells = true ->
  truthy c1 && truthy c2 = false ->
  removeConnections (render cells) c1 c2
  = if 0 <? length (filter is_edge cells)
    then Result true (render (filter (fun c => negb (is_edge c)) cells))
                (arrows_removed (length (filter is_edge cells)))
    else Result false (render cells) (S_ "No connections found to remove").
Proof.
  intros Hwf Hc. unfold removeConnections. rewrite Hc.
  destruct (arrow_loops cells Hwf) as [Hs Hr].
  unfold matchAll. rewrite Hs, Hr.
  destruct (filter is_edge cells) as [|e es]; [reflexivity|].
  cbn [map length Nat.ltb Nat.leb]. rewrite length_map. reflexivity.
Qed.

(** C8, as amended.  On a diagram of well-formed cells, DisconnectEdges with
    at most one name deletes every edge element and reports their number,
    and fails when there is none; after it no edge element is left, and a
    second call fails, reporting nothing removed and leaving the text
    unchanged. *)
Theorem removeConnections_wipes_edges :
  forall cells c1 c2,
    forallb wf_cell cells = true ->
    truthy c1 && truthy c2 = false ->
    let kept := filter (fun c => negb (is_edge c)) cells in
    let k := length (filter is_edge cells) in
    removeConnections (render cells) c1 c2
    = (if 0 <? k then Result true (render kept) (arrows_removed k)
       else Result false (render cells) (S_ "No connections found to remove"))
    /\ filter is_edge kept = []
    /\ removeConnections (render kept) c1 c2
       = Result false (render kept) (S_ "No connections found to remove").
Proof.
  intros cells c1 c2 Hwf Hc kept k.
  assert (Hk : filter is_edge kept = []).
  { subst kept. induction cells as [|c cells IH]; [reflexivity|].
    cbn [forallb] in Hwf. apply andb_prop in Hwf. destruct Hwf as [_ Hwf].
    cbn [filter]. destruct (is_edge c) eqn:E; cbn [negb filter]; [auto|].
    rewrite E. auto. }
  assert (Hwf' : forallb wf_cell kept = true).
  { subst kept. apply forallb_forall. intros c Hc'.
    apply filter_In in Hc'. destruct Hc' as [Hc' _].
    rewrite forallb_forall in Hwf. auto. }
  repeat split.
  - now apply removeConnections_render.
  - exact Hk.
  - rewrite (removeConnections_render kept c1 c2 Hwf' Hc), Hk. reflexivity.
Qed.

Lemma removeConnections_wipes_edges_witness :
  removeConnections (render gpu_cpu) None None
  = Result true (render [node "2" "GPU"; node "3" "CPU"]) (arrows_removed 1)
  /\ removeConnections (render [node "2" "GPU"; node "3" "CPU"]) None None
     = Result false (render [node "2" "GPU"; node "3" "CPU"])
              (S_ "No connections found to remove").
Proof.
  destruct (removeConnections_wipes_edges gpu_cpu None None eq_refl eq_refl)
    as (H1 & _ & H2).
  split; [exact H1|exact H2].
Defined.

(** C8 as stated fails.  An edge whose label holds a raw closing angle
    bracket is not deleted by the wipe, which reports that there is no
    connection; and on a text where deleting one edge element splices
    another together, the second call succeeds again. *)
Lemma removeConnections_not_every_document :
  removeConnections (render [labelled_arrow]) None None
  = Result false (render [labelled_arrow]) (S_ "No connections found to remove")
  /\ removeConnections spliced_edges None None
     = Result true (Q "<mxCell edge='1'></mxCell>") (arrows_removed 1)
  /\ removeConnections (Q "<mxCell edge='1'></mxCell>") None None
     = Result true [] (arrows_removed 1).
Proof. repeat split; vm_compute; reflexivity. Qed.

(** ** A name inside an attribute value *)

Lemma hd_error_app {A} (l1 l2 : list A) :
  hd_error (l1 ++ l2) = match hd_error l1 with Some x => Some x | None => hd_error l2 end.
Proof. destruct l1; reflexivity. Qed.

(** A repetition followed by a literal that may occur several times in the
    stretch: when every occurrence leads to the same continuation, the
    first result is that of the continuation. *)
Lemma star_count ci p cs (f : mstate -> list mstate) (G : list mstate) s cp :
  forall u b,
  forallb (in_cset cs) u = true -> halts cs s ->
  (forall u1 u2, u = u1 ++ u2 ->
     f (MState (rev u1 ++ b) (u2 ++ s) cp) = if starts ci p u2 then G else []) ->
  hd_error (flat_map f (m_star cs b (u ++ s) cp))
  = if occurs ci p u then hd_error G else None.
Proof.
  induction u as [|c u IH]; intros b Hu Hs Hf.
  - cbn [app]. rewrite m_star_halts by assumption. cbn [flat_map].
    rewrite app_nil_r. pose proof (Hf [] [] eq_refl) as H0. cbn [rev app] in H0.
    rewrite H0. cbn [occurs].
    rewrite orb_false_r. now destruct (starts ci p []).
  - cbn [forallb] in Hu. apply andb_prop in Hu. destruct Hu as [Hc Hu].
    cbn [app m_star]. rewrite Hc, flat_map_app, hd_error_app.
    rewrite (IH (c :: b) Hu Hs).
    + cbn [flat_map]. rewrite app_nil_r.
      pose proof (Hf [] (c :: u) eq_refl) as H0. cbn [rev app] in H0.
      rewrite H0. cbn [occurs].
      destruct (occurs ci p u); [|now rewrite orb_false_r; destruct (starts ci p (c :: u))].
      rewrite orb_true_r. destruct (hd_error G) eqn:EG; [reflexivity|].
      destruct G; [|discriminate]. now destruct (starts ci p (c :: u)).
    + intros u1 u2 E. rewrite <- (Hf (c :: u1) u2) by now rewrite E.
      cbn [rev]. now rewrite <- app_assoc.
Qed.

(** A literal stops at a character it does not hold. *)
Lemma starts_stop ci p x s : forall t,
  forallb (fun a => negb (chr_eq ci a x)) p = true ->
  starts ci p (t ++ x :: s) = starts ci p t.
Proof.
  induction p as [|a p IH]; intros t H; [reflexivity|].
  cbn [forallb] in H. apply andb_prop in H. destruct H as [Ha Hp].
  destruct t as [|c t]; cbn [app starts].
  - apply negb_true_iff in Ha. now rewrite Ha.
  - now rewrite IH.
Qed.

Lemma starts_split ci p : forall t,
  starts ci p t = true ->
  exists t1 t2, t = t1 ++ t2 /\ length t1 = length p /\ starts ci p t1 = true.
Proof.
  induction p as [|a p IH]; intros t H.
  - exists [], t. auto.
  - destruct t as [|c t]; [discriminate|]. cbn [starts] in H.
    apply andb_prop in H. destruct H as [Hc H].
    destruct (IH t H) as (t1 & t2 & -> & Hl & Hs).
    exists (c :: t1), t2. cbn [app length starts]. rewrite Hc, Hs. auto.
Qed.

Lemma word_not_dquote c : isWordChar c = true -> negb (chr_eq true c dquote) = true.
Proof. destruct c as [[] [] [] [] [] [] [] []]; intros H; try reflexivity; discriminate H. Qed.

Lemma word_no_dquote N :
  forallb isWordChar N = true ->
  forallb (fun a => negb (chr_eq true a dquote)) N = true.
Proof.
  intros H. apply forallb_forall. intros c Hc. rewrite forallb_forall in H.
  now apply word_not_dquote, H.
Qed.

Lemma no_dquote_field t :
  value_tail t -> forallb (in_cset (CNot dquote)) t = true.
Proof. intros [H _]. exact H. Qed.

Lemma halts_dquote s : halts (CNot dquote) (dquote :: s).
Proof. reflexivity. Qed.

Lemma blind_dquote t s :
  forallb (in_cset (CNot dquote)) t = true -> blind true [dquote] t s = true.
Proof.
  intros H. apply blind_nochar. apply forallb_forall. intros c Hc.
  rewrite forallb_forall in H. specialize (H c Hc). cbn [in_cset] in H.
  now rewrite (chr_eq_other true dquote) by reflexivity.
Qed.

(** [[^']*NAME[^']*'] followed by [r], on an attribute value and its
    closing quote. *)
Lemma name_in_value N r V rest b cp :
  forallb (fun a => negb (chr_eq true a dquote)) N = true ->
  forallb (in_cset (CNot dquote)) V = true ->
  hd_error
    (rmatch true
       (Seq (Star (CNot dquote))
            (Seq (Lit N) (Seq (Star (CNot dquote)) (Seq (Lit [dquote]) r))))
       (MState b (V ++ dquote :: rest) cp))
  = if occurs true N V
    then hd_error (rmatch true r (MState (dquote :: rev V ++ b) rest cp))
    else None.
Proof.
  intros HN HV. rewrite rmatch_seq_star.
  apply star_count; [assumption|apply halts_dquote|].
  intros u1 u2 ->. rewrite forallb_app in HV. apply andb_prop in HV.
  destruct HV as [H1 H2].
  destruct (starts true N u2) eqn:E.
  - destruct (starts_split _ _ _ E) as (t1 & t2 & -> & Hl & Hs).
    rewrite <- app_assoc. rewrite (lit_seq_hit true N _ t1) by assumption.
    rewrite forallb_app in H2. apply andb_prop in H2. destruct H2 as [H2 H3].
    rewrite rmatch_seq_star, star_through;
      [|assumption|now apply blind_quiet_seq, blind_dquote|apply halts_dquote].
    change (dquote :: rest) with ([dquote] ++ rest).
    rewrite (lit_seq_hit true [dquote] _ [dquote]) by reflexivity.
    rewrite !rev_app_distr, <- !app_assoc. reflexivity.
  - apply lit_seq_miss. now rewrite starts_stop.
Qed.

(** Two accounts of the text passed so far are the same text. *)
Lemma rev_cons_app {A} (x : A) l : rev (x :: l) = rev l ++ [x].
Proof. reflexivity. Qed.

Ltac same_text :=
  apply rev_inj;
  repeat (rewrite ?rev_app_distr, ?rev_involutive, ?rev_cons_app);
  rewrite <- ?app_assoc; reflexivity.

(** ** The label pattern on a cell *)

Lemma kind_wf c : wf_cell c = true -> wf_kind_parts (c_kind c).
Proof. intros H. apply wf_cell_parts in H. tauto. Qed.

Lemma kind_not_gt k :
  wf_kind_parts k -> forallb (in_cset (CNot gt)) (kind_attrs k) = true.
Proof.
  destruct k as [|A B]; [reflexivity|]. intros [[A1 A2] [B1 B2]].
  unfold kind_attrs. rewrite !forallb_app.
  repeat (apply andb_true_intro; split); try reflexivity; now apply not_gt_field.
Qed.

Lemma kind_blind_value k s :
  wf_kind_parts k -> blind true value_eq (kind_attrs k) (gt :: s) = true.
Proof.
  destruct k as [|A B]; [reflexivity|]. intros [[A1 A2] [B1 B2]].
  unfold kind_attrs. blind_pieces (S_ "value") (@nil ascii).
Qed.

Lemma component_exec_cell N c rest b :
  forallb isWordChar N = true ->
  wf_cell c = true ->
  re_exec (compile (componentRegex_pat N) true 0) b (render_cell c ++ rest)
  = if label_has N c
    then Some (MState (rev (render_cell c) ++ b) rest []) else None.
Proof.
  intros HN Hwf. pose proof (kind_wf c Hwf) as Hk. apply wf_cell_parts in Hwf.
  destruct c as [I V S k G].
  cbn [c_id c_value c_style c_kind c_geometry] in *.
  destruct Hwf as ([I1 I2] & [V1 V2] & [S1 S2] & _ & HG).
  unfold compile, label_has. cbn [re_exec c_value].
  change (componentRegex_pat N)
    with (Seq (Lit mxCell_open)
            (Seq (Star (CNot gt))
               (Seq (Lit value_eq)
                  (Seq (Star (CNot dquote))
                     (Seq (Lit N)
                        (Seq (Star (CNot dquote))
                           (Seq (Lit [dquote]) tag_end_pat))))))).
  unfold render_cell, cell_tag, cell_body.
  cbn [c_id c_value c_style c_kind c_geometry].
  rewrite <- !app_assoc.
  rewrite (lit_seq_hit true mxCell_open _ mxCell_open) by reflexivity.
  rewrite rmatch_seq_star.
  match goal with
  | |- context [m_star _ _ ?t _] =>
      replace t with
        ((Q " id='" ++ I ++ Q "' ")
           ++ (value_eq ++ V ++ Q "' style='" ++ S ++ Q "'" ++ kind_attrs k)
           ++ (gt :: (Q "<mxGeometry" ++ G ++ Q "/>") ++ mxCell_close ++ rest))
        by (rewrite <- !app_assoc; reflexivity)
  end.
  pose proof (kind_not_gt k Hk) as Hkg.
  rewrite star_unique.
  - rewrite <- !app_assoc.
    rewrite (lit_seq_hit true value_eq _ value_eq) by reflexivity.
    change (Q "' style='" ++ ?x) with (dquote :: Q " style='" ++ x).
    rewrite name_in_value by (try apply word_no_dquote; try apply no_dquote_field; assumption).
    destruct (occurs true N V); [|reflexivity].
    match goal with
    | |- context [MState _ ?t _] =>
        replace t with
          ((Q " style='" ++ S ++ Q "'" ++ kind_attrs k)
             ++ gt :: (Q "<mxGeometry" ++ G ++ Q "/>") ++ mxCell_close ++ rest)
          by (rewrite <- !app_assoc; reflexivity)
    end.
    rewrite tag_end_first.
    + f_equal. f_equal. same_text.
    + rewrite !forallb_app. repeat (apply andb_true_intro; split);
        try reflexivity; try assumption; now apply not_gt_field.
    + now apply body_blind_close.
  - rewrite !forallb_app. repeat (apply andb_true_intro; split);
      try reflexivity; try assumption; now apply not_gt_field.
  - apply blind_quiet_seq. blind_pieces (S_ "value") (@nil ascii).
  - apply blind_quiet_seq.
    change (tl (value_eq ++ ?x)) with (Q "alue='" ++ x).
    repeat (rewrite blind_app; apply andb_true_intro; split);
      first [ reflexivity
            | apply (blind_attr true (S_ "value") []); [reflexivity|assumption]
            | now apply kind_blind_value ].
  - discriminate.
  - apply halts_gt.
  - intros b'. now apply lit_seq_miss.
Qed.

Lemma component_header N b s u1 u2 :
  header = u1 ++ u2 -> u2 <> [] ->
  re_exec (compile (componentRegex_pat N) true 0) b (u2 ++ s) = None.
Proof.
  revert u1 u2.
  apply (all_tails_spec
           (fun u2 => re_exec (compile (componentRegex_pat N) true 0) b (u2 ++ s) = None)).
  unfold header; cbn [all_tails].
  split_tails; first [ apply exec_open_seq; reflexivity | reflexivity ].
Qed.

Lemma component_loops N cells :
  forallb isWordChar N = true ->
  forallb wf_cell cells = true ->
  map m_text (scan (compile (componentRegex_pat N) true 0) [] (render cells) 0)
  = map render_cell (filter (label_has N) cells)
  /\ replace_re (compile (componentRegex_pat N) true 0) (render cells) []
     = render (filter (fun c => negb (label_has N c)) cells).
Proof.
  intros HN. apply loops_render.
  - intros c rest b H. now apply component_exec_cell.
  - intros b s H. now apply exec_open_seq.
  - intros b s u1 u2. apply component_header.
Qed.

(** ** The connection pattern on a cell *)

Lemma starts_app_pat ci p q : forall s,
  starts ci (p ++ q) s = starts ci p s && starts ci q (skipn (length p) s).
Proof.
  induction p as [|a p IH]; intros s; [reflexivity|].
  destruct s as [|c s]; [reflexivity|].
  cbn [app starts length skipn]. rewrite IH. now rewrite andb_assoc.
Qed.

Lemma firstn_plus {A} n m : forall (s : list A),
  firstn (n + m) s = firstn n s ++ firstn m (skipn n s).
Proof.
  induction n as [|n IH]; intros s; [reflexivity|].
  destruct s as [|c s]; [cbn [skipn]; now rewrite !firstn_nil|].
  cbn [Nat.add firstn skipn app]. now rewrite IH.
Qed.

Lemma lit_lit ci p q r st :
  rmatch ci (Seq (Lit p) (Seq (Lit q) r)) st = rmatch ci (Seq (Lit (p ++ q)) r) st.
Proof.
  destruct st as [b s cp].
  rewrite (rmatch_seq ci (Lit p)), (rmatch_seq ci (Lit (p ++ q))).
  cbn [rmatch before after caps]. rewrite !m_lit_spec, starts_app_pat.
  destruct (starts ci p s) eqn:Ep; [|reflexivity].
  cbn [flat_map andb]. rewrite app_nil_r.
  cbn [rmatch before after caps]. rewrite m_lit_spec.
  destruct (starts ci q (skipn (length p) s)) eqn:Eq; [|reflexivity].
  cbn [flat_map]. rewrite !app_nil_r. f_equal. f_equal.
  - rewrite length_app, firstn_plus, rev_app_distr, <- app_assoc. reflexivity.
  - rewrite length_app, skipn_skipn. f_equal. lia.
Qed.

Lemma alt_lit_split ci a b q r st :
  rmatch ci (Seq (Alt (Lit a) (Lit b)) (Seq (Lit q) r)) st
  = rmatch ci (Seq (Lit (a ++ q)) r) st ++ rmatch ci (Seq (Lit (b ++ q)) r) st.
Proof.
  rewrite <- !lit_lit. rewrite !rmatch_seq.
  change (rmatch ci (Alt (Lit a) (Lit b)) st)
    with (rmatch ci (Lit a) st ++ rmatch ci (Lit b) st).
  now rewrite flat_map_app.
Qed.

Lemma blind_quiet_alt ci a b q r u s :
  blind ci (a ++ q) u s = true -> blind ci (b ++ q) u s = true ->
  quiet (rmatch ci (Seq (Alt (Lit a) (Lit b)) (Seq (Lit q) r))) u s.
Proof.
  intros Ha Hb u1 u2 b' cp E Hne. rewrite alt_lit_split.
  rewrite (blind_quiet_seq ci (a ++ q) r u s Ha u1 u2 b' cp E Hne).
  now rewrite (blind_quiet_seq ci (b ++ q) r u s Hb u1 u2 b' cp E Hne).
Qed.

Lemma chr_eq_sym ci a c : chr_eq ci a c = chr_eq ci c a.
Proof. unfold chr_eq. destruct ci; apply Ascii.eqb_sym. Qed.

Lemma field_no_dquote t :
  value_tail t -> forallb (fun a => negb (chr_eq true a dquote)) t = true.
Proof.
  intros [H _]. apply forallb_forall. intros c Hc. rewrite forallb_forall in H.
  specialize (H c Hc). rewrite chr_eq_sym.
  now rewrite (chr_eq_other true dquote) by reflexivity.
Qed.

(** [ID'] followed by [r], on an attribute value and its closing quote:
    the value has to be the identifier, up to letter case. *)
Lemma id_is_value id r B rest b cp :
  value_tail id -> value_tail B ->
  rmatch true (Seq (Lit id) (Seq (Lit [dquote]) r)) (MState b (B ++ dquote :: rest) cp)
  = if eq_ci id B
    then rmatch true r (MState (dquote :: rev B ++ b) rest cp)
    else [].
Proof.
  intros Hid HB.
  destruct (starts true id (B ++ dquote :: rest)) eqn:E.
  - rewrite starts_stop in E by now apply field_no_dquote.
    destruct (starts_split _ _ _ E) as (t1 & t2 & -> & Hl & Hs).
    rewrite <- app_assoc. rewrite (lit_seq_hit true id _ t1) by assumption.
    destruct t2 as [|c t2].
    + cbn [app]. change (dquote :: rest) with ([dquote] ++ rest).
      rewrite (lit_seq_hit true [dquote] _ [dquote]) by reflexivity.
      rewrite app_nil_r.
      replace (eq_ci id t1) with true; [reflexivity|].
      symmetry. unfold eq_ci. apply str_eqb_eq.
      pose proof (starts_eq_ci _ _ Hs) as H. rewrite <- Hl, firstn_all in H. now symmetry.
    + replace (eq_ci id (t1 ++ c :: t2)) with false.
      * apply lit_seq_miss. cbn [app starts].
        destruct HB as [HB _]. rewrite forallb_app in HB.
        apply andb_prop in HB. destruct HB as [_ HB]. cbn [forallb] in HB.
        apply andb_prop in HB. destruct HB as [HB _].
        rewrite (chr_eq_other true dquote) by reflexivity.
        apply negb_true_iff in HB. now rewrite HB.
      * symmetry. destruct (eq_ci id (t1 ++ c :: t2)) eqn:E2; [|reflexivity].
        destruct (eq_ci_starts _ _ [] E2) as [_ H].
        rewrite length_app in H. cbn [length] in H. lia.
  - rewrite lit_seq_miss by assumption.
    destruct (eq_ci id B) eqn:E2; [|reflexivity].
    destruct (eq_ci_starts _ _ (dquote :: rest) E2) as [H _]. congruence.
Qed.

Lemma m_star_step cs b c x cp :
  in_cset cs c = true ->
  m_star cs b (c :: x) cp = m_star cs (c :: b) x cp ++ [MState b (c :: x) cp].
Proof. intros H. cbn [m_star]. now rewrite H. Qed.

Lemma connection_exec_edge id I V S A B G rest b :
  value_tail id ->
  wf_cell (Cell I V S (Edge A B) G) = true ->
  re_exec (compile (connectionRegex_pat id) true 0) b
          (render_cell (Cell I V S (Edge A B) G) ++ rest)
  = if eq_ci id A || eq_ci id B
    then Some (MState (rev (render_cell (Cell I V S (Edge A B) G)) ++ b) rest [])
    else None.
Proof.
  intros Hid Hwf. apply wf_cell_parts in Hwf.
  cbn [c_id c_value c_style c_kind c_geometry] in Hwf.
  destruct Hwf as ([I1 I2] & [V1 V2] & [S1 S2] & ([A1 A2] & [B1 B2]) & HG).
  unfold compile. cbn [re_exec].
  change (connectionRegex_pat id)
    with (Seq (Lit mxCell_open)
            (Seq (Star (CNot gt))
               (Seq (Alt (Lit (S_ "source")) (Lit (S_ "target")))
                  (Seq (Lit (Q "='")) (connection_tail id))))).
  unfold render_cell, cell_tag, cell_body, kind_attrs.
  cbn [c_id c_value c_style c_kind c_geometry].
  rewrite <- !app_assoc.
  rewrite (lit_seq_hit true mxCell_open _ mxCell_open) by reflexivity.
  rewrite rmatch_seq_star.
  match goal with
  | |- context [m_star _ _ ?t _] =>
      replace t with
        ((Q " id='" ++ I ++ Q "' value='" ++ V ++ Q "' style='" ++ S
            ++ Q "' edge='1' parent='1' ")
           ++ ("s"%char :: (Q "ource='" ++ A ++ Q "' ")
                 ++ (Q "target='" ++ B ++ Q "'")
                 ++ (gt :: (Q "<mxGeometry" ++ G ++ Q "/>") ++ mxCell_close ++ rest)))
        by (rewrite <- !app_assoc; reflexivity)
  end.
  rewrite star_quiet.
  2:{ rewrite !forallb_app. repeat (apply andb_true_intro; split);
        try reflexivity; now apply not_gt_field. }
  2:{ apply blind_quiet_alt.
      - change (S_ "source" ++ Q "='") with (S_ "source" ++ "="%char :: dquote :: []).
        blind_pieces (S_ "source") (@nil ascii).
      - change (S_ "target" ++ Q "='") with (S_ "target" ++ "="%char :: dquote :: []).
        blind_pieces (S_ "target") (@nil ascii). }
  rewrite m_star_step by reflexivity.
  rewrite flat_map_app, hd_error_app.
  rewrite star_unique.
  2:{ rewrite !forallb_app. repeat (apply andb_true_intro; split);
        try reflexivity; now apply not_gt_field. }
  2:{ apply blind_quiet_alt.
      - change (S_ "source" ++ Q "='") with (S_ "source" ++ "="%char :: dquote :: []).
        blind_pieces (S_ "source") (@nil ascii).
      - change (S_ "target" ++ Q "='") with (S_ "target" ++ "="%char :: dquote :: []).
        blind_pieces (S_ "target") (@nil ascii). }
  2:{ apply blind_quiet_alt.
      - change (S_ "source" ++ Q "='") with (S_ "source" ++ "="%char :: dquote :: []).
        change (tl (Q "target='" ++ ?x)) with (Q "arget='" ++ x).
        blind_pieces (S_ "source") (@nil ascii).
      - change (S_ "target" ++ Q "='") with (S_ "target" ++ "="%char :: dquote :: []).
        change (tl (Q "target='" ++ ?x)) with (Q "arget='" ++ x).
        blind_pieces (S_ "target") (@nil ascii). }
  2: discriminate.
  2: apply halts_gt.
  2:{ intros b'. rewrite alt_lit_split. now rewrite !lit_seq_miss. }
  (* the target attribute *)
  rewrite alt_lit_split. rewrite <- !app_assoc.
  rewrite lit_seq_miss by reflexivity. cbn [app].
  rewrite (lit_seq_hit true (S_ "target" ++ Q "='") _ (Q "target='")) by reflexivity.
  unfold connection_tail at 1.
  change (Q "'" ++ ?x) with (dquote :: x).
  rewrite id_is_value by assumption.
  (* the source attribute *)
  cbn [flat_map]. rewrite app_nil_r.
  rewrite alt_lit_split.
  match goal with
  | |- context [rmatch true (Seq (Lit (S_ "source" ++ _)) _) (MState _ ?t _)] =>
      replace t with
        (Q "source='" ++ A ++ dquote :: Q " target='" ++ B ++ Q "'"
           ++ gt :: Q "<mxGeometry" ++ G ++ Q "/>" ++ mxCell_close ++ rest)
        by (rewrite <- ?app_assoc; reflexivity)
  end.
  rewrite (lit_seq_hit true (S_ "source" ++ Q "='") _ (Q "source='")) by reflexivity.
  unfold connection_tail at 1.
  rewrite id_is_value by assumption.
  rewrite (lit_seq_miss true (S_ "target" ++ Q "='")) by reflexivity.
  rewrite app_nil_r.
  assert (Hend : forall t b0,
            forallb (in_cset (CNot gt)) t = true ->
            hd_error (rmatch true tag_end_pat
                        (MState b0 (t ++ gt :: Q "<mxGeometry" ++ G ++ Q "/>"
                                      ++ mxCell_close ++ rest) []))
            = Some (MState (rev mxCell_close ++ rev (Q "<mxGeometry" ++ G ++ Q "/>")
                              ++ gt :: rev t ++ b0) rest [])).
  { intros t b0 Ht.
    replace (t ++ gt :: Q "<mxGeometry" ++ G ++ Q "/>" ++ mxCell_close ++ rest)
      with (t ++ gt :: (Q "<mxGeometry" ++ G ++ Q "/>") ++ mxCell_close ++ rest)
      by (rewrite <- ?app_assoc; reflexivity).
    apply tag_end_first; [assumption|now apply body_blind_close]. }
  destruct (eq_ci id B).
  - rewrite orb_true_r. pose proof (Hend [] (dquote :: rev B ++ rev (Q "target='") ++ rev (Q "ource='" ++ A ++ Q "' ") ++ "s"%char :: rev (Q " id='" ++ I ++ Q "' value='" ++ V ++ Q "' style='" ++ S ++ Q "' edge='1' parent='1' ") ++ rev mxCell_open ++ b) eq_refl) as H0.
    cbn [app] in H0. cbn [app]. rewrite H0. f_equal. f_equal. same_text.
  - rewrite orb_false_r. cbn [hd_error]. destruct (eq_ci id A); [|reflexivity].
    match goal with
    | |- context [MState _ ?t _] =>
        replace t with
          ((Q " target='" ++ B ++ Q "'")
             ++ gt :: Q "<mxGeometry" ++ G ++ Q "/>" ++ mxCell_close ++ rest)
          by (rewrite <- !app_assoc; reflexivity)
    end.
    rewrite Hend.
    + f_equal. f_equal. same_text.
    + rewrite !forallb_app. repeat (apply andb_true_intro; split);
        try reflexivity; now apply not_gt_field.
Qed.

Lemma connection_exec_vertex id I V S G rest b :
  wf_cell (Cell I V S Vertex G) = true ->
  re_exec (compile (connectionRegex_pat id) true 0) b
          (render_cell (Cell I V S Vertex G) ++ rest) = None.
Proof.
  intros Hwf. apply wf_cell_parts in Hwf.
  cbn [c_id c_value c_style c_kind c_geometry] in Hwf.
  destruct Hwf as ([I1 I2] & [V1 V2] & [S1 S2] & _ & HG).
  unfold compile. cbn [re_exec].
  change (connectionRegex_pat id)
    with (Seq (Lit mxCell_open)
            (Seq (Star (CNot gt))
               (Seq (Alt (Lit (S_ "source")) (Lit (S_ "target")))
                  (Seq (Lit (Q "='")) (connection_tail id))))).
  unfold render_cell, cell_tag, cell_body, kind_attrs.
  cbn [c_id c_value c_style c_kind c_geometry].
  rewrite <- !app_assoc.
  rewrite (lit_seq_hit true mxCell_open _ mxCell_open) by reflexivity.
  rewrite rmatch_seq_star.
  match goal with
  | |- context [m_star _ _ ?t _] =>
      replace t with
        ((Q " id='" ++ I ++ Q "' value='" ++ V ++ Q "' style='" ++ S
            ++ Q "' vertex='1' parent='1'")
           ++ (gt :: (Q "<mxGeometry" ++ G ++ Q "/>") ++ mxCell_close ++ rest))
        by (rewrite <- !app_assoc; reflexivity)
  end.
  rewrite star_through.
  - rewrite alt_lit_split. now rewrite !lit_seq_miss.
  - rewrite !forallb_app. repeat (apply andb_true_intro; split);
      try reflexivity; now apply not_gt_field.
  - apply blind_quiet_alt.
    + change (S_ "source" ++ Q "='") with (S_ "source" ++ "="%char :: dquote :: []).
      blind_pieces (S_ "source") (@nil ascii).
    + change (S_ "target" ++ Q "='") with (S_ "target" ++ "="%char :: dquote :: []).
      blind_pieces (S_ "target") (@nil ascii).
  - apply halts_gt.
Qed.

Lemma connection_exec_cell id c rest b :
  value_tail id -> wf_cell c = true ->
  re_exec (compile (connectionRegex_pat id) true 0) b (render_cell c ++ rest)
  = if refers_to id c
    then Some (MState (rev (render_cell c) ++ b) rest []) else None.
Proof.
  destruct c as [I V S [|A B] G]; intros Hid H; unfold refers_to; cbn [c_kind].
  - now apply connection_exec_vertex.
  - now apply connection_exec_edge.
Qed.

Lemma connection_header id b s u1 u2 :
  header = u1 ++ u2 -> u2 <> [] ->
  re_exec (compile (connectionRegex_pat id) true 0) b (u2 ++ s) = None.
Proof.
  revert u1 u2.
  apply (all_tails_spec
           (fun u2 => re_exec (compile (connectionRegex_pat id) true 0) b (u2 ++ s) = None)).
  unfold header; cbn [all_tails].
  split_tails; first [ apply exec_open_seq; reflexivity | reflexivity ].
Qed.

Lemma connection_loops id cells :
  value_tail id ->
  forallb wf_cell cells = true ->
  replace_re (compile (connectionRegex_pat id) true 0) (render cells) []
  = render (filter (fun c => negb (refers_to id c)) cells).
Proof.
  intros Hid Hwf.
  apply (loops_render (compile (connectionRegex_pat id) true 0) (refers_to id)); auto.
  - intros c rest b H. now apply connection_exec_cell.
  - intros b s H. now apply exec_open_seq.
  - intros b s u1 u2. apply connection_header.
Qed.

(** ** The identifier pattern *)

Lemma lit_char_hit ci a r b s cp :
  rmatch ci (Seq (Lit [a]) r) (MState b (a :: s) cp)
  = rmatch ci r (MState (a :: b) s cp).
Proof.
  change (a :: s) with ([a] ++ s).
  rewrite (lit_seq_hit ci [a] r [a]); [reflexivity| |reflexivity].
  cbn [starts]. now rewrite chr_eq_refl.
Qed.

Lemma starts_dquote_cons x s :
  negb (Ascii.eqb dquote x) = true -> starts true [dquote] ((x :: s)) = false.
Proof.
  intros H. change (starts true [dquote] (x :: s)) with (chr_eq true dquote x && true).
  rewrite (chr_eq_other true dquote) by reflexivity.
  apply negb_true_iff in H. now rewrite H.
Qed.

Lemma rmatch_seq_ext ci r1 r2 r2' st :
  (forall st', rmatch ci r2 st' = rmatch ci r2' st') ->
  rmatch ci (Seq r1 r2) st = rmatch ci (Seq r1 r2') st.
Proof.
  intros H. rewrite !rmatch_seq. apply flat_map_ext. exact H.
Qed.

Lemma lit_as_seq ci p st : rmatch ci (Lit p) st = rmatch ci (Seq (Lit p) (Lit [])) st.
Proof.
  rewrite rmatch_seq. induction (rmatch ci (Lit p) st) as [|x l IH]; [reflexivity|].
  cbn [flat_map]. rewrite <- IH. destruct x. reflexivity.
Qed.

Lemma rmatch_seq_grp_star ci n cs r b s cp :
  rmatch ci (Seq (Grp n (Star cs)) r) (MState b s cp)
  = flat_map (fun st' => rmatch ci r (set_cap n (MState b s cp) st'))
             (m_star cs b s cp).
Proof.
  rewrite rmatch_seq. cbn [rmatch before after caps].
  induction (m_star cs b s cp) as [|x l IH]; [reflexivity|].
  cbn [map flat_map]. now rewrite IH.
Qed.

Lemma captured_app b s cp u s' cp' :
  captured (MState b s cp) (MState (rev u ++ b) s' cp') = u.
Proof.
  unfold captured, endIndex. cbn [before].
  rewrite length_app, length_rev, Nat.add_sub.
  rewrite <- (length_rev u), firstn_app, Nat.sub_diag, firstn_all.
  cbn [firstn]. now rewrite app_nil_r, rev_involutive.
Qed.

Lemma blind_not_occurs ci p x s u :
  forallb (fun a => negb (chr_eq ci a x)) p = true ->
  occurs ci p u = false -> blind ci p u (x :: s) = true.
Proof.
  intros Hp. induction u as [|c u IH]; intros H; [reflexivity|].
  cbn [occurs] in H. apply orb_false_elim in H. destruct H as [H0 H].
  cbn [blind]. change (c :: u ++ x :: s) with ((c :: u) ++ x :: s).
  rewrite starts_stop by assumption. rewrite H0. cbn [negb andb]. auto.
Qed.

Lemma kind_blind_id k s :
  wf_kind_parts k -> blind true id_open (kind_attrs k) (gt :: s) = true.
Proof.
  destruct k as [|A B]; [reflexivity|]. intros [[A1 A2] [B1 B2]].
  unfold kind_attrs. blind_pieces (S_ "id") (@nil ascii).
Qed.

Lemma idRegex_seq_eq N st :
  rmatch true (idRegex_pat N) st = rmatch true (idRegex_seq N) st.
Proof.
  unfold idRegex_pat, idRegex_seq. cbn [seqs].
  repeat (apply rmatch_seq_ext; intros). apply lit_as_seq.
Qed.

Lemma id_exec_attr N c rest b :
  forallb isWordChar N = true ->
  wf_cell c = true ->
  exists tail,
    render_cell c = Q "<mxCell " ++ id_open ++ tail /\
    blind true id_open tail rest = true /\
    re_exec (compile (idRegex_pat N) true 1) b (id_open ++ tail ++ rest)
    = if label_has N c
      then Some (MState (dquote :: rev (c_value c) ++ rev value_eq ++ rev (Q " ")
                           ++ dquote :: rev (c_id c) ++ rev id_open ++ b)
                        (Q " style='" ++ c_style c ++ Q "'" ++ kind_attrs (c_kind c)
                           ++ gt :: cell_body c ++ mxCell_close ++ rest)
                        [(1, c_id c)])
      else None.
Proof.
  intros HN Hwf. pose proof (kind_wf c Hwf) as Hk. apply wf_cell_parts in Hwf.
  destruct c as [I V S k G].
  cbn [c_id c_value c_style c_kind c_geometry] in *.
  destruct Hwf as ([I1 I2] & [V1 V2] & [S1 S2] & _ & HG).
  exists (I ++ Q "' value='" ++ V ++ Q "' style='" ++ S ++ Q "'" ++ kind_attrs k
            ++ [gt] ++ (Q "<mxGeometry" ++ G ++ Q "/>") ++ mxCell_close).
  split; [|split].
  - unfold render_cell, cell_tag, cell_body.
    cbn [c_id c_value c_style c_kind c_geometry].
    rewrite <- ?app_assoc. reflexivity.
  - unfold wf_geometry in HG. apply andb_prop in HG. destruct HG as [_ HG].
    apply negb_true_iff in HG.
    pose proof (kind_blind_id k) as Hkb.
    rewrite <- ?app_assoc.
    repeat (rewrite blind_app; apply andb_true_intro; split);
      first [ reflexivity
            | apply (blind_attr true (S_ "id") []); [reflexivity|assumption]
            | now apply Hkb
            | now apply (blind_not_occurs true id_open "/"%char) ].
  - unfold compile, label_has. cbn [re_exec c_value].
    rewrite idRegex_seq_eq. unfold idRegex_seq.
    rewrite (lit_seq_hit true id_open _ id_open) by reflexivity.
    rewrite <- !app_assoc.
    change (Q "' value='" ++ ?x) with (dquote :: Q " value='" ++ x).
    rewrite rmatch_seq_grp_star.
    rewrite star_through;
      [|now apply no_dquote_field| |apply halts_dquote].
    2:{ intros u1 u2 b' cp E Hne. unfold set_cap. cbn [before after caps].
        apply lit_seq_miss. destruct u2 as [|x u2]; [contradiction|].
        destruct I1 as [I1 _]. rewrite E, forallb_app in I1.
        apply andb_prop in I1. destruct I1 as [_ I1]. cbn [forallb] in I1.
        apply andb_prop in I1. destruct I1 as [I1 _].
        now apply starts_dquote_cons. }
    unfold set_cap. cbn [before after caps]. rewrite captured_app.
    rewrite lit_char_hit.
    rewrite rmatch_seq_star.
    match goal with
    | |- context [m_star _ _ ?t _] =>
        replace t with
          ((Q " ")
             ++ (value_eq ++ V ++ Q "' style='" ++ S ++ Q "'" ++ kind_attrs k)
             ++ (gt :: (Q "<mxGeometry" ++ G ++ Q "/>") ++ mxCell_close ++ rest))
          by (rewrite <- !app_assoc; reflexivity)
    end.
    pose proof (kind_not_gt k Hk) as Hkg.
    rewrite star_unique.
    + rewrite <- !app_assoc.
      rewrite (lit_seq_hit true value_eq _ value_eq) by reflexivity.
      change (Q "' style='" ++ ?x) with (dquote :: Q " style='" ++ x).
      rewrite name_in_value by (try apply word_no_dquote; try apply no_dquote_field; assumption).
      destruct (occurs true N V); [|reflexivity].
      cbn [rmatch m_lit before after caps hd_error].
      f_equal. f_equal. unfold cell_body. cbn [c_geometry].
      rewrite <- ?app_assoc. reflexivity.
    + rewrite !forallb_app. repeat (apply andb_true_intro; split);
        try reflexivity; try assumption; now apply not_gt_field.
    + apply blind_quiet_seq. reflexivity.
    + apply blind_quiet_seq.
      change (tl (value_eq ++ ?x)) with (Q "alue='" ++ x).
      repeat (rewrite blind_app; apply andb_true_intro; split);
        first [ reflexivity
              | apply (blind_attr true (S_ "value") []); [reflexivity|assumption]
              | now apply kind_blind_value ].
    + discriminate.
    + apply halts_gt.
    + intros b'. now apply lit_seq_miss.
Qed.

Lemma search_dead re u : forall b s,
  (forall u1 u2 b', u = u1 ++ u2 -> u2 <> [] -> re_exec re b' (u2 ++ s) = None) ->
  search re b (u ++ s) = search re (rev u ++ b) s.
Proof.
  induction u as [|c u IH]; intros b s H; [reflexivity|].
  pose proof (H [] (c :: u) b eq_refl) as H0. cbn [app] in H0.
  cbn [app search]. rewrite H0 by discriminate.
  rewrite IH.
  - cbn [rev]. now rewrite <- app_assoc.
  - intros u1 u2 b' E Hne. apply (H (c :: u1) u2); [now rewrite E|assumption].
Qed.

Lemma search_hit re b s st :
  re_exec re b s = Some st -> search re b s = Some (mres_of b st).
Proof. intros H. destruct s; cbn [search]; now rewrite H. Qed.

Lemma search_miss re b c s :
  re_exec re b (c :: s) = None -> search re b (c :: s) = search re (c :: b) s.
Proof. intros H. cbn [search]. now rewrite H. Qed.

Lemma id_exec_open N b s :
  starts true id_open s = false ->
  re_exec (compile (idRegex_pat N) true 1) b s = None.
Proof.
  intros H. unfold compile. cbn [re_exec]. rewrite idRegex_seq_eq.
  unfold idRegex_seq. now rewrite lit_seq_miss.
Qed.

Lemma id_blind_dead N u s :
  blind true id_open u s = true ->
  forall u1 u2 b', u = u1 ++ u2 -> u2 <> [] ->
  re_exec (compile (idRegex_pat N) true 1) b' (u2 ++ s) = None.
Proof.
  intros H u1 u2 b' -> Hne. apply id_exec_open.
  rewrite blind_app in H. apply andb_prop in H. destruct H as [_ H].
  destruct u2 as [|c u2]; [contradiction|].
  cbn [blind] in H. apply andb_prop in H. destruct H as [H _].
  now apply negb_true_iff in H.
Qed.

Lemma id_search_cell N c rest b :
  forallb isWordChar N = true ->
  wf_cell c = true ->
  if label_has N c
  then exists m, search (compile (idRegex_pat N) true 1) b (render_cell c ++ rest) = Some m
                 /\ m_caps m = [(1, c_id c)]
  else search (compile (idRegex_pat N) true 1) b (render_cell c ++ rest)
       = search (compile (idRegex_pat N) true 1) (rev (render_cell c) ++ b) rest.
Proof.
  intros HN Hwf.
  destruct (id_exec_attr N c rest (rev (Q "<mxCell ") ++ b) HN Hwf)
    as (tail & Ecell & Hblind & Hexec).
  rewrite Ecell, <- !app_assoc.
  rewrite (search_dead _ (Q "<mxCell ")) by (apply id_blind_dead; reflexivity).
  change (id_open ++ tail ++ rest) with ("i"%char :: (Q "d='" ++ tail) ++ rest) in *.
  destruct (label_has N c).
  - rewrite (search_hit _ _ _ _ Hexec). eexists. split; reflexivity.
  - rewrite (search_miss _ _ _ _ Hexec).
    rewrite (search_dead _ (Q "d='" ++ tail)).
    + f_equal. same_text.
    + apply id_blind_dead. rewrite blind_app. now rewrite Hblind.
Qed.

Lemma id_search_cells N cells : forall b,
  forallb isWordChar N = true ->
  forallb wf_cell cells = true ->
  match find (label_has N) cells with
  | Some c0 =>
      exists m, search (compile (idRegex_pat N) true 1) b
                       (concat (map render_cell cells) ++ footer) = Some m
                /\ m_caps m = [(1, c_id c0)]
  | None =>
      search (compile (idRegex_pat N) true 1) b
             (concat (map render_cell cells) ++ footer) = None
  end.
Proof.
  induction cells as [|c cells IH]; intros b HN Hwf.
  - cbn [find map concat app].
    rewrite <- (app_nil_r footer).
    rewrite search_dead by (apply id_blind_dead; reflexivity).
    cbn [search]. now rewrite id_exec_open.
  - cbn [forallb] in Hwf. apply andb_prop in Hwf. destruct Hwf as [Hc Hcs].
    cbn [find map concat]. rewrite <- app_assoc.
    pose proof (id_search_cell N c (concat (map render_cell cells) ++ footer) b HN Hc) as H.
    destruct (label_has N c); [exact H|].
    rewrite H. apply IH; assumption.
Qed.

Lemma id_header N b s u1 u2 :
  header = u1 ++ u2 -> u2 <> [] ->
  re_exec (compile (idRegex_pat N) true 1) b (u2 ++ s) = None.
Proof.
  revert u1 u2.
  apply (all_tails_spec
           (fun u2 => re_exec (compile (idRegex_pat N) true 1) b (u2 ++ s) = None)).
  unfold header; cbn [all_tails].
  split_tails; first [ apply id_exec_open; reflexivity | reflexivity ].
Qed.

Lemma id_search N cells :
  forallb isWordChar N = true ->
  forallb wf_cell cells = true ->
  match find (label_has N) cells with
  | Some c0 =>
      exists m, match_first (compile (idRegex_pat N) true 1) (render cells) = Some m
                /\ group 1 (m_caps m) = Some (c_id c0)
  | None => match_first (compile (idRegex_pat N) true 1) (render cells) = None
  end.
Proof.
  intros HN Hwf. unfold match_first, render.
  rewrite search_dead by (intros u1 u2 b'; apply id_header).
  pose proof (id_search_cells N cells (rev header ++ []) HN Hwf) as H.
  destruct (find (label_has N) cells); [|exact H].
  destruct H as (m & -> & Hm). exists m. split; [reflexivity|]. now rewrite Hm.
Qed.

(** ** Deleting the first occurrence of a cell *)

Lemma starts_exact p : forall s,
  starts false p s = true <-> exists r, s = p ++ r.
Proof.
  induction p as [|a p IH]; intros s.
  - split; [intros _; now exists s|reflexivity].
  - destruct s as [|c s].
    + split; [discriminate|]. intros [r E]. discriminate.
    + cbn [starts chr_eq]. rewrite andb_true_iff, Ascii.eqb_eq, IH. split.
      * intros [-> [r ->]]. now exists r.
      * intros [r E]. cbn [app] in E. inversion E. split; [reflexivity|now exists r].
Qed.

Lemma starts_self p r : starts false p (p ++ r) = true.
Proof. apply starts_exact. now exists r. Qed.

Lemma split_at_stop x : forall u u' s s',
  forallb (fun c => negb (Ascii.eqb x c)) u = true ->
  forallb (fun c => negb (Ascii.eqb x c)) u' = true ->
  u ++ x :: s = u' ++ x :: s' -> u = u' /\ s = s'.
Proof.
  induction u as [|c u IH]; intros [|c' u'] s s' Hu Hu' E; cbn [app forallb] in *.
  - injection E as ->. auto.
  - injection E as <- _. apply andb_prop in Hu'. destruct Hu' as [H _].
    rewrite Ascii.eqb_refl in H. discriminate.
  - injection E as -> _. apply andb_prop in Hu. destruct Hu as [H _].
    rewrite Ascii.eqb_refl in H. discriminate.
  - injection E as -> E. apply andb_prop in Hu, Hu'.
    destruct (IH u' s s') as [-> ->]; tauto.
Qed.

Lemma indexOf_hit s p : starts false p s = true -> indexOf s p = Some 0.
Proof. intros H. destruct s; cbn [indexOf]; now rewrite H. Qed.

Lemma indexOf_dead p u : forall s,
  all_tails (fun u2 => starts false p (u2 ++ s) = false) u ->
  indexOf (u ++ s) p = option_map (Nat.add (length u)) (indexOf s p).
Proof.
  induction u as [|c u IH]; intros s H.
  - cbn [app length]. now destruct (indexOf s p).
  - destruct H as [H0 H]. cbn [app indexOf]. cbn [app] in H0. rewrite H0.
    rewrite (IH s H). now destruct (indexOf s p).
Qed.

Lemma all_tails_app Pr u1 u2 :
  all_tails (fun t => Pr (t ++ u2)) u1 -> all_tails Pr u2 -> all_tails Pr (u1 ++ u2).
Proof.
  induction u1 as [|c u1 IH]; intros H1 H2; [exact H2|].
  destruct H1 as [H0 H1]. split; [exact H0|auto].
Qed.

Lemma all_tails_imp (Pr Pr' : str -> Prop) u :
  (forall t, Pr t -> Pr' t) -> all_tails Pr u -> all_tails Pr' u.
Proof.
  intros H. induction u as [|c u IH]; [auto|]. intros [H0 H1]. split; auto.
Qed.

Lemma blind_all_tails ci p u s :
  blind ci p u s = true -> all_tails (fun t => starts ci p (t ++ s) = false) u.
Proof.
  induction u as [|c u IH]; intros H; [exact I|].
  cbn [blind] in H. apply andb_prop in H. destruct H as [H0 H].
  split; [now apply negb_true_iff in H0|auto].
Qed.

Lemma starts_prefix ci p q s : starts ci (p ++ q) s = true -> starts ci p s = true.
Proof.
  rewrite starts_app_pat. intros H. apply andb_prop in H. tauto.
Qed.

Lemma starts_ci p : forall s, starts false p s = true -> starts true p s = true.
Proof.
  induction p as [|a p IH]; intros [|c s]; cbn [starts]; auto.
  intros H. apply andb_prop in H. destruct H as [Hc H].
  cbn [chr_eq] in Hc. apply Ascii.eqb_eq in Hc. subst c.
  rewrite chr_eq_refl. cbn [andb]. auto.
Qed.

(** A cell text only starts where [<mxCell] starts. *)
Lemma cell_needs_open c s :
  starts true mxCell_open s = false -> starts false (render_cell c) s = false.
Proof.
  intros H. destruct (starts false (render_cell c) s) eqn:E; [|reflexivity].
  unfold render_cell in E. apply starts_prefix, starts_ci in E. congruence.
Qed.

Lemma tag_not_gt c :
  wf_cell c = true -> forallb (fun x => negb (Ascii.eqb gt x)) (mxCell_open ++ cell_tag c) = true.
Proof.
  intros Hwf. pose proof (kind_not_gt _ (kind_wf c Hwf)) as Hk.
  apply wf_cell_parts in Hwf. destruct Hwf as ([I1 I2] & [V1 V2] & [S1 S2] & _ & HG).
  apply not_gt_field in I2, V2, S2; try assumption.
  unfold cell_tag. rewrite !forallb_app.
  repeat (apply andb_true_intro; split); try reflexivity; assumption.
Qed.

Lemma geometry_not_gt c :
  wf_cell c = true ->
  forallb (fun x => negb (Ascii.eqb gt x)) (Q "<mxGeometry" ++ c_geometry c ++ Q "/") = true.
Proof.
  intros Hwf. apply wf_cell_parts in Hwf. destruct Hwf as (_ & _ & _ & _ & HG).
  unfold wf_geometry in HG. apply andb_prop in HG. destruct HG as [HG _].
  rewrite !forallb_app. repeat (apply andb_true_intro; split); try reflexivity.
  apply forallb_forall. intros x Hx. rewrite forallb_forall in HG.
  specialize (HG x Hx). apply andb_prop in HG. destruct HG as [_ HG].
  now rewrite Ascii.eqb_sym.
Qed.

(** Two cells that start at the same place are the same text. *)
Lemma render_cell_prefix c c' r r' :
  wf_cell c = true -> wf_cell c' = true ->
  render_cell c ++ r = render_cell c' ++ r' ->
  render_cell c = render_cell c' /\ r = r'.
Proof.
  intros Hc Hc' E.
  assert (Hshape : forall d x,
            render_cell d ++ x
            = (mxCell_open ++ cell_tag d)
                ++ gt :: (Q "<mxGeometry" ++ c_geometry d ++ Q "/")
                ++ gt :: mxCell_close ++ x).
  { intros d x. unfold render_cell, cell_body. rewrite <- !app_assoc. reflexivity. }
  rewrite !Hshape in E.
  apply split_at_stop in E; try now apply tag_not_gt.
  destruct E as [E1 E].
  apply split_at_stop in E; try now apply geometry_not_gt.
  destruct E as [E2 E]. apply app_inv_head in E.
  split; [|exact E].
  rewrite <- (app_nil_r (render_cell c)), <- (app_nil_r (render_cell c')).
  rewrite !Hshape. now rewrite E1, E2.
Qed.

Lemma header_cell_tail c J Z :
  wf_cell c = true ->
  forallb (fun x => negb (Ascii.eqb dquote x)) J = true ->
  starts false (Q " v") Z = false ->
  starts false (render_cell c) (mxCell_open ++ Q " id='" ++ J ++ dquote :: Z) = false.
Proof.
  intros Hwf HJ HZ.
  destruct (starts false (render_cell c) _) eqn:E; [|reflexivity].
  exfalso. apply starts_exact in E. destruct E as [r E].
  apply wf_cell_parts in Hwf. destruct Hwf as ([[I1 _] _] & _).
  unfold render_cell, cell_tag in E. rewrite <- !app_assoc in E.
  apply app_inv_head in E. apply app_inv_head in E.
  change (Q "' value='" ++ ?x) with (dquote :: Q " value='" ++ x) in E.
  apply split_at_stop in E; try assumption. destruct E as [_ E].
  assert (H : starts false (Q " v") Z = true).
  { rewrite E. reflexivity. }
  congruence.
Qed.

Lemma header_cell_tails c s :
  wf_cell c = true ->
  all_tails (fun t => starts false (render_cell c) (t ++ s) = false) header.
Proof.
  intros Hwf. unfold header. cbn [all_tails].
  split_tails; try (apply cell_needs_open; reflexivity).
  - change (starts false (render_cell c)
              (mxCell_open ++ Q " id='" ++ S_ "0" ++ dquote
                 :: (Q "/><mxCell id='1' parent='0'/>" ++ s)) = false).
    apply header_cell_tail; [assumption|reflexivity|reflexivity].
  - change (starts false (render_cell c)
              (mxCell_open ++ Q " id='" ++ S_ "1" ++ dquote
                 :: (Q " parent='0'/>" ++ s)) = false).
    apply header_cell_tail; [assumption|reflexivity|reflexivity].
Qed.

Lemma cells_tails c pre s :
  wf_cell c = true ->
  forallb wf_cell pre = true ->
  (forall c', In c' pre -> render_cell c' <> render_cell c) ->
  all_tails (fun t => starts false (render_cell c) (t ++ s) = false)
            (concat (map render_cell pre)).
Proof.
  intros Hc. induction pre as [|c' pre IH]; intros Hwf Hne; [exact I|].
  cbn [forallb] in Hwf. apply andb_prop in Hwf. destruct Hwf as [Hc' Hpre].
  cbn [map concat]. apply all_tails_app.
  - assert (Hlen : render_cell c' = "<"%char :: tl (render_cell c')) by reflexivity.
    rewrite Hlen. split.
    + rewrite <- Hlen. rewrite <- app_assoc.
      destruct (starts false (render_cell c) _) eqn:E; [|reflexivity].
      exfalso. apply starts_exact in E. destruct E as [r E].
      symmetry in E. apply render_cell_prefix in E; try assumption.
      destruct E as [E _]. apply (Hne c'); [now left|now symmetry].
    + pose proof (cell_tail_blind c' (concat (map render_cell pre) ++ s) Hc') as Hb.
      apply blind_all_tails in Hb.
      eapply all_tails_imp; [|exact Hb]. intros t Ht. cbn beta in *.
      rewrite <- app_assoc. now apply cell_needs_open.
  - apply IH; [assumption|]. intros c'' Hin. apply Hne. now right.
Qed.

Lemma replace_str_cell pre c post :
  wf_cell c = true ->
  forallb wf_cell pre = true ->
  (forall c', In c' pre -> render_cell c' <> render_cell c) ->
  replace_str (render (pre ++ c :: post)) (render_cell c) []
  = render (pre ++ post).
Proof.
  intros Hc Hpre Hne. unfold replace_str, render.
  rewrite !map_app, !concat_app. cbn [map concat].
  set (u := header ++ concat (map render_cell pre)).
  set (rest := concat (map render_cell post) ++ footer).
  replace (header ++ (concat (map render_cell pre)
                        ++ render_cell c ++ concat (map render_cell post)) ++ footer)
    with (u ++ render_cell c ++ rest)
    by (subst u rest; rewrite <- !app_assoc; reflexivity).
  rewrite indexOf_dead.
  - rewrite indexOf_hit by apply starts_self. cbn [option_map getSubstitution app].
    rewrite Nat.add_0_r.
    rewrite firstn_app, Nat.sub_diag, firstn_all. cbn [firstn]. rewrite app_nil_r.
    rewrite skipn_app, skipn_all2 by lia. cbn [app].
    replace (length u + length (render_cell c) - length u) with (length (render_cell c)) by lia.
    rewrite skipn_app, skipn_all, Nat.sub_diag. cbn [skipn app].
    subst u rest. rewrite <- !app_assoc. reflexivity.
  - subst u. apply all_tails_app.
    + eapply all_tails_imp;
        [|exact (header_cell_tails c (concat (map render_cell pre) ++ render_cell c ++ rest) Hc)].
      intros t Ht. cbn beta in *. now rewrite <- app_assoc.
    + now apply cells_tails.
Qed.

Section DeleteMatches.
Variable P : cell -> bool.
Hypothesis P_text : forall c c',
  wf_cell c = true -> wf_cell c' = true ->
  render_cell c = render_cell c' -> P c = P c'.

Lemma filter_first_split (cells : list cell) :
  match filter P cells with
  | [] => True
  | c :: ms =>
      exists pre post,
        cells = pre ++ c :: post /\ filter P pre = [] /\ P c = true
        /\ ms = filter P post
  end.
Proof.
  induction cells as [|x cells IH]; [exact I|].
  cbn [filter]. destruct (P x) eqn:E.
  - exists [], cells. auto.
  - destruct (filter P cells) as [|c ms]; [exact I|].
    destruct IH as (pre & post & -> & H1 & H2 & H3).
    exists (x :: pre), post. cbn [filter app]. rewrite E. auto.
Qed.

Lemma delete_matches n : forall cells,
  length cells <= n ->
  forallb wf_cell cells = true ->
  fold_left (fun acc mt => replace_str acc mt [])
            (map render_cell (filter P cells)) (render cells)
  = render (filter (fun c => negb (P c)) cells).
Proof.
  induction n as [|n IH]; intros cells Hn Hwf.
  - destruct cells; [reflexivity|simpl in Hn; lia].
  - pose proof (filter_first_split cells) as Hs.
    destruct (filter P cells) as [|c ms] eqn:E.
    + cbn [map fold_left]. f_equal. clear - E.
      induction cells as [|x cells IH]; [reflexivity|].
      cbn [filter] in *. destruct (P x); [discriminate|].
      cbn [negb]. f_equal. exact (IH E).
    + destruct Hs as (pre & post & -> & Hpre & Hc & ->).
      rewrite forallb_app in Hwf. apply andb_prop in Hwf.
      destruct Hwf as [Hwpre Hwpost]. cbn [forallb] in Hwpost.
      apply andb_prop in Hwpost. destruct Hwpost as [Hwc Hwpost].
      cbn [map fold_left].
      rewrite replace_str_cell; try assumption.
      * replace (filter P post) with (filter P (pre ++ post))
          by (rewrite filter_app, Hpre; reflexivity).
        rewrite IH.
        -- f_equal. rewrite !filter_app. cbn [filter]. now rewrite Hc.
        -- rewrite length_app in *. cbn [length] in Hn. lia.
        -- rewrite forallb_app. now rewrite Hwpre, Hwpost.
      * intros c' Hin Heq.
        assert (Hc' : P c' = true).
        { rewrite (P_text c' c); try assumption.
          rewrite forallb_forall in Hwpre. auto. }
        assert (In c' (filter P pre)) by (apply filter_In; auto).
        rewrite Hpre in H. contradiction.
Qed.
End DeleteMatches.

(** ** Remove on a diagram *)

Lemma label_has_text N c c' :
  forallb isWordChar N = true ->
  wf_cell c = true -> wf_cell c' = true ->
  render_cell c = render_cell c' -> label_has N c = label_has N c'.
Proof.
  intros HN Hc Hc' E.
  pose proof (component_exec_cell N c [] [] HN Hc) as H1.
  pose proof (component_exec_cell N c' [] [] HN Hc') as H2.
  rewrite E, H2 in H1.
  destruct (label_has N c), (label_has N c'); congruence.
Qed.

Lemma find_filter {A} (f : A -> bool) l :
  find f l = hd_error (filter f l).
Proof.
  induction l as [|x l IH]; [reflexivity|].
  cbn [find filter]. now destruct (f x).
Qed.

Lemma filter_both {A} (f g : A -> bool) l :
  filter g (filter f l) = filter (fun x => f x && g x) l.
Proof.
  induction l as [|x l IH]; [reflexivity|].
  cbn [filter]. destruct (f x); cbn [filter andb]; [|assumption].
  destruct (g x); now rewrite IH.
Qed.

Lemma removeComponent_render dyn cells N :
  forallb isWordChar N = true ->
  forallb wf_cell cells = true ->
  forallb (fun c => plain (c_id c)) cells = true ->
  removeComponent dyn (render cells) N
  = match find (label_has N) cells with
    | None => Result false (render cells) tt
    | Some c0 =>
        Result true
          (render (filter (fun c => negb (label_has N c)
                                    && negb (refers_to (c_id c0) c)) cells)) tt
    end.
Proof.
  intros HN Hwf Hids.
  unfold removeComponent, componentRegex, idRegex, new_RegExp.
  cbn [forallb]. rewrite (word_plain N HN). cbn [andb].
  destruct (component_loops N cells HN Hwf) as [Hs _].
  unfold matchAll. rewrite Hs.
  pose proof (id_search N cells HN Hwf) as Hid.
  rewrite find_filter in *.
  destruct (filter (label_has N) cells) as [|c0 ms] eqn:E; [reflexivity|].
  cbn [hd_error map] in *.
  change (render_cell c0 :: map render_cell ms)
    with (map render_cell (c0 :: ms)).
  rewrite <- E.
  rewrite (delete_matches (label_has N) (fun c c' => label_has_text N c c' HN) (length cells))
    by auto.
  destruct Hid as (m & -> & ->). cbn [interp].
  assert (Hin : In c0 cells).
  { assert (In c0 (filter (label_has N) cells)) by (rewrite E; now left).
    apply filter_In in H. tauto. }
  unfold connectionRegex, new_RegExp. cbn [forallb].
  rewrite forallb_forall in Hids. rewrite (Hids c0 Hin). cbn [andb].
  assert (Hw0 : wf_cell c0 = true) by (rewrite forallb_forall in Hwf; auto).
  rewrite connection_loops.
  - now rewrite filter_both.
  - apply wf_cell_parts in Hw0. destruct Hw0 as ([H _] & _). exact H.
  - apply forallb_forall. intros c Hc. apply filter_In in Hc.
    rewrite forallb_forall in Hwf. apply Hwf. tauto.
Qed.





(** * Self-closing elements *)

(** ** Where a match can end *)

Lemma m_star_moved cs : forall s b cp st',
  In st' (m_star cs b s cp) ->
  exists m, before st' = rev m ++ b /\ s = m ++ after st'.
Proof.
  induction s as [|c s IH]; intros b cp st' H; cbn [m_star] in H.
  - destruct H as [<-|[]]. now exists [].
  - apply in_app_or in H. destruct H as [H|[<-|[]]]; [|now exists []].
    destruct (in_cset cs c); [|destruct H].
    apply IH in H. destruct H as (m & Hb & Hs).
    exists (c :: m). cbn [rev]. rewrite <- app_assoc. cbn [app].
    split; [assumption|now f_equal].
Qed.

Lemma m_star_lazy_moved cs : forall s b cp st',
  In st' (m_star_lazy cs b s cp) ->
  exists m, before st' = rev m ++ b /\ s = m ++ after st'.
Proof.
  induction s as [|c s IH]; intros b cp st' H; cbn [m_star_lazy] in H.
  - destruct H as [<-|[]]. now exists [].
  - destruct H as [<-|H]; [now exists []|].
    destruct (in_cset cs c); [|destruct H].
    apply IH in H. destruct H as (m & Hb & Hs).
    exists (c :: m). cbn [rev]. rewrite <- app_assoc. cbn [app].
    split; [assumption|now f_equal].
Qed.

Lemma moved_trans st st1 st2 m1 m2 :
  moved st st1 m1 -> moved st1 st2 m2 -> moved st st2 (m1 ++ m2).
Proof.
  intros [B1 A1] [B2 A2]. split.
  - rewrite B2, B1, rev_app_distr. now rewrite app_assoc.
  - rewrite A1, A2. now rewrite app_assoc.
Qed.

Lemma rmatch_moved ci r : forall st st',
  In st' (rmatch ci r st) -> exists m, moved st st' m.
Proof.
  induction r as [l|cs|cs|cs|r1 IH1 r2 IH2|r1 IH1 r2 IH2|r1 IH1|n r1 IH1|];
    intros st st' H; cbn [rmatch] in H.
  - rewrite m_lit_spec in H. destruct (starts ci l (after st)); [|destruct H].
    destruct H as [<-|[]]. exists (firstn (length l) (after st)).
    split; cbn [before after]; [reflexivity|now rewrite firstn_skipn].
  - destruct (after st) as [|c s'] eqn:E; [destruct H|].
    destruct (in_cset cs c); [|destruct H]. destruct H as [<-|[]].
    exists [c]. split; cbn [before after]; [reflexivity|assumption].
  - apply m_star_moved in H. exact H.
  - apply m_star_lazy_moved in H. exact H.
  - apply in_flat_map in H. destruct H as (st1 & H1 & H2).
    apply IH1 in H1. apply IH2 in H2. destruct H1 as [m1 H1], H2 as [m2 H2].
    exists (m1 ++ m2). eapply moved_trans; eassumption.
  - apply in_app_or in H. destruct H as [H|H]; [now apply IH1|now apply IH2].
  - apply in_app_or in H. destruct H as [H|[<-|[]]].
    + apply filter_In in H. destruct H as [H _]. now apply IH1.
    + exists []. now split.
  - apply in_map_iff in H. destruct H as (st1 & <- & H).
    apply IH1 in H. destruct H as [m H]. exists m. exact H.
  - destruct (xorb _ _); [|destruct H]. destruct H as [<-|[]].
    exists []. now split.
Qed.

Lemma rmatch_closes ci p r : forall st st',
  closes p r = true -> In st' (rmatch ci r st) ->
  exists m, moved st st' m /\ ends_with ci p m.
Proof.
  induction r as [l|cs|cs|cs|r1 IH1 r2 IH2|r1 IH1 r2 IH2|r1 IH1|n r1 IH1|];
    intros st st' Hc H; cbn [closes] in Hc; try discriminate.
  - apply str_eqb_eq in Hc. subst l. cbn [rmatch] in H.
    rewrite m_lit_spec in H.
    destruct (starts ci p (after st)) eqn:E; [|destruct H].
    destruct H as [<-|[]]. exists (firstn (length p) (after st)).
    split; [split; cbn [before after]; [reflexivity|now rewrite firstn_skipn]|].
    exists [], (firstn (length p) (after st)). split; [reflexivity|].
    pose proof (starts_length _ _ _ E) as Hl.
    split; [apply firstn_length_le; exact Hl|].
    rewrite <- (firstn_skipn (length p) (after st)) in E.
    rewrite starts_app in E; [exact E|apply firstn_length_le; exact Hl].
  - cbn [rmatch] in H. apply in_flat_map in H. destruct H as (st1 & H1 & H2).
    apply rmatch_moved in H1. destruct H1 as [m1 H1].
    destruct (IH2 _ _ Hc H2) as (m2 & H2' & (a & z & -> & Hl & Hs)).
    exists (m1 ++ a ++ z). split; [eapply moved_trans; eassumption|].
    exists (m1 ++ a), z. now rewrite app_assoc.
Qed.

(** ** Texts that end without a closing tag *)

Lemma occurs_tail ci p : forall x s,
  occurs ci p (x ++ s) = false -> occurs ci p s = false.
Proof.
  induction x as [|c x IH]; intros s H; [exact H|].
  cbn [app occurs] in H. apply orb_false_elim in H. destruct H as [_ H].
  now apply IH.
Qed.

Lemma occurs_starts ci p s :
  occurs ci p s = false -> starts ci p s = false.
Proof.
  intros H. destruct s; cbn [occurs] in H; apply orb_false_elim in H; tauto.
Qed.

Lemma sealed_tag s' :
  occurs true mxCell_close ("<"%char :: s') = false ->
  sealed ("<"%char :: s').
Proof.
  intros Ho u m1 m2 rest E Hl Hs.
  assert (Hs' : forall z, starts true mxCell_close (m2 ++ z) = true).
  { intros z. now rewrite starts_app. }
  apply app_eq_app in E. destruct E as [l [[-> E]|[-> E]]].
  - rewrite !length_app. enough (length m2 <= length l) by lia.
    specialize (Hs' rest). rewrite E in Hs'.
    destruct l as [|a x].
    + apply occurs_starts in Ho. cbn [app] in Hs'. congruence.
    + change mxCell_close with ("<"%char :: Q "/mxCell>") in Hs'.
      cbn [app starts] in Hs'. apply andb_prop in Hs'. destruct Hs' as [_ Hs'].
      rewrite starts_stop in Hs' by reflexivity.
      apply starts_length in Hs'. rewrite Hl.
      change (length (Q "/mxCell>")) with 8 in Hs'.
      change (length mxCell_close) with 9. cbn [length]. lia.
  - exfalso. rewrite E in Ho. apply occurs_tail in Ho. apply occurs_starts in Ho.
    rewrite Hs' in Ho. discriminate.
Qed.

Section SealedTail.
Variable r : regex.
Variable g : nat.
Variable s : str.
Hypothesis r_closes : closes mxCell_close r = true.
Hypothesis s_sealed : sealed s.

Let re := compile r true g.

Lemma exec_moved b t st' :
  re_exec re b t = Some st' ->
  exists m, before st' = rev m ++ b /\ t = m ++ after st'
            /\ ends_with true mxCell_close m.
Proof.
  unfold re, compile. cbn [re_exec]. intros H.
  assert (Hin : In st' (rmatch true r (MState b t []))).
  { destruct (rmatch true r (MState b t [])); [discriminate|].
    cbn [hd_error] in H. inversion H. now left. }
  destruct (rmatch_closes _ _ _ _ _ r_closes Hin) as (m & [Hb Ha] & He).
  exists m. auto.
Qed.

Lemma exec_end b u st' :
  re_exec re b (u ++ s) = Some st' ->
  endIndex st' - length b <= length u.
Proof.
  intros H. apply exec_moved in H. destruct H as (m & Hb & Ha & (m1 & m2 & -> & Hl & Hs)).
  unfold endIndex. rewrite Hb, length_app, length_rev.
  rewrite <- app_assoc in Ha.
  pose proof (s_sealed u m1 m2 (after st') Ha Hl Hs). lia.
Qed.

Lemma exec_tail b u1 u2 : s = u1 ++ u2 -> re_exec re b u2 = None.
Proof.
  intros E. destruct (re_exec re b u2) as [st'|] eqn:H; [|reflexivity].
  exfalso. apply exec_moved in H.
  destruct H as (m & Hb & Ha & (m1 & m2 & -> & Hl & Hs)).
  rewrite <- app_assoc in Ha.
  assert (E' : [] ++ s = (u1 ++ m1) ++ m2 ++ after st').
  { cbn [app]. rewrite E, Ha. now rewrite <- app_assoc. }
  pose proof (s_sealed [] _ _ _ E' Hl Hs) as Hle.
  rewrite !length_app, Hl in Hle. cbn in Hle. lia.
Qed.

Lemma loops_tail t b :
  scan re b s 0 = [] /\ replace_loop re t b s 0 = s.
Proof.
  destruct (loops_dead re t s b []) as [H1 H2].
  - intros u1 u2 b' E _. rewrite app_nil_r. now apply (exec_tail b' u1).
  - rewrite app_nil_r in H1, H2. rewrite H1, H2.
    cbn [scan replace_loop].
    rewrite (exec_tail _ s []) by now rewrite app_nil_r.
    split; [reflexivity|now rewrite app_nil_r].
Qed.

Lemma replace_loop_tail t : forall u b skip,
  skip <= length u ->
  exists X, replace_loop re t b (u ++ s) skip = X ++ s.
Proof.
  induction u as [|c u IH]; intros b skip Hk.
  - cbn [length] in Hk. replace skip with 0 by lia. exists [].
    cbn [app]. apply loops_tail.
  - destruct skip as [|k].
    + cbn [app replace_loop].
      destruct (re_exec re b (c :: u ++ s)) as [st'|] eqn:E.
      * pose proof (exec_end b (c :: u) st' E) as Hn. cbn [length] in Hn.
        destruct (IH (c :: b) (endIndex st' - length b - 1)) as [X HX]; [lia|].
        rewrite HX. eexists. rewrite !app_assoc. reflexivity.
      * destruct (IH (c :: b) 0) as [X HX]; [lia|].
        rewrite HX. now exists (c :: X).
    + cbn [app replace_loop]. apply IH. cbn [length] in Hk. lia.
Qed.

Lemma scan_texts : forall t b skip,
  Forall (ends_with true mxCell_close) (map m_text (scan re b t skip)).
Proof.
  assert (Hm : forall b t st', re_exec re b t = Some st' ->
                 ends_with true mxCell_close (m_text (mres_of b st'))).
  { intros b t st' H. apply exec_moved in H. destruct H as (m & Hb & _ & He).
    unfold mres_of, endIndex. cbn [m_text]. rewrite Hb, length_app, length_rev.
    replace (length m + length b - length b) with (length (rev m))
      by (rewrite length_rev; lia).
    rewrite firstn_app, Nat.sub_diag, firstn_all. cbn [firstn].
    now rewrite app_nil_r, rev_involutive. }
  induction t as [|c t IH]; intros b skip.
  - destruct skip; cbn [scan]; [|constructor].
    destruct (re_exec re b []) eqn:E; cbn [map]; [|constructor].
    constructor; [now apply (Hm b [])|constructor].
  - destruct skip; cbn [scan]; [|apply IH].
    destruct (re_exec re b (c :: t)) eqn:E; [|apply IH].
    cbn [map]. constructor; [now apply (Hm b (c :: t))|apply IH].
Qed.

End SealedTail.

Lemma indexOf_split p : forall t i,
  indexOf t p = Some i ->
  exists y1 y2, t = y1 ++ p ++ y2 /\ length y1 = i.
Proof.
  induction t as [|c t IH]; intros i H; cbn [indexOf] in H.
  - destruct (starts false p []) eqn:E; [|discriminate].
    inversion H. apply starts_exact in E. destruct E as [y E].
    exists [], y. now split.
  - destruct (starts false p (c :: t)) eqn:E.
    + inversion H. apply starts_exact in E. destruct E as [y E].
      exists [], y. now split.
    + destruct (indexOf t p) as [j|] eqn:Ej; [|discriminate].
      inversion H. destruct (IH j eq_refl) as (y1 & y2 & -> & Hl).
      exists (c :: y1), y2. cbn [app length]. now rewrite Hl.
Qed.

Lemma replace_str_tail s X mt :
  sealed s -> ends_with true mxCell_close mt ->
  exists X', replace_str (X ++ s) mt [] = X' ++ s.
Proof.
  intros Hs (m1 & m2 & -> & Hl & Hm). unfold replace_str.
  destruct (indexOf (X ++ s) (m1 ++ m2)) as [i|] eqn:E; [|now exists X].
  apply indexOf_split in E. destruct E as (y1 & y2 & E & Hi).
  assert (E' : X ++ s = (y1 ++ m1) ++ m2 ++ y2).
  { rewrite E. now rewrite <- !app_assoc. }
  pose proof (Hs _ _ _ _ E' Hl Hm) as Hle.
  rewrite E. subst i.
  rewrite firstn_app, Nat.sub_diag, firstn_all. cbn [firstn]. rewrite app_nil_r.
  rewrite skipn_app. 
  replace (length y1 + length (m1 ++ m2) - length y1) with (length (m1 ++ m2)) by lia.
  rewrite skipn_all2 by lia. cbn [app].
  rewrite skipn_app, Nat.sub_diag, skipn_all. cbn [skipn app getSubstitution].
  clear E'. rewrite app_assoc in E. apply app_eq_app in E.
  destruct E as [l [[EX E]|[EX E]]].
  - subst y2. exists (y1 ++ l). now rewrite app_assoc.
  - apply (f_equal (@length _)) in EX. rewrite !length_app in *.
    assert (l = []) by (destruct l; [reflexivity|cbn [length] in EX; lia]).
    subst l. cbn [app] in E. exists y1. now rewrite E.
Qed.

(** ** The transforms on a text with an open tail *)

Lemma matchAll_texts r g t l :
  closes mxCell_close r = true ->
  matchAll (compile r true g) t = Some l ->
  Forall (ends_with true mxCell_close) l.
Proof.
  intros Hc H. unfold matchAll in H.
  pose proof (scan_texts r g Hc t [] 0) as HF.
  destruct (map m_text (scan (compile r true g) [] t 0)); [discriminate|].
  inversion H. subst l. exact HF.
Qed.

Lemma fold_replace_tail s l :
  sealed s -> Forall (ends_with true mxCell_close) l ->
  forall X, exists X',
    fold_left (fun acc mt => replace_str acc mt []) l (X ++ s) = X' ++ s.
Proof.
  intros Hs HF. induction HF as [|mt l Hmt _ IH]; intros X.
  - now exists X.
  - cbn [fold_left]. destruct (replace_str_tail s X mt Hs Hmt) as [X1 ->].
    apply IH.
Qed.

Lemma fold_pick_tail s (keep : str -> bool) l :
  sealed s -> Forall (ends_with true mxCell_close) l ->
  forall X n, exists X',
    fst (fold_left
           (fun '(acc, k) connection =>
              if keep connection
              then (replace_str acc connection [], S k)
              else (acc, k))
           l (X ++ s, n)) = X' ++ s.
Proof.
  intros Hs HF. induction HF as [|mt l Hmt _ IH]; intros X n.
  - now exists X.
  - cbn [fold_left]. destruct (keep mt); [|apply IH].
    destruct (replace_str_tail s X mt Hs Hmt) as [X1 ->]. apply IH.
Qed.

Lemma sealed_head s :
  hd_error s = Some "<"%char -> occurs true mxCell_close s = false -> sealed s.
Proof.
  destruct s as [|c s']; [discriminate|]. cbn [hd_error]. intros H.
  inversion H. apply sealed_tag.
Qed.




(** ** The dispatch of [makeActualXmlChanges] *)

Lemma first_applied_spec dyn userInput xml0 l i o :
  first_applied dyn userInput xml0 l = Some (i, o) ->
  exists pre post,
    l = pre ++ i :: post /\
    attempt dyn i userInput xml0 = Some o /\
    forall j, In j pre -> attempt dyn j userInput xml0 = None.
Proof.
  induction l as [|k l IH]; simpl; [discriminate|].
  destruct (attempt dyn k userInput xml0) as [o'|] eqn:E.
  - intros H; inversion H; subst.
    exists [], l. repeat split; auto. intros j [].
  - intros H. destruct (IH H) as (pre & post & -> & Ha & Hn).
    exists (k :: pre), post. repeat split; auto.
    intros j [<-|Hj]; auto.
Qed.

Lemma first_applied_none dyn userInput xml0 l :
  first_applied dyn userInput xml0 l = None ->
  forall j, In j l -> attempt dyn j userInput xml0 = None.
Proof.
  induction l as [|k l IH]; simpl; [intros _ j []|].
  destruct (attempt dyn k userInput xml0) eqn:E; [discriminate|].
  intros H j [<-|Hj]; auto.
Qed.

Lemma makeActualXmlChanges_dispatch dyn userInput xml0 :
  makeActualXmlChanges dyn userInput xml0 =
  match first_applied dyn userInput xml0 priority with
  | Some (_, o) => o
  | None => Outcome xml0 []
  end.
Proof.
  unfold makeActualXmlChanges, priority, first_applied, attempt.
  repeat match goal with
         | |- context [match ?t with Some _ => _ | None => _ end] =>
             destruct t
         end; reflexivity.
Qed.

(** The loop over the patterns of a category, when the transform is
    tried on a match with the flag [ok] and the result [out]. *)
Lemma first_success_hit patterns (ok : mres -> bool) (out : mres -> outcome)
    userInput att m :
  (forall m', att m' = if ok m' then Some (out m') else None) ->
  first_to_succeed patterns ok userInput m ->
  first_success patterns userInput att = Some (out m).
Proof.
  intros Ha (pre & p & post & -> & Hm & Hok & Hpre).
  induction pre as [|q pre IH]; cbn [app first_success].
  - now rewrite Hm, Ha, Hok.
  - destruct (match_first q userInput) as [m'|] eqn:Eq.
    + rewrite Ha, (Hpre q m' (or_introl eq_refl) Eq).
      apply IH. intros q' m'' Hq'. apply Hpre. now right.
    + apply IH. intros q' m'' Hq'. apply Hpre. now right.
Qed.

Lemma first_success_miss patterns (ok : mres -> bool)
    (out : mres -> outcome) userInput att :
  (forall m', att m' = if ok m' then Some (out m') else None) ->
  none_succeeds patterns ok userInput ->
  first_success patterns userInput att = None.
Proof.
  intros Ha. induction patterns as [|q ps IH]; intros Hn; [reflexivity|].
  cbn [first_success].
  assert (Hps : none_succeeds ps ok userInput).
  { intros q' m' Hq'. apply Hn. now right. }
  destruct (match_first q userInput) as [m'|] eqn:Eq; [|now apply IH].
  rewrite Ha, (Hn q m' (or_introl eq_refl) Eq). now apply IH.
Qed.

(** C1.  The categories are tried in the order Remove, Replace,
    DisconnectEdges, Add, ModifyProperty, ContextualBulkResize.  Within a
    category the transform is tried on the match of each pattern that
    matches the instruction, in the order of the pattern list.  The
    mutator returns the result and the change record of the first try
    whose transform reports success: a category applies only when every
    try of every category before it has failed, and once it applies no
    later pattern and no later category contributes, whatever they would
    match.  When every try fails and the contextual category fails, the
    text comes back as given with no change record. *)
Theorem makeActualXmlChanges_first_success_wins :
  forall dyn userInput xml0,
    let run := makeActualXmlChanges dyn userInput xml0 in
    let no_remove :=
      none_succeeds removePatterns (remove_ok dyn xml0) userInput in
    let no_change :=
      none_succeeds changePatterns (change_ok dyn xml0) userInput in
    let no_disconnect :=
      none_succeeds connectionRemovePatterns (disconnect_ok xml0) userInput in
    let no_add := none_succeeds addPatterns (add_ok xml0) userInput in
    let no_property :=
      none_succeeds propertyPatterns (property_ok dyn xml0 userInput)
                    userInput in
    (forall m,
        first_to_succeed removePatterns (remove_ok dyn xml0) userInput m ->
        run = remove_outcome dyn xml0 m)
    /\ (no_remove ->
        forall m,
          first_to_succeed changePatterns (change_ok dyn xml0) userInput m ->
          run = change_outcome dyn xml0 m)
    /\ (no_remove -> no_change ->
        forall m,
          first_to_succeed connectionRemovePatterns (disconnect_ok xml0)
                           userInput m ->
          run = disconnect_outcome xml0 m)
    /\ (no_remove -> no_change -> no_disconnect ->
        forall m,
          first_to_succeed addPatterns (add_ok xml0) userInput m ->
          run = add_outcome xml0 m)
    /\ (no_remove -> no_change -> no_disconnect -> no_add ->
        forall m,
          first_to_succeed propertyPatterns (property_ok dyn xml0 userInput)
                           userInput m ->
          run = property_outcome dyn xml0 userInput m)
    /\ (no_remove -> no_change -> no_disconnect -> no_add -> no_property ->
        run = let r := handleContextualChanges dyn xml0 userInput in
              if success r then Outcome (xml r) (extra r)
              else Outcome xml0 []).
Proof.
  intros dyn userInput xml0 run no_remove no_change no_disconnect no_add
         no_property.
  subst run no_remove no_change no_disconnect no_add no_property.
  unfold makeActualXmlChanges.
  repeat split.
  - intros m Hm. unfold try_remove.
    erewrite (first_success_hit removePatterns (remove_ok dyn xml0)
                (remove_outcome dyn xml0)); [reflexivity| |exact Hm].
    intros m'. reflexivity.
  - intros N1 m Hm. unfold try_remove, try_change.
    erewrite (first_success_miss removePatterns (remove_ok dyn xml0)
                (remove_outcome dyn xml0));
      [|intros m'; reflexivity|exact N1].
    erewrite (first_success_hit changePatterns (change_ok dyn xml0)
                (change_outcome dyn xml0)); [reflexivity| |exact Hm].
    intros m'. reflexivity.
  - intros N1 N2 m Hm. unfold try_remove, try_change, try_disconnect.
    erewrite (first_success_miss removePatterns (remove_ok dyn xml0)
                (remove_outcome dyn xml0));
      [|intros m'; reflexivity|exact N1].
    erewrite (first_success_miss changePatterns (change_ok dyn xml0)
                (change_outcome dyn xml0));
      [|intros m'; reflexivity|exact N2].
    erewrite (first_success_hit connectionRemovePatterns (disconnect_ok xml0)
                (disconnect_outcome xml0)); [reflexivity| |exact Hm].
    intros m'. reflexivity.
  - intros N1 N2 N3 m Hm.
    unfold try_remove, try_change, try_disconnect, try_add.
    erewrite (first_success_miss removePatterns (remove_ok dyn xml0)
                (remove_outcome dyn xml0));
      [|intros m'; reflexivity|exact N1].
    erewrite (first_success_miss changePatterns (change_ok dyn xml0)
                (change_outcome dyn xml0));
      [|intros m'; reflexivity|exact N2].
    erewrite (first_success_miss connectionRemovePatterns (disconnect_ok xml0)
                (disconnect_outcome xml0));
      [|intros m'; reflexivity|exact N3].
    erewrite (first_success_hit addPatterns (add_ok xml0) (add_outcome xml0));
      [reflexivity| |exact Hm].
    intros m'. reflexivity.
  - intros N1 N2 N3 N4 m Hm.
    unfold try_remove, try_change, try_disconnect, try_add, try_property.
    erewrite (first_success_miss removePatterns (remove_ok dyn xml0)
                (remove_outcome dyn xml0));
      [|intros m'; reflexivity|exact N1].
    erewrite (first_success_miss changePatterns (change_ok dyn xml0)
                (change_outcome dyn xml0));
      [|intros m'; reflexivity|exact N2].
    erewrite (first_success_miss connectionRemovePatterns (disconnect_ok xml0)
                (disconnect_outcome xml0));
      [|intros m'; reflexivity|exact N3].
    erewrite (first_success_miss addPatterns (add_ok xml0) (add_outcome xml0));
      [|intros m'; reflexivity|exact N4].
    erewrite (first_success_hit propertyPatterns
                (property_ok dyn xml0 userInput)
                (property_outcome dyn xml0 userInput));
      [reflexivity| |exact Hm].
    intros m'. reflexivity.
  - intros N1 N2 N3 N4 N5.
    unfold try_remove, try_change, try_disconnect, try_add, try_property,
      try_contextual.
    erewrite (first_success_miss removePatterns (remove_ok dyn xml0)
                (remove_outcome dyn xml0));
      [|intros m'; reflexivity|exact N1].
    erewrite (first_success_miss changePatterns (change_ok dyn xml0)
                (change_outcome dyn xml0));
      [|intros m'; reflexivity|exact N2].
    erewrite (first_success_miss connectionRemovePatterns (disconnect_ok xml0)
                (disconnect_outcome xml0));
      [|intros m'; reflexivity|exact N3].
    erewrite (first_success_miss addPatterns (add_ok xml0) (add_outcome xml0));
      [|intros m'; reflexivity|exact N4].
    erewrite (first_success_miss propertyPatterns
                (property_ok dyn xml0 userInput)
                (property_outcome dyn xml0 userInput));
      [|intros m'; reflexivity|exact N5].
    cbv zeta. now destruct (success _).
Qed.

(** The instruction [remove GPU and add RAM] on the diagram of GPU and
    CPU: the first pattern of Add matches it and Add would succeed, yet
    Remove comes first and succeeds, so the mutator returns the removal
    alone. *)
Lemma makeActualXmlChanges_first_success_wins_witness :
  (exists p post m,
      addPatterns = p :: post
      /\ match_first p remove_and_add = Some m
      /\ add_ok (render gpu_cpu) m = true)
  /\ makeActualXmlChanges no_dyn remove_and_add (render gpu_cpu)
     = Outcome (render [node "3" "CPU"])
               [S_ "Removed GPU component and its connections"].
Proof.
  split.
  - eexists _, _, _. split; [reflexivity|]. split; [vm_compute; reflexivity|].
    reflexivity.
  - etransitivity.
    + apply (proj1 (makeActualXmlChanges_first_success_wins
                      no_dyn remove_and_add (render gpu_cpu))).
      exists [].
      eexists _, _. split; [reflexivity|].
      split; [vm_compute; reflexivity|].
      split; [vm_compute; reflexivity|]. intros q m' [].
    + vm_compute. reflexivity.
Defined.

Lemma first_success_inv patterns userInput att o :
  first_success patterns userInput att = Some o ->
  exists m, att m = Some o.
Proof.
  induction patterns as [|p ps IH]; simpl; [discriminate|].
  destruct (match_first p userInput) as [m|]; auto.
  destruct (att m) as [o'|] eqn:E; auto.
  intros H; inversion H; subst. eauto.
Qed.

(** Every successful attempt carries at least one change record. *)
Lemma attempt_changes dyn i userInput xml0 o :
  attempt dyn i userInput xml0 = Some o -> changes o <> [].
Proof.
  destruct i; simpl;
    unfold try_remove, try_change, try_disconnect, try_add, try_property,
      try_contextual; intros H;
    try (apply first_success_inv in H; destruct H as [m H];
         match type of H with
         | (if ?c then _ else _) = _ => destruct c; [|discriminate]
         end; inversion H; simpl; discriminate).
  unfold handleContextualChanges in H.
  destruct (fold_left _ _ _) as [mx ch]. simpl in H.
  destruct ch; simpl in H; [discriminate|].
  inversion H; simpl; discriminate.
Qed.

(** C7. For every instruction and document, when the change list the
    mutator returns is empty, the text it returns is the text it was
    given. *)
Theorem makeActualXmlChanges_no_change_same_text :
  forall dyn userInput xml0,
    changes (makeActualXmlChanges dyn userInput xml0) = [] ->
    modifiedXml (makeActualXmlChanges dyn userInput xml0) = xml0.
Proof.
  intros dyn userInput xml0 H.
  rewrite makeActualXmlChanges_dispatch in *.
  destruct (first_applied dyn userInput xml0 priority) as [[i o]|] eqn:E.
  - apply first_applied_spec in E. destruct E as (pre & post & _ & Ha & _).
    apply attempt_changes in Ha. contradiction.
  - reflexivity.
Qed.

Lemma makeActualXmlChanges_no_change_same_text_witness :
  changes (makeActualXmlChanges no_dyn (S_ "hello there") (render gpu_cpu)) = []
  /\ modifiedXml (makeActualXmlChanges no_dyn (S_ "hello there")
                                       (render gpu_cpu)) = render gpu_cpu.
Proof.
  split; [vm_compute; reflexivity|].
  apply makeActualXmlChanges_no_change_same_text. vm_compute. reflexivity.
Defined.


(** ** The transforms that report success without checking *)

(** C4, evaluated.  On a diagram with no RAM node, both branches of
    ModifyProperty report success and hand back the text unchanged. *)
Theorem modifyComponentProperty_succeeds_without_match :
  modifyComponentProperty no_dyn (render gpu_cpu) (S_ "RAM") (S_ "150")
                          (S_ "set RAM size to 150")
  = Result true (render gpu_cpu) (S_ "Changed RAM size to 150x150")
  /\
  modifyComponentProperty no_dyn (render gpu_cpu) (S_ "RAM") (S_ "red")
                          (S_ "set RAM color to red")
  = Result true (render gpu_cpu) (S_ "Changed RAM color to red").
Proof. split; vm_compute; reflexivity. Qed.

(** C5, evaluated.  On a diagram whose only identifier is not numeric, Add
    writes the identifier [-Infinity], not 1. *)
Theorem addComponent_no_numeric_id :
  addComponent (Q "<mxGraphModel><root><mxCell id='root'/></root></mxGraphModel>")
               (S_ "ram")
  = Result true
      (Q "<mxGraphModel><root><mxCell id='root'/></root>"
         ++ newComponent NegInfinity (S_ "ram")
         ++ [nl] ++ Q "  </mxGraphModel>") tt
  /\ occurs false (Q "id='-Infinity' value='RAM'")
             (newComponent NegInfinity (S_ "ram")) = true.
Proof. split; vm_compute; reflexivity. Qed.

(** C6, evaluated.  On a text with no closing root tag, an instruction that
    only matches Add leaves the text unchanged and still reports one
    change. *)
Theorem makeActualXmlChanges_add_without_closing_tag :
  makeActualXmlChanges no_dyn (S_ "add a RAM component")
                       (Q "<mxGraphModel><root></root>")
  = Outcome (Q "<mxGraphModel><root></root>")
            [S_ "Added new RAM component to the architecture"].
Proof. vm_compute. reflexivity. Qed.

(** C9, evaluated.  The colour word [constructor] is not in the table, yet
    it is not written through: the fill colour becomes the text of the
    inherited member of that name. *)
Theorem modifyComponentProperty_inherited_colour :
  xml (modifyComponentProperty no_dyn (render [node "2" "GPU"]) (S_ "GPU")
                               (S_ "constructor")
                               (S_ "set GPU color to constructor"))
  = render [Cell (S_ "2") (S_ "GPU")
                 (S_ "rounded=1;fillColor=function Object() { [native code] };")
                 Vertex box_geometry].
Proof. vm_compute. reflexivity. Qed.

(** * Further properties of the transforms *)

(** ** The contextual category *)

Lemma contextual_step_id dyn xml0 userInput acc component :
  contextual_step dyn xml0 userInput acc component = acc.
Proof.
  unfold contextual_step.
  destruct (includes (toLowerCase xml0) component); [|reflexivity].
  destruct (_ || _); destruct (includes (toLowerCase userInput) (S_ "smaller"));
    reflexivity.
Qed.

Lemma contextual_fails dyn xml0 userInput :
  handleContextualChanges dyn xml0 userInput = Result false xml0 [].
Proof.
  unfold handleContextualChanges.
  assert (H : forall l acc,
             fold_left (contextual_step dyn xml0 userInput) l acc = acc).
  { induction l as [|c l IH]; intros acc; [reflexivity|].
    cbn [fold_left]. now rewrite contextual_step_id. }
  now rewrite H.
Qed.

(** The contextual category never applies: whatever the instruction and
    the document, [handleContextualChanges] fails and hands the text back
    unchanged with no change record, because the instructions it passes
    on to [modifyComponentProperty] name neither a size nor a colour. *)
Theorem handleContextualChanges_never_applies :
  forall dyn xml0 userInput,
    handleContextualChanges dyn xml0 userInput = Result false xml0 [].
Proof. intros. apply contextual_fails. Qed.

Lemma attempt_one_change dyn i userInput xml0 o :
  attempt dyn i userInput xml0 = Some o -> length (changes o) = 1.
Proof.
  destruct i; simpl;
    unfold try_remove, try_change, try_disconnect, try_add, try_property,
      try_contextual; intros H;
    try (apply first_success_inv in H; destruct H as [m H];
         match type of H with
         | (if ?c then _ else _) = _ => destruct c; [|discriminate]
         end; inversion H; reflexivity).
  rewrite contextual_fails in H. discriminate.
Qed.

(** The mutator reports at most one change record per instruction. *)
Theorem makeActualXmlChanges_at_most_one_change :
  forall dyn userInput xml0,
    length (changes (makeActualXmlChanges dyn userInput xml0)) <= 1.
Proof.
  intros dyn userInput xml0. rewrite makeActualXmlChanges_dispatch.
  destruct (first_applied dyn userInput xml0 priority) as [[i o]|] eqn:E.
  - apply first_applied_spec in E. destruct E as (pre & post & _ & Ha & _).
    apply attempt_one_change in Ha. lia.
  - cbn. lia.
Qed.

(** ** Repeating a transform *)

(** Remove is idempotent on a diagram: after one Remove of a name, a
    second Remove of the same name fails and leaves the text as the first
    one returned it. *)
Theorem removeComponent_twice :
  forall dyn cells N,
    forallb isWordChar N = true ->
    forallb wf_cell cells = true ->
    forallb (fun c => plain (c_id c)) cells = true ->
    let once := removeComponent dyn (render cells) N in
    removeComponent dyn (xml once) N = Result false (xml once) tt.
Proof.
  intros dyn cells N HN Hwf Hids once. subst once.
  rewrite (removeComponent_render dyn cells N HN Hwf Hids).
  destruct (find (label_has N) cells) as [c0|] eqn:E; cbn [xml].
  - set (kept := filter _ cells).
    assert (Hk : forall c, In c kept -> In c cells /\ label_has N c = false).
    { intros c Hc. apply filter_In in Hc. destruct Hc as [Hc Hb].
      apply andb_prop in Hb. destruct Hb as [Hb _].
      apply negb_true_iff in Hb. auto. }
    rewrite removeComponent_render; try assumption.
    + destruct (find (label_has N) kept) as [c1|] eqn:E1; [|reflexivity].
      apply find_some in E1. destruct E1 as [Hin Hl].
      apply Hk in Hin. destruct Hin as [_ Hf]. congruence.
    + apply forallb_forall. intros c Hc. apply Hk in Hc.
      rewrite forallb_forall in Hwf. apply Hwf. tauto.
    + apply forallb_forall. intros c Hc. apply Hk in Hc.
      rewrite forallb_forall in Hids. apply Hids. tauto.
  - rewrite (removeComponent_render dyn cells N HN Hwf Hids), E. reflexivity.
Qed.

Lemma removeComponent_twice_witness :
  removeComponent no_dyn
    (xml (removeComponent no_dyn (render gpu_cpu) (S_ "GPU"))) (S_ "GPU")
  = Result false (xml (removeComponent no_dyn (render gpu_cpu) (S_ "GPU"))) tt.
Proof.
  apply (removeComponent_twice no_dyn gpu_cpu (S_ "GPU")); reflexivity.
Defined.

(** Replace is idempotent: when the new name differs from the old one by
    more than letter case, a second Replace of the same names fails and
    leaves the text as the first one returned it. *)
Theorem replaceComponent_twice :
  forall dyn xml0 from to,
    from <> [] -> forallb isWordChar from = true ->
    to <> [] -> forallb isWordChar to = true ->
    eq_ci from to = false ->
    let once := replaceComponent dyn xml0 from to in
    replaceComponent dyn (xml once) from to = Result false (xml once) 0.
Proof.
  intros dyn xml0 from to Hne Hw Hne' Hw' Hd once. subst once.
  rewrite (replaceComponent_runs from to Hw Hne Hw' dyn xml0).
  destruct (whole_words from xml0 =? 0) eqn:E; cbn [xml].
  - rewrite (replaceComponent_runs from to Hw Hne Hw' dyn xml0), E. reflexivity.
  - rewrite (replaceComponent_runs from to Hw Hne Hw' dyn).
    now rewrite (rename_words_none from to Hw Hne Hw' Hne' xml0 Hd).
Qed.

Lemma replaceComponent_twice_witness :
  replaceComponent no_dyn
    (xml (replaceComponent no_dyn (render gpu_cpu) (S_ "GPU") (S_ "ram")))
    (S_ "GPU") (S_ "ram")
  = Result false
      (xml (replaceComponent no_dyn (render gpu_cpu) (S_ "GPU") (S_ "ram"))) 0.
Proof.
  apply (replaceComponent_twice no_dyn (render gpu_cpu) (S_ "GPU") (S_ "ram"));
    try discriminate; reflexivity.
Defined.

(** ** Disconnecting two named components *)

Lemma is_edge_text c c' :
  wf_cell c = true -> wf_cell c' = true ->
  render_cell c = render_cell c' -> is_edge c = is_edge c'.
Proof.
  intros Hc Hc' E.
  pose proof (arrow_exec_cell c [] [] Hc) as H1.
  pose proof (arrow_exec_cell c' [] [] Hc') as H2.
  rewrite E, H2 in H1.
  destruct (is_edge c), (is_edge c'); congruence.
Qed.

Lemma between_text c1 c2 c c' :
  wf_cell c = true -> wf_cell c' = true ->
  render_cell c = render_cell c' -> between c1 c2 c = between c1 c2 c'.
Proof.
  intros Hc Hc' E. unfold between.
  now rewrite (is_edge_text c c' Hc Hc' E), E.
Qed.

Lemma fold_pick_split (keep : str -> bool) : forall l acc n,
  fold_left
    (fun '(acc, k) connection =>
       if keep connection
       then (replace_str acc connection [], S k)
       else (acc, k))
    l (acc, n)
  = (fold_left (fun a mt => replace_str a mt []) (filter keep l) acc,
     n + length (filter keep l)).
Proof.
  induction l as [|t l IH]; intros acc n.
  - cbn. f_equal. lia.
  - cbn [fold_left filter]. destruct (keep t).
    + rewrite IH. cbn [fold_left length]. f_equal. lia.
    + apply IH.
Qed.

Lemma filter_map {A B} (f : A -> B) (p : B -> bool) l :
  filter p (map f l) = map f (filter (fun x => p (f x)) l).
Proof.
  induction l as [|x l IH]; [reflexivity|].
  cbn [map filter]. destruct (p (f x)); cbn [map]; now rewrite IH.
Qed.

(** DisconnectEdges with two names, on a diagram of well-formed cells:
    it deletes exactly the edge elements whose markup holds both names
    as written, reports their number with the names upper-cased, and
    succeeds when that number is not zero. *)
Theorem removeConnections_between :
  forall cells c1 c2,
    forallb wf_cell cells = true ->
    c1 <> [] -> c2 <> [] ->
    let k := length (filter (between c1 c2) cells) in
    removeConnections (render cells) (Some c1) (Some c2)
    = Result (0 <? k)
             (render (filter (fun c => negb (between c1 c2 c)) cells))
             (connections_removed k c1 c2).
Proof.
  intros cells c1 c2 Hwf H1 H2 k.
  unfold removeConnections.
  destruct c1 as [|a1 c1]; [congruence|]. destruct c2 as [|a2 c2]; [congruence|].
  cbn [truthy andb interp].
  destruct (arrow_loops cells Hwf) as [Hs _].
  unfold matchAll. rewrite Hs.
  set (l := map render_cell (filter is_edge cells)).
  assert (El : match l with [] => [] | _ :: _ => l end = l) by now destruct l.
  replace (match l with [] => None | t :: ts => Some (t :: ts) end)
    with (match l with [] => None | _ :: _ => Some l end) by now destruct l.
  replace (match match l with [] => None | _ :: _ => Some l end with
           | Some l0 => l0 | None => [] end) with l by now destruct l.
  cbv zeta. rewrite fold_pick_split. subst l.
  rewrite filter_map, filter_both.
  change (fun x => is_edge x && (includes (render_cell x) (a1 :: c1)
                                 && includes (render_cell x) (a2 :: c2)))
    with (between (a1 :: c1) (a2 :: c2)).
  rewrite (delete_matches (between (a1 :: c1) (a2 :: c2))
             (between_text (a1 :: c1) (a2 :: c2)) (length cells)) by auto.
  rewrite length_map. reflexivity.
Qed.

Lemma removeConnections_between_witness :
  removeConnections (render gpu_cpu) (Some (S_ "2")) (Some (S_ "3"))
  = Result true (render [node "2" "GPU"; node "3" "CPU"])
           (connections_removed 1 (S_ "2") (S_ "3")).
Proof.
  apply (removeConnections_between gpu_cpu (S_ "2") (S_ "3"));
    [reflexivity|discriminate|discriminate].
Defined.

(** * Diagrams without the named component *)

(** ** Patterns that open with a labelled cell *)

Lemma hd_error_nil {A} (l : list A) : hd_error l = None -> l = [].
Proof. destruct l; [reflexivity|discriminate]. Qed.

Lemma labelled_miss N r c rest b cp :
  forallb isWordChar N = true ->
  wf_cell c = true ->
  label_has N c = false ->
  rmatch true (labelled r N) (MState b (render_cell c ++ rest) cp) = [].
Proof.
  intros HN Hwf Hl. apply hd_error_nil.
  pose proof (kind_wf c Hwf) as Hk. apply wf_cell_parts in Hwf.
  destruct c as [I V S k G].
  cbn [c_id c_value c_style c_kind c_geometry] in *.
  destruct Hwf as ([I1 I2] & [V1 V2] & [S1 S2] & _ & HG).
  unfold label_has in Hl. cbn [c_value] in Hl.
  unfold labelled, render_cell, cell_tag, cell_body.
  cbn [c_id c_value c_style c_kind c_geometry].
  rewrite <- !app_assoc.
  rewrite (lit_seq_hit true mxCell_open _ mxCell_open) by reflexivity.
  rewrite rmatch_seq_star.
  match goal with
  | |- context [m_star _ _ ?t _] =>
      replace t with
        ((Q " id='" ++ I ++ Q "' ")
           ++ (value_eq ++ V ++ Q "' style='" ++ S ++ Q "'" ++ kind_attrs k)
           ++ (gt :: (Q "<mxGeometry" ++ G ++ Q "/>") ++ mxCell_close ++ rest))
        by (rewrite <- !app_assoc; reflexivity)
  end.
  pose proof (kind_not_gt k Hk) as Hkg.
  rewrite star_unique.
  - rewrite <- !app_assoc.
    rewrite (lit_seq_hit true value_eq _ value_eq) by reflexivity.
    change (Q "' style='" ++ ?x) with (dquote :: Q " style='" ++ x).
    rewrite name_in_value by (try apply word_no_dquote; try apply no_dquote_field; assumption).
    now rewrite Hl.
  - rewrite !forallb_app. repeat (apply andb_true_intro; split);
      try reflexivity; try assumption; now apply not_gt_field.
  - apply blind_quiet_seq. blind_pieces (S_ "value") (@nil ascii).
  - apply blind_quiet_seq.
    change (tl (value_eq ++ ?x)) with (Q "alue='" ++ x).
    repeat (rewrite blind_app; apply andb_true_intro; split);
      first [ reflexivity
            | apply (blind_attr true (S_ "value") []); [reflexivity|assumption]
            | now apply kind_blind_value ].
  - discriminate.
  - apply halts_gt.
  - intros b'. now apply lit_seq_miss.
Qed.

Section Untouched.
Variable re : RegExp.
Variable N : str.
Hypothesis exec_open : forall b s,
  starts true mxCell_open s = false -> re_exec re b s = None.
Hypothesis exec_header : forall b s,
  all_tails (fun t => re_exec re b (t ++ s) = None) header.
Hypothesis exec_miss : forall c rest b,
  wf_cell c = true -> label_has N c = false ->
  re_exec re b (render_cell c ++ rest) = None.

Lemma untouched_cell t c rest b :
  wf_cell c = true -> label_has N c = false ->
  replace_loop re t b (render_cell c ++ rest) 0
  = render_cell c ++ replace_loop re t (rev (render_cell c) ++ b) rest 0.
Proof.
  intros Hwf Hl. apply (loops_dead re t). intros u1 u2 b' E Hne.
  destruct u1 as [|x u1].
  - cbn [app] in E. subst u2. now apply exec_miss.
  - apply exec_open.
    pose proof (cell_tail_blind c rest Hwf) as Hb.
    apply blind_all_tails in Hb.
    change (render_cell c) with ("<"%char :: tl (render_cell c)) in E.
    cbn [app] in E. inversion E as [[Hx Ht]].
    apply (all_tails_spec _ _ Hb u1 u2 Ht Hne).
Qed.

Lemma untouched_cells t cells rest : forall b,
  forallb wf_cell cells = true ->
  forallb (fun c => negb (label_has N c)) cells = true ->
  exists b',
    replace_loop re t b (concat (map render_cell cells) ++ rest) 0
    = concat (map render_cell cells) ++ replace_loop re t b' rest 0.
Proof.
  induction cells as [|c cells IH]; intros b Hwf Hl.
  - now exists b.
  - cbn [forallb] in Hwf, Hl. apply andb_prop in Hwf, Hl.
    destruct Hwf as [Hc Hwf], Hl as [Hn Hl]. apply negb_true_iff in Hn.
    cbn [map concat]. rewrite <- app_assoc.
    rewrite untouched_cell by assumption.
    destruct (IH (rev (render_cell c) ++ b) Hwf Hl) as [b' ->].
    exists b'. now rewrite <- app_assoc.
Qed.

Lemma untouched_render t cells :
  forallb wf_cell cells = true ->
  forallb (fun c => negb (label_has N c)) cells = true ->
  replace_re re (render cells) t = render cells.
Proof.
  intros Hwf Hl. unfold replace_re, render.
  destruct (loops_dead re t header [] (concat (map render_cell cells) ++ footer))
    as [_ ->].
  { intros u1 u2 b' E Hne.
    apply (all_tails_spec _ _ (exec_header b' _) u1 u2 E Hne). }
  destruct (untouched_cells t cells footer (rev header ++ []) Hwf Hl) as [b' ->].
  destruct (loops_dead re t footer b' []) as [_ H].
  { intros u1 u2 b2 E Hne. apply exec_open.
    assert (Hb : blind true mxCell_open footer [] = true) by reflexivity.
    apply blind_all_tails in Hb.
    apply (all_tails_spec _ _ Hb u1 u2 E Hne). }
  rewrite app_nil_r in H. rewrite H. cbn [replace_loop].
  rewrite exec_open by reflexivity. now rewrite app_nil_r.
Qed.

End Untouched.

Section GroupedLabel.
Variable N : str.
Variable rA R : regex.
Variable g : nat.
Hypothesis N_word : forallb isWordChar N = true.

Let re := compile (Seq (Grp 1 (labelled rA N)) R) true g.

Lemma grouped_nil b s :
  rmatch true (labelled rA N) (MState b s []) = [] -> re_exec re b s = None.
Proof.
  intros H. unfold re, compile. cbn [re_exec].
  rewrite rmatch_seq. cbn [rmatch]. now rewrite H.
Qed.

Lemma grouped_open b s :
  starts true mxCell_open s = false -> re_exec re b s = None.
Proof.
  intros H. apply grouped_nil. unfold labelled. now apply lit_seq_miss.
Qed.

Lemma grouped_header b s :
  all_tails (fun t => re_exec re b (t ++ s) = None) header.
Proof.
  unfold header; cbn [all_tails].
  split_tails; first [ apply grouped_open; reflexivity
                     | apply grouped_nil; reflexivity ].
Qed.

Lemma grouped_miss c rest b :
  wf_cell c = true -> label_has N c = false ->
  re_exec re b (render_cell c ++ rest) = None.
Proof.
  intros Hwf Hl. apply grouped_nil. now apply labelled_miss.
Qed.

Lemma grouped_untouched t cells :
  forallb wf_cell cells = true ->
  forallb (fun c => negb (label_has N c)) cells = true ->
  replace_re re (render cells) t = render cells.
Proof.
  apply (untouched_render re N).
  - apply grouped_open.
  - apply grouped_header.
  - apply grouped_miss.
Qed.

End GroupedLabel.

(** On a diagram of well-formed cells none of whose labels holds the
    name, up to letter case, ModifyProperty returns the text unchanged,
    in its size branch, in its colour branch and when it fails. *)
Theorem modifyComponentProperty_no_label :
  forall dyn cells N value userInput,
    forallb isWordChar N = true ->
    forallb wf_cell cells = true ->
    forallb (fun c => negb (label_has N c)) cells = true ->
    xml (modifyComponentProperty dyn (render cells) N value userInput)
    = render cells.
Proof.
  intros dyn cells N value userInput HN Hwf Hl.
  unfold modifyComponentProperty, sizeRegex, colorRegex, new_RegExp.
  cbn [forallb]. rewrite (word_plain N HN). cbn [andb].
  destruct (_ || _); [cbn [xml]|destruct (_ || _); [cbn [xml]|reflexivity]].
  - apply (grouped_untouched N _ _ 3 HN _ cells Hwf Hl).
  - apply (grouped_untouched N _ _ 2 HN _ cells Hwf Hl).
Qed.

Lemma modifyComponentProperty_no_label_witness :
  xml (modifyComponentProperty no_dyn (render gpu_cpu) (S_ "RAM") (S_ "150")
                               (S_ "set RAM size to 150"))
  = render gpu_cpu.
Proof.
  apply (modifyComponentProperty_no_label no_dyn gpu_cpu (S_ "RAM"));
    reflexivity.
Defined.

(** * The component list of the replies *)

(** ** The component list *)

Lemma Array_indexOf_bound array v i :
  Array_indexOf array v = Some i -> nth_error array i = Some v.
Proof.
  revert i. induction array as [|x l IH]; intros i H; [discriminate|].
  cbn [Array_indexOf] in H. destruct (str_eqb x v) eqn:E.
  - inversion H. apply str_eqb_eq in E. now subst.
  - destruct (Array_indexOf l v) as [j|]; [|discriminate].
    inversion H. cbn [nth_error]. now apply IH.
Qed.

Lemma Array_indexOf_first array v i j :
  Array_indexOf array v = Some i -> nth_error array j = Some v -> i <= j.
Proof.
  revert i j. induction array as [|x l IH]; intros i j H Hj; [discriminate|].
  cbn [Array_indexOf] in H. destruct (str_eqb x v) eqn:E.
  - inversion H. lia.
  - destruct (Array_indexOf l v) as [k|] eqn:Ek; [|discriminate].
    inversion H. destruct j as [|j].
    + cbn in Hj. inversion Hj. subst.
      rewrite (proj2 (str_eqb_eq v v) eq_refl) in E. discriminate.
    + cbn [nth_error] in Hj. specialize (IH k j eq_refl Hj). lia.
Qed.

Lemma combine_seq_In {A} (l : list A) : forall n x i,
  In (x, i) (combine l (seq n (length l))) ->
  n <= i /\ nth_error l (i - n) = Some x.
Proof.
  induction l as [|y l IH]; intros n x i H; [destruct H|].
  cbn [length seq combine] in H. destruct H as [H|H].
  - inversion H. subst. rewrite Nat.sub_diag. split; [lia|reflexivity].
  - apply IH in H. destruct H as [Hle Hn]. split; [lia|].
    replace (i - n) with (S (i - S n)) by lia. exact Hn.
Qed.

Lemma combine_seq_NoDup {A} (l : list A) n :
  NoDup (map snd (combine l (seq n (length l)))).
Proof.
  revert n. induction l as [|y l IH]; intros n; [constructor|].
  cbn [length seq combine map snd]. constructor; [|apply IH].
  intros H. apply in_map_iff in H. destruct H as ([x i] & Hi & H).
  cbn [snd] in Hi. subst i. apply combine_seq_In in H. lia.
Qed.

(** Keeping the first occurrence of each value leaves no duplicate and
    only values of the array. *)
Lemma first_occurrences (array l : list str) :
  let keep := fun (value : str) (index : nat) =>
                match Array_indexOf array value with
                | Some i => i =? index
                | None => false
                end in
  forall n,
    NoDup (map fst (filter (fun p => keep (fst p) (snd p))
                           (combine l (seq n (length l))))).
Proof.
  intros keep. induction l as [|y l IH]; intros n; [constructor|].
  cbn [length seq combine filter fst snd].
  destruct (keep y n) eqn:E; [|apply IH].
  cbn [map fst]. constructor; [|apply IH].
  intros H. apply in_map_iff in H. destruct H as ([x i] & Hx & H).
  cbn [fst] in Hx. subst x. apply filter_In in H. destruct H as [H Hk].
  cbn [fst snd] in Hk. apply combine_seq_In in H. destruct H as [Hle _].
  unfold keep in E, Hk. destruct (Array_indexOf array y); [|discriminate].
  apply Nat.eqb_eq in E, Hk. lia.
Qed.

Lemma filter_indexed_In {A} (f : A -> nat -> bool) l x :
  In x (filter_indexed f l) -> In x l.
Proof.
  unfold filter_indexed. intros H. apply in_map_iff in H.
  destruct H as ([y i] & <- & H). apply filter_In in H. destruct H as [H _].
  apply combine_seq_In in H. destruct H as [_ H]. cbn [fst].
  eapply nth_error_In; eassumption.
Qed.

Lemma filter_indexed_length {A} (f : A -> nat -> bool) l :
  length (filter_indexed f l) <= length l.
Proof.
  unfold filter_indexed. rewrite length_map.
  etransitivity; [apply filter_length_le|].
  rewrite length_combine, length_seq. lia.
Qed.

(** What the marks pattern leaves holds no double quote. *)
Lemma marks_exec b s :
  re_exec valueMarkRegex b s
  = if starts false value_eq s
    then Some (MState (rev (firstn (length value_eq) s) ++ b)
                      (skipn (length value_eq) s) [])
    else if starts false [dquote] s
         then Some (MState (rev (firstn 1 s) ++ b) (skipn 1 s) [])
         else None.
Proof.
  unfold valueMarkRegex, compile. cbn [re_exec rmatch before after caps].
  rewrite !m_lit_spec.
  destruct (starts false value_eq s); [reflexivity|].
  destruct (starts false [dquote] s); reflexivity.
Qed.

Lemma marks_gone : forall s b skip,
  forallb (fun c => negb (Ascii.eqb c dquote))
          (replace_loop valueMarkRegex [] b s skip) = true.
Proof.
  induction s as [|c s IH]; intros b skip.
  - destruct skip; cbn [replace_loop]; [|reflexivity].
    rewrite marks_exec. reflexivity.
  - destruct skip as [|k]; cbn [replace_loop]; [|apply IH].
    rewrite marks_exec.
    destruct (starts false value_eq (c :: s)) eqn:E1.
    + apply starts_length in E1. cbv zeta.
      assert (Hn : endIndex (MState (rev (firstn (length value_eq) (c :: s)) ++ b)
                                    (skipn (length value_eq) (c :: s)) [])
                   - length b = 7).
      { unfold endIndex. cbn [before].
        rewrite length_app, length_rev, firstn_length_le by assumption.
        change (length value_eq) with 7. lia. }
      rewrite Hn. cbn [getSubstitution Nat.eqb app]. apply IH.
    + destruct (starts false [dquote] (c :: s)) eqn:E2.
      * cbn [getSubstitution app]. unfold endIndex. cbn [before firstn rev app length].
        replace (S (length b) - length b) with 1 by lia. cbn [Nat.eqb app].
        apply IH.
      * cbn [forallb]. rewrite IH, andb_true_r.
        cbn [starts] in E2. rewrite andb_true_r in E2. unfold chr_eq in E2.
        rewrite Ascii.eqb_sym. now rewrite E2.
Qed.

Lemma firstn_incl {A} n (l : list A) x : In x (firstn n l) -> In x l.
Proof.
  intros H. rewrite <- (firstn_skipn n l). apply in_or_app. now left.
Qed.

Lemma firstn_NoDup {A} n (l : list A) : NoDup l -> NoDup (firstn n l).
Proof.
  intros H. rewrite <- (firstn_skipn n l) in H.
  now apply NoDup_app_remove_r in H.
Qed.

(** The component list is never empty, has at most ten entries and no
    duplicate, and no entry is empty or holds an opening angle bracket,
    the text mxCell or a double quote. *)
Theorem extractComponentsFromXml_shape :
  forall xml0,
    let names := extractComponentsFromXml xml0 in
    names <> [] /\ length names <= 10 /\ NoDup names
    /\ Forall (fun v => v <> []
                        /\ includes v (S_ "<") = false
                        /\ includes v (S_ "mxCell") = false
                        /\ forallb (fun c => negb (Ascii.eqb c dquote)) v = true)
              names.
Proof.
  intros xml0 names. subst names. unfold extractComponentsFromXml.
  cbv zeta.
  match goal with
  | |- context [filter ?f (map ?g ?m)] => set (kept := filter f (map g m))
  end.
  match goal with
  | |- context [firstn 10 ?u] => set (unique := u)
  end.
  destruct (0 <? length (firstn 10 unique)) eqn:E.
  - apply Nat.ltb_lt in E. repeat split.
    + intros H. rewrite H in E. cbn in E. lia.
    + rewrite length_firstn. lia.
    + apply firstn_NoDup. apply first_occurrences.
    + apply Forall_forall. intros v Hv.
      apply firstn_incl, filter_indexed_In, filter_In in Hv.
      destruct Hv as [Hv Hk].
      apply andb_prop in Hk. destruct Hk as [Hk H3].
      apply andb_prop in Hk. destruct Hk as [Hk H2].
      apply andb_prop in Hk. destruct Hk as [H1 _].
      apply negb_true_iff in H2, H3. apply Nat.ltb_lt in H1.
      repeat split; try assumption.
      * intros ->. cbn in H1. lia.
      * apply in_map_iff in Hv. destruct Hv as (mt & <- & _).
        apply marks_gone.
  - repeat split.
    + discriminate.
    + cbn. lia.
    + repeat constructor. intros [].
    + repeat constructor; try discriminate; reflexivity.
Qed.

(** A text with no value attribute. *)
Lemma includes_tails s p :
  includes s p = false ->
  forall u1 u2, s = u1 ++ u2 -> starts false p u2 = false.
Proof.
  intros H u1. revert s H. induction u1 as [|c u1 IH]; intros s H u2 E.
  - cbn [app] in E. subst u2. destruct s; cbn [includes] in H;
      apply orb_false_elim in H; tauto.
  - subst s. cbn [app includes] in H. apply orb_false_elim in H.
    destruct H as [_ H]. now apply (IH _ H).
Qed.

(** On a text without any value attribute the component list is the
    single entry that says that no component was detected. *)
Theorem extractComponentsFromXml_no_value :
  forall xml0,
    includes xml0 value_eq = false ->
    extractComponentsFromXml xml0 = [no_components].
Proof.
  intros xml0 H. unfold extractComponentsFromXml.
  assert (Hs : scan valueRegex [] xml0 0 = []).
  { destruct (loops_dead valueRegex [] xml0 [] []) as [H1 _].
    - intros u1 u2 b' E _. rewrite app_nil_r.
      unfold valueRegex, compile, seqs. cbn [re_exec rmatch before after caps].
      rewrite m_lit_spec, (includes_tails _ _ H u1 u2 E). reflexivity.
    - rewrite app_nil_r in H1. rewrite H1. cbn [scan].
      unfold valueRegex, compile, seqs. cbn [re_exec rmatch before after caps].
      reflexivity. }
  unfold matchAll. rewrite Hs. reflexivity.
Qed.

Lemma extractComponentsFromXml_no_value_witness :
  extractComponentsFromXml header = [no_components].
Proof.
  apply extractComponentsFromXml_no_value. reflexivity.
Defined.

(** ** The value pattern on a diagram *)

Lemma render_cell_value c :
  render_cell c = cell_pre c ++ value_text (c_value c) ++ cell_post c.
Proof.
  unfold render_cell, cell_tag, cell_pre, value_text, cell_post.
  rewrite <- !app_assoc. reflexivity.
Qed.

Lemma value_dead u s :
  blind false value_eq u s = true ->
  forall u1 u2 b', u = u1 ++ u2 -> u2 <> [] ->
                   re_exec valueRegex b' (u2 ++ s) = None.
Proof.
  intros H u1 u2 b' E Hne. unfold valueRegex, compile, seqs. cbn [re_exec].
  rewrite (blind_quiet_seq _ _ _ _ _ H u1 u2 b' [] E Hne). reflexivity.
Qed.

Lemma value_exec_miss b rest :
  re_exec valueRegex b (value_eq ++ dquote :: rest) = None.
Proof.
  unfold valueRegex, compile, seqs, Plus. cbn [re_exec].
  rewrite lit_seq_hit by reflexivity. reflexivity.
Qed.

Lemma flat_map_map {A B C} (f : B -> list C) (g : A -> B) l :
  flat_map f (map g l) = flat_map (fun x => f (g x)) l.
Proof.
  induction l as [|x l IH]; [reflexivity|]. cbn [map flat_map]. now rewrite IH.
Qed.

Lemma value_exec_hit c V rest b :
  forallb (in_cset (CNot dquote)) (c :: V) = true ->
  re_exec valueRegex b (value_eq ++ (c :: V) ++ dquote :: rest)
  = Some (MState (dquote :: rev (c :: V) ++ rev value_eq ++ b) rest
                 [(1, c :: V)]).
Proof.
  intros H. cbn [forallb] in H. apply andb_prop in H. destruct H as [Hc HV].
  unfold valueRegex, compile, seqs, Plus. cbn [re_exec].
  rewrite lit_seq_hit by reflexivity.
  rewrite rmatch_seq. cbn [rmatch before after caps app]. rewrite Hc.
  cbn [flat_map]. rewrite app_nil_r, flat_map_map.
  cbn [before after caps].
  rewrite (star_through _ (CNot dquote) V).
  - unfold set_cap. cbn [before after caps m_lit].
    unfold chr_eq. rewrite Ascii.eqb_refl. cbn [hd_error].
    f_equal. f_equal.
    + cbn [rev]. now rewrite <- !app_assoc.
    + f_equal. f_equal.
      change (rev V ++ c :: rev value_eq ++ b)
        with (rev V ++ [c] ++ rev value_eq ++ b).
      rewrite app_assoc. change (rev V ++ [c]) with (rev (c :: V)).
      apply captured_app.
  - exact HV.
  - intros u1 u2 b' cp E Hne. unfold set_cap. cbn [before after caps].
    destruct u2 as [|x u2]; [congruence|]. cbn [app m_lit].
    assert (Hx : in_cset (CNot dquote) x = true).
    { rewrite forallb_forall in HV. apply HV. rewrite E.
      apply in_or_app. right. now left. }
    cbn [in_cset] in Hx. unfold chr_eq.
    apply negb_true_iff in Hx.
    first [rewrite Hx | rewrite Ascii.eqb_sym, Hx]. reflexivity.
  - cbn [halts in_cset]. now rewrite Ascii.eqb_refl.
Qed.

(** The dead stretches of a cell. *)

Lemma no_v_blind u s :
  forallb (fun c => negb (Ascii.eqb "v"%char c)) u = true ->
  blind false value_eq u s = true.
Proof. intros H. now apply (blind_nochar false "v"%char). Qed.

Lemma blind_value_field t s :
  value_tail t -> blind false value_eq t (dquote :: s) = true.
Proof.
  intros H. now apply (blind_attr false (S_ "value") []).
Qed.

Ltac value_pieces :=
  repeat (rewrite blind_app; apply andb_true_intro; split);
  first [ reflexivity | apply blind_value_field; assumption ].

Lemma cell_pre_blind c s :
  wf_cell c = true -> blind false value_eq (cell_pre c) (value_eq ++ s) = true.
Proof.
  intros H. apply wf_cell_parts in H. destruct H as ([HI _] & _).
  unfold cell_pre. value_pieces.
Qed.

Lemma kind_value_blind k s :
  wf_kind_parts k ->
  blind false value_eq (kind_attrs k) (gt :: s) = true.
Proof.
  destruct k as [|A B]; cbn [wf_kind_parts kind_attrs].
  - intros _. reflexivity.
  - intros [[HA _] [HB _]]. value_pieces.
Qed.

Lemma cell_post_blind c s :
  wf_cell c = true -> plain_geometry c = true ->
  blind false value_eq (cell_post c) s = true.
Proof.
  intros H HG. apply wf_cell_parts in H.
  destruct H as (_ & _ & [HS _] & HK & _).
  unfold cell_post, cell_body.
  repeat (rewrite blind_app; apply andb_true_intro; split);
    first [ reflexivity
          | apply blind_value_field; assumption
          | apply kind_value_blind; assumption
          | apply (blind_not_occurs false value_eq "/"%char); [reflexivity|];
            unfold plain_geometry in HG; now apply negb_true_iff in HG
          | apply no_v_blind; reflexivity ].
Qed.

(** The scan of one cell, of the cells, of the diagram. *)

Lemma value_scan_dead u s b :
  blind false value_eq u s = true ->
  scan valueRegex b (u ++ s) 0 = scan valueRegex (rev u ++ b) s 0.
Proof.
  intros H. apply (loops_dead valueRegex []). now apply value_dead.
Qed.

Lemma not_dquote_field t :
  value_tail t -> forallb (in_cset (CNot dquote)) t = true.
Proof.
  intros [H _]. apply forallb_forall. intros c Hc.
  rewrite forallb_forall in H. specialize (H c Hc). cbn [in_cset].
  now rewrite Ascii.eqb_sym.
Qed.

Lemma value_text_rev v B :
  dquote :: rev v ++ rev value_eq ++ B = rev (value_text v) ++ B.
Proof.
  unfold value_text. rewrite !rev_app_distr. cbn [rev app].
  now rewrite <- app_assoc.
Qed.

Lemma value_scan_cell c rest b :
  wf_cell c = true -> plain_geometry c = true ->
  exists b',
    map m_text (scan valueRegex b (render_cell c ++ rest) 0)
    = map value_text (filter (fun v => 0 <? length v) [c_value c])
        ++ map m_text (scan valueRegex b' rest 0).
Proof.
  intros Hwf HG. rewrite render_cell_value, <- !app_assoc.
  unfold value_text at 1. rewrite <- !app_assoc.
  rewrite value_scan_dead by now apply cell_pre_blind.
  pose proof (cell_post_blind c rest Hwf HG) as Hpost.
  pose proof Hwf as Hp. apply wf_cell_parts in Hp. destruct Hp as (_ & [HV _] & _).
  destruct (c_value c) as [|x V] eqn:EV.
  - cbn [filter length Nat.ltb Nat.leb map app].
    change (value_eq ++ dquote :: cell_post c ++ rest)
      with ("v"%char :: (Q "alue='" ++ dquote :: cell_post c ++ rest)).
    rewrite scan_miss by apply value_exec_miss.
    change (Q "alue='" ++ dquote :: cell_post c ++ rest)
      with ((Q "alue=''") ++ cell_post c ++ rest).
    rewrite value_scan_dead by reflexivity.
    rewrite value_scan_dead by assumption.
    eexists. reflexivity.
  - pose proof (value_exec_hit x V (cell_post c ++ rest) (rev (cell_pre c) ++ b)
                  (not_dquote_field _ HV)) as He.
    set (T := value_eq ++ (x :: V) ++ dquote :: cell_post c ++ rest) in *.
    cbn [filter length Nat.ltb Nat.leb map app].
    set (n := length (value_text (x :: V))).
    assert (ET : T = value_text (x :: V) ++ cell_post c ++ rest).
    { subst T. unfold value_text. rewrite <- !app_assoc. reflexivity. }
    assert (Hf : firstn n T = value_text (x :: V)).
    { rewrite ET. subst n. rewrite firstn_app, Nat.sub_diag, firstn_all.
      cbn [firstn]. now rewrite app_nil_r. }
    assert (Hk : skipn n T = cell_post c ++ rest).
    { rewrite ET. subst n. rewrite skipn_app, Nat.sub_diag, skipn_all.
      reflexivity. }
    change (value_eq ++ x :: V ++ dquote :: cell_post c ++ rest) with T.
    rewrite (scan_hit _ _ _ _ n He).
    + cbn [map]. rewrite Hk, value_scan_dead by assumption.
      eexists. f_equal.
      unfold mres_of, endIndex. cbn [m_text before].
      rewrite value_text_rev, length_app, length_rev.
      replace (length (value_text (x :: V)) + length (rev (cell_pre c) ++ b)
               - length (rev (cell_pre c) ++ b))
        with (length (rev (value_text (x :: V)))) by (rewrite length_rev; lia).
      rewrite firstn_app, Nat.sub_diag, firstn_all. cbn [firstn].
      now rewrite app_nil_r, rev_involutive.
    + unfold endIndex. cbn [before]. rewrite value_text_rev.
      rewrite length_app, length_rev. subst n. lia.
    + split.
      * subst n. unfold value_text. rewrite length_app.
        change (length value_eq) with 7. lia.
      * rewrite ET, length_app. subst n. lia.
Qed.

Lemma value_scan_cells cells rest : forall b,
  forallb wf_cell cells = true -> forallb plain_geometry cells = true ->
  exists b',
    map m_text (scan valueRegex b (concat (map render_cell cells) ++ rest) 0)
    = map value_text (filter (fun v => 0 <? length v) (map c_value cells))
        ++ map m_text (scan valueRegex b' rest 0).
Proof.
  induction cells as [|c cells IH]; intros b Hwf HG.
  - exists b. reflexivity.
  - cbn [forallb] in Hwf, HG. apply andb_prop in Hwf, HG.
    destruct Hwf as [Hc Hwf], HG as [Hg HG].
    cbn [map concat]. rewrite <- app_assoc.
    destruct (value_scan_cell c (concat (map render_cell cells) ++ rest) b Hc Hg)
      as [b1 H1].
    destruct (IH b1 Hwf HG) as [b2 H2].
    exists b2. rewrite H1, H2. rewrite app_assoc. f_equal.
    change (c_value c :: map c_value cells) with ([c_value c] ++ map c_value cells).
    now rewrite filter_app, map_app.
Qed.

Lemma value_scan_render cells :
  forallb wf_cell cells = true -> forallb plain_geometry cells = true ->
  map m_text (scan valueRegex [] (render cells) 0)
  = map value_text (filter (fun v => 0 <? length v) (map c_value cells)).
Proof.
  intros Hwf HG. unfold render.
  rewrite value_scan_dead by (apply no_v_blind; reflexivity).
  destruct (value_scan_cells cells footer (rev header ++ []) Hwf HG) as [b' H].
  rewrite H.
  rewrite <- (app_nil_r footer).
  rewrite value_scan_dead by (apply no_v_blind; reflexivity).
  cbn [scan]. unfold valueRegex, compile, seqs. cbn [re_exec].
  rewrite lit_seq_miss by reflexivity. cbn [hd_error map]. now rewrite app_nil_r.
Qed.

(** ** From the matches to the list *)

Lemma marks_strip v :
  value_tail v -> replace_re valueMarkRegex (value_text v) [] = v.
Proof.
  intros Hv. unfold replace_re, value_text.
  assert (H1 : re_exec valueMarkRegex [] (value_eq ++ v ++ [dquote])
               = Some (MState (rev value_eq ++ []) (v ++ [dquote]) [])).
  { rewrite marks_exec. reflexivity. }
  rewrite (replace_loop_hit _ _ _ _ _ 7 H1);
    [|reflexivity|rewrite length_app; change (length value_eq) with 7; lia].
  change (firstn 7 (value_eq ++ v ++ [dquote])) with value_eq.
  change (skipn 7 (value_eq ++ v ++ [dquote])) with (v ++ [dquote]).
  cbn [getSubstitution app].
  destruct (loops_dead valueMarkRegex [] v (rev value_eq ++ []) [dquote]) as [_ H2].
  - intros u1 u2 b' E Hne. rewrite marks_exec.
    pose proof (blind_value_field v [] Hv) as Hb.
    apply blind_all_tails in Hb.
    pose proof (all_tails_spec _ _ Hb u1 u2 E Hne) as Hm. cbv beta in Hm.
    rewrite Hm.
    destruct u2 as [|x u2]; [congruence|].
    destruct Hv as [Hq _]. rewrite forallb_forall in Hq.
    assert (Hx : negb (Ascii.eqb dquote x) = true).
    { apply Hq. rewrite E. apply in_or_app. right. now left. }
    apply negb_true_iff in Hx. cbn [app starts]. unfold chr_eq.
    now rewrite Hx.
  - rewrite H2.
    assert (H3 : re_exec valueMarkRegex (rev v ++ rev value_eq ++ []) [dquote]
                 = Some (MState (rev [dquote] ++ rev v ++ rev value_eq ++ []) [] [])).
    { rewrite marks_exec. reflexivity. }
    rewrite (replace_loop_hit _ _ _ _ _ 1 H3).
    + cbn [getSubstitution firstn skipn app replace_loop].
      rewrite marks_exec. cbn [starts]. now rewrite app_nil_r.
    + unfold endIndex. cbn [before]. rewrite length_app. cbn [rev app length]. lia.
    + cbn [length]. lia.
Qed.

(** Keeping first occurrences by index is keeping the distinct values. *)

Lemma Array_indexOf_seen pre l x :
  In x pre -> exists i, Array_indexOf (pre ++ l) x = Some i /\ i < length pre.
Proof.
  induction pre as [|y pre IH]; intros H; [destruct H|].
  cbn [app Array_indexOf length]. destruct (str_eqb y x) eqn:E.
  - exists 0. split; [reflexivity|lia].
  - destruct H as [->|H].
    + rewrite (proj2 (str_eqb_eq x x) eq_refl) in E. discriminate.
    + destruct (IH H) as (i & -> & Hi). exists (S i). split; [reflexivity|lia].
Qed.

Lemma Array_indexOf_new pre l x :
  ~ In x pre -> Array_indexOf (pre ++ x :: l) x = Some (length pre).
Proof.
  induction pre as [|y pre IH]; intros H.
  - cbn [app Array_indexOf length].
    now rewrite (proj2 (str_eqb_eq x x) eq_refl).
  - cbn [app Array_indexOf length]. destruct (str_eqb y x) eqn:E.
    + apply str_eqb_eq in E. subst y. exfalso. apply H. now left.
    + rewrite IH; [reflexivity|]. intros Hi. apply H. now right.
Qed.

Lemma existsb_seen (seen : list str) x :
  existsb (str_eqb x) seen = true <-> In x seen.
Proof.
  rewrite existsb_exists. split.
  - intros (y & Hy & E). apply str_eqb_eq in E. now subst.
  - intros H. exists x. split; [assumption|]. now apply str_eqb_eq.
Qed.

Lemma first_index_distinct : forall l pre seen,
  (forall x, In x seen <-> In x pre) ->
  map fst (filter (fun p => match Array_indexOf (pre ++ l) (fst p) with
                            | Some i => i =? snd p
                            | None => false
                            end)
                  (combine l (seq (length pre) (length l))))
  = distinct_from seen l.
Proof.
  induction l as [|x l IH]; intros pre seen Hs; [reflexivity|].
  cbn [length seq combine filter fst snd distinct_from].
  assert (Hn : forall P1 : list str -> Prop,
             P1 ((pre ++ [x]) ++ l) -> P1 (pre ++ x :: l)).
  { intros P1. now rewrite <- app_assoc. }
  destruct (existsb (str_eqb x) seen) eqn:E.
  - apply existsb_seen, Hs in E.
    destruct (Array_indexOf_seen pre (x :: l) x E) as (i & -> & Hi).
    replace (i =? length pre) with false by (symmetry; apply Nat.eqb_neq; lia).
    specialize (IH (pre ++ [x]) seen).
    rewrite <- app_assoc, length_app, Nat.add_comm in IH. cbn [app length Nat.add] in IH.
    apply IH. intros y. rewrite Hs, in_app_iff. cbn [In]. split; [tauto|].
    intros [H|[<-|[]]]; assumption.
  - assert (Hx : ~ In x pre).
    { intros H. apply Hs, existsb_seen in H. congruence. }
    rewrite (Array_indexOf_new pre l x Hx), Nat.eqb_refl. cbn [map fst].
    f_equal.
    specialize (IH (pre ++ [x]) (x :: seen)).
    rewrite <- app_assoc, length_app, Nat.add_comm in IH. cbn [app length Nat.add] in IH.
    apply IH. intros y. rewrite in_app_iff. cbn [In]. rewrite Hs. tauto.
Qed.

Lemma filter_indexed_distinct (l : list str) :
  filter_indexed (fun value index =>
                    match Array_indexOf l value with
                    | Some i => i =? index
                    | None => false
                    end) l
  = distinct l.
Proof.
  unfold filter_indexed, distinct.
  apply (first_index_distinct l [] []). tauto.
Qed.

Lemma no_lt_includes v :
  forallb (fun c => negb (markup_char c)) v = true ->
  includes v (S_ "<") = false.
Proof.
  induction v as [|c v IH]; intros H; [reflexivity|].
  cbn [forallb] in H. apply andb_prop in H. destruct H as [Hc Hv].
  cbn [includes]. rewrite (IH Hv), orb_false_r.
  change (S_ "<") with ["<"%char]. cbn [starts]. rewrite andb_true_r.
  unfold markup_char in Hc. rewrite !negb_orb in Hc.
  apply andb_prop in Hc. destruct Hc as [Hc _]. apply andb_prop in Hc.
  destruct Hc as [_ Hc]. apply negb_true_iff in Hc. unfold chr_eq.
  now rewrite Ascii.eqb_sym.
Qed.

(** On a diagram of well-formed cells whose geometry holds no value
    attribute, the component list is made of the labels that are not
    empty and do not hold the text mxCell, each once, in the order of
    their first occurrence, cut after the tenth; when there is none, it is
    the entry that says that no component was detected. *)
Theorem extractComponentsFromXml_labels :
  forall cells,
    forallb wf_cell cells = true ->
    forallb plain_geometry cells = true ->
    let names := firstn 10 (distinct (filter listed (map c_value cells))) in
    extractComponentsFromXml (render cells)
    = if 0 <? length names then names else [no_components].
Proof.
  intros cells Hwf HG names. unfold extractComponentsFromXml.
  unfold matchAll. rewrite (value_scan_render cells Hwf HG).
  set (vs := filter (fun v => 0 <? length v) (map c_value cells)).
  assert (Hvs : forall v, In v vs -> wf_parts v).
  { intros v Hv. apply filter_In in Hv. destruct Hv as [Hv _].
    apply in_map_iff in Hv. destruct Hv as (c & <- & Hc).
    rewrite forallb_forall in Hwf. apply Hwf, wf_cell_parts in Hc. tauto. }
  replace (match match map value_text vs with
                 | [] => None
                 | s :: l => Some (s :: l)
                 end with
           | Some l => l
           | None => []
           end) with (map value_text vs) by now destruct (map value_text vs).
  rewrite map_map.
  rewrite (map_ext_in _ (fun v => v)), map_id
    by (intros v Hv; apply marks_strip, Hvs, Hv).
  cbv zeta. subst vs. rewrite filter_both.
  rewrite (filter_ext_in _ listed).
  - rewrite filter_indexed_distinct. reflexivity.
  - intros v Hv. apply in_map_iff in Hv. destruct Hv as (c & <- & Hc).
    rewrite forallb_forall in Hwf. apply Hwf, wf_cell_parts in Hc.
    destruct Hc as (_ & [_ HV] & _).
    unfold listed. rewrite (no_lt_includes _ HV). cbn [negb].
    destruct (0 <? length (c_value c)); reflexivity.
Qed.

Lemma extractComponentsFromXml_labels_witness :
  extractComponentsFromXml (render gpu_twice) = [S_ "GPU"; S_ "gpu"].
Proof.
  apply (extractComponentsFromXml_labels gpu_twice); reflexivity.
Defined.

(** * Adding to a diagram *)

(** ** The identifier pattern of Add *)

Lemma render_cell_id c :
  render_cell c
  = Q "<mxCell " ++ id_open ++ c_id c ++ dquote :: cell_after_id c.
Proof.
  unfold render_cell, cell_tag, cell_after_id.
  rewrite <- !app_assoc. reflexivity.
Qed.

Lemma blind_ci p u s : blind true p u s = true -> blind false p u s = true.
Proof.
  induction u as [|c u IH]; [reflexivity|]. cbn [blind]. intros H.
  apply andb_prop in H. destruct H as [H1 H2]. rewrite (IH H2), andb_true_r.
  apply negb_true_iff in H1. apply negb_true_iff.
  destruct (starts false p ((c :: u) ++ s)) eqn:E; [|reflexivity].
  apply starts_ci in E. congruence.
Qed.

Lemma id_tail_blind c rest :
  wf_cell c = true ->
  blind false id_open (c_id c ++ dquote :: cell_after_id c) rest = true.
Proof.
  intros Hwf.
  destruct (id_exec_attr [] c rest [] eq_refl Hwf) as (tail & E & Hb & _).
  rewrite render_cell_id in E. apply app_inv_head in E. apply app_inv_head in E.
  subst tail. now apply blind_ci.
Qed.

Lemma m_star_first cs u : forall b s cp,
  forallb (in_cset cs) u = true -> halts cs s ->
  exists more, m_star cs b (u ++ s) cp = MState (rev u ++ b) s cp :: more.
Proof.
  induction u as [|c u IH]; intros b s cp Hu Hs.
  - exists []. now apply m_star_halts.
  - cbn [forallb] in Hu. apply andb_prop in Hu. destruct Hu as [Hc Hu].
    cbn [app m_star]. rewrite Hc.
    destruct (IH (c :: b) s cp Hu Hs) as [more ->].
    eexists. cbn [rev app]. rewrite <- app_assoc. reflexivity.
Qed.

Lemma digit_prefix l :
  forallb isDigit l = false ->
  exists ds y r, l = ds ++ y :: r /\ forallb isDigit ds = true
                 /\ isDigit y = false.
Proof.
  induction l as [|c l IH]; intros H; [discriminate|].
  cbn [forallb] in H. destruct (isDigit c) eqn:E.
  - cbn [andb] in H. destruct (IH H) as (ds & y & r & -> & Hd & Hy).
    exists (c :: ds), y, r. cbn [forallb app]. rewrite E. auto.
  - exists [], c, l. auto.
Qed.

Lemma digit_not_dquote c : isDigit c = true -> Ascii.eqb dquote c = false.
Proof.
  intros H. destruct (Ascii.eqb dquote c) eqn:E; [|reflexivity].
  apply Ascii.eqb_eq in E. subst c. discriminate H.
Qed.

Lemma id_exec_hit d ds rest b :
  forallb isDigit (d :: ds) = true ->
  re_exec numericIdRegex b (id_open ++ (d :: ds) ++ dquote :: rest)
  = Some (MState (dquote :: rev (d :: ds) ++ rev id_open ++ b) rest
                 [(1, d :: ds)]).
Proof.
  intros H. cbn [forallb] in H. apply andb_prop in H. destruct H as [Hd Hds].
  unfold numericIdRegex, compile, seqs, Plus. cbn [re_exec].
  rewrite (lit_seq_hit false _ _ id_open) by reflexivity.
  rewrite rmatch_seq. cbn [rmatch before after caps app in_cset]. rewrite Hd.
  cbn [flat_map]. rewrite app_nil_r.
  rewrite flat_map_map. cbn [before after caps].
  rewrite (star_through _ CDigit ds).
  - unfold set_cap. cbn [before after caps m_lit].
    unfold chr_eq. rewrite Ascii.eqb_refl. cbn [hd_error].
    f_equal. f_equal.
    + cbn [rev]. now rewrite <- !app_assoc.
    + f_equal. f_equal.
      change (rev ds ++ d :: rev id_open ++ b)
        with (rev ds ++ [d] ++ rev id_open ++ b).
      rewrite app_assoc. change (rev ds ++ [d]) with (rev (d :: ds)).
      apply captured_app.
  - exact Hds.
  - intros u1 u2 b' cp E Hne. unfold set_cap. cbn [before after caps].
    destruct u2 as [|x u2]; [congruence|]. cbn [app m_lit].
    assert (Hx : isDigit x = true).
    { rewrite forallb_forall in Hds. apply Hds. rewrite E.
      apply in_or_app. right. now left. }
    unfold chr_eq. now rewrite (digit_not_dquote x Hx).
  - reflexivity.
Qed.

Lemma id_exec_miss I rest b :
  forallb (fun c => negb (Ascii.eqb dquote c)) I = true ->
  (0 <? length I) && forallb isDigit I = false ->
  re_exec numericIdRegex b (id_open ++ I ++ dquote :: rest) = None.
Proof.
  intros Hq Hn.
  unfold numericIdRegex, compile, seqs, Plus. cbn [re_exec].
  rewrite (lit_seq_hit false _ _ id_open) by reflexivity.
  rewrite rmatch_seq. cbn [rmatch before after caps].
  destruct I as [|x I]; [reflexivity|].
  cbn [length Nat.ltb Nat.leb andb] in Hn. cbn [app in_cset].
  cbn [forallb] in Hn, Hq. apply andb_prop in Hq. destruct Hq as [Hx Hq].
  destruct (isDigit x) eqn:Ex; [|reflexivity].
  cbn [andb] in Hn. cbn [flat_map]. rewrite app_nil_r.
  destruct (digit_prefix I Hn) as (ds & y & r & -> & Hds & Hy).
  rewrite forallb_app in Hq. apply andb_prop in Hq. destruct Hq as [_ Hq].
  cbn [forallb] in Hq. apply andb_prop in Hq. destruct Hq as [Hyq _].
  apply negb_true_iff in Hyq.
  rewrite <- app_assoc. cbn [app].
  rewrite flat_map_map. cbn [before after caps].
  rewrite (star_through _ CDigit ds).
  - unfold set_cap. cbn [before after caps m_lit]. unfold chr_eq.
    now rewrite Hyq.
  - exact Hds.
  - intros u1 u2 b' cp E Hne. unfold set_cap. cbn [before after caps].
    destruct u2 as [|z u2]; [congruence|]. cbn [app m_lit].
    assert (Hz : isDigit z = true).
    { rewrite forallb_forall in Hds. apply Hds. rewrite E.
      apply in_or_app. right. now left. }
    unfold chr_eq. now rewrite (digit_not_dquote z Hz).
  - cbn [halts in_cset]. exact Hy.
Qed.

(** The scan of the identifiers. *)

Lemma id_dead u s :
  blind false id_open u s = true ->
  forall u1 u2 b', u = u1 ++ u2 -> u2 <> [] ->
                   re_exec numericIdRegex b' (u2 ++ s) = None.
Proof.
  intros H u1 u2 b' E Hne. unfold numericIdRegex, compile, seqs. cbn [re_exec].
  rewrite (blind_quiet_seq _ _ _ _ _ H u1 u2 b' [] E Hne). reflexivity.
Qed.

Lemma id_scan_dead u s b :
  blind false id_open u s = true ->
  scan numericIdRegex b (u ++ s) 0 = scan numericIdRegex (rev u ++ b) s 0.
Proof.
  intros H. apply (loops_dead numericIdRegex []). now apply id_dead.
Qed.

Lemma id_text_rev v B :
  dquote :: rev v ++ rev id_open ++ B = rev (id_text v) ++ B.
Proof.
  unfold id_text. rewrite !rev_app_distr. cbn [rev app].
  now rewrite <- app_assoc.
Qed.

Lemma id_scan_cell c rest b :
  wf_cell c = true ->
  exists b',
    map m_text (scan numericIdRegex b (render_cell c ++ rest) 0)
    = map id_text (map c_id (filter numeric_id [c]))
        ++ map m_text (scan numericIdRegex b' rest 0).
Proof.
  intros Hwf. rewrite render_cell_id, <- !app_assoc.
  rewrite id_scan_dead by reflexivity.
  pose proof (id_tail_blind c rest Hwf) as Hb.
  rewrite blind_app in Hb. apply andb_prop in Hb. destruct Hb as [_ Hb].
  cbn [blind] in Hb. apply andb_prop in Hb. destruct Hb as [_ Hafter].
  pose proof Hwf as Hp. apply wf_cell_parts in Hp. destruct Hp as ([HI _] & _).
  cbn [filter]. unfold numeric_id at 1.
  destruct ((0 <? length (c_id c)) && forallb isDigit (c_id c)) eqn:En.
  - apply andb_prop in En. destruct En as [Hl Hd].
    destruct (c_id c) as [|d ds] eqn:EI; [discriminate|].
    pose proof (id_exec_hit d ds (cell_after_id c ++ rest)
                  (rev (Q "<mxCell ") ++ b) Hd) as He.
    set (T := id_open ++ (d :: ds) ++ dquote :: cell_after_id c ++ rest) in *.
    cbn [map app].
    change (id_open ++ d :: ds ++ dquote :: cell_after_id c ++ rest) with T.
    set (n := length (id_text (d :: ds))).
    assert (ET : T = id_text (d :: ds) ++ cell_after_id c ++ rest).
    { subst T. unfold id_text. rewrite <- !app_assoc. reflexivity. }
    assert (Hk : skipn n T = cell_after_id c ++ rest).
    { rewrite ET. subst n. rewrite skipn_app, Nat.sub_diag, skipn_all.
      reflexivity. }
    rewrite (scan_hit _ _ _ _ n He).
    + cbn [map]. rewrite Hk, id_scan_dead by assumption.
      eexists. f_equal.
      unfold mres_of, endIndex. cbn [m_text before].
      rewrite id_text_rev, length_app, length_rev.
      replace (length (id_text (d :: ds)) + length (rev (Q "<mxCell ") ++ b)
               - length (rev (Q "<mxCell ") ++ b))
        with (length (rev (id_text (d :: ds)))) by (rewrite length_rev; lia).
      rewrite firstn_app, Nat.sub_diag, firstn_all. cbn [firstn].
      now rewrite app_nil_r, rev_involutive, EI.
    + unfold endIndex. cbn [before]. rewrite id_text_rev.
      rewrite length_app, length_rev. subst n. lia.
    + split.
      * subst n. unfold id_text. rewrite length_app.
        change (length id_open) with 4. lia.
      * rewrite ET, length_app. subst n. lia.
  - cbn [map app].
    change (id_open ++ c_id c ++ dquote :: cell_after_id c ++ rest)
      with ("i"%char :: (Q "d='" ++ c_id c ++ dquote :: cell_after_id c ++ rest)).
    rewrite scan_miss.
    2:{ apply (id_exec_miss (c_id c)); [|assumption]. now destruct HI. }
    rewrite id_scan_dead by reflexivity.
    replace (c_id c ++ dquote :: cell_after_id c ++ rest)
      with ((c_id c ++ dquote :: cell_after_id c) ++ rest)
      by (now rewrite <- app_assoc).
    rewrite id_scan_dead by (now apply id_tail_blind).
    eexists. reflexivity.
Qed.

Lemma id_scan_cells cells rest : forall b,
  forallb wf_cell cells = true ->
  exists b',
    map m_text (scan numericIdRegex b (concat (map render_cell cells) ++ rest) 0)
    = map id_text (map c_id (filter numeric_id cells))
        ++ map m_text (scan numericIdRegex b' rest 0).
Proof.
  induction cells as [|c cells IH]; intros b Hwf.
  - exists b. reflexivity.
  - cbn [forallb] in Hwf. apply andb_prop in Hwf. destruct Hwf as [Hc Hwf].
    cbn [map concat]. rewrite <- app_assoc.
    destruct (id_scan_cell c (concat (map render_cell cells) ++ rest) b Hc)
      as [b1 H1].
    destruct (IH b1 Hwf) as [b2 H2].
    exists b2. rewrite H1, H2. rewrite app_assoc. f_equal.
    change (c :: cells) with ([c] ++ cells).
    now rewrite filter_app, !map_app.
Qed.

Lemma id_scan_header rest :
  map m_text (scan numericIdRegex [] (header ++ rest) 0)
  = [id_text (S_ "0"); id_text (S_ "1")]
      ++ map m_text (scan numericIdRegex (rev header) rest 0).
Proof. reflexivity. Qed.

Lemma id_scan_render cells :
  forallb wf_cell cells = true ->
  map m_text (scan numericIdRegex [] (render cells) 0)
  = map id_text (S_ "0" :: S_ "1" :: map c_id (filter numeric_id cells)).
Proof.
  intros Hwf. unfold render. rewrite id_scan_header.
  destruct (id_scan_cells cells footer (rev header) Hwf) as [b' ->].
  rewrite <- (app_nil_r footer).
  rewrite id_scan_dead by reflexivity.
  cbn [map app]. f_equal. f_equal. rewrite <- (app_nil_r (map id_text _)) at 2.
  f_equal.
Qed.

(** ** From the identifiers to the new identifier *)

Lemma digits_exec d ds b :
  forallb isDigit (d :: ds) = true ->
  re_exec digitsRegex b ((d :: ds) ++ [dquote])
  = Some (MState (rev (d :: ds) ++ b) [dquote] []).
Proof.
  intros H. cbn [forallb] in H. apply andb_prop in H. destruct H as [Hd Hds].
  unfold digitsRegex, compile, Plus. cbn [re_exec].
  rewrite rmatch_seq. cbn [rmatch before after caps app in_cset]. rewrite Hd.
  cbn [flat_map]. rewrite app_nil_r. cbn [rmatch before after caps].
  destruct (m_star_first CDigit ds (d :: b) [dquote] [] Hds eq_refl) as [more ->].
  cbn [hd_error rev]. now rewrite <- app_assoc.
Qed.

Lemma id_number d ds :
  forallb isDigit (d :: ds) = true ->
  parseInt (match match_first digitsRegex (id_text (d :: ds)) with
            | Some r => match m_text r with
                        | [] => S_ "0"
                        | t => t
                        end
            | None => S_ "0"
            end)
  = Num (digits_value 0 (d :: ds)).
Proof.
  intros H. unfold match_first, id_text.
  rewrite search_dead.
  2:{ intros u1 u2 b' E Hne. revert b'.
      apply (all_tails_spec
               (fun u2 => forall b', re_exec digitsRegex b'
                                       (u2 ++ (d :: ds) ++ [dquote]) = None)
               id_open) with (u1 := u1); [|exact E|exact Hne].
      unfold id_open. cbn [all_tails]. repeat split; intros; reflexivity. }
  rewrite (search_hit _ _ _ _ (digits_exec d ds _ H)).
  unfold mres_of, endIndex. cbn [m_text before].
  rewrite length_app, length_rev.
  replace (length (d :: ds) + length (rev id_open ++ []) - length (rev id_open ++ []))
    with (length (rev (d :: ds))) by (rewrite length_rev; lia).
  rewrite firstn_app, Nat.sub_diag, firstn_all. cbn [firstn].
  rewrite app_nil_r, rev_involutive.
  cbn [forallb] in H. apply andb_prop in H. destruct H as [Hd _].
  unfold parseInt. now rewrite Hd.
Qed.

Lemma max_nums ns : forall a,
  fold_left js_max2 (map Num ns) (Num a) = Num (fold_left Nat.max ns a).
Proof.
  induction ns as [|n ns IH]; intros a; [reflexivity|].
  cbn [map fold_left js_max2]. apply IH.
Qed.

Lemma existing_ids_render cells :
  forallb wf_cell cells = true ->
  Math_max (existing_ids (render cells)) = Num (max_id cells).
Proof.
  intros Hwf. unfold existing_ids, matchAll.
  rewrite (id_scan_render cells Hwf). cbn [map].
  change (S_ "0") with ["0"%char] at 1. change (S_ "1") with ["1"%char] at 1.
  rewrite (id_number "0"%char [] eq_refl), (id_number "1"%char [] eq_refl).
  unfold Math_max. cbn [fold_left js_max2].
  change (Nat.max (digits_value 0 ["0"%char]) (digits_value 0 ["1"%char])) with 1.
  unfold max_id. rewrite <- max_nums. f_equal.
  rewrite !map_map. apply map_ext_in. intros c Hc.
  apply filter_In in Hc. destruct Hc as [_ Hc]. unfold numeric_id in Hc.
  apply andb_prop in Hc. destruct Hc as [Hl Hd].
  destruct (c_id c) as [|d ds]; [discriminate|].
  now apply id_number.
Qed.

(** ** The insertion before the closing tag *)

Lemma closing_blind_cell c rest :
  wf_cell c = true -> blind false closing_root (render_cell c) rest = true.
Proof.
  intros Hwf. pose proof (kind_wf c Hwf) as Hk. apply wf_cell_parts in Hwf.
  destruct c as [I V S k G].
  cbn [c_id c_value c_style c_kind c_geometry] in *.
  destruct Hwf as ([_ I2] & [_ V2] & [_ S2] & _ & HG).
  apply no_lt_field in I2, V2, S2. apply geometry_no_lt in HG.
  unfold render_cell, cell_tag, cell_body.
  cbn [c_id c_value c_style c_kind c_geometry].
  destruct k as [|A B]; cbn [kind_attrs wf_kind_parts] in *.
  - lt_pieces.
  - destruct Hk as [[_ A2] [_ B2]]. apply no_lt_field in A2, B2. lt_pieces.
Qed.

Lemma closing_blind_cells cells rest :
  forallb wf_cell cells = true ->
  blind false closing_root (concat (map render_cell cells)) rest = true.
Proof.
  induction cells as [|c cells IH]; intros Hwf; [reflexivity|].
  cbn [forallb] in Hwf. apply andb_prop in Hwf. destruct Hwf as [Hc Hwf].
  cbn [map concat]. rewrite blind_app, (IH Hwf), andb_true_r.
  now apply closing_blind_cell.
Qed.

Lemma nat_to_str_plain n :
  forallb (fun c => negb (Ascii.eqb c "$"%char)) (nat_to_str n) = true.
Proof.
  unfold nat_to_str.
  assert (H : forall d, forallb (fun c => negb (Ascii.eqb c "$"%char))
                          (list_ascii_of_string (NilEmpty.string_of_uint d)) = true).
  { induction d; cbn [NilEmpty.string_of_uint list_ascii_of_string forallb];
      try rewrite IHd; reflexivity. }
  destruct (Nat.to_uint n) eqn:E; try apply H. reflexivity.
Qed.

Lemma newComponent_plain n name :
  forallb isWordChar name = true ->
  forallb (fun c => negb (Ascii.eqb c "$"%char))
          (newComponent (Num n) name ++ [nl] ++ S_ "  </mxGraphModel>") = true.
Proof.
  intros H. unfold newComponent. cbn [num_to_str].
  rewrite !forallb_app.
  repeat (apply andb_true_intro; split);
    first [ reflexivity | apply nat_to_str_plain | now apply word_no_dollar ].
Qed.

Lemma addComponent_render cells name :
  forallb wf_cell cells = true ->
  forallb isWordChar name = true ->
  addComponent (render cells) name
  = Result true (with_component cells (S (max_id cells)) name) tt.
Proof.
  intros Hwf Hn. unfold addComponent.
  rewrite (existing_ids_render cells Hwf). cbn [js_succ]. f_equal.
  unfold replace_str, with_component.
  set (u := header ++ concat (map render_cell cells) ++ Q "</root>").
  assert (Er : render cells = u ++ closing_root ++ []).
  { subst u. unfold render. rewrite <- !app_assoc. reflexivity. }
  rewrite Er, indexOf_dead.
  - rewrite indexOf_hit by reflexivity. cbn [option_map].
    rewrite Nat.add_0_r.
    rewrite firstn_app, Nat.sub_diag, firstn_all. cbn [firstn]. rewrite app_nil_r.
    rewrite skipn_app, skipn_all2 by lia.
    replace (length u + length closing_root - length u)
      with (length closing_root) by lia.
    rewrite skipn_app, skipn_all, Nat.sub_diag. cbn [skipn app].
    rewrite getSubstitution_plain by now apply newComponent_plain.
    subst u. rewrite <- !app_assoc. rewrite app_nil_r. reflexivity.
  - apply blind_all_tails. subst u.
    repeat (rewrite blind_app; apply andb_true_intro; split);
      first [ reflexivity | now apply closing_blind_cells ].
Qed.

(** Add on a diagram of well-formed cells, for a name made of word
    characters and identifiers of at most fifteen characters (numbers
    that the doubles of the source hold exactly): the new identifier is
    one more than the largest numeric identifier, those of the header
    included, and the new component, labelled with the upper-cased name,
    is inserted just before the closing tag of the model. *)
Theorem addComponent_on_diagram :
  forall cells name,
    forallb wf_cell cells = true ->
    forallb (fun c => length (c_id c) <=? 15) cells = true ->
    forallb isWordChar name = true ->
    addComponent (render cells) name
    = Result true (with_component cells (S (max_id cells)) name) tt.
Proof.
  intros cells name Hwf _ Hn. now apply addComponent_render.
Qed.

Lemma addComponent_on_diagram_witness :
  addComponent (render gpu_cpu) (S_ "ram")
  = Result true (with_component gpu_cpu 5 (S_ "ram")) tt.
Proof.
  apply (addComponent_on_diagram gpu_cpu (S_ "ram")); reflexivity.
Defined.

(** * Instructions, end to end *)

(** ** The instruction [remove NAME] *)

Lemma rmatch_lit ci l b s cp :
  rmatch ci (Lit l) (MState b s cp) = m_lit ci l b s cp.
Proof. reflexivity. Qed.

Lemma rmatch_opt ci r st :
  rmatch ci (Opt r) st
  = filter (fun st' => negb (endIndex st' =? endIndex st)) (rmatch ci r st)
      ++ [st].
Proof. reflexivity. Qed.

Lemma rmatch_alt ci r1 r2 st :
  rmatch ci (Alt r1 r2) st = rmatch ci r1 st ++ rmatch ci r2 st.
Proof. reflexivity. Qed.

Lemma rmatch_grp ci n r st :
  rmatch ci (Grp n r) st = map (set_cap n st) (rmatch ci r st).
Proof. reflexivity. Qed.

Lemma rmatch_plus ci cs b s cp :
  rmatch ci (Plus cs) (MState b s cp)
  = match s with
    | c :: s' => if in_cset cs c then m_star cs (c :: b) s' cp else []
    | [] => []
    end.
Proof.
  unfold Plus. rewrite rmatch_seq. cbn [rmatch before after caps].
  destruct s as [|c s']; [reflexivity|].
  destruct (in_cset cs c); [|reflexivity].
  cbn [flat_map]. now rewrite app_nil_r.
Qed.

Lemma word_not_space c : isWordChar c = true -> isSpace c = false.
Proof.
  destruct c as [[] [] [] [] [] [] [] []]; intros H; try reflexivity;
    discriminate H.
Qed.

(** White space is never found inside a word or at the end of the text. *)
Lemma sp_word_nil b t cp :
  forallb isWordChar t = true -> rmatch true sp (MState b t cp) = [].
Proof.
  intros H. unfold sp. rewrite rmatch_plus.
  destruct t as [|c t]; [reflexivity|].
  cbn [forallb] in H. apply andb_prop in H. destruct H as [Hc _].
  cbn [in_cset]. now rewrite (word_not_space c Hc).
Qed.

Lemma sp_one b t cp :
  forallb isWordChar t = true ->
  rmatch true sp (MState b (" "%char :: t) cp) = [MState (" "%char :: b) t cp].
Proof.
  intros H. unfold sp. rewrite rmatch_plus. cbn [in_cset].
  change (isSpace " "%char) with true. cbv iota.
  apply m_star_halts. destruct t as [|c t]; [exact I|].
  cbn [forallb] in H. apply andb_prop in H. destruct H as [Hc _].
  cbn [halts in_cset]. now apply word_not_space.
Qed.

Lemma starts_skip_word (l t : str) :
  forallb isWordChar t = true ->
  forallb isWordChar (skipn (length l) t) = true.
Proof.
  intros H. apply forallb_forall. intros x Hx. rewrite forallb_forall in H.
  apply H. rewrite <- (firstn_skipn (length l) t). apply in_or_app. now right.
Qed.

Lemma lit_sp_word_nil l r b t cp :
  forallb isWordChar t = true ->
  rmatch true (Seq (Lit l) (Seq sp r)) (MState b t cp) = [].
Proof.
  intros H. rewrite rmatch_seq, rmatch_lit, m_lit_spec.
  destruct (starts true l t); [|reflexivity].
  cbn [flat_map]. rewrite rmatch_seq, sp_word_nil; [reflexivity|].
  now apply starts_skip_word.
Qed.

Lemma opt_the_word b t cp :
  forallb isWordChar t = true ->
  rmatch true opt_the (MState b t cp) = [MState b t cp].
Proof.
  intros H. unfold opt_the. rewrite rmatch_opt.
  rewrite rmatch_seq, rmatch_lit, m_lit_spec.
  destruct (starts true (S_ "the") t); [|reflexivity].
  cbn [flat_map]. rewrite sp_word_nil; [reflexivity|].
  now apply starts_skip_word.
Qed.

Lemma word_group n c t b cp :
  forallb isWordChar (c :: t) = true ->
  exists more,
    rmatch true (word n) (MState b (c :: t) cp)
    = MState (rev (c :: t) ++ b) [] ((n, c :: t) :: cp) :: more.
Proof.
  intros H. cbn [forallb] in H. apply andb_prop in H. destruct H as [Hc Ht].
  unfold word. rewrite rmatch_grp, rmatch_plus. cbn [in_cset]. rewrite Hc.
  destruct (m_star_first CWord t (c :: b) [] cp Ht I) as [more E].
  rewrite app_nil_r in E. rewrite E. cbn [map]. eexists. f_equal.
  unfold set_cap. cbn [before after caps]. f_equal.
  - cbn [rev]. now rewrite <- app_assoc.
  - f_equal. f_equal.
    change (rev t ++ c :: b) with (rev t ++ [c] ++ b).
    rewrite app_assoc. change (rev t ++ [c]) with (rev (c :: t)).
    apply captured_app.
Qed.

Lemma opt_sp_end r1 r2 b cp :
  rmatch true (Opt (Alt (Seq sp r1) (Seq sp r2))) (MState b [] cp)
  = [MState b [] cp].
Proof.
  rewrite rmatch_opt, rmatch_alt, !rmatch_seq, !sp_word_nil by reflexivity.
  reflexivity.
Qed.

Lemma remove_instruction_match N :
  N <> [] -> forallb isWordChar N = true ->
  exists m,
    match_first (instr [Lit (S_ "remove"); sp; opt_the; word 1;
                        Opt (Alt (Seq sp (Lit (S_ "block")))
                                 (Seq sp (Lit (S_ "component"))))] 1)
                (S_ "remove " ++ N) = Some m
    /\ group 1 (m_caps m) = Some N.
Proof.
  intros Hne HN. destruct N as [|c N]; [congruence|]. clear Hne.
  destruct (word_group 1 c N (rev (S_ "remove ")) [] HN) as [more Hw].
  eexists. split.
  - unfold match_first. apply search_hit.
    unfold instr, compile, seqs. cbn [re_exec].
    change (S_ "remove " ++ c :: N) with (S_ "remove" ++ " "%char :: c :: N).
    rewrite (lit_seq_hit true (S_ "remove") _ (S_ "remove")) by reflexivity.
    rewrite rmatch_seq.
    rewrite sp_one by exact HN. cbn [flat_map]. rewrite app_nil_r.
    rewrite rmatch_seq, opt_the_word by exact HN. cbn [flat_map].
    rewrite app_nil_r, rmatch_seq.
    change (" "%char :: rev (S_ "remove") ++ []) with (rev (S_ "remove ")).
    rewrite Hw. cbn [flat_map]. rewrite opt_sp_end. cbn [app hd_error].
    reflexivity.
  - unfold mres_of. cbn [m_caps caps group Nat.eqb]. reflexivity.
Qed.

(** The instruction [remove NAME], for a name made of word characters,
    on a diagram of ASCII text written as [render] writes it, of
    well-formed cells with plain identifiers, in which some label holds
    the name: the mutator deletes the cells whose label
    holds the name and the edges that refer to the first of them, and
    reports the removal of the upper-cased name as its one change. *)
Theorem makeActualXmlChanges_remove :
  forall dyn cells N c0,
    N <> [] -> forallb isWordChar N = true ->
    ascii_text (render cells) = true ->
    forallb wf_cell cells = true ->
    forallb (fun c => plain (c_id c)) cells = true ->
    find (label_has N) cells = Some c0 ->
    makeActualXmlChanges dyn (S_ "remove " ++ N) (render cells)
    = Outcome
        (render (filter (fun c => negb (label_has N c)
                                  && negb (refers_to (c_id c0) c)) cells))
        [S_ "Removed " ++ toUpperCase N
           ++ S_ " component and its connections"].
Proof.
  intros dyn cells N c0 Hne HN _ Hwf Hids Hf.
  destruct (remove_instruction_match N Hne HN) as (m & Hm & Hg).
  unfold makeActualXmlChanges, try_remove, removePatterns.
  cbn [first_success]. rewrite Hm, Hg. cbn [interp].
  rewrite (removeComponent_render dyn cells N HN Hwf Hids), Hf.
  reflexivity.
Qed.

Lemma makeActualXmlChanges_remove_witness :
  makeActualXmlChanges no_dyn (S_ "remove " ++ S_ "GPU") (render gpu_cpu)
  = Outcome (render [node "3" "CPU"])
            [S_ "Removed GPU component and its connections"].
Proof.
  apply (makeActualXmlChanges_remove no_dyn gpu_cpu (S_ "GPU") (node "2" "GPU"));
    try discriminate; reflexivity.
Defined.

(** ** The instruction [add NAME] *)

Lemma flat_map_nil {A B} (f : A -> list B) l :
  (forall x, In x l -> f x = []) -> flat_map f l = [].
Proof.
  induction l as [|x l IH]; intros H; [reflexivity|].
  cbn [flat_map]. rewrite (H x (or_introl eq_refl)), IH; [reflexivity|].
  intros y Hy. apply H. now right.
Qed.

(** A pattern whose second piece is white space finds nothing inside a
    word. *)
Lemma seq_sp_word A R st :
  forallb isWordChar (after st) = true ->
  rmatch true (Seq A (Seq sp R)) st = [].
Proof.
  intros H. rewrite rmatch_seq. apply flat_map_nil. intros st' Hst.
  apply rmatch_moved in Hst. destruct Hst as (m & _ & Ha).
  rewrite rmatch_seq. destruct st' as [b' t' cp'].
  rewrite sp_word_nil; [reflexivity|]. cbn [after] in Ha.
  rewrite Ha, forallb_app in H. apply andb_prop in H. tauto.
Qed.

Lemma instr_word_dead A rest g b t :
  forallb isWordChar t = true ->
  re_exec (instr (A :: sp :: rest) g) b t = None.
Proof.
  intros H. unfold instr, compile. cbn [re_exec].
  destruct rest as [|r rest].
  - change (seqs [A; sp]) with (Seq A sp).
    rewrite rmatch_seq. rewrite flat_map_nil; [reflexivity|].
    intros st' Hst. apply rmatch_moved in Hst. destruct Hst as (m & _ & Ha).
    destruct st' as [b' t' cp']. apply sp_word_nil. cbn [after] in Ha.
    rewrite Ha, forallb_app in H. apply andb_prop in H. tauto.
  - change (seqs (A :: sp :: r :: rest)) with (Seq A (Seq sp (seqs (r :: rest)))).
    now rewrite seq_sp_word.
Qed.

Lemma all_tails_word (Pr : str -> Prop) N :
  (forall t, forallb isWordChar t = true -> Pr t) ->
  forallb isWordChar N = true -> all_tails Pr N.
Proof.
  intros H. induction N as [|c N IH]; intros HN; [exact I|].
  cbn [all_tails]. split; [now apply H|].
  cbn [forallb] in HN. apply andb_prop in HN. tauto.
Qed.

Lemma search_none re u :
  (forall u1 u2 b, u = u1 ++ u2 -> re_exec re b u2 = None) ->
  match_first re u = None.
Proof.
  intros H. unfold match_first.
  rewrite <- (app_nil_r u). rewrite search_dead.
  - cbn [search]. now rewrite (H u [] _ (eq_sym (app_nil_r u))).
  - intros u1 u2 b' E _. rewrite app_nil_r. now apply (H u1).
Qed.

Section AddText.
Variable N : str.
Hypothesis N_word : forallb isWordChar N = true.

(** A pattern finds nothing in [add NAME] when it finds nothing at the
    four characters before the name and has white space as its second
    piece. *)
Lemma add_text_none A rest g :
  (forall b, re_exec (instr (A :: sp :: rest) g) b (S_ "add " ++ N) = None) ->
  (forall b, re_exec (instr (A :: sp :: rest) g) b (S_ "dd " ++ N) = None) ->
  (forall b, re_exec (instr (A :: sp :: rest) g) b (S_ "d " ++ N) = None) ->
  (forall b, re_exec (instr (A :: sp :: rest) g) b (S_ " " ++ N) = None) ->
  match_first (instr (A :: sp :: rest) g) (S_ "add " ++ N) = None.
Proof.
  intros H0 H1 H2 H3. apply search_none. intros u1 u2 b E.
  destruct u1 as [|x1 u1]; [cbn [app] in E; subst u2; apply H0|].
  destruct u1 as [|x2 u1];
    [cbn [app] in E; inversion E; subst u2; apply H1|].
  destruct u1 as [|x3 u1];
    [cbn [app] in E; inversion E; subst u2; apply H2|].
  destruct u1 as [|x4 u1];
    [cbn [app] in E; inversion E; subst u2; apply H3|].
  cbn [app] in E. inversion E as [[E1 E2 E3 E4 E5]].
  apply instr_word_dead. rewrite E5, forallb_app in N_word.
  apply andb_prop in N_word. tauto.
Qed.

Lemma word_then_sp n R w b cp :
  w <> [] -> forallb isWordChar w = true ->
  rmatch true (Seq (word n) (Seq sp R)) (MState b (w ++ " "%char :: N) cp)
  = rmatch true R (MState (" "%char :: rev w ++ b) N ((n, w) :: cp)).
Proof.
  intros Hne Hw. destruct w as [|c w]; [congruence|].
  cbn [forallb] in Hw. apply andb_prop in Hw. destruct Hw as [Hc Hw].
  unfold word. rewrite rmatch_seq, rmatch_grp, rmatch_plus.
  cbn [app in_cset]. rewrite Hc. rewrite flat_map_map.
  rewrite (star_through _ CWord w).
  - unfold set_cap. cbn [before after caps]. rewrite rmatch_seq.
    rewrite sp_one by exact N_word. cbn [flat_map]. rewrite app_nil_r.
    f_equal. f_equal.
    + cbn [rev]. now rewrite <- app_assoc.
    + f_equal. f_equal.
      change (rev w ++ c :: b) with (rev w ++ [c] ++ b).
      rewrite app_assoc. change (rev w ++ [c]) with (rev (c :: w)).
      apply captured_app.
  - exact Hw.
  - intros u1 u2 b' cp' E Hne'. unfold set_cap. cbn [before after caps].
    rewrite rmatch_seq. destruct u2 as [|x u2]; [congruence|].
    unfold sp. rewrite rmatch_plus. cbn [app in_cset].
    assert (Hx : isWordChar x = true).
    { rewrite forallb_forall in Hw. apply Hw. rewrite E.
      apply in_or_app. right. now left. }
    now rewrite (word_not_space x Hx).
  - reflexivity.
Qed.

Lemma arrows_pattern_none :
  match_first (instr [word 1; sp;
                      alts [Lit (S_ "to"); Lit (S_ "as"); Lit (S_ "into");
                            Lit arrow_char; Lit (S_ "->")];
                      sp; word 2] 2) (S_ "add " ++ N) = None.
Proof.
  apply add_text_none; intros b; unfold instr, compile; cbn [re_exec].
  - change (seqs ?l) with (Seq (word 1) (Seq sp (Seq (alts [Lit (S_ "to"); Lit (S_ "as"); Lit (S_ "into"); Lit arrow_char; Lit (S_ "->")]) (Seq sp (word 2))))).
    change (S_ "add " ++ N) with (S_ "add" ++ " "%char :: N).
    rewrite word_then_sp by (try discriminate; reflexivity).
    now rewrite seq_sp_word.
  - change (seqs ?l) with (Seq (word 1) (Seq sp (Seq (alts [Lit (S_ "to"); Lit (S_ "as"); Lit (S_ "into"); Lit arrow_char; Lit (S_ "->")]) (Seq sp (word 2))))).
    change (S_ "dd " ++ N) with (S_ "dd" ++ " "%char :: N).
    rewrite word_then_sp by (try discriminate; reflexivity).
    now rewrite seq_sp_word.
  - change (seqs ?l) with (Seq (word 1) (Seq sp (Seq (alts [Lit (S_ "to"); Lit (S_ "as"); Lit (S_ "into"); Lit arrow_char; Lit (S_ "->")]) (Seq sp (word 2))))).
    change (S_ "d " ++ N) with (S_ "d" ++ " "%char :: N).
    rewrite word_then_sp by (try discriminate; reflexivity).
    now rewrite seq_sp_word.
  - reflexivity.
Qed.

End AddText.

Ltac add_text_dead :=
  apply add_text_none; [assumption|..]; intros b; reflexivity.

Lemma add_not_remove N :
  forallb isWordChar N = true ->
  Forall (fun p => match_first p (S_ "add " ++ N) = None) removePatterns.
Proof.
  intros HN. unfold removePatterns. repeat constructor; add_text_dead.
Qed.

Lemma add_not_change N :
  forallb isWordChar N = true ->
  Forall (fun p => match_first p (S_ "add " ++ N) = None) changePatterns.
Proof.
  intros HN. unfold changePatterns. repeat constructor.
  - add_text_dead.
  - now apply arrows_pattern_none.
  - add_text_dead.
Qed.

Lemma add_not_disconnect N :
  forallb isWordChar N = true ->
  Forall (fun p => match_first p (S_ "add " ++ N) = None)
         connectionRemovePatterns.
Proof.
  intros HN. unfold connectionRemovePatterns. repeat constructor; add_text_dead.
Qed.

Lemma first_success_none patterns userInput att :
  Forall (fun p => match_first p userInput = None) patterns ->
  first_success patterns userInput att = None.
Proof.
  induction 1 as [|p ps Hp _ IH]; [reflexivity|].
  cbn [first_success]. now rewrite Hp.
Qed.

Lemma opt_a_an_word b t cp :
  forallb isWordChar t = true ->
  rmatch true opt_a_an (MState b t cp) = [MState b t cp].
Proof.
  intros H. unfold opt_a_an. rewrite rmatch_opt, rmatch_alt.
  rewrite !rmatch_seq, !rmatch_lit, !m_lit_spec.
  destruct (starts true (S_ "a") t); destruct (starts true (S_ "an") t);
    cbn [flat_map app filter];
    rewrite ?sp_word_nil by (now apply starts_skip_word); reflexivity.
Qed.

Lemma opt_sp_lits_end l b cp :
  rmatch true (Opt (Seq sp (lits l))) (MState b [] cp) = [MState b [] cp].
Proof.
  rewrite rmatch_opt, rmatch_seq, sp_word_nil by reflexivity. reflexivity.
Qed.

Lemma add_instruction_match N :
  N <> [] -> forallb isWordChar N = true ->
  exists m,
    match_first (instr [Lit (S_ "add"); sp; opt_a_an; word 1;
                        Opt (Seq sp (lits ["component"; "block"; "unit"]%string))] 1)
                (S_ "add " ++ N) = Some m
    /\ group 1 (m_caps m) = Some N.
Proof.
  intros Hne HN. destruct N as [|c N]; [congruence|]. clear Hne.
  destruct (word_group 1 c N (rev (S_ "add ")) [] HN) as [more Hw].
  eexists. split.
  - unfold match_first. apply search_hit.
    unfold instr, compile, seqs. cbn [re_exec].
    change (S_ "add " ++ c :: N) with (S_ "add" ++ " "%char :: c :: N).
    rewrite (lit_seq_hit true (S_ "add") _ (S_ "add")) by reflexivity.
    rewrite rmatch_seq.
    rewrite sp_one by exact HN. cbn [flat_map]. rewrite app_nil_r.
    rewrite rmatch_seq, opt_a_an_word by exact HN. cbn [flat_map].
    rewrite app_nil_r, rmatch_seq.
    change (" "%char :: rev (S_ "add") ++ []) with (rev (S_ "add ")).
    rewrite Hw. cbn [flat_map]. rewrite opt_sp_lits_end. cbn [app hd_error].
    reflexivity.
  - unfold mres_of. cbn [m_caps caps group Nat.eqb]. reflexivity.
Qed.

(** The instruction [add NAME], for a name made of word characters, on a
    diagram of well-formed cells whose identifiers stay below 2^53, the
    numbers that the doubles of the source hold exactly: no pattern of the three categories
    before Add matches it, and the mutator inserts the new component,
    with the next identifier, before the closing tag and reports the
    addition of the upper-cased name as its one change. *)
Theorem makeActualXmlChanges_add :
  forall dyn cells N,
    N <> [] -> forallb isWordChar N = true ->
    forallb wf_cell cells = true ->
    (N.of_nat (max_id cells + 1) < 2 ^ 53)%N ->
    makeActualXmlChanges dyn (S_ "add " ++ N) (render cells)
    = Outcome (with_component cells (S (max_id cells)) N)
              [S_ "Added new " ++ toUpperCase N
                 ++ S_ " component to the architecture"].
Proof.
  intros dyn cells N Hne HN Hwf Hids.
  destruct (add_instruction_match N Hne HN) as (m & Hm & Hg).
  unfold makeActualXmlChanges, try_remove, try_change, try_disconnect.
  rewrite !first_success_none
    by (first [now apply add_not_remove | now apply add_not_change
              | now apply add_not_disconnect]).
  unfold try_add, addPatterns. cbn [first_success]. rewrite Hm, Hg.
  cbn [interp].
  rewrite (addComponent_render cells N Hwf HN). reflexivity.
Qed.

Lemma makeActualXmlChanges_add_witness :
  makeActualXmlChanges no_dyn (S_ "add " ++ S_ "ram") (render gpu_cpu)
  = Outcome (with_component gpu_cpu 5 (S_ "ram"))
            [S_ "Added new RAM component to the architecture"].
Proof.
  apply (makeActualXmlChanges_add no_dyn gpu_cpu (S_ "ram"));
    try discriminate; reflexivity.
Defined.

(** * Resizing *)

(** ** Matching in continuation style *)

Lemma sizeRegex_pat_eq N :
  sizeRegex_pat N = Seq (Grp 1 (labelled size_rA N)) size_R1.
Proof. reflexivity. Qed.

Lemma rmatch_kmatch r1 r2 st :
  rmatch true (Seq r1 r2) st = kmatch r1 (rmatch true r2) st.
Proof. reflexivity. Qed.

Lemma kmatch_seq r1 r2 k st :
  kmatch (Seq r1 r2) k st = kmatch r1 (kmatch r2 k) st.
Proof.
  unfold kmatch. rewrite rmatch_seq.
  induction (rmatch true r1 st) as [|x l IH]; [reflexivity|].
  cbn [flat_map]. now rewrite flat_map_app, IH.
Qed.

Lemma kmatch_grp n r k st :
  kmatch (Grp n r) k st = kmatch r (fun st' => k (set_cap n st st')) st.
Proof. unfold kmatch. cbn [rmatch]. apply flat_map_map. Qed.

Lemma kmatch_lit_hit p u k b s cp :
  starts true p u = true -> length u = length p ->
  kmatch (Lit p) k (MState b (u ++ s) cp) = k (MState (rev u ++ b) s cp).
Proof.
  intros H1 H2. unfold kmatch. rewrite lit_hit by assumption.
  cbn [flat_map]. apply app_nil_r.
Qed.

Lemma kmatch_lit_miss p k b s cp :
  starts true p s = false -> kmatch (Lit p) k (MState b s cp) = [].
Proof. intros H. unfold kmatch. now rewrite lit_miss. Qed.

Lemma kmatch_seq_lit_miss p r k b s cp :
  starts true p s = false -> kmatch (Seq (Lit p) r) k (MState b s cp) = [].
Proof. intros H. rewrite kmatch_seq. now apply kmatch_lit_miss. Qed.

Lemma kmatch_star cs k b s cp :
  kmatch (Star cs) k (MState b s cp) = flat_map k (m_star cs b s cp).
Proof. reflexivity. Qed.

Lemma kmatch_lazy cs k b s cp :
  kmatch (StarLazy cs) k (MState b s cp) = flat_map k (m_star_lazy cs b s cp).
Proof. reflexivity. Qed.

Lemma blind_quiet_k p k u s :
  blind true p u s = true -> quiet (kmatch (Lit p) k) u s.
Proof.
  intros H u1 u2 b cp E Hne. unfold kmatch.
  now rewrite (blind_quiet_lit _ _ _ _ H u1 u2 b cp E Hne).
Qed.

Lemma blind_quiet_seq_k p r k u s :
  blind true p u s = true -> quiet (kmatch (Seq (Lit p) r) k) u s.
Proof.
  intros H u1 u2 b cp E Hne. unfold kmatch.
  now rewrite (blind_quiet_seq _ _ _ _ _ H u1 u2 b cp E Hne).
Qed.

(** The first way through a lazy repetition is the empty one. *)
Lemma lazy_first k u b s cp x :
  quiet k u s ->
  hd_error (k (MState (rev u ++ b) s cp)) = Some x ->
  hd_error (flat_map k (m_star_lazy CAny b (u ++ s) cp)) = Some x.
Proof.
  intros Hq H. rewrite lazy_quiet by assumption.
  destruct (m_star_lazy_head CAny (rev u ++ b) s cp) as [more ->].
  cbn [flat_map]. now rewrite hd_error_app, H.
Qed.

Lemma lazy_now (k : mstate -> list mstate) b s cp x :
  hd_error (k (MState b s cp)) = Some x ->
  hd_error (flat_map k (m_star_lazy CAny b s cp)) = Some x.
Proof. intros H. apply (lazy_first k [] b s cp x (quiet_nil _ _) H). Qed.

(** The label part, followed by any continuation. *)
Lemma name_in_value_k N r k V rest b cp :
  forallb (fun a => negb (chr_eq true a dquote)) N = true ->
  forallb (in_cset (CNot dquote)) V = true ->
  hd_error
    (kmatch (Seq (Star (CNot dquote))
               (Seq (Lit N) (Seq (Star (CNot dquote)) (Seq (Lit [dquote]) r))))
            k (MState b (V ++ dquote :: rest) cp))
  = if occurs true N V
    then hd_error (kmatch r k (MState (dquote :: rev V ++ b) rest cp))
    else None.
Proof.
  intros HN HV. rewrite kmatch_seq, kmatch_star.
  apply star_count; [assumption|apply halts_dquote|].
  intros u1 u2 ->. rewrite forallb_app in HV. apply andb_prop in HV.
  destruct HV as [H1 H2].
  destruct (starts true N u2) eqn:E.
  - destruct (starts_split _ _ _ E) as (t1 & t2 & -> & Hl & Hs).
    rewrite <- app_assoc. rewrite kmatch_seq, (kmatch_lit_hit N t1) by assumption.
    rewrite forallb_app in H2. apply andb_prop in H2. destruct H2 as [H2 H3].
    rewrite kmatch_seq, kmatch_star, star_through;
      [|assumption|now apply blind_quiet_seq_k, blind_dquote|apply halts_dquote].
    change (dquote :: rest) with ([dquote] ++ rest).
    rewrite kmatch_seq, (kmatch_lit_hit [dquote] [dquote]) by reflexivity.
    rewrite !rev_app_distr, <- !app_assoc. reflexivity.
  - apply kmatch_seq_lit_miss. now rewrite starts_stop.
Qed.

(** ** The size pattern on a box *)

Lemma field_not_gt t : wf_field t = true -> forallb (in_cset (CNot gt)) t = true.
Proof.
  intros H. apply wf_field_parts in H. destruct H as [H1 H2].
  now apply not_gt_field.
Qed.

Lemma field_tail t : wf_field t = true -> value_tail t.
Proof. intros H. apply wf_field_parts in H. now destruct H. Qed.

Lemma width_tail X Y W H st0 b rest cp :
  wf_field X = true -> wf_field Y = true -> wf_field W = true ->
  wf_field H = true ->
  hd_error
    (kmatch (Seq (Lit (Q "<mxGeometry")) (Seq (Star (CNot gt)) (Lit (Q "width='"))))
            (fun st' => rmatch true size_R1 (set_cap 1 st0 st'))
            (MState b (Q "<mxGeometry" ++ geometry X Y W H ++ Q "/>"
                         ++ mxCell_close ++ rest) cp))
  = hd_error
      (rmatch true size_R1
         (set_cap 1 st0
            (MState (rev (Q "<mxGeometry" ++ Q " x='" ++ X ++ Q "' y='" ++ Y
                            ++ Q "' width='") ++ b)
                    (W ++ Q "' height='" ++ H ++ Q "' as='geometry'/>"
                       ++ mxCell_close ++ rest) cp))).
Proof.
  intros HX HY HW HH.
  pose proof (field_not_gt _ HX) as GX. pose proof (field_not_gt _ HY) as GY.
  pose proof (field_not_gt _ HW) as GW. pose proof (field_not_gt _ HH) as GH.
  pose proof (field_tail _ HX) as TX. pose proof (field_tail _ HY) as TY.
  pose proof (field_tail _ HW) as TW. pose proof (field_tail _ HH) as TH.
  rewrite kmatch_seq, (kmatch_lit_hit (Q "<mxGeometry") (Q "<mxGeometry"))
    by reflexivity.
  rewrite kmatch_seq, kmatch_star.
  unfold geometry.
  match goal with
  | |- context [m_star _ _ ?t _] =>
      replace t with
        ((Q " x='" ++ X ++ Q "' y='" ++ Y ++ Q "' ")
           ++ (Q "width='" ++ W ++ Q "' height='" ++ H ++ Q "' as='geometry'/")
           ++ (gt :: mxCell_close ++ rest))
        by (rewrite <- !app_assoc; reflexivity)
  end.
  rewrite star_unique.
  - rewrite <- !app_assoc.
    rewrite (kmatch_lit_hit (Q "width='") (Q "width='")) by reflexivity.
    f_equal. f_equal. f_equal.
    + rewrite !rev_app_distr, <- !app_assoc. reflexivity.
  - rewrite !forallb_app. repeat (apply andb_true_intro; split);
      try reflexivity; assumption.
  - apply blind_quiet_k. blind_pieces (S_ "width") (@nil ascii).
  - apply blind_quiet_k.
    change (tl (Q "width='" ++ ?x)) with (Q "idth='" ++ x).
    blind_pieces (S_ "width") (@nil ascii).
  - discriminate.
  - apply halts_gt.
  - intros b'. now apply kmatch_lit_miss.
Qed.

Lemma grp_lit_miss n p r R b s cp :
  starts true p s = false ->
  rmatch true (Seq (Grp n (Seq (Lit p) r)) R) (MState b s cp) = [].
Proof.
  intros H. rewrite rmatch_seq. cbn [rmatch before after caps].
  now rewrite m_lit_spec, H.
Qed.

Lemma grp_lit_miss1 n p r b s cp :
  starts true p s = false ->
  rmatch true (Grp n (Seq (Lit p) r)) (MState b s cp) = [].
Proof.
  intros H. cbn [rmatch before after caps]. now rewrite m_lit_spec, H.
Qed.

Lemma hd_error_map {A B} (g : A -> B) l :
  hd_error (map g l) = option_map g (hd_error l).
Proof. now destruct l. Qed.

Lemma dquote_quiet (f : mstate -> list mstate) u s :
  forallb (in_cset (CNot dquote)) u = true ->
  (forall b t cp, starts true [dquote] t = false -> f (MState b t cp) = []) ->
  quiet f u s.
Proof.
  intros Hu Hf u1 u2 b cp E Hne. apply Hf.
  pose proof (blind_dquote u s Hu) as Hb. apply blind_all_tails in Hb.
  exact (all_tails_spec _ _ Hb u1 u2 E Hne).
Qed.

Lemma size_tail W H b rest cp :
  wf_field W = true -> wf_field H = true ->
  hd_error
    (rmatch true size_R1
       (MState b (W ++ Q "' height='" ++ H ++ Q "' as='geometry'/>"
                    ++ mxCell_close ++ rest) cp))
  = Some (MState (rev (W ++ Q "' height='" ++ H ++ Q "' as='geometry'/>"
                         ++ mxCell_close) ++ b)
                 rest
                 ((3, Q "' as='geometry'/>" ++ mxCell_close)
                    :: (2, Q "' height='") :: cp)).
Proof.
  intros HW HH.
  pose proof (field_not_gt _ HW) as GW. pose proof (field_not_gt _ HH) as GH.
  pose proof (field_tail _ HW) as TW. pose proof (field_tail _ HH) as TH.
  unfold size_R1. rewrite rmatch_kmatch, kmatch_star.
  change (Q "' height='" ++ ?x) with (dquote :: Q " height='" ++ x).
  rewrite star_through;
    [|now apply no_dquote_field
     |apply dquote_quiet; [now apply no_dquote_field|];
      intros; now apply grp_lit_miss
     |apply halts_dquote].
  unfold size_R2. rewrite rmatch_kmatch, kmatch_grp. unfold size_B, seqs.
  change (dquote :: Q " height='" ++ ?x) with ([dquote] ++ Q " height='" ++ x).
  rewrite kmatch_seq, (kmatch_lit_hit [dquote] [dquote]) by reflexivity.
  rewrite kmatch_seq, kmatch_star.
  match goal with
  | |- context [m_star _ _ ?t _] =>
      replace t with
        ((Q " ")
           ++ (Q "height='" ++ H ++ Q "' as='geometry'/")
           ++ (gt :: mxCell_close ++ rest))
        by (rewrite <- !app_assoc; reflexivity)
  end.
  rewrite star_unique.
  - rewrite <- !app_assoc.
    rewrite (kmatch_lit_hit (Q "height='") (Q "height='")) by reflexivity.
    unfold set_cap at 1. cbn [before after caps].
    replace (rev (Q "height='") ++ rev (Q " ") ++ rev [dquote] ++ rev W ++ b)
      with (rev (Q "' height='") ++ rev W ++ b)
      by reflexivity.
    rewrite captured_app.
    unfold size_R3. rewrite rmatch_kmatch, kmatch_star.
    change (Q "' as='geometry'/" ++ ?x) with (dquote :: Q " as='geometry'/" ++ x).
    rewrite star_through;
      [|now apply no_dquote_field
       |apply dquote_quiet; [now apply no_dquote_field|];
        intros; now apply grp_lit_miss1
       |apply halts_dquote].
    rewrite rmatch_grp, hd_error_map. unfold size_C, seqs.
    change (dquote :: Q " as='geometry'/" ++ gt :: mxCell_close ++ rest)
      with ([dquote] ++ Q " as='geometry'/>" ++ mxCell_close ++ rest).
    rewrite rmatch_kmatch, (kmatch_lit_hit [dquote] [dquote]) by reflexivity.
    rewrite rmatch_kmatch, kmatch_lazy.
    erewrite lazy_first;
      [|apply blind_quiet_lit; reflexivity
       |rewrite (lit_hit true mxCell_close mxCell_close) by reflexivity;
        reflexivity].
    cbn [option_map]. unfold set_cap. cbn [before after caps].
    f_equal. f_equal.
    + rewrite !rev_app_distr, <- !app_assoc. reflexivity.
    + f_equal. f_equal.
      replace (rev mxCell_close ++ rev (Q " as='geometry'/>") ++ rev [dquote]
                 ++ rev H ++ rev (Q "' height='") ++ rev W ++ b)
        with (rev (Q "' as='geometry'/>" ++ mxCell_close)
                ++ (rev H ++ rev (Q "' height='") ++ rev W ++ b))
        by (rewrite !rev_app_distr, <- !app_assoc; reflexivity).
      apply captured_app.
  - rewrite !forallb_app. repeat (apply andb_true_intro; split);
      try reflexivity; assumption.
  - apply blind_quiet_k. reflexivity.
  - apply blind_quiet_k.
    change (tl (Q "height='" ++ ?x)) with (Q "eight='" ++ x).
    blind_pieces (S_ "height") (@nil ascii).
  - discriminate.
  - apply halts_gt.
  - intros b'. now apply kmatch_lit_miss.
Qed.

Lemma size_exec_box N I V S k X Y W H rest b :
  forallb isWordChar N = true ->
  wf_cell (Cell I V S k (geometry X Y W H)) = true ->
  wf_field X && wf_field Y && wf_field W && wf_field H = true ->
  label_has N (Cell I V S k (geometry X Y W H)) = true ->
  re_exec (compile (sizeRegex_pat N) true 3) b
          (render_cell (Cell I V S k (geometry X Y W H)) ++ rest)
  = Some (MState (rev (render_cell (Cell I V S k (geometry X Y W H))) ++ b)
                 rest
                 [(3, Q "' as='geometry'/>" ++ mxCell_close);
                  (2, Q "' height='");
                  (1, cap1 I V S k X Y)]).
Proof.
  intros HN Hwf Hf Hl.
  apply andb_prop in Hf. destruct Hf as [Hf HH].
  apply andb_prop in Hf. destruct Hf as [Hf HW].
  apply andb_prop in Hf. destruct Hf as [HX HY].
  pose proof (kind_wf _ Hwf) as Hk. apply wf_cell_parts in Hwf.
  cbn [c_id c_value c_style c_kind c_geometry] in *.
  destruct Hwf as ([I1 I2] & [V1 V2] & [S1 S2] & _ & HG).
  unfold label_has in Hl. cbn [c_value] in Hl.
  unfold compile. cbn [re_exec].
  rewrite sizeRegex_pat_eq, rmatch_kmatch, kmatch_grp. unfold labelled.
  set (k1 := fun st' : mstate => rmatch true size_R1 (set_cap 1 _ st')).
  unfold render_cell at 1. unfold cell_tag, cell_body.
  cbn [c_id c_value c_style c_kind c_geometry].
  rewrite <- !app_assoc.
  rewrite kmatch_seq, (kmatch_lit_hit mxCell_open mxCell_open) by reflexivity.
  rewrite kmatch_seq, kmatch_star.
  match goal with
  | |- context [m_star _ _ ?t _] =>
      replace t with
        ((Q " id='" ++ I ++ Q "' ")
           ++ (value_eq ++ V ++ Q "' style='" ++ S ++ Q "'" ++ kind_attrs k)
           ++ (gt :: (Q "<mxGeometry" ++ geometry X Y W H ++ Q "/>")
                 ++ mxCell_close ++ rest))
        by (rewrite <- !app_assoc; reflexivity)
  end.
  pose proof (kind_not_gt k Hk) as Hkg.
  rewrite star_unique.
  - rewrite <- !app_assoc.
    rewrite kmatch_seq, (kmatch_lit_hit value_eq value_eq) by reflexivity.
    change (Q "' style='" ++ ?x) with (dquote :: Q " style='" ++ x).
    rewrite name_in_value_k
      by (try apply word_no_dquote; try apply no_dquote_field; assumption).
    rewrite Hl. unfold size_rA, seqs.
    rewrite kmatch_seq, kmatch_star.
    match goal with
    | |- context [m_star _ _ ?t _] =>
        replace t with
          ((Q " style='" ++ S ++ Q "'" ++ kind_attrs k)
             ++ gt :: (Q "<mxGeometry" ++ geometry X Y W H ++ Q "/>"
                         ++ mxCell_close ++ rest))
          by (rewrite <- !app_assoc; reflexivity)
    end.
    rewrite star_through; [| |apply blind_quiet_seq_k|apply halts_gt].
    + change (gt :: ?x) with ([gt] ++ x).
      rewrite kmatch_seq, (kmatch_lit_hit [gt] [gt]) by reflexivity.
      rewrite kmatch_seq, kmatch_lazy.
      apply lazy_now. subst k1.
      rewrite width_tail by assumption.
      unfold set_cap. cbn [before after caps].
      rewrite size_tail by assumption.
      f_equal. f_equal.
      * unfold render_cell, cell_tag, cell_body, geometry.
        cbn [c_id c_value c_style c_kind c_geometry]. same_text.
      * f_equal. f_equal. f_equal. f_equal.
        match goal with
        | |- captured _ (MState ?bb _ _) = _ =>
            replace bb with (rev (cap1 I V S k X Y) ++ b)
        end.
        -- apply captured_app.
        -- unfold cap1, cell_tag. cbn [c_id c_value c_style c_kind].
           same_text.
    + rewrite !forallb_app. repeat (apply andb_true_intro; split);
        try reflexivity; try assumption; now apply not_gt_field.
    + apply blind_nochar.
      rewrite !forallb_app. repeat (apply andb_true_intro; split);
        try reflexivity.
      * apply not_gt_field in S2; [|assumption].
        apply forallb_forall. intros c Hc. rewrite forallb_forall in S2.
        specialize (S2 c Hc). cbn [in_cset] in S2.
        now rewrite (chr_eq_other true gt) by reflexivity.
      * apply forallb_forall. intros c Hc. rewrite forallb_forall in Hkg.
        specialize (Hkg c Hc). cbn [in_cset] in Hkg.
        now rewrite (chr_eq_other true gt) by reflexivity.
  - rewrite !forallb_app. repeat (apply andb_true_intro; split);
      try reflexivity; try assumption; now apply not_gt_field.
  - apply blind_quiet_seq_k. blind_pieces (S_ "value") (@nil ascii).
  - apply blind_quiet_seq_k.
    change (tl (value_eq ++ ?x)) with (Q "alue='" ++ x).
    repeat (rewrite blind_app; apply andb_true_intro; split);
      first [ reflexivity
            | apply (blind_attr true (S_ "value") []); [reflexivity|assumption]
            | now apply kind_blind_value ].
  - discriminate.
  - apply halts_gt.
  - intros b'. now apply kmatch_seq_lit_miss.
Qed.

(** ** The replacement template *)

Lemma getSubstitution_copy g m pre post cp v t :
  forallb (fun c => negb (Ascii.eqb c "$"%char)) v = true ->
  getSubstitution g m pre post cp (v ++ t)
  = v ++ getSubstitution g m pre post cp t.
Proof.
  induction v as [|c v IH]; intros H; [reflexivity|].
  cbn [forallb] in H. apply andb_prop in H. destruct H as [Hc Hv].
  cbn [app getSubstitution]. rewrite Hc. now rewrite IH.
Qed.

(** A one-digit reference followed by plain text. *)
Lemma getSubstitution_ref g m pre post cp d v t :
  isDigit d = true -> 1 <= digit_val d <= g -> g < 10 ->
  forallb (fun c => negb (Ascii.eqb c "$"%char)) v = true ->
  hd_error t = None \/ hd_error t = Some "$"%char ->
  getSubstitution g m pre post cp ("$"%char :: d :: v ++ t)
  = capture_text (digit_val d) cp ++ v ++ getSubstitution g m pre post cp t.
Proof.
  intros Hd Hr Hg Hv Ht.
  assert (Hone : one_digit_ref g cp d = capture_text (digit_val d) cp).
  { unfold one_digit_ref.
    destruct (Nat.leb_spec 1 (digit_val d)); [|lia].
    destruct (Nat.leb_spec (digit_val d) g); [reflexivity|lia]. }
  assert (Hnd : Ascii.eqb d "$"%char = false
                /\ Ascii.eqb d "&"%char = false
                /\ Ascii.eqb d "`"%char = false
                /\ Ascii.eqb d "'"%char = false).
  { repeat split; destruct (Ascii.eqb_spec d "$"%char);
      destruct (Ascii.eqb_spec d "&"%char);
      destruct (Ascii.eqb_spec d "`"%char);
      destruct (Ascii.eqb_spec d "'"%char); subst; try reflexivity;
      discriminate Hd. }
  destruct Hnd as (N1 & N2 & N3 & N4).
  cbn [getSubstitution]. change (negb (Ascii.eqb "$"%char "$"%char)) with false.
  cbv iota. rewrite N1, N2, N3, N4, Hd.
  destruct v as [|e v].
  - cbn [app]. destruct t as [|e t].
    + rewrite Hone. cbn [getSubstitution]. now rewrite app_nil_r.
    + destruct Ht as [Ht|Ht]; [discriminate|]. cbn [hd_error] in Ht.
      inversion Ht. subst e. change (isDigit "$"%char) with false. cbv iota.
      now rewrite Hone.
  - cbn [app]. cbn [forallb] in Hv. destruct (isDigit e) eqn:Ee.
    + cbv zeta.
      destruct (Nat.ltb_spec g (10 * digit_val d + digit_val e)); [|lia].
      rewrite Hone. f_equal.
      change (e :: v ++ t) with ((e :: v) ++ t).
      now rewrite getSubstitution_copy.
    + rewrite Hone. f_equal.
      change (e :: v ++ t) with ((e :: v) ++ t).
      now rewrite getSubstitution_copy.
Qed.

Lemma size_template m pre post c1 c2 c3 v :
  forallb isWordChar v = true ->
  getSubstitution 3 m pre post [(3, c3); (2, c2); (1, c1)]
                  (S_ "$1" ++ v ++ S_ "$2" ++ v ++ S_ "$3")
  = c1 ++ v ++ c2 ++ v ++ c3.
Proof.
  intros Hv.
  assert (Hp : forallb (fun c => negb (Ascii.eqb c "$"%char)) v = true).
  { apply forallb_forall. intros c Hc. rewrite forallb_forall in Hv.
    specialize (Hv c Hc). destruct (Ascii.eqb_spec c "$"%char); [|reflexivity].
    subst c. discriminate Hv. }
  change (S_ "$1" ++ v ++ S_ "$2" ++ v ++ S_ "$3")
    with ("$"%char :: "1"%char :: v
            ++ ("$"%char :: "2"%char :: v ++ ("$"%char :: "3"%char :: [] ++ []))).
  rewrite !getSubstitution_ref
    by first [ reflexivity | assumption | (cbn; lia) | lia
             | (now right) | (now left) ].
  cbn [getSubstitution app]. rewrite app_nil_r. reflexivity.
Qed.

(** ** Rewriting the cells that a pattern matches *)

Section Rewrite.
Variable re : RegExp.
Variable t : str.
Variable hit : cell -> cell -> Prop.
Variable miss : cell -> Prop.
Hypothesis exec_open : forall b s,
  starts true mxCell_open s = false -> re_exec re b s = None.
Hypothesis exec_header : forall b s,
  all_tails (fun u => re_exec re b (u ++ s) = None) header.
Hypothesis exec_miss : forall c rest b,
  wf_cell c = true -> miss c -> re_exec re b (render_cell c ++ rest) = None.
Hypothesis exec_hit : forall c c' rest b,
  wf_cell c = true -> hit c c' ->
  exists st,
    re_exec re b (render_cell c ++ rest) = Some st
    /\ endIndex st = length (render_cell c) + length b
    /\ forall pre post,
         getSubstitution (re_groups re) (render_cell c) pre post (caps st) t
         = render_cell c'.

Lemma rewrite_cell c c' rest b :
  wf_cell c = true -> rewritten hit miss c c' ->
  replace_loop re t b (render_cell c ++ rest) 0
  = render_cell c' ++ replace_loop re t (rev (render_cell c) ++ b) rest 0.
Proof.
  intros Hwf [Hh|[Hm ->]].
  - destruct (exec_hit c c' rest b Hwf Hh) as (st & He & Hn & Hs).
    assert (Hl : 1 <= length (render_cell c)).
    { change (render_cell c) with ("<"%char :: tl (render_cell c)).
      cbn [length]. lia. }
    rewrite (replace_loop_hit _ _ _ _ _ (length (render_cell c)) He).
    + rewrite firstn_app, Nat.sub_diag, firstn_all. cbn [firstn].
      rewrite app_nil_r, skipn_app, Nat.sub_diag, skipn_all. cbn [skipn app].
      now rewrite Hs.
    + lia.
    + rewrite length_app. lia.
  - apply (loops_dead re t). intros u1 u2 b' E Hne.
    destruct u1 as [|x u1].
    + cbn [app] in E. subst u2. now apply exec_miss.
    + apply exec_open.
      pose proof (cell_tail_blind c rest Hwf) as Hb.
      apply blind_all_tails in Hb.
      change (render_cell c) with ("<"%char :: tl (render_cell c)) in E.
      cbn [app] in E. inversion E as [[Hx Ht]].
      apply (all_tails_spec _ _ Hb u1 u2 Ht Hne).
Qed.

Lemma rewrite_cells cells cells' rest :
  Forall2 (rewritten hit miss) cells cells' ->
  forall b,
    forallb wf_cell cells = true ->
    exists b',
      replace_loop re t b (concat (map render_cell cells) ++ rest) 0
      = concat (map render_cell cells') ++ replace_loop re t b' rest 0.
Proof.
  induction 1 as [|c c' cells cells' Hc _ IH]; intros b Hwf.
  - now exists b.
  - cbn [forallb] in Hwf. apply andb_prop in Hwf. destruct Hwf as [Hw Hwf].
    cbn [map concat]. rewrite <- !app_assoc.
    rewrite (rewrite_cell c c') by assumption.
    destruct (IH (rev (render_cell c) ++ b) Hwf) as [b' ->].
    exists b'. now rewrite <- app_assoc.
Qed.

Lemma rewrite_render cells cells' :
  Forall2 (rewritten hit miss) cells cells' ->
  forallb wf_cell cells = true ->
  replace_re re (render cells) t = render cells'.
Proof.
  intros HF Hwf. unfold replace_re, render.
  destruct (loops_dead re t header [] (concat (map render_cell cells) ++ footer))
    as [_ ->].
  { intros u1 u2 b' E Hne.
    apply (all_tails_spec _ _ (exec_header b' _) u1 u2 E Hne). }
  destruct (rewrite_cells cells cells' footer HF (rev header ++ []) Hwf) as [b' ->].
  destruct (loops_dead re t footer b' []) as [_ H].
  { intros u1 u2 b2 E Hne. apply exec_open.
    assert (Hb : blind true mxCell_open footer [] = true) by reflexivity.
    apply blind_all_tails in Hb.
    apply (all_tails_spec _ _ Hb u1 u2 E Hne). }
  rewrite app_nil_r in H. rewrite H. cbn [replace_loop].
  rewrite exec_open by reflexivity. now rewrite app_nil_r.
Qed.

End Rewrite.

(** ** The size branch *)

Lemma box_text I V S k X Y v :
  cap1 I V S k X Y ++ v ++ Q "' height='" ++ v
    ++ Q "' as='geometry'/>" ++ mxCell_close
  = render_cell (Cell I V S k (geometry X Y v v)).
Proof.
  unfold cap1, render_cell, cell_tag, cell_body, geometry.
  cbn [c_id c_value c_style c_kind c_geometry].
  rewrite <- !app_assoc. reflexivity.
Qed.

Lemma size_render N v cells cells' :
  forallb isWordChar N = true -> forallb isWordChar v = true ->
  forallb wf_cell cells = true ->
  Forall2 (resized N v) cells cells' ->
  replace_re (compile (sizeRegex_pat N) true 3) (render cells)
             (S_ "$1" ++ v ++ S_ "$2" ++ v ++ S_ "$3")
  = render cells'.
Proof.
  intros HN Hv Hwf HF.
  apply (rewrite_render _ _
           (fun c c' => label_has N c = true /\ resized N v c c')
           (fun c => label_has N c = false)).
  - apply (grouped_open N size_rA size_R1 3).
  - apply (grouped_header N size_rA size_R1 3).
  - intros c rest b Hc Hm. now apply (grouped_miss N size_rA size_R1 3 HN).
  - intros c c' rest b Hc [Hl Hr].
    destruct Hr as [c x y w h _ Eg Hf|c Hm]; [|congruence].
    destruct c as [I V S k G]. cbn [c_geometry] in Eg. subst G.
    eexists. split; [now apply size_exec_box|]. split.
    + unfold endIndex. cbn [before]. now rewrite length_app, length_rev.
    + intros pre post. cbn [caps re_groups compile].
      rewrite size_template by assumption. apply box_text.
  - clear Hwf. induction HF as [|c c' cells cells' Hc _ IH]; constructor; auto.
    destruct Hc as [c x y w h Hl Eg Hf|c Hm].
    + left. split; [assumption|]. now apply (resized_box N v c x y w h).
    + right. auto.
  - exact Hwf.
Qed.



(** * Recolouring *)

(** ** The last place of a stretch where a continuation succeeds *)

Lemma star_last f cs u : forall b w s cp x,
  forallb (in_cset cs) (u ++ w) = true ->
  quiet f (tl w) s -> w <> [] -> halts cs s ->
  (forall b', f (MState b' s cp) = []) ->
  hd_error (f (MState (rev u ++ b) (w ++ s) cp)) = Some x ->
  hd_error (flat_map f (m_star cs b (u ++ w ++ s) cp)) = Some x.
Proof.
  induction u as [|c u IH]; intros b w s cp x Hz Hq Hne Hs Hend Hx.
  - pose proof (star_unique f cs [] w b s cp Hz (quiet_nil _ _) Hq Hne Hs Hend)
      as E.
    cbn [app rev] in E, Hx |- *. now rewrite E.
  - cbn [app forallb] in Hz. apply andb_prop in Hz. destruct Hz as [Hc Hz].
    cbn [app m_star]. rewrite Hc, flat_map_app, hd_error_app.
    rewrite (IH (c :: b) w s cp x); try assumption; [reflexivity|].
    cbn [rev] in Hx. now rewrite <- app_assoc in Hx.
Qed.

(** ** The label part on a cell, followed by any continuation *)

Lemma labelled_k N r k I V S kd G rest b cp :
  forallb isWordChar N = true ->
  wf_cell (Cell I V S kd G) = true ->
  hd_error (kmatch (labelled r N) k
              (MState b (render_cell (Cell I V S kd G) ++ rest) cp))
  = if occurs true N V
    then hd_error
           (kmatch r k
              (MState (dquote :: rev V ++ rev value_eq
                         ++ rev (Q " id='" ++ I ++ Q "' ")
                         ++ rev mxCell_open ++ b)
                      (Q " style='" ++ S ++ Q "'" ++ kind_attrs kd
                         ++ gt :: (Q "<mxGeometry" ++ G ++ Q "/>")
                         ++ mxCell_close ++ rest) cp))
    else None.
Proof.
  intros HN Hwf.
  pose proof (kind_wf _ Hwf) as Hk. apply wf_cell_parts in Hwf.
  cbn [c_id c_value c_style c_kind c_geometry] in *.
  destruct Hwf as ([I1 I2] & [V1 V2] & [S1 S2] & _ & HG).
  unfold labelled, render_cell, cell_tag, cell_body.
  cbn [c_id c_value c_style c_kind c_geometry].
  rewrite <- !app_assoc.
  rewrite kmatch_seq, (kmatch_lit_hit mxCell_open mxCell_open) by reflexivity.
  rewrite kmatch_seq, kmatch_star.
  match goal with
  | |- context [m_star _ _ ?t _] =>
      replace t with
        ((Q " id='" ++ I ++ Q "' ")
           ++ (value_eq ++ V ++ Q "' style='" ++ S ++ Q "'" ++ kind_attrs kd)
           ++ (gt :: (Q "<mxGeometry" ++ G ++ Q "/>")
                 ++ mxCell_close ++ rest))
        by (rewrite <- !app_assoc; reflexivity)
  end.
  pose proof (kind_not_gt kd Hk) as Hkg.
  rewrite star_unique.
  - rewrite <- !app_assoc.
    rewrite kmatch_seq, (kmatch_lit_hit value_eq value_eq) by reflexivity.
    change (Q "' style='" ++ ?x) with (dquote :: Q " style='" ++ x).
    rewrite name_in_value_k
      by (try apply word_no_dquote; try apply no_dquote_field; assumption).
    reflexivity.
  - rewrite !forallb_app. repeat (apply andb_true_intro; split);
      try reflexivity; try assumption; now apply not_gt_field.
  - apply blind_quiet_seq_k. blind_pieces (S_ "value") (@nil ascii).
  - apply blind_quiet_seq_k.
    change (tl (value_eq ++ ?x)) with (Q "alue='" ++ x).
    repeat (rewrite blind_app; apply andb_true_intro; split);
      first [ reflexivity
            | apply (blind_attr true (S_ "value") []); [reflexivity|assumption]
            | now apply kind_blind_value ].
  - discriminate.
  - apply halts_gt.
  - intros b'. now apply kmatch_seq_lit_miss.
Qed.

Lemma kind_blind_style k s :
  wf_kind_parts k -> blind true (Q "style='") (kind_attrs k) (gt :: s) = true.
Proof.
  destruct k as [|A B]; [reflexivity|]. intros [[A1 A2] [B1 B2]].
  unfold kind_attrs. blind_pieces (S_ "style") (@nil ascii).
Qed.

(** The way to the style attribute. *)
Lemma style_k r k S kd s b cp :
  wf_parts S -> wf_kind_parts kd ->
  kmatch (Seq (Star (CNot gt)) (Seq (Lit (Q "style='")) r)) k
         (MState b (Q " style='" ++ S ++ Q "'" ++ kind_attrs kd ++ gt :: s) cp)
  = kmatch r k (MState (rev (Q " style='") ++ b)
                       (S ++ Q "'" ++ kind_attrs kd ++ gt :: s) cp).
Proof.
  intros [S1 S2] Hk.
  pose proof (kind_not_gt kd Hk) as Hkg.
  rewrite kmatch_seq, kmatch_star.
  match goal with
  | |- context [m_star _ _ ?t _] =>
      replace t with
        ((Q " ") ++ (Q "style='" ++ S ++ Q "'" ++ kind_attrs kd) ++ (gt :: s))
        by (rewrite <- !app_assoc; reflexivity)
  end.
  rewrite star_unique.
  - rewrite <- !app_assoc.
    rewrite kmatch_seq, (kmatch_lit_hit (Q "style='") (Q "style='"))
      by reflexivity.
    reflexivity.
  - rewrite !forallb_app. repeat (apply andb_true_intro; split);
      try reflexivity; try assumption; now apply not_gt_field.
  - apply blind_quiet_seq_k. reflexivity.
  - apply blind_quiet_seq_k.
    change (tl (Q "style='" ++ ?x)) with (Q "tyle='" ++ x).
    repeat (rewrite blind_app; apply andb_true_intro; split);
      first [ reflexivity
            | apply (blind_attr true (S_ "style") []); [reflexivity|assumption]
            | now apply kind_blind_style ].
  - discriminate.
  - apply halts_gt.
  - intros b'. now apply kmatch_seq_lit_miss.
Qed.

(** ** The colour pattern on a cell *)

Lemma semicolon_quiet (f : mstate -> list mstate) u s :
  forallb (fun a => negb (Ascii.eqb a ";"%char)) u = true ->
  (forall b t cp, starts true (S_ ";") t = false -> f (MState b t cp) = []) ->
  quiet f u s.
Proof.
  intros Hu Hf u1 u2 b cp E Hne. apply Hf.
  assert (Hb : blind true (S_ ";") u s = true).
  { apply blind_nochar. apply forallb_forall. intros c Hc.
    rewrite forallb_forall in Hu. specialize (Hu c Hc).
    rewrite (chr_eq_other true ";"%char) by reflexivity.
    now rewrite Ascii.eqb_sym. }
  apply blind_all_tails in Hb.
  exact (all_tails_spec _ _ Hb u1 u2 E Hne).
Qed.

Lemma col_tail C R kd G rest b cp :
  forallb (fun a => negb (Ascii.eqb a ";"%char)) C = true ->
  forallb (in_cset (CNot dquote)) R = true ->
  wf_kind_parts kd -> wf_geometry G = true ->
  hd_error
    (rmatch true col_R1
       (MState b (C ++ S_ ";" ++ R ++ Q "'" ++ kind_attrs kd
                    ++ gt :: (Q "<mxGeometry" ++ G ++ Q "/>")
                    ++ mxCell_close ++ rest) cp))
  = Some (MState (rev (C ++ cap2c R kd G) ++ b) rest
                 ((2, cap2c R kd G) :: cp)).
Proof.
  intros HC HR Hk HG.
  unfold col_R1. rewrite rmatch_kmatch, kmatch_star.
  change (S_ ";" ++ ?x) with (";"%char :: x).
  rewrite star_through.
  - rewrite rmatch_grp, hd_error_map. unfold col_B, seqs.
    change (";"%char :: ?x) with (S_ ";" ++ x).
    rewrite (lit_seq_hit true (S_ ";") _ (S_ ";")) by reflexivity.
    rewrite rmatch_seq_star.
    change (Q "'" ++ ?x) with (dquote :: x).
    rewrite star_through;
      [|assumption|now apply blind_quiet_seq, blind_dquote|apply halts_dquote].
    change (dquote :: ?x) with ([dquote] ++ x).
    rewrite (lit_seq_hit true [dquote] _ [dquote]) by reflexivity.
    change (rmatch true (Seq (Star (CNot gt)) ?r)) with (rmatch true tag_end_pat).
    rewrite tag_end_first;
      [|now apply kind_not_gt|now apply body_blind_close].
    cbn [option_map]. unfold set_cap. cbn [before after caps].
    f_equal. f_equal.
    + unfold cap2c. same_text.
    + f_equal. f_equal.
      match goal with
      | |- captured _ (MState ?bb _ _) = _ =>
          replace bb with (rev (cap2c R kd G) ++ (rev C ++ b))
      end.
      * apply captured_app.
      * unfold cap2c. same_text.
  - apply forallb_forall. intros c Hc. rewrite forallb_forall in HC.
    specialize (HC c Hc). cbn [in_cset]. now rewrite Ascii.eqb_sym.
  - apply semicolon_quiet; [assumption|].
    intros b' t cp' Ht. now apply (grp_lit_miss1 2 (S_ ";")).
  - reflexivity.
Qed.

Lemma colorRegex_pat_eq N :
  colorRegex_pat N = Seq (Grp 1 (labelled col_rA N)) col_R1.
Proof. reflexivity. Qed.

Lemma col_exec_hit N I V P C R kd G rest b :
  forallb isWordChar N = true ->
  wf_cell (Cell I V (P ++ fill ++ C ++ S_ ";" ++ R) kd G) = true ->
  occurs true N V = true ->
  forallb (fun a => negb (Ascii.eqb a ";"%char)) C = true ->
  occurs true fill (C ++ S_ ";" ++ R) = false ->
  re_exec (compile (colorRegex_pat N) true 2) b
          (render_cell (Cell I V (P ++ fill ++ C ++ S_ ";" ++ R) kd G) ++ rest)
  = Some (MState
            (rev (render_cell (Cell I V (P ++ fill ++ C ++ S_ ";" ++ R) kd G))
               ++ b)
            rest
            [(2, cap2c R kd G); (1, cap1c I V P)]).
Proof.
  intros HN Hwf Hl HC Hf.
  pose proof (kind_wf _ Hwf) as Hk.
  pose proof (wf_cell_parts _ Hwf) as Hp.
  cbn [c_id c_value c_style c_kind c_geometry] in Hp, Hk.
  destruct Hp as (_ & _ & HS & _ & HG).
  pose proof HS as [[S1 _] _].
  assert (S1' : forallb (in_cset (CNot dquote))
                  (P ++ fill ++ C ++ S_ ";" ++ R) = true) by exact S1.
  unfold compile. cbn [re_exec].
  rewrite colorRegex_pat_eq, rmatch_kmatch, kmatch_grp.
  set (k1 := fun st' : mstate => rmatch true col_R1 (set_cap 1 _ st')).
  rewrite labelled_k by assumption. rewrite Hl.
  unfold col_rA, seqs. rewrite style_k by assumption.
  rewrite kmatch_seq, kmatch_star.
  match goal with
  | |- context [m_star _ _ ?t _] =>
      replace t with
        (P ++ (fill ++ C ++ S_ ";" ++ R)
           ++ (dquote :: kind_attrs kd
                 ++ gt :: (Q "<mxGeometry" ++ G ++ Q "/>")
                 ++ mxCell_close ++ rest))
        by (rewrite <- !app_assoc; reflexivity)
  end.
  apply star_last.
  - exact S1'.
  - apply blind_quiet_k.
    change (tl (fill ++ ?x)) with (Q "illColor=" ++ x).
    rewrite blind_app. apply andb_true_intro. split; [reflexivity|].
    apply blind_not_occurs; [reflexivity|assumption].
  - discriminate.
  - apply halts_dquote.
  - intros b'. now apply kmatch_lit_miss.
  - set (body := Q "<mxGeometry" ++ G ++ Q "/>").
    rewrite <- !app_assoc.
    rewrite (kmatch_lit_hit fill fill) by reflexivity.
    subst k1 body. cbv beta. unfold set_cap. cbn [before after caps].
    rewrite !forallb_app in S1'.
    apply andb_prop in S1'. destruct S1' as [_ S1'].
    apply andb_prop in S1'. destruct S1' as [_ S1'].
    apply andb_prop in S1'. destruct S1' as [_ S1'].
    apply andb_prop in S1'. destruct S1' as [_ S1'].
    change (dquote :: kind_attrs kd ++ ?x) with (Q "'" ++ kind_attrs kd ++ x).
    rewrite col_tail by assumption.
    f_equal. f_equal.
    + unfold render_cell, cell_tag, cell_body, cap2c.
      cbn [c_id c_value c_style c_kind c_geometry]. same_text.
    + f_equal. f_equal. f_equal.
      match goal with
      | |- captured _ (MState ?bb _ _) = _ =>
          replace bb with (rev (cap1c I V P) ++ b)
      end.
      * apply captured_app.
      * unfold cap1c. same_text.
Qed.

Lemma kmatch_id r st : kmatch r (fun s => [s]) st = rmatch true r st.
Proof.
  unfold kmatch. induction (rmatch true r st) as [|x l IH]; [reflexivity|].
  cbn [flat_map app]. now rewrite IH.
Qed.

Lemma col_exec_nofill N c rest b :
  forallb isWordChar N = true ->
  wf_cell c = true ->
  occurs true fill (c_style c) = false ->
  re_exec (compile (colorRegex_pat N) true 2) b (render_cell c ++ rest) = None.
Proof.
  intros HN Hwf Hf. rewrite colorRegex_pat_eq. apply grouped_nil.
  apply hd_error_nil. rewrite <- kmatch_id.
  pose proof (kind_wf _ Hwf) as Hk.
  pose proof (wf_cell_parts _ Hwf) as Hp.
  destruct c as [I V S kd G].
  cbn [c_id c_value c_style c_kind c_geometry] in *.
  destruct Hp as (_ & _ & HS & _ & HG).
  pose proof HS as [[S1 _] _].
  rewrite labelled_k by assumption.
  destruct (occurs true N V); [|reflexivity].
  unfold col_rA, seqs. rewrite style_k by assumption.
  rewrite kmatch_seq, kmatch_star.
  change (Q "'" ++ ?x) with (dquote :: x).
  rewrite star_through;
    [|exact S1
     |apply blind_quiet_k, blind_not_occurs; [reflexivity|assumption]
     |apply halts_dquote].
  now rewrite kmatch_lit_miss.
Qed.

(** ** The colour code and the replacement template *)

Lemma word_keeps_dollar_out v :
  forallb isWordChar v = true ->
  forallb (fun c => negb (Ascii.eqb c "$"%char)) v = true.
Proof.
  intros Hv. apply forallb_forall. intros c Hc. rewrite forallb_forall in Hv.
  specialize (Hv c Hc). destruct (Ascii.eqb_spec c "$"%char); [|reflexivity].
  subst c. discriminate Hv.
Qed.

Lemma lower_no_dollar s :
  forallb isWordChar s = true ->
  forallb (fun c => negb (Ascii.eqb c "$"%char)) (toLowerCase s) = true.
Proof.
  intros H. apply forallb_forall. intros c Hc.
  unfold toLowerCase in Hc. apply in_map_iff in Hc. destruct Hc as (a & <- & Ha).
  rewrite forallb_forall in H. specialize (H a Ha). revert H. clear.
  destruct a as [[] [] [] [] [] [] [] []]; intros H; try reflexivity; discriminate H.
Qed.

Lemma colorMap_no_dollar k x :
  assoc k colorMap_own = Some x ->
  forallb (fun c => negb (Ascii.eqb c "$"%char)) x = true.
Proof.
  unfold colorMap_own. cbn [assoc].
  repeat (destruct (str_eqb k _); [intros E; inversion E; reflexivity|]).
  discriminate.
Qed.

Lemma colorCode_no_dollar v :
  forallb isWordChar v = true ->
  forallb (fun c => negb (Ascii.eqb c "$"%char)) (colorCode v) = true.
Proof.
  intros Hv. unfold colorCode, colorMap_get.
  destruct (assoc (toLowerCase v) colorMap_own) as [x|] eqn:E.
  - cbn [js_toString]. exact (colorMap_no_dollar _ _ E).
  - destruct (existsb _ _).
    + destruct (str_eqb _ _); [reflexivity|].
      cbn [js_toString]. rewrite !forallb_app.
      repeat (apply andb_true_intro; split); try reflexivity.
      now apply lower_no_dollar.
    + destruct (str_eqb _ _); [reflexivity|].
      now apply word_keeps_dollar_out.
Qed.

Lemma colour_template m pre post c1 c2 code :
  forallb (fun c => negb (Ascii.eqb c "$"%char)) code = true ->
  getSubstitution 2 m pre post [(2, c2); (1, c1)]
                  (S_ "$1" ++ code ++ S_ "$2")
  = c1 ++ code ++ c2.
Proof.
  intros Hp.
  change (S_ "$1" ++ code ++ S_ "$2")
    with ("$"%char :: "1"%char :: code ++ ("$"%char :: "2"%char :: [] ++ [])).
  rewrite !getSubstitution_ref
    by first [ reflexivity | assumption | (cbn; lia) | lia
             | (now right) | (now left) ].
  cbn [getSubstitution app]. rewrite app_nil_r. reflexivity.
Qed.

(** ** The colour branch *)

Lemma fill_text I V P code R kd G :
  cap1c I V P ++ code ++ cap2c R kd G
  = render_cell (Cell I V (P ++ fill ++ code ++ S_ ";" ++ R) kd G).
Proof.
  unfold cap1c, cap2c, render_cell, cell_tag, cell_body.
  cbn [c_id c_value c_style c_kind c_geometry].
  rewrite <- !app_assoc. reflexivity.
Qed.

Lemma colour_render N code cells cells' :
  forallb isWordChar N = true ->
  forallb (fun c => negb (Ascii.eqb c "$"%char)) code = true ->
  forallb wf_cell cells = true ->
  Forall2 (recoloured N code) cells cells' ->
  replace_re (compile (colorRegex_pat N) true 2) (render cells)
             (S_ "$1" ++ code ++ S_ "$2")
  = render cells'.
Proof.
  intros HN Hv Hwf HF.
  apply (rewrite_render _ _
           (fun c c' =>
              label_has N c = true
              /\ occurs true fill (c_style c) = true
              /\ recoloured N code c c')
           (fun c => label_has N c = false
                     \/ occurs true fill (c_style c) = false)).
  - rewrite colorRegex_pat_eq. apply (grouped_open N col_rA col_R1 2).
  - rewrite colorRegex_pat_eq. apply (grouped_header N col_rA col_R1 2).
  - intros c rest b Hc [Hm|Hm].
    + rewrite colorRegex_pat_eq.
      now apply (grouped_miss N col_rA col_R1 2 HN).
    + now apply col_exec_nofill.
  - intros c c' rest b Hc (Hl & Ho & Hr).
    destruct Hr as [c P C R _ Es HC Hf|c [Hm|Hm]]; [|congruence|congruence].
    destruct c as [I V S k G]. cbn [c_style] in Es. subst S.
    unfold label_has in Hl. cbn [c_value] in Hl.
    eexists. split; [now apply col_exec_hit|]. split.
    + unfold endIndex. cbn [before]. now rewrite length_app, length_rev.
    + intros pre post. cbn [caps re_groups compile].
      rewrite colour_template by assumption. apply fill_text.
  - clear Hwf. induction HF as [|c c' cells cells' Hc _ IH]; constructor; auto.
    destruct Hc as [c P C R Hl Es HC Hf|c Hm].
    + left. split; [assumption|]. split.
      * rewrite Es. clear. induction P as [|a P IH]; [reflexivity|].
        cbn [app occurs]. rewrite IH. apply orb_true_r.
      * now apply (recoloured_fill N code c P C R).
    + right. auto.
  - exact Hwf.
Qed.

(** The colour branch on a diagram of well-formed cells, for a name and a
    value made of word characters and an instruction that names a colour
    and no size, when every cell whose label holds the name, up to letter
    case, either has no fill colour in its style or has one that a
    semicolon ends within the style: in the cells of the second kind the
    branch replaces the last fill colour of the style by the colour code
    that [colorCode] gives for the value; it leaves as they are the cells
    whose label does not hold the name or whose style has no fill colour,
    and the rest of the text, and reports the change. *)
Theorem modifyComponentProperty_colour :
  forall dyn cells cells' N v userInput,
    forallb isWordChar N = true -> forallb isWordChar v = true ->
    forallb wf_cell cells = true ->
    includes (toLowerCase userInput) (S_ "size")
    || includes (toLowerCase userInput) (S_ "width")
    || includes (toLowerCase userInput) (S_ "height") = false ->
    includes (toLowerCase userInput) (S_ "color")
    || includes (toLowerCase userInput) (S_ "colour") = true ->
    Forall2 (recoloured N (colorCode v)) cells cells' ->
    modifyComponentProperty dyn (render cells) N v userInput
    = Result true (render cells') (colour_changed N v).
Proof.
  intros dyn cells cells' N v userInput HN Hv Hwf Hs Hk HF.
  unfold modifyComponentProperty, colorRegex, new_RegExp.
  rewrite Hs, Hk. cbn [forallb]. rewrite (word_plain N HN). cbn [andb].
  now rewrite (colour_render N (colorCode v) cells cells' HN
                 (colorCode_no_dollar v Hv) Hwf HF).
Qed.

Lemma modifyComponentProperty_colour_witness :
  modifyComponentProperty no_dyn (render gpu_cpu) (S_ "GPU") (S_ "red")
                          (S_ "make GPU color red")
  = Result true
      (render [with_style (node "2" "GPU")
                 (S_ "rounded=1;" ++ fill ++ S_ "#ff0000" ++ S_ ";" ++ []);
               node "3" "CPU"; arrow "4" "2" "3"])
      (colour_changed (S_ "GPU") (S_ "red")).
Proof.
  apply (modifyComponentProperty_colour no_dyn gpu_cpu); try reflexivity.
  constructor.
  - apply (recoloured_fill _ _ (node "2" "GPU") (S_ "rounded=1;")
                           (S_ "#dae8fc") []); reflexivity.
  - constructor; [apply recoloured_other; left; reflexivity|].
    constructor; [apply recoloured_other; right; reflexivity|constructor].
Defined.

(** * Instructions and their white space *)

Lemma spaces_app u v : spaces (u ++ v) = spaces u + spaces v.
Proof. unfold spaces. now rewrite filter_app, length_app. Qed.

Lemma spaces_none u :
  forallb (fun c => negb (isSpace c)) u = true -> spaces u = 0.
Proof.
  induction u as [|c u IH]; [reflexivity|]. cbn [forallb]. intros H.
  apply andb_prop in H. destruct H as [Hc Hu]. apply negb_true_iff in Hc.
  unfold spaces in *. cbn [filter]. rewrite Hc. auto.
Qed.

Lemma spaces_word u : forallb isWordChar u = true -> spaces u = 0.
Proof.
  intros H. apply spaces_none. apply forallb_forall. intros c Hc.
  rewrite forallb_forall in H. now rewrite (word_not_space c (H c Hc)).
Qed.

(** Every match passes over at least [min_spaces] white-space characters. *)
Lemma spaces_passed ci r : forall st st',
  In st' (rmatch ci r st) ->
  spaces (after st') + min_spaces r <= spaces (after st).
Proof.
  assert (Hm : forall r0 st st', In st' (rmatch ci r0 st) ->
                 spaces (after st') <= spaces (after st)).
  { intros r0 st st' H. apply rmatch_moved in H. destruct H as (m & _ & ->).
    rewrite spaces_app. lia. }
  induction r as [l|cs|cs|cs|r1 IH1 r2 IH2|r1 IH1 r2 IH2|r1 IH1|n r1 IH1|];
    intros st st' H; cbn [min_spaces];
    try (apply Hm in H; lia).
  - destruct cs; try (apply Hm in H; lia).
    cbn [rmatch] in H. destruct (after st) as [|c s']; [destruct H|].
    cbn [in_cset] in H. destruct (isSpace c) eqn:Ec; [|destruct H].
    destruct H as [<-|[]]. cbn [after]. unfold spaces. cbn [filter].
    rewrite Ec. cbn [length]. lia.
  - rewrite rmatch_seq in H. apply in_flat_map in H.
    destruct H as (st1 & H1 & H2). apply IH1 in H1. apply IH2 in H2. lia.
  - rewrite rmatch_alt in H. apply in_app_or in H. destruct H as [H|H].
    + apply IH1 in H. lia.
    + apply IH2 in H. lia.
  - rewrite rmatch_grp in H. apply in_map_iff in H.
    destruct H as (x & <- & Hx). apply IH1 in Hx.
    unfold set_cap. cbn [after]. lia.
Qed.

Lemma few_spaces_nil ci r st :
  spaces (after st) < min_spaces r -> rmatch ci r st = [].
Proof.
  intros H. destruct (rmatch ci r st) as [|x l] eqn:E; [reflexivity|].
  assert (Hx : In x (rmatch ci r st)) by (rewrite E; now left).
  apply spaces_passed in Hx. lia.
Qed.

Lemma pattern_few_spaces rs g u :
  spaces u < min_spaces (seqs rs) -> match_first (instr rs g) u = None.
Proof.
  intros Hu. apply search_none. intros u1 u2 b ->.
  unfold instr, compile. cbn [re_exec].
  rewrite few_spaces_nil; [reflexivity|].
  cbn [after]. rewrite spaces_app in Hu. lia.
Qed.

Lemma patterns_few_spaces u k ps :
  spaces u < k ->
  Forall (fun p => exists rs g,
            p = instr rs g /\ k <= min_spaces (seqs rs)) ps ->
  Forall (fun p => match_first p u = None) ps.
Proof.
  intros Hu H. induction H as [|p ps (rs & g & -> & Hn) _ IH]; constructor;
    [|assumption].
  apply pattern_few_spaces. lia.
Qed.

Ltac count_spaces :=
  repeat (apply Forall_cons;
          [eexists _, _; split; [reflexivity|cbn; lia]|]);
  apply Forall_nil.

(** An instruction of plain characters without white space matches no
    pattern of any category: the mutator hands the text back, whatever
    the text is, and reports no change. *)
Theorem makeActualXmlChanges_one_token :
  forall dyn userInput xml0,
    forallb (fun c => code c <? 128) userInput = true ->
    forallb (fun c => negb (isSpace c)) userInput = true ->
    makeActualXmlChanges dyn userInput xml0 = Outcome xml0 [].
Proof.
  intros dyn userInput xml0 _ Hs. apply spaces_none in Hs.
  unfold makeActualXmlChanges, try_remove, try_change, try_disconnect,
    try_add, try_property, try_contextual.
  rewrite !first_success_none
    by (apply (patterns_few_spaces userInput 1); [lia|];
        unfold removePatterns, changePatterns, connectionRemovePatterns,
          addPatterns, propertyPatterns; count_spaces).
  now rewrite contextual_fails.
Qed.

Lemma makeActualXmlChanges_one_token_witness :
  makeActualXmlChanges no_dyn (S_ "GPU->CPU") (render gpu_cpu)
  = Outcome (render gpu_cpu) [].
Proof.
  apply (makeActualXmlChanges_one_token no_dyn (S_ "GPU->CPU"));
    reflexivity.
Defined.

(** ** The instruction [disconnect NAME] *)

(** A pattern whose second piece is white space finds nothing in a verb
    followed by a word when it finds nothing at the places of the verb. *)
Lemma verb_text_none V N A rest g :
  forallb isWordChar N = true ->
  all_tails (fun t => forall b,
               re_exec (instr (A :: sp :: rest) g) b (t ++ N) = None) V ->
  match_first (instr (A :: sp :: rest) g) (V ++ N) = None.
Proof.
  intros HN HV. apply search_none. intros u1 u2 b E.
  apply app_eq_app in E. destruct E as (l & [[E1 E2]|[E1 E2]]).
  - destruct l as [|x l].
    + cbn [app] in E2. subst u2. now apply instr_word_dead.
    + subst u2. apply (all_tails_spec _ _ HV u1 (x :: l) E1). discriminate.
  - apply instr_word_dead. rewrite E2, forallb_app in HN.
    apply andb_prop in HN. tauto.
Qed.

Ltac verb_tails :=
  match goal with
  | |- all_tails _ ?V => let v := eval cbv in V in change V with v
  end;
  cbn [all_tails]; split_tails; intros b; reflexivity.

Ltac verb_text_dead := apply verb_text_none; [assumption|verb_tails].

Lemma opt_seq_sp_end r b cp :
  rmatch true (Opt (Seq sp r)) (MState b [] cp) = [MState b [] cp].
Proof.
  rewrite rmatch_opt, rmatch_seq, sp_word_nil by reflexivity. reflexivity.
Qed.

Lemma disconnect_instruction_match N :
  N <> [] -> forallb isWordChar N = true ->
  exists m,
    match_first (instr [Lit (S_ "disconnect"); sp; word 1;
                        Opt (seqs [sp; lits ["from"; "and"]%string; sp;
                                   word 2])] 2)
                (S_ "disconnect " ++ N) = Some m
    /\ group 1 (m_caps m) = Some N /\ group 2 (m_caps m) = None.
Proof.
  intros Hne HN. destruct N as [|c N]; [congruence|]. clear Hne.
  destruct (word_group 1 c N (rev (S_ "disconnect ")) [] HN) as [more Hw].
  eexists. split.
  - unfold match_first. apply search_hit.
    unfold instr, compile. cbn [re_exec].
    change (seqs [Lit (S_ "disconnect"); sp; word 1; ?o])
      with (Seq (Lit (S_ "disconnect")) (Seq sp (Seq (word 1) o))).
    change (S_ "disconnect " ++ c :: N)
      with (S_ "disconnect" ++ " "%char :: c :: N).
    rewrite (lit_seq_hit true (S_ "disconnect") _ (S_ "disconnect"))
      by reflexivity.
    rewrite rmatch_seq.
    rewrite sp_one by exact HN. cbn [flat_map]. rewrite app_nil_r.
    rewrite rmatch_seq.
    change (" "%char :: rev (S_ "disconnect") ++ [])
      with (rev (S_ "disconnect ")).
    rewrite Hw. cbn [flat_map].
    change (seqs [sp; ?a; ?b; ?c]) with (Seq sp (Seq a (Seq b c))).
    rewrite opt_seq_sp_end. cbn [app hd_error].
    reflexivity.
  - unfold mres_of. cbn [m_caps caps group Nat.eqb]. split; reflexivity.
Qed.

Lemma disconnect_not_remove N :
  forallb isWordChar N = true ->
  Forall (fun p => match_first p (S_ "disconnect " ++ N) = None)
         removePatterns.
Proof.
  intros HN. unfold removePatterns. repeat constructor; verb_text_dead.
Qed.

Lemma disconnect_spaces N :
  forallb isWordChar N = true -> spaces (S_ "disconnect " ++ N) < 2.
Proof.
  intros HN. rewrite spaces_app, (spaces_word N HN).
  change (spaces (S_ "disconnect ")) with 1. lia.
Qed.

Lemma disconnect_not_change N :
  forallb isWordChar N = true ->
  Forall (fun p => match_first p (S_ "disconnect " ++ N) = None)
         changePatterns.
Proof.
  intros HN. apply (patterns_few_spaces _ 2); [now apply disconnect_spaces|].
  unfold changePatterns. count_spaces.
Qed.

Lemma disconnect_not_property N :
  forallb isWordChar N = true ->
  Forall (fun p => match_first p (S_ "disconnect " ++ N) = None)
         propertyPatterns.
Proof.
  intros HN. apply (patterns_few_spaces _ 2); [now apply disconnect_spaces|].
  unfold propertyPatterns. count_spaces.
Qed.

Lemma disconnect_not_add N :
  forallb isWordChar N = true ->
  Forall (fun p => match_first p (S_ "disconnect " ++ N) = None) addPatterns.
Proof.
  intros HN. unfold addPatterns. repeat constructor; verb_text_dead.
Qed.

(** The instruction [disconnect NAME], for a name made of word
    characters, on a diagram of well-formed cells: the name plays no
    part.  When the diagram has an edge, the mutator deletes every edge
    and reports their number as its one change; when it has none, it
    hands the text back and reports no change. *)
Theorem makeActualXmlChanges_disconnect :
  forall dyn cells N,
    N <> [] -> forallb isWordChar N = true ->
    forallb wf_cell cells = true ->
    makeActualXmlChanges dyn (S_ "disconnect " ++ N) (render cells)
    = if 0 <? length (filter is_edge cells)
      then Outcome (render (filter (fun c => negb (is_edge c)) cells))
                   [arrows_removed (length (filter is_edge cells))]
      else Outcome (render cells) [].
Proof.
  intros dyn cells N Hne HN Hwf.
  destruct (disconnect_instruction_match N Hne HN) as (m & Hm & Hg1 & Hg2).
  unfold makeActualXmlChanges, try_remove, try_change.
  rewrite !first_success_none
    by (first [now apply disconnect_not_remove
              | now apply disconnect_not_change]).
  unfold try_disconnect, connectionRemovePatterns. cbn [first_success].
  rewrite !verb_text_none by (first [assumption|verb_tails]).
  rewrite Hm, Hg1, Hg2.
  rewrite (removeConnections_render cells (Some N) None Hwf)
    by (now rewrite andb_false_r).
  destruct (0 <? length (filter is_edge cells)); [reflexivity|].
  cbn [success]. unfold try_add, try_property, try_contextual.
  rewrite !first_success_none
    by (first [now apply disconnect_not_add
              | now apply disconnect_not_property]).
  now rewrite contextual_fails.
Qed.

Lemma makeActualXmlChanges_disconnect_witness :
  makeActualXmlChanges no_dyn (S_ "disconnect " ++ S_ "GPU") (render gpu_cpu)
  = Outcome (render [node "2" "GPU"; node "3" "CPU"])
            [arrows_removed 1].
Proof.
  apply (makeActualXmlChanges_disconnect no_dyn gpu_cpu (S_ "GPU"));
    try discriminate; reflexivity.
Defined.

(** * Renaming, end to end *)

Lemma ends_ci_tail p n0 : forall n',
  ends_ci p (n0 ++ n') = false -> eq_ci p n' = false.
Proof.
  induction n0 as [|c n0 IH]; intros n' H.
  - cbn [app] in H. destruct n'; cbn [ends_ci] in H;
      apply orb_false_elim in H; tauto.
  - cbn [app ends_ci] in H. apply orb_false_elim in H. destruct H as [_ H].
    auto.
Qed.

Lemma starts_all_eq_ci l t :
  starts true l t = true -> length t = length l -> eq_ci l t = true.
Proof.
  intros H Hl. apply starts_eq_ci in H. rewrite <- Hl, firstn_all in H.
  unfold eq_ci. apply str_eqb_eq. now symmetry.
Qed.

(** A literal followed by white space finds nothing inside a word that
    white space follows, unless the word ends with it. *)
Lemma lit_sp_inside l R n' s b cp :
  forallb (fun a => negb (chr_eq true a " "%char)) l = true ->
  forallb isWordChar n' = true ->
  eq_ci l n' = false ->
  rmatch true (Seq (Lit l) (Seq sp R)) (MState b (n' ++ " "%char :: s) cp) = [].
Proof.
  intros Hl Hn He. rewrite rmatch_seq, rmatch_lit, m_lit_spec.
  rewrite (starts_stop true l " "%char s n' Hl).
  destruct (starts true l n') eqn:E; [|reflexivity].
  cbn [flat_map]. rewrite app_nil_r.
  destruct (starts_split _ _ _ E) as (t1 & t2 & -> & Hlen & Hs).
  rewrite <- app_assoc, <- Hlen, skipn_app, Nat.sub_diag, skipn_all.
  cbn [skipn app].
  destruct t2 as [|c t2].
  - rewrite app_nil_r in He.
    now rewrite (starts_all_eq_ci l t1 Hs Hlen) in He.
  - rewrite rmatch_seq. unfold sp. rewrite rmatch_plus. cbn [app in_cset].
    rewrite forallb_app in Hn. apply andb_prop in Hn. destruct Hn as [_ Hn].
    cbn [forallb] in Hn. apply andb_prop in Hn. destruct Hn as [Hc _].
    now rewrite (word_not_space c Hc).
Qed.

Lemma sp_once b s cp :
  halts CSpace s ->
  rmatch true sp (MState b (" "%char :: s) cp) = [MState (" "%char :: b) s cp].
Proof.
  intros H. unfold sp. rewrite rmatch_plus. cbn [in_cset].
  change (isSpace " "%char) with true. cbv iota.
  now apply m_star_halts.
Qed.

Lemma word_sp_once n R w s b cp :
  w <> [] -> forallb isWordChar w = true -> halts CSpace s ->
  rmatch true (Seq (word n) (Seq sp R)) (MState b (w ++ " "%char :: s) cp)
  = rmatch true R (MState (" "%char :: rev w ++ b) s ((n, w) :: cp)).
Proof.
  intros Hne Hw Hs. destruct w as [|c w]; [congruence|].
  cbn [forallb] in Hw. apply andb_prop in Hw. destruct Hw as [Hc Hw].
  unfold word. rewrite rmatch_seq, rmatch_grp, rmatch_plus.
  cbn [app in_cset]. rewrite Hc. rewrite flat_map_map.
  rewrite (star_through _ CWord w).
  - unfold set_cap. cbn [before after caps]. rewrite rmatch_seq.
    rewrite sp_once by exact Hs. cbn [flat_map]. rewrite app_nil_r.
    f_equal. f_equal.
    + cbn [rev]. now rewrite <- app_assoc.
    + f_equal. f_equal.
      change (rev w ++ c :: b) with (rev w ++ [c] ++ b).
      rewrite app_assoc. change (rev w ++ [c]) with (rev (c :: w)).
      apply captured_app.
  - exact Hw.
  - intros u1 u2 b' cp' E Hne'. unfold set_cap. cbn [before after caps].
    rewrite rmatch_seq. destruct u2 as [|x u2]; [congruence|].
    unfold sp. rewrite rmatch_plus. cbn [app in_cset].
    assert (Hx : isWordChar x = true).
    { rewrite forallb_forall in Hw. apply Hw. rewrite E.
      apply in_or_app. right. now left. }
    now rewrite (word_not_space x Hx).
  - reflexivity.
Qed.

Lemma search_all_dead re u : forall b,
  (forall u1 u2 b', u = u1 ++ u2 -> re_exec re b' u2 = None) ->
  search re b u = None.
Proof.
  intros b H. rewrite <- (app_nil_r u). rewrite search_dead.
  - cbn [search]. now rewrite (H u [] _ (eq_sym (app_nil_r u))).
  - intros u1 u2 b' E _. rewrite app_nil_r. now apply (H u1).
Qed.

(** A pattern finds nothing in a text of four stretches when it finds
    nothing at any place of each. *)
Lemma stretches_none re V0 N V1 V :
  all_tails (fun t => forall b, re_exec re b (t ++ N ++ V1 ++ V) = None) V0 ->
  all_tails (fun t => forall b, re_exec re b (t ++ V1 ++ V) = None) N ->
  all_tails (fun t => forall b, re_exec re b (t ++ V) = None) V1 ->
  (forall v0 v' b, V = v0 ++ v' -> re_exec re b v' = None) ->
  match_first re (V0 ++ N ++ V1 ++ V) = None.
Proof.
  intros H0 H1 H2 H3. unfold match_first.
  rewrite search_dead
    by (intros u1 u2 b' E Hne; now apply (all_tails_spec _ _ H0 u1 u2 E Hne)).
  rewrite search_dead
    by (intros u1 u2 b' E Hne; now apply (all_tails_spec _ _ H1 u1 u2 E Hne)).
  rewrite search_dead
    by (intros u1 u2 b' E Hne; now apply (all_tails_spec _ _ H2 u1 u2 E Hne)).
  now apply search_all_dead.
Qed.

Lemma all_tails_suffix (Pr : str -> Prop) N :
  (forall n0 n', N = n0 ++ n' -> n' <> [] -> Pr n') -> all_tails Pr N.
Proof.
  induction N as [|c N IH]; intros H; [exact I|].
  cbn [all_tails]. split.
  - apply (H [] (c :: N)); [reflexivity|discriminate].
  - apply IH. intros n0 n' E Hne. apply (H (c :: n0) n'); [|assumption].
    now rewrite E.
Qed.

Lemma lit_sp_at_end l R n' s b cp :
  forallb (fun a => negb (chr_eq true a " "%char)) l = true ->
  forallb isWordChar n' = true -> halts CSpace s ->
  rmatch true (Seq (Lit l) (Seq sp R)) (MState b (n' ++ " "%char :: s) cp)
  = if eq_ci l n'
    then rmatch true R (MState (" "%char :: rev n' ++ b) s cp)
    else [].
Proof.
  intros Hl Hn Hs. destruct (eq_ci l n') eqn:E.
  - destruct (eq_ci_starts l n' [] E) as [H1 H2]. rewrite app_nil_r in H1.
    rewrite (lit_seq_hit true l _ n') by assumption.
    rewrite rmatch_seq, sp_once by assumption.
    cbn [flat_map]. apply app_nil_r.
  - now apply lit_sp_inside.
Qed.

Lemma exec_few_spaces rs g b u :
  spaces u < min_spaces (seqs rs) -> re_exec (instr rs g) b u = None.
Proof.
  intros H. unfold instr, compile. cbn [re_exec].
  now rewrite few_spaces_nil.
Qed.

Lemma dash_not_word c : isWordChar c = true -> chr_eq true "-"%char c = false.
Proof.
  destruct c as [[] [] [] [] [] [] [] []]; intros H; try reflexivity;
    discriminate H.
Qed.

Lemma arrow_not_word c :
  isWordChar c = true -> chr_eq true (ascii_of_nat 226) c = false.
Proof.
  destruct c as [[] [] [] [] [] [] [] []]; intros H; try reflexivity;
    discriminate H.
Qed.

Section RenameText.
Variables N V : str.
Hypothesis N_ne : N <> [].
Hypothesis N_word : forallb isWordChar N = true.
Hypothesis V_ne : V <> [].
Hypothesis V_word : forallb isWordChar V = true.
Hypothesis N_free : no_verb N = true.

Lemma name_suffix_word n0 n' : N = n0 ++ n' -> forallb isWordChar n' = true.
Proof.
  intros E. rewrite E, forallb_app in N_word. apply andb_prop in N_word.
  tauto.
Qed.

Lemma value_suffix_word v0 v' : V = v0 ++ v' -> forallb isWordChar v' = true.
Proof.
  intros E. rewrite E, forallb_app in V_word. apply andb_prop in V_word.
  tauto.
Qed.

Lemma rename_text_spaces : spaces (N ++ S_ " to " ++ V) = 2.
Proof.
  rewrite !spaces_app, (spaces_word N N_word), (spaces_word V V_word).
  reflexivity.
Qed.

(** A pattern that opens with a verb and white space finds nothing from
    the name on, when the name does not end with the verb or when what
    follows the verb cannot start with [to]. *)
Lemma verb_dead l r rest g V0 :
  forallb (fun a => negb (chr_eq true a " "%char)) l = true ->
  ends_ci l N = false
  \/ (forall b cp,
        rmatch true (seqs (r :: rest)) (MState b (S_ "to " ++ V) cp) = []) ->
  all_tails (fun t => forall b,
               re_exec (instr (Lit l :: sp :: r :: rest) g) b
                       (t ++ N ++ S_ " to " ++ V) = None) V0 ->
  all_tails (fun t => forall b,
               re_exec (instr (Lit l :: sp :: r :: rest) g) b (t ++ V) = None)
            (S_ " to ") ->
  match_first (instr (Lit l :: sp :: r :: rest) g)
              (V0 ++ N ++ S_ " to " ++ V) = None.
Proof.
  intros Hl Hv H0 H2. apply stretches_none; [assumption| |assumption|].
  - apply all_tails_suffix. intros n0 n' E Hne b.
    unfold instr, compile. cbn [re_exec].
    change (seqs (Lit l :: sp :: r :: rest))
      with (Seq (Lit l) (Seq sp (seqs (r :: rest)))).
    change (n' ++ S_ " to " ++ V) with (n' ++ " "%char :: S_ "to " ++ V).
    rewrite lit_sp_at_end;
      [|assumption|now apply (name_suffix_word n0)|reflexivity].
    destruct Hv as [Hv|Hv].
    + rewrite E in Hv. now rewrite (ends_ci_tail _ _ _ Hv).
    + rewrite Hv. now destruct (eq_ci l n').
  - intros v0 v' b E. apply instr_word_dead.
    now apply (value_suffix_word v0).
Qed.

Lemma few_dead rs g V0 :
  2 < min_spaces (seqs rs) ->
  all_tails (fun t => forall b,
               re_exec (instr rs g) b (t ++ N ++ S_ " to " ++ V) = None) V0 ->
  match_first (instr rs g) (V0 ++ N ++ S_ " to " ++ V) = None.
Proof.
  intros Hk H0. unfold match_first.
  rewrite search_dead
    by (intros u1 u2 b' E Hne; now apply (all_tails_spec _ _ H0 u1 u2 E Hne)).
  apply search_all_dead. intros u1 u2 b' E. apply exec_few_spaces.
  pose proof rename_text_spaces as Hs. rewrite E, spaces_app in Hs. lia.
Qed.

Lemma no_verb_parts :
  (ends_ci (S_ "remove") N = false /\ ends_ci (S_ "delete") N = false
   /\ ends_ci (S_ "eliminate") N = false)
  /\ eq_ci (S_ "to") N = false /\ eq_ci (S_ "as") N = false
  /\ eq_ci (S_ "into") N = false.
Proof.
  unfold no_verb in N_free. cbn [forallb] in N_free.
  rewrite !andb_true_iff, !negb_true_iff in N_free. tauto.
Qed.

(** After a word and white space, no joining word is found at the name. *)
Lemma joins_dead b cp :
  rmatch true (Seq joins (Seq sp (word 2)))
         (MState b (N ++ S_ " to " ++ V) cp) = [].
Proof.
  destruct no_verb_parts as (_ & E1 & E2 & E3).
  assert (Hw : forall l,
             eq_ci l N = false ->
             forallb (fun a => negb (chr_eq true a " "%char)) l = true ->
             flat_map (rmatch true (Seq sp (word 2)))
                      (rmatch true (Lit l) (MState b (N ++ S_ " to " ++ V) cp))
             = []).
  { intros l He Hl. rewrite <- rmatch_seq.
    change (N ++ S_ " to " ++ V) with (N ++ " "%char :: S_ "to " ++ V).
    now apply lit_sp_inside. }
  assert (Hx : forall x l,
             (forall c, isWordChar c = true -> chr_eq true x c = false) ->
             rmatch true (Lit (x :: l)) (MState b (N ++ S_ " to " ++ V) cp)
             = []).
  { intros x l Hc. destruct N as [|c N']; [congruence|].
    cbn [forallb] in N_word. apply andb_prop in N_word.
    destruct N_word as [Hcw _].
    rewrite rmatch_lit. cbn [app m_lit]. now rewrite (Hc c Hcw). }
  rewrite rmatch_seq. unfold joins, alts. cbn [map].
  rewrite !rmatch_alt, !flat_map_app.
  rewrite !Hw by (first [assumption|reflexivity]).
  unfold arrow_char. cbn [map].
  rewrite (Hx (ascii_of_nat 226) _ arrow_not_word).
  change (S_ "->") with ("-"%char :: S_ ">").
  rewrite (Hx "-"%char _ dash_not_word). reflexivity.
Qed.

(** The second rename pattern finds nothing at a word before the name. *)
Lemma arrows_tail_dead w b :
  w <> [] -> forallb isWordChar w = true ->
  re_exec arrows_pattern b (w ++ " "%char :: N ++ S_ " to " ++ V) = None.
Proof.
  intros Hne Hw. unfold arrows_pattern, instr, compile. cbn [re_exec].
  change (seqs [word 1; sp; joins; sp; word 2])
    with (Seq (word 1) (Seq sp (Seq joins (Seq sp (word 2))))).
  rewrite word_sp_once; [|assumption|assumption|].
  - now rewrite joins_dead.
  - destruct N as [|c N']; [congruence|].
    cbn [forallb] in N_word. apply andb_prop in N_word.
    destruct N_word as [Hc _]. cbn [app halts in_cset].
    now apply word_not_space.
Qed.

Lemma arrows_match V0 :
  all_tails (fun t => forall b,
               re_exec arrows_pattern b (t ++ N ++ S_ " to " ++ V) = None)
            V0 ->
  exists m,
    match_first arrows_pattern (V0 ++ N ++ S_ " to " ++ V) = Some m
    /\ group 1 (m_caps m) = Some N /\ group 2 (m_caps m) = Some V.
Proof.
  intros H0. destruct V as [|c V'] eqn:EV; [congruence|].
  eexists. split.
  - unfold match_first.
    rewrite search_dead
      by (intros u1 u2 b' E Hne;
          now apply (all_tails_spec _ _ H0 u1 u2 E Hne)).
    apply search_hit.
    unfold arrows_pattern, instr, compile. cbn [re_exec].
    change (seqs [word 1; sp; joins; sp; word 2])
      with (Seq (word 1) (Seq sp (Seq joins (Seq sp (word 2))))).
    change (N ++ S_ " to " ++ c :: V')
      with (N ++ " "%char :: S_ "to" ++ " "%char :: c :: V').
    rewrite word_sp_once by (first [assumption|reflexivity]).
    rewrite rmatch_seq. unfold joins, alts. cbn [map].
    rewrite rmatch_alt, flat_map_app.
    rewrite (lit_hit true (S_ "to") (S_ "to")) by reflexivity.
    cbn [flat_map]. rewrite rmatch_seq, sp_one by exact V_word.
    cbn [flat_map]. rewrite !app_nil_r.
    match goal with
    | |- hd_error (rmatch true (word 2) (MState ?bb _ ?cc)) = _ =>
        destruct (word_group 2 c V' bb cc V_word) as [more Hw]
    end.
    rewrite Hw. cbn [app hd_error]. reflexivity.
  - unfold mres_of. cbn [m_caps caps group Nat.eqb]. split; reflexivity.
Qed.

End RenameText.

(** The rename pattern after a stretch [V0] in which the patterns before
    it, and the pattern itself, find nothing. *)
Lemma rename_instruction dyn xml0 N V V0 :
  N <> [] -> forallb isWordChar N = true ->
  V <> [] -> forallb isWordChar V = true ->
  no_verb N = true ->
  (0 <? whole_words N xml0) = true ->
  Forall (fun p => all_tails (fun t => forall b,
                     re_exec p b (t ++ N ++ S_ " to " ++ V) = None) V0)
         (removePatterns ++ firstn 2 changePatterns) ->
  makeActualXmlChanges dyn (V0 ++ N ++ S_ " to " ++ V) xml0
  = Outcome (rename_words N (toUpperCase V) xml0)
            [instances_changed (whole_words N xml0) N V].
Proof.
  intros Hne HN Hne' HV Hf Hw H0.
  destruct (no_verb_parts N Hf) as ((E1 & E2 & E3) & _).
  unfold removePatterns, changePatterns in H0. cbn [app firstn] in H0.
  inversion_clear H0 as [|? ? R1 H0']. inversion_clear H0' as [|? ? R2 H0].
  inversion_clear H0 as [|? ? R3 H0']. inversion_clear H0' as [|? ? R4 H0].
  inversion_clear H0 as [|? ? C1 H0']. inversion_clear H0' as [|? ? C2 _].
  destruct (arrows_match N V Hne HN Hne' HV V0 C2) as (m & Hm & Hg1 & Hg2).
  unfold makeActualXmlChanges, try_remove.
  rewrite first_success_none.
  - unfold try_change, changePatterns. cbn [first_success].
    rewrite (few_dead N V HN HV) by (first [cbn; lia|assumption]).
    change (instr [word 1; sp; alts _; sp; word 2] 2) with arrows_pattern.
    rewrite Hm, Hg1, Hg2. cbn [interp].
    rewrite (replaceComponent_runs N V HN Hne HV dyn xml0).
    destruct (whole_words N xml0 =? 0) eqn:E.
    + apply Nat.eqb_eq in E. rewrite E in Hw. discriminate Hw.
    + reflexivity.
  - unfold removePatterns.
    repeat constructor;
      (apply verb_dead;
       [assumption|assumption|reflexivity
       |first [now left | (right; intros b cp; reflexivity)]
       |assumption|verb_tails]).
Qed.

(** The instruction [NAME to VALUE], for names made of word characters,
    the first of them a whole word of the text that does not end with a
    removal verb and is not a joining word: the mutator renames every
    whole-word occurrence of the name, in any letter case, to the
    upper-cased value, on any text of ASCII characters, and reports their
    number as its one change. *)
Theorem makeActualXmlChanges_rename :
  forall dyn xml0 N V,
    ascii_text xml0 = true ->
    N <> [] -> forallb isWordChar N = true ->
    V <> [] -> forallb isWordChar V = true ->
    no_verb N = true ->
    (0 <? whole_words N xml0) = true ->
    makeActualXmlChanges dyn (N ++ S_ " to " ++ V) xml0
    = Outcome (rename_words N (toUpperCase V) xml0)
              [instances_changed (whole_words N xml0) N V].
Proof.
  intros dyn xml0 N V _ Hne HN Hne' HV Hf Hw.
  apply (rename_instruction dyn xml0 N V []); try assumption.
  unfold removePatterns, changePatterns. cbn [app firstn].
  repeat constructor.
Qed.

Lemma makeActualXmlChanges_rename_witness :
  makeActualXmlChanges no_dyn (S_ "GPU" ++ S_ " to " ++ S_ "tpu")
                       (render gpu_cpu)
  = Outcome (render [node "2" "TPU"; node "3" "CPU"; arrow "4" "2" "3"])
            [instances_changed 1 (S_ "GPU") (S_ "tpu")].
Proof.
  rewrite (makeActualXmlChanges_rename no_dyn (render gpu_cpu) (S_ "GPU")
             (S_ "tpu"))
    by (try discriminate; reflexivity).
  reflexivity.
Defined.

(** The instruction [resize NAME to VALUE] never reaches the resize
    pattern when the name is a whole word of the text: under the same
    conditions on the names as for [NAME to VALUE], the rename pattern
    takes it, and
    the mutator renames every whole-word occurrence of the name to the
    upper-cased value instead of setting a size. *)
Theorem makeActualXmlChanges_resize_renames :
  forall dyn xml0 N V,
    N <> [] -> forallb isWordChar N = true ->
    V <> [] -> forallb isWordChar V = true ->
    no_verb N = true ->
    (0 <? whole_words N xml0) = true ->
    makeActualXmlChanges dyn (S_ "resize " ++ N ++ S_ " to " ++ V) xml0
    = Outcome (rename_words N (toUpperCase V) xml0)
              [instances_changed (whole_words N xml0) N V].
Proof.
  intros dyn xml0 N V Hne HN Hne' HV Hf Hw.
  apply (rename_instruction dyn xml0 N V (S_ "resize ")); try assumption.
  unfold removePatterns, changePatterns. cbn [app firstn].
  repeat (apply Forall_cons; [try verb_tails|]); [|apply Forall_nil].
  change (instr [word 1; sp; alts _; sp; word 2] 2) with arrows_pattern.
  match goal with
  | |- all_tails _ ?V0 => let v := eval cbv in V0 in change V0 with v
  end.
  cbn [all_tails].
  split; [intros b; apply (arrows_tail_dead N V Hne HN Hf (S_ "resize"));
          [discriminate|reflexivity]|].
  split; [intros b; apply (arrows_tail_dead N V Hne HN Hf (S_ "esize"));
          [discriminate|reflexivity]|].
  split; [intros b; apply (arrows_tail_dead N V Hne HN Hf (S_ "size"));
          [discriminate|reflexivity]|].
  split; [intros b; apply (arrows_tail_dead N V Hne HN Hf (S_ "ize"));
          [discriminate|reflexivity]|].
  split; [intros b; apply (arrows_tail_dead N V Hne HN Hf (S_ "ze"));
          [discriminate|reflexivity]|].
  split; [intros b; apply (arrows_tail_dead N V Hne HN Hf (S_ "e"));
          [discriminate|reflexivity]|].
  split; [intros b; reflexivity|exact I].
Qed.

Lemma makeActualXmlChanges_resize_renames_witness :
  makeActualXmlChanges no_dyn (S_ "resize " ++ S_ "GPU" ++ S_ " to " ++ S_ "150")
                       (render gpu_cpu)
  = Outcome (render [node "2" "150"; node "3" "CPU"; arrow "4" "2" "3"])
            [instances_changed 1 (S_ "GPU") (S_ "150")].
Proof.
  rewrite (makeActualXmlChanges_resize_renames no_dyn (render gpu_cpu)
             (S_ "GPU") (S_ "150"))
    by (try discriminate; reflexivity).
  reflexivity.
Defined.

(** * Successive additions *)

(** ** Printing and reading a number *)

Lemma uint_digits d :
  forallb isDigit (list_ascii_of_string (NilEmpty.string_of_uint d)) = true.
Proof.
  induction d; cbn [NilEmpty.string_of_uint list_ascii_of_string forallb];
    try rewrite IHd; reflexivity.
Qed.

Lemma nat_to_str_digits n :
  exists d ds, nat_to_str n = d :: ds /\ forallb isDigit (d :: ds) = true.
Proof.
  unfold nat_to_str. destruct (Nat.to_uint n) eqn:E;
    try (cbn [NilZero.string_of_uint NilEmpty.string_of_uint
              list_ascii_of_string];
         eexists _, _; split; [reflexivity|];
         cbn [forallb]; rewrite ?uint_digits; reflexivity).
Qed.

Lemma uint_value d : forall acc,
  digits_value acc (list_ascii_of_string (NilEmpty.string_of_uint d))
  = Nat.of_uint_acc d acc.
Proof.
  induction d; intros acc;
    cbn [NilEmpty.string_of_uint list_ascii_of_string digits_value
         Nat.of_uint_acc];
    try reflexivity;
    match goal with
    | |- context [isDigit ?c] => change (isDigit c) with true
    end;
    cbv iota; rewrite IHd, Nat.tail_mul_spec; f_equal;
    unfold digit_val; cbn; lia.
Qed.

Lemma nat_to_str_value n : digits_value 0 (nat_to_str n) = n.
Proof.
  unfold nat_to_str. rewrite <- (Unsigned.of_to n) at 2.
  unfold Nat.of_uint. destruct (Nat.to_uint n); try apply uint_value.
  reflexivity.
Qed.

(** ** The identifiers of the added components *)

Lemma component_text n name :
  newComponent (Num n) name ++ [nl] ++ S_ "  "
  = ([nl] ++ Q "        <mxCell ") ++ id_open ++ nat_to_str n
      ++ dquote :: component_after_id name.
Proof.
  unfold newComponent, component_after_id. cbn [num_to_str].
  rewrite <- !app_assoc. reflexivity.
Qed.

Lemma upper_word name :
  forallb isWordChar name = true ->
  forallb isWordChar (toUpperCase name) = true.
Proof.
  intros H. apply forallb_forall. intros c Hc. unfold toUpperCase in Hc.
  apply in_map_iff in Hc. destruct Hc as (a & <- & Ha).
  rewrite forallb_forall in H. specialize (H a Ha). revert H. clear.
  destruct a as [[] [] [] [] [] [] [] []]; intros H; try reflexivity;
    discriminate H.
Qed.

Lemma upper_no_i name :
  forallb (fun c => negb (chr_eq false "i"%char c)) (toUpperCase name) = true.
Proof.
  apply forallb_forall. intros c Hc. unfold toUpperCase in Hc.
  apply in_map_iff in Hc. destruct Hc as (a & <- & _).
  destruct a as [[] [] [] [] [] [] [] []]; reflexivity.
Qed.

Lemma component_after_blind name rest :
  blind false id_open (component_after_id name) rest = true.
Proof.
  unfold component_after_id.
  repeat (rewrite blind_app; apply andb_true_intro; split);
    first [ reflexivity
          | apply (blind_nochar false "i"%char); apply upper_no_i ].
Qed.

Lemma id_scan_component n name rest b :
  exists b',
    map m_text (scan numericIdRegex b
                  ((newComponent (Num n) name ++ [nl] ++ S_ "  ") ++ rest) 0)
    = id_text (nat_to_str n) :: map m_text (scan numericIdRegex b' rest 0).
Proof.
  rewrite component_text, <- !app_assoc.
  rewrite !id_scan_dead by reflexivity.
  destruct (nat_to_str_digits n) as (d & ds & -> & Hd).
  set (A := component_after_id name).
  set (B := rev (Q "        <mxCell ") ++ rev [nl] ++ b).
  pose proof (id_exec_hit d ds (A ++ rest) B Hd) as He.
  set (T := id_open ++ (d :: ds) ++ dquote :: A ++ rest) in *.
  change (id_open ++ (d :: ds) ++ (dquote :: A) ++ rest) with T.
  set (k := length (id_text (d :: ds))).
  assert (ET : T = id_text (d :: ds) ++ A ++ rest).
  { subst T. unfold id_text. rewrite <- !app_assoc. reflexivity. }
  assert (Hk : skipn k T = A ++ rest).
  { rewrite ET. subst k. rewrite skipn_app, Nat.sub_diag, skipn_all.
    reflexivity. }
  rewrite (scan_hit _ _ _ _ k He).
  - cbn [map]. rewrite Hk.
    rewrite id_scan_dead by (subst A; apply component_after_blind).
    eexists. f_equal.
    unfold mres_of, endIndex. cbn [m_text before].
    rewrite id_text_rev, length_app, length_rev.
    replace (length (id_text (d :: ds)) + length B - length B)
      with (length (rev (id_text (d :: ds)))) by (rewrite length_rev; lia).
    rewrite firstn_app, Nat.sub_diag, firstn_all. cbn [firstn].
    now rewrite app_nil_r, rev_involutive.
  - unfold endIndex. cbn [before]. rewrite id_text_rev.
    rewrite length_app, length_rev. subst k. lia.
  - split.
    + subst k. unfold id_text. rewrite length_app.
      change (length id_open) with 4. lia.
    + rewrite ET, length_app. subst k. lia.
Qed.

Lemma id_scan_added adds rest : forall b,
  exists b',
    map m_text (scan numericIdRegex b (added adds ++ rest) 0)
    = map id_text (map (fun a => nat_to_str (fst a)) adds)
        ++ map m_text (scan numericIdRegex b' rest 0).
Proof.
  induction adds as [|a adds IH]; intros b.
  - exists b. reflexivity.
  - unfold added. cbn [map concat]. fold (added adds).
    rewrite <- app_assoc.
    destruct (id_scan_component (fst a) (snd a) (added adds ++ rest) b)
      as [b1 H1].
    destruct (IH b1) as [b2 H2].
    exists b2. rewrite H1, H2. reflexivity.
Qed.

Lemma id_scan_components cells adds :
  forallb wf_cell cells = true ->
  map m_text (scan numericIdRegex [] (with_components cells adds) 0)
  = map id_text (S_ "0" :: S_ "1" :: map c_id (filter numeric_id cells)
                   ++ map (fun a => nat_to_str (fst a)) adds).
Proof.
  intros Hwf. unfold with_components. rewrite id_scan_header.
  destruct (id_scan_cells cells (Q "</root>" ++ added adds ++ closing_root)
              (rev header) Hwf) as [b1 ->].
  rewrite id_scan_dead by reflexivity.
  destruct (id_scan_added adds closing_root (rev (Q "</root>") ++ b1))
    as [b2 ->].
  rewrite <- (app_nil_r closing_root).
  rewrite id_scan_dead by reflexivity.
  cbn [scan re_exec numericIdRegex]. cbn [map app].
  rewrite app_nil_r, map_app. reflexivity.
Qed.

Lemma ids_numbers l :
  Forall (fun t => exists d ds, t = d :: ds
                                /\ forallb isDigit (d :: ds) = true) l ->
  map (fun mt =>
         parseInt (match match_first digitsRegex mt with
                   | Some r => match m_text r with
                               | [] => S_ "0"
                               | t => t
                               end
                   | None => S_ "0"
                   end)) (map id_text l)
  = map (fun t => Num (digits_value 0 t)) l.
Proof.
  induction 1 as [|t l (d & ds & -> & Hd) _ IH]; [reflexivity|].
  cbn [map]. now rewrite IH, (id_number d ds Hd).
Qed.

Lemma existing_ids_components cells adds :
  forallb wf_cell cells = true ->
  Math_max (existing_ids (with_components cells adds))
  = Num (max_added cells adds).
Proof.
  intros Hwf. unfold existing_ids, matchAll.
  rewrite (id_scan_components cells adds Hwf).
  set (l := S_ "0" :: S_ "1" :: map c_id (filter numeric_id cells)
              ++ map (fun a => nat_to_str (fst a)) adds).
  assert (El : match map id_text l with
               | [] => None
               | x :: l0 => Some (x :: l0)
               end = Some (map id_text l)) by reflexivity.
  rewrite El, ids_numbers.
  - subst l. cbn [map]. unfold Math_max. cbn [fold_left js_max2].
    change (Nat.max (digits_value 0 (S_ "0")) (digits_value 0 (S_ "1")))
      with 1.
    rewrite map_app, <- (map_map (digits_value 0) Num).
    rewrite <- (map_map (digits_value 0) Num
                  (map (fun a => nat_to_str (fst a)) adds)).
    rewrite <- map_app, max_nums, fold_left_app.
    unfold max_added, max_id. f_equal. f_equal.
    + rewrite !map_map. apply map_ext. intros a. apply nat_to_str_value.
    + now rewrite map_map.
  - subst l. repeat constructor.
    + eexists _, _. split; reflexivity.
    + eexists _, _. split; reflexivity.
    + apply Forall_app. split.
      * apply Forall_forall. intros t Ht. apply in_map_iff in Ht.
        destruct Ht as (c & <- & Hc). apply filter_In in Hc.
        destruct Hc as [_ Hc]. unfold numeric_id in Hc.
        apply andb_prop in Hc. destruct Hc as [Hl Hd].
        destruct (c_id c) as [|d ds]; [discriminate|]. now exists d, ds.
      * apply Forall_forall. intros t Ht. apply in_map_iff in Ht.
        destruct Ht as (a & <- & _). apply nat_to_str_digits.
Qed.

(** ** The closing tag after the added components *)

Lemma word_no_lt t :
  forallb isWordChar t = true ->
  forallb (fun c => negb (Ascii.eqb c "<"%char)) t = true.
Proof.
  intros H. apply forallb_forall. intros c Hc. rewrite forallb_forall in H.
  specialize (H c Hc). destruct (Ascii.eqb_spec c "<"%char); [|reflexivity].
  subst c. discriminate H.
Qed.

Lemma digits_no_lt t :
  forallb isDigit t = true ->
  forallb (fun c => negb (Ascii.eqb c "<"%char)) t = true.
Proof.
  intros H. apply forallb_forall. intros c Hc. rewrite forallb_forall in H.
  specialize (H c Hc). destruct (Ascii.eqb_spec c "<"%char); [|reflexivity].
  subst c. discriminate H.
Qed.

Lemma closing_blind_component n name rest :
  forallb isWordChar name = true ->
  blind false closing_root (newComponent (Num n) name ++ [nl] ++ S_ "  ") rest
  = true.
Proof.
  intros Hn. unfold newComponent. cbn [num_to_str].
  destruct (nat_to_str_digits n) as (d & ds & -> & Hd).
  apply digits_no_lt in Hd. apply upper_word, word_no_lt in Hn.
  lt_pieces.
Qed.

Lemma closing_blind_added adds rest :
  forallb (fun a => forallb isWordChar (snd a)) adds = true ->
  blind false closing_root (added adds) rest = true.
Proof.
  induction adds as [|a adds IH]; intros H; [reflexivity|].
  cbn [forallb] in H. apply andb_prop in H. destruct H as [Ha H].
  unfold added. cbn [map concat]. fold (added adds).
  rewrite blind_app, (IH H), andb_true_r.
  now apply closing_blind_component.
Qed.

Lemma added_app adds a :
  added (adds ++ [a])
  = added adds ++ newComponent (Num (fst a)) (snd a) ++ [nl] ++ S_ "  ".
Proof.
  unfold added. rewrite map_app, concat_app. cbn [map concat].
  now rewrite app_nil_r.
Qed.

(** One more call of Add, on a diagram that holds added components. *)
Lemma addComponent_again cells adds name :
  forallb wf_cell cells = true ->
  forallb (fun a => forallb isWordChar (snd a)) adds = true ->
  forallb isWordChar name = true ->
  addComponent (with_components cells adds) name
  = Result true
      (with_components cells (adds ++ [(S (max_added cells adds), name)])) tt.
Proof.
  intros Hwf Ha Hn. unfold addComponent.
  rewrite (existing_ids_components cells adds Hwf). cbn [js_succ]. f_equal.
  unfold replace_str, with_components.
  set (u := header ++ concat (map render_cell cells) ++ Q "</root>"
              ++ added adds).
  assert (Er : header ++ concat (map render_cell cells) ++ Q "</root>"
                 ++ added adds ++ closing_root
               = u ++ closing_root ++ []).
  { subst u. rewrite <- !app_assoc. reflexivity. }
  rewrite Er, indexOf_dead.
  - rewrite indexOf_hit by reflexivity. cbn [option_map].
    rewrite Nat.add_0_r.
    rewrite firstn_app, Nat.sub_diag, firstn_all. cbn [firstn]. rewrite app_nil_r.
    rewrite skipn_app, skipn_all2 by lia.
    replace (length u + length closing_root - length u)
      with (length closing_root) by lia.
    rewrite skipn_app, skipn_all, Nat.sub_diag. cbn [skipn app].
    rewrite getSubstitution_plain by now apply newComponent_plain.
    subst u. rewrite added_app. cbn [fst snd].
    rewrite <- !app_assoc. rewrite app_nil_r. reflexivity.
  - apply blind_all_tails. subst u.
    repeat (rewrite blind_app; apply andb_true_intro; split);
      first [ reflexivity | now apply closing_blind_cells
            | now apply closing_blind_added ].
Qed.

Lemma add_all_components cells names : forall adds,
  forallb wf_cell cells = true ->
  forallb (fun a => forallb isWordChar (snd a)) adds = true ->
  forallb (forallb isWordChar) names = true ->
  add_all names (with_components cells adds)
  = with_components cells
      (adds ++ combine (seq (S (max_added cells adds)) (length names)) names).
Proof.
  induction names as [|name names IH]; intros adds Hwf Ha Hn.
  - cbn [length seq combine add_all fold_left]. now rewrite app_nil_r.
  - cbn [forallb] in Hn. apply andb_prop in Hn. destruct Hn as [Hn Hns].
    unfold add_all. cbn [fold_left]. fold (add_all names).
    rewrite (addComponent_again cells adds name Hwf Ha Hn). cbn [xml].
    rewrite IH; [|assumption| |assumption].
    + f_equal. rewrite <- app_assoc. f_equal.
      cbn [length seq combine app]. f_equal. f_equal. f_equal.
      unfold max_added. rewrite map_app, fold_left_app.
      cbn [map fst fold_left].
      now rewrite Nat.max_r by apply Nat.le_succ_diag_r.
    + rewrite forallb_app, Ha. cbn [forallb snd]. now rewrite Hn.
Qed.

(** Successive additions to a diagram of well-formed cells, for names
    made of word characters and identifiers that the doubles of the
    source hold exactly: the components are inserted in order before the
    closing tag and receive consecutive identifiers, starting one above
    the largest identifier of the diagram, so that no identifier is
    given twice. *)
Theorem addComponent_successive :
  forall cells names,
    forallb wf_cell cells = true ->
    forallb (forallb isWordChar) names = true ->
    (N.of_nat (max_id cells + length names) < 2 ^ 53)%N ->
    add_all names (render cells)
    = with_components cells
        (combine (seq (S (max_id cells)) (length names)) names).
Proof.
  intros cells names Hwf Hn _.
  exact (add_all_components cells names [] Hwf eq_refl Hn).
Qed.

Lemma addComponent_successive_witness :
  add_all [S_ "ram"; S_ "dsp"] (render gpu_cpu)
  = with_components gpu_cpu [(5, S_ "ram"); (6, S_ "dsp")].
Proof.
  apply (addComponent_successive gpu_cpu [S_ "ram"; S_ "dsp"]);
    reflexivity.
Defined.

